(** * Maximum flow: residual network, Edmonds-Karp and Dinitz-Cherkassky

    A shallow embedding of [maxflow.hpp] and the properties of its
    residual network, of the flow extraction and of the two solvers.

    Conventions of the embedding.
    - [node_t] values and positions in a vector are [nat]; no arithmetic is
      done on them other than stepping an iterator.
    - [flow_t] values, ranks and the degree counters are 32-bit unsigned:
      they are [Z] and every addition or subtraction of the source is
      followed by [wrap32].
    - A pointer or iterator into [adjlist] is the position of the record
      in [adjlist]; a [std::span] is its pair of bounds.
    - A loop that the source does not bound runs on fuel and yields [None]
      when the fuel is used up, or when the source would dereference a
      null pointer. *)

From stdpp Require Import prelude.
From Stdlib Require Import ZArith Lia.

Definition wrap32 (z : Z) : Z := (z mod 4294967296)%Z.

(** ** Data model *)

Module CapacityArc.
Record t := mk { tail : nat; head : nat; capacity : Z }.
End CapacityArc.

Module FlowNetwork.
Record t := mk {
  n : nat; m : nat;
  source : nat; sink : nat;
  arcs : list CapacityArc.t }.
End FlowNetwork.

Module Flow.
Record t := mk { value : Z; flow_arcs : list Z }.
End Flow.

Module ResidualArc.
Record t := mk { head : nat; residual_capacity : Z; twin : nat }.

(** A value-initialised record ([twin] null, shown as position 0). *)
Definition zero : t := mk 0 0%Z 0.

Definition is_saturated (a : t) : bool := (residual_capacity a =? 0)%Z.
Definition is_residual (a : t) : bool := negb (is_saturated a).
End ResidualArc.

#[global] Instance ResidualArc_inhabited : Inhabited ResidualArc.t :=
  populate ResidualArc.zero.

Abbreviation arena := (list ResidualArc.t).

(** [tail()] reads the head of the twin. *)
Definition tail (adj : arena) (a : nat) : nat :=
  ResidualArc.head (adj !!! ResidualArc.twin (adj !!! a)).

Definition set_rc (r : ResidualArc.t) (c : Z) : ResidualArc.t :=
  ResidualArc.mk (ResidualArc.head r) c (ResidualArc.twin r).

(** [push_flow]: two sequential read-modify-write steps on the arena. *)
Definition push_flow (adj : arena) (a : nat) (flow : Z) : arena :=
  let r := adj !!! a in
  let adj1 := <[a := set_rc r (wrap32 (ResidualArc.residual_capacity r - flow))]> adj in
  let tw := ResidualArc.twin r in
  let t := adj1 !!! tw in
  <[tw := set_rc t (wrap32 (ResidualArc.residual_capacity t + flow))]> adj1.

Module ResidualNetwork.
Record t := mk {
  n : nat; m : nat;
  source : nat; sink : nat;
  adjlist : arena;
  arcs_out_span : list (nat * nat) }.

(** Positions of the records of [arcs_out(node)], in iteration order. *)
Definition arcs_out (rn : t) (node : nat) : list nat :=
  let '(b, e) := arcs_out_span rn !!! node in seq b (e - b).

Definition span_begin (rn : t) (node : nat) : nat := (arcs_out_span rn !!! node).1.
Definition span_end (rn : t) (node : nat) : nat := (arcs_out_span rn !!! node).2.

Definition with_adjlist (rn : t) (adj : arena) : t :=
  mk (n rn) (m rn) (source rn) (sink rn) adj (arcs_out_span rn).

(** First pass of the constructor: [++degree_out[u]; ++degree_out[v]]. *)
Definition bump (deg : list Z) (u : nat) : list Z :=
  <[u := wrap32 (deg !!! u + 1)]> deg.

Definition count_degree (nn : nat) (arcs : list CapacityArc.t) : list Z :=
  foldl (fun deg a => bump (bump deg (CapacityArc.tail a)) (CapacityArc.head a))
        (replicate nn 0%Z) arcs.

(** Second pass: prefix sums into [adjlist_iter] and the spans. *)
Definition place_step (deg : list Z) (st : list nat * list (nat * nat)) (u : nat)
  : list nat * list (nat * nat) :=
  let it := <[S u := st.1 !!! u + Z.to_nat (deg !!! u)]> st.1 in
  (it, <[u := (it !!! u, it !!! S u)]> st.2).

Definition place (nn : nat) (deg : list Z) : list nat * list (nat * nat) :=
  foldl (place_step deg) (replicate (S nn) 0, replicate nn (0, 0)) (seq 0 nn).

(** Third pass: write both records of an arc and step both iterators. *)
Definition fill_step (st : arena * list nat) (a : CapacityArc.t) : arena * list nat :=
  let '(adj, it) := st in
  let u := CapacityArc.tail a in
  let v := CapacityArc.head a in
  let adj1 := <[it !!! u := ResidualArc.mk v (CapacityArc.capacity a) (it !!! v)]> adj in
  let adj2 := <[it !!! v := ResidualArc.mk u 0%Z (it !!! u)]> adj1 in
  let it1 := <[u := S (it !!! u)]> it in
  let it2 := <[v := S (it1 !!! v)]> it1 in
  (adj2, it2).

Definition construct (network : FlowNetwork.t) : t :=
  let nn := FlowNetwork.n network in
  let mm := 2 * FlowNetwork.m network in
  let deg := count_degree nn (FlowNetwork.arcs network) in
  let '(it, spans) := place nn deg in
  let '(adj, _) := foldl fill_step (replicate mm ResidualArc.zero, it)
                         (FlowNetwork.arcs network) in
  mk nn mm (FlowNetwork.source network) (FlowNetwork.sink network) adj spans.
End ResidualNetwork.

(** ** Flow extraction *)

Definition get_flow_step (adj : arena) (st : list Z * list nat) (a : CapacityArc.t)
  : list Z * list nat :=
  let '(flow_arcs, current_arc) := st in
  let u := CapacityArc.tail a in
  let v := CapacityArc.head a in
  let rec := adj !!! (current_arc !!! u) in
  let flow := ResidualArc.residual_capacity (adj !!! ResidualArc.twin rec) in
  let cur1 := <[u := S (current_arc !!! u)]> current_arc in
  (flow_arcs ++ [flow], <[v := S (cur1 !!! v)]> cur1).

Definition begin_cursors (rn : ResidualNetwork.t) (cur : list nat) : list nat :=
  foldl (fun c u => <[u := ResidualNetwork.span_begin rn u]> c) cur
        (seq 0 (ResidualNetwork.n rn)).

Definition get_flow_arcs (network : FlowNetwork.t) (rnetwork : ResidualNetwork.t) : list Z :=
  let current_arc := begin_cursors rnetwork (replicate (FlowNetwork.n network) 0) in
  (foldl (get_flow_step (ResidualNetwork.adjlist rnetwork)) ([], current_arc)
         (FlowNetwork.arcs network)).1.

(** ** History of the [push_flow] calls

    The solvers below carry the list of their [push_flow] calls, each with
    the arena it was applied to.  Nothing reads the list: it is there so
    that a property of every call, or of every arena a solver goes through,
    can be stated. *)

Record push_call := PushCall { before : arena; arc : nat; amount : Z }.

Definition after (c : push_call) : arena := push_flow (before c) (arc c) (amount c).

(** ** Edmonds-Karp *)

Record bfs_state := BfsState {
  pred : list (option nat);
  bfs_ordering : list nat;
  last : nat }.

(** Body of the inner loop of [bfs_find_augmenting_path] for one arc;
    the boolean is [true] when the lambda returns [true]. *)
Definition ek_visit (rn : ResidualNetwork.t) (st : bfs_state) (a : nat) : bfs_state * bool :=
  let r := ResidualNetwork.adjlist rn !!! a in
  let h := ResidualArc.head r in
  if bool_decide (pred st !!! h = None) && ResidualArc.is_residual r
     && negb (h =? ResidualNetwork.source rn)
  then
    let pred1 := <[h := Some a]> (pred st) in
    if h =? ResidualNetwork.sink rn
    then (BfsState pred1 (bfs_ordering st) (last st), true)
    else (BfsState pred1 (<[last st := h]> (bfs_ordering st)) (S (last st)), false)
  else (st, false).

Fixpoint ek_scan (rn : ResidualNetwork.t) (out : list nat) (st : bfs_state)
  : bfs_state * bool :=
  match out with
  | [] => (st, false)
  | a :: rest =>
      let '(st1, found) := ek_visit rn st a in
      if found then (st1, true) else ek_scan rn rest st1
  end.

(** The outer loop, [u] running over the slots of [bfs_ordering]. *)
Fixpoint ek_bfs_loop (rn : ResidualNetwork.t) (slots : nat) (u : nat) (st : bfs_state)
  : bfs_state * bool :=
  match slots with
  | 0 => (st, false)
  | S k =>
      if u =? last st then (st, false)
      else
        let '(st1, found) :=
          ek_scan rn (ResidualNetwork.arcs_out rn (bfs_ordering st !!! u)) st in
        if found then (st1, true) else ek_bfs_loop rn k (S u) st1
  end.

Definition bfs_find_augmenting_path (rn : ResidualNetwork.t) (st : bfs_state)
  : bfs_state * bool :=
  ek_bfs_loop rn (length (bfs_ordering st)) 0
    (BfsState (replicate (length (pred st)) None) (bfs_ordering st) 1).

(** [for (arc = pred[sink]; arc != nullptr; arc = pred[arc->tail()])],
    first taking the minimum, then pushing. *)
Fixpoint min_along (fuel : nat) (adj : arena) (prd : list (option nat))
    (cur : option nat) (acc : Z) : option Z :=
  match cur with
  | None => Some acc
  | Some a =>
      match fuel with
      | 0 => None
      | S k =>
          min_along k adj prd (prd !!! tail adj a)
            (Z.min acc (ResidualArc.residual_capacity (adj !!! a)))
      end
  end.

Fixpoint push_along (fuel : nat) (adj : arena) (prd : list (option nat))
    (cur : option nat) (flow : Z) (hist : list push_call)
  : option (arena * list push_call) :=
  match cur with
  | None => Some (adj, hist)
  | Some a =>
      match fuel with
      | 0 => None
      | S k =>
          let adj1 := push_flow adj a flow in
          push_along k adj1 prd (prd !!! tail adj1 a) flow (hist ++ [PushCall adj a flow])
      end
  end.

Record ek_state := EkState {
  ek_rnetwork : ResidualNetwork.t;
  ek_bfs : bfs_state;
  ek_maxflow : Z;
  ek_history : list push_call }.

Fixpoint ek_loop (fuel : nat) (s : ek_state) : option ek_state :=
  match fuel with
  | 0 => None
  | S k =>
      let rn := ek_rnetwork s in
      let '(st, found) := bfs_find_augmenting_path rn (ek_bfs s) in
      if found then
        match pred st !!! ResidualNetwork.sink rn with
        | None => None
        | Some a0 =>
            let adj := ResidualNetwork.adjlist rn in
            let c0 := ResidualArc.residual_capacity (adj !!! a0) in
            match min_along k adj (pred st) (Some a0) c0 with
            | None => None
            | Some f =>
                match push_along k adj (pred st) (Some a0) f (ek_history s) with
                | None => None
                | Some (adj1, hist1) =>
                    ek_loop k (EkState (ResidualNetwork.with_adjlist rn adj1) st
                                       (wrap32 (ek_maxflow s + f)) hist1)
                end
            end
        end
      else Some (EkState rn st (ek_maxflow s) (ek_history s))
  end.

Definition ek_init (network : FlowNetwork.t) : ek_state :=
  let rn := ResidualNetwork.construct network in
  let nn := ResidualNetwork.n rn in
  EkState rn
    (BfsState (replicate nn None) (<[0 := ResidualNetwork.source rn]> (replicate nn 0)) 1)
    0%Z [].

(** The solver up to the [return]: final residual network, value, history. *)
Definition edmonds_karp_run (fuel : nat) (network : FlowNetwork.t) : option ek_state :=
  ek_loop fuel (ek_init network).

Definition edmonds_karp (fuel : nat) (network : FlowNetwork.t) : option Flow.t :=
  s ← edmonds_karp_run fuel network;
  Some (Flow.mk (ek_maxflow s) (get_flow_arcs network (ek_rnetwork s))).

(** ** Dinitz-Cherkassky *)

Module DinitzCherkassky.
Record t := mk {
  network : FlowNetwork.t;
  rnetwork : ResidualNetwork.t;
  current_arc : list nat;
  rank : list Z;
  bfs_ordering : list nat;
  history : list push_call }.

Definition Unreached : Z := 4294967295.
Definition InfiniteFlow : Z := 4294967295.

Definition construct (net : FlowNetwork.t) : t :=
  let rn := ResidualNetwork.construct net in
  let nn := FlowNetwork.n net in
  mk net rn (replicate nn 0) (replicate nn 0%Z)
     (<[0 := ResidualNetwork.sink rn]> (replicate nn 0)) [].

Definition adj (d : t) : arena := ResidualNetwork.adjlist (rnetwork d).

Definition with_current_arc (d : t) (c : list nat) : t :=
  mk (network d) (rnetwork d) c (rank d) (bfs_ordering d) (history d).

Definition reset_current_arc (d : t) : t :=
  with_current_arc d (begin_cursors (rnetwork d) (current_arc d)).

Definition step_current_arc (d : t) (u : nat) : t :=
  with_current_arc d (<[u := S (current_arc d !!! u)]> (current_arc d)).

Definition push (d : t) (a : nat) (flow : Z) : t :=
  mk (network d) (ResidualNetwork.with_adjlist (rnetwork d) (push_flow (adj d) a flow))
     (current_arc d) (rank d) (bfs_ordering d)
     (history d ++ [PushCall (adj d) a flow]).

(** [dfs_phase_loop] and its [for] loop over [current_arc[u]]. *)
Fixpoint dfs_phase_loop (fuel : nat) (u : nat) (flow : Z) (d : t) : option (Z * t) :=
  match fuel with
  | 0 => None
  | S k =>
      if (flow =? 0)%Z || (u =? ResidualNetwork.sink (rnetwork d))
      then Some (flow, d)
      else dfs_for k u flow d
  end
with dfs_for (fuel : nat) (u : nat) (flow : Z) (d : t) : option (Z * t) :=
  match fuel with
  | 0 => None
  | S k =>
      let c := current_arc d !!! u in
      if c =? ResidualNetwork.span_end (rnetwork d) u then Some (0%Z, d)
      else
        let r := adj d !!! c in
        if (rank d !!! u =? wrap32 (rank d !!! ResidualArc.head r + 1))%Z
           && ResidualArc.is_residual r
        then
          match dfs_phase_loop k (ResidualArc.head r)
                  (Z.min flow (ResidualArc.residual_capacity r)) d with
          | None => None
          | Some (df, d1) =>
              if (df >? 0)%Z then Some (df, push d1 c df)
              else dfs_for k u flow (step_current_arc d1 u)
          end
        else dfs_for k u flow (step_current_arc d u)
  end.

(** Body of the inner loop of [bfs_compute_rank] for one arc of [*u]. *)
Definition rank_visit (ad : arena) (u : nat) (st : list Z * list nat * nat) (a : nat)
  : list Z * list nat * nat :=
  let '(rk, ord, lst) := st in
  let r := ad !!! a in
  let h := ResidualArc.head r in
  if bool_decide (rk !!! h = Unreached)
     && ResidualArc.is_residual (ad !!! ResidualArc.twin r)
  then (<[h := wrap32 (rk !!! u + 1)]> rk, <[lst := h]> ord, S lst)
  else st.

Fixpoint rank_loop (rn : ResidualNetwork.t) (slots : nat) (u : nat)
    (st : list Z * list nat * nat) : list Z * list nat * nat :=
  match slots with
  | 0 => st
  | S k =>
      if u =? st.2 then st
      else
        let v := st.1.2 !!! u in
        rank_loop rn k (S u)
          (foldl (rank_visit (ResidualNetwork.adjlist rn) v) st
                 (ResidualNetwork.arcs_out rn v))
  end.

Definition bfs_compute_rank (d : t) : t * bool :=
  let rn := rnetwork d in
  let rk0 := <[ResidualNetwork.sink rn := 0%Z]> (replicate (length (rank d)) Unreached) in
  let '(rk, ord, _) :=
    rank_loop rn (length (bfs_ordering d)) 0 (rk0, bfs_ordering d, 1) in
  (mk (network d) rn (current_arc d) rk ord (history d),
   negb (rk !!! ResidualNetwork.source rn =? Unreached)%Z).

(** [for (flow_t df = InfiniteFlow; df; maxflow += df) df = dfs_phase_loop(...)]. *)
Fixpoint phase (fuel : nat) (d : t) (maxflow : Z) : option (t * Z) :=
  match fuel with
  | 0 => None
  | S k =>
      match dfs_phase_loop k (ResidualNetwork.source (rnetwork d)) InfiniteFlow d with
      | None => None
      | Some (df, d1) =>
          let maxflow1 := wrap32 (maxflow + df) in
          if (df =? 0)%Z then Some (d1, maxflow1) else phase k d1 maxflow1
      end
  end.

(** The loop of [operator()], up to the [return]. *)
Fixpoint phases (fuel : nat) (d : t) (maxflow : Z) : option (t * Z) :=
  match fuel with
  | 0 => None
  | S k =>
      let '(d1, reached) := bfs_compute_rank d in
      if reached then
        match phase k (reset_current_arc d1) maxflow with
        | None => None
        | Some (d2, maxflow2) => phases k d2 maxflow2
        end
      else Some (d1, maxflow)
  end.

Definition run (fuel : nat) (net : FlowNetwork.t) : option (t * Z) :=
  phases fuel (construct net) 0%Z.

(** [DinitzCherkassky{network}()]. *)
Definition call (fuel : nat) (net : FlowNetwork.t) : option Flow.t :=
  r ← run fuel net;
  Some (Flow.mk r.2 (get_flow_arcs net (rnetwork r.1))).
End DinitzCherkassky.

(** A run on fuel returns [r] when every large enough fuel gives [r]. *)
Definition returns {A} (run : nat -> option A) (r : A) : Prop :=
  exists k0, forall k, k0 <= k -> run k = Some r.

(** ** Valid inputs *)

Definition arc_ok (nn : nat) (a : CapacityArc.t) : Prop :=
  CapacityArc.tail a < nn ∧ CapacityArc.head a < nn ∧
  CapacityArc.tail a ≠ CapacityArc.head a ∧
  (0 ≤ CapacityArc.capacity a < 4294967296)%Z.

(** Endpoints in [0, n), source and sink distinct vertices, no self-loop,
    [m] the number of arcs, and every count within its 32-bit type. *)
Definition valid (net : FlowNetwork.t) : Prop :=
  length (FlowNetwork.arcs net) = FlowNetwork.m net ∧
  (Z.of_nat (FlowNetwork.n net) < 4294967296)%Z ∧
  (2 * Z.of_nat (FlowNetwork.m net) < 4294967296)%Z ∧
  FlowNetwork.source net < FlowNetwork.n net ∧
  FlowNetwork.sink net < FlowNetwork.n net ∧
  FlowNetwork.source net ≠ FlowNetwork.sink net ∧
  Forall (arc_ok (FlowNetwork.n net)) (FlowNetwork.arcs net).

(** ** Sums *)

Definition sumZ (l : list Z) : Z := foldr Z.add 0%Z l.

Lemma sumZ_cons x l : sumZ (x :: l) = (x + sumZ l)%Z.
Proof. done. Qed.

Lemma sumZ_app l k : sumZ (l ++ k) = (sumZ l + sumZ k)%Z.
Proof. induction l as [|x l IH]; simpl; [done | rewrite IH; lia]. Qed.

Lemma sum_list_with_add {A} (f g : A → nat) l :
  sum_list_with (λ x, f x + g x) l = sum_list_with f l + sum_list_with g l.
Proof. induction l as [|x l IH]; simpl; [done | rewrite IH; lia]. Qed.

Lemma sum_list_with_ext_in {A} (f g : A → nat) l :
  (∀ x, x ∈ l → f x = g x) → sum_list_with f l = sum_list_with g l.
Proof.
  induction l as [|x l IH]; simpl; intros H; [done|].
  rewrite H, IH; [done | | left]. intros y Hy. apply H. by right.
Qed.

Lemma sum_list_with_point (u nn : nat) :
  sum_list_with (λ x, if decide (u = x) then 1 else 0) (seq 0 nn)
  = if decide (u < nn) then 1 else 0.
Proof.
  induction nn as [|k IH]; [done|].
  rewrite seq_S, sum_list_with_app, IH. simpl.
  repeat case_decide; lia.
Qed.

(** ** Where the constructor puts the records *)

Definition incid (x : nat) (a : CapacityArc.t) : nat :=
  (if decide (CapacityArc.tail a = x) then 1 else 0)
  + (if decide (CapacityArc.head a = x) then 1 else 0).

(** Number of times [x] is an endpoint of an arc of [l]. *)
Definition occ (l : list CapacityArc.t) (x : nat) : nat := sum_list_with (incid x) l.

(** First position of the range of [x]. *)
Definition start (l : list CapacityArc.t) (x : nat) : nat :=
  sum_list_with (occ l) (seq 0 x).

Definition fwd_pos (l : list CapacityArc.t) (i : nat) (a : CapacityArc.t) : nat :=
  start l (CapacityArc.tail a) + occ (take i l) (CapacityArc.tail a).

Definition bwd_pos (l : list CapacityArc.t) (i : nat) (a : CapacityArc.t) : nat :=
  start l (CapacityArc.head a) + occ (take i l) (CapacityArc.head a).

Lemma occ_app l k x : occ (l ++ k) x = occ l x + occ k x.
Proof. apply sum_list_with_app. Qed.

Lemma occ_snoc l a x : occ (l ++ [a]) x = occ l x + incid x a.
Proof. rewrite occ_app. unfold occ at 2. simpl. lia. Qed.

Lemma incid_le x a : incid x a ≤ 2.
Proof. unfold incid. repeat case_decide; lia. Qed.

Lemma occ_le l x : occ l x ≤ 2 * length l.
Proof.
  induction l as [|a l IH]; simpl; [unfold occ; simpl; lia|].
  unfold occ in *. simpl. pose proof (incid_le x a). lia.
Qed.

Lemma occ_take_S l i a x :
  l !! i = Some a → occ (take (S i) l) x = occ (take i l) x + incid x a.
Proof. intros H. rewrite (take_S_r _ _ _ H). apply occ_snoc. Qed.

Lemma occ_take_mono l i j x : i ≤ j → occ (take i l) x ≤ occ (take j l) x.
Proof.
  intros Hij. rewrite <- (take_drop i (take j l)).
  rewrite take_take, Nat.min_l by done. rewrite occ_app. lia.
Qed.

Lemma occ_take_le l i x : occ (take i l) x ≤ occ l x.
Proof. rewrite <- (take_drop i l) at 2. rewrite occ_app. lia. Qed.

Lemma occ_take_lt l i a x :
  l !! i = Some a → 0 < incid x a → occ (take i l) x < occ l x.
Proof.
  intros H Hx. pose proof (occ_take_S l i a x H).
  pose proof (occ_take_le l (S i) x). lia.
Qed.

Lemma start_S l x : start l (S x) = start l x + occ l x.
Proof. unfold start. rewrite seq_S, sum_list_with_app. simpl. lia. Qed.

Lemma start_mono l x y : x ≤ y → start l x ≤ start l y.
Proof.
  induction 1 as [|y Hle IH]; [done|]. rewrite start_S. lia.
Qed.

Lemma start_total nn l :
  Forall (arc_ok nn) l → start l nn = 2 * length l.
Proof.
  unfold start. induction 1 as [|a l Ha Hl IH]; simpl.
  - unfold occ. simpl. induction (seq 0 nn) as [|? ? IH']; simpl; [done | by rewrite IH'].
  - rewrite (sum_list_with_ext_in _ (λ x, incid x a + occ l x)) by done.
    rewrite sum_list_with_add, IH.
    unfold incid. rewrite sum_list_with_add, !sum_list_with_point.
    destruct Ha as (Ht & Hh & _). repeat case_decide; lia.
Qed.

Lemma slot_lt nn l x p :
  Forall (arc_ok nn) l → x < nn → p < occ l x → start l x + p < 2 * length l.
Proof.
  intros Hl Hx Hp. rewrite <- (start_total nn l Hl).
  pose proof (start_mono l (S x) nn ltac:(lia)). rewrite start_S in H. lia.
Qed.

Lemma slot_inj l x p y q :
  p < occ l x → q < occ l y → start l x + p = start l y + q → x = y ∧ p = q.
Proof.
  intros Hp Hq Heq.
  destruct (Nat.lt_trichotomy x y) as [Hlt | [-> | Hlt]]; [| lia |].
  - pose proof (start_mono l (S x) y ltac:(lia)) as H. rewrite start_S in H. lia.
  - pose proof (start_mono l (S y) x ltac:(lia)) as H. rewrite start_S in H. lia.
Qed.

(** ** First pass: the degree counters *)

Lemma count_degree_spec nn l :
  Forall (arc_ok nn) l → (2 * Z.of_nat (length l) < 4294967296)%Z →
  length (ResidualNetwork.count_degree nn l) = nn ∧
  ∀ x, x < nn → ResidualNetwork.count_degree nn l !!! x = Z.of_nat (occ l x).
Proof.
  unfold ResidualNetwork.count_degree, ResidualNetwork.bump.
  induction l as [|a l IH] using rev_ind; intros Hl Hlen.
  - simpl. split; [apply length_replicate|].
    intros x Hx. by rewrite lookup_total_replicate_2.
  - rewrite Forall_app in Hl. destruct Hl as [Hl Ha]. rewrite Forall_singleton in Ha.
    rewrite length_app in Hlen. simpl in Hlen.
    destruct (IH Hl ltac:(lia)) as [IHlen IHdeg]. clear IH.
    rewrite foldl_snoc.
    destruct Ha as (Ht & Hh & Hne & _).
    split; [by rewrite !length_insert|].
    intros x Hx. rewrite occ_snoc. unfold incid.
    pose proof (occ_le l (CapacityArc.tail a)).
    pose proof (occ_le l (CapacityArc.head a)).
    destruct (decide (CapacityArc.head a = x)) as [<-|Hhx].
    + rewrite list_lookup_total_insert_eq by (rewrite length_insert; lia).
      rewrite list_lookup_total_insert_ne by done.
      rewrite IHdeg by done. rewrite decide_False by done.
      unfold wrap32. rewrite Z.mod_small by lia. lia.
    + rewrite list_lookup_total_insert_ne by done.
      destruct (decide (CapacityArc.tail a = x)) as [<-|Htx].
      * rewrite list_lookup_total_insert_eq by lia.
        rewrite IHdeg by done. unfold wrap32. rewrite Z.mod_small by lia. lia.
      * rewrite list_lookup_total_insert_ne by done. rewrite IHdeg by done. lia.
Qed.

(** ** Second pass: the iterators and the spans *)

Lemma place_spec nn l deg :
  length deg = nn → (∀ x, x < nn → deg !!! x = Z.of_nat (occ l x)) →
  let r := ResidualNetwork.place nn deg in
  length r.1 = S nn ∧ length r.2 = nn ∧
  (∀ x, x ≤ nn → r.1 !!! x = start l x) ∧
  (∀ x, x < nn → r.2 !!! x = (start l x, start l (S x))).
Proof.
  intros Hlen Hdeg. unfold ResidualNetwork.place.
  assert (∀ k, k ≤ nn →
    let r := foldl (ResidualNetwork.place_step deg)
               (replicate (S nn) 0, replicate nn (0, 0)) (seq 0 k) in
    length r.1 = S nn ∧ length r.2 = nn ∧
    (∀ x, x ≤ k → r.1 !!! x = start l x) ∧
    (∀ x, x < k → r.2 !!! x = (start l x, start l (S x)))) as Hk.
  { induction k as [|k IH]; intros Hle.
    - simpl. rewrite !length_replicate. split_and!; [done | done | | intros; lia].
      intros x Hx. assert (x = 0) as -> by lia. done.
    - destruct (IH ltac:(lia)) as (L1 & L2 & I1 & I2). clear IH.
      rewrite seq_S, foldl_snoc. simpl.
      set (r := foldl _ _ _) in *. unfold ResidualNetwork.place_step. simpl.
      rewrite !length_insert. split_and!; [done | done | |].
      + intros x Hx. destruct (decide (x = S k)) as [->|Hne].
        * rewrite list_lookup_total_insert_eq by lia.
          rewrite I1, Hdeg by lia. rewrite Nat2Z.id. by rewrite start_S.
        * rewrite list_lookup_total_insert_ne by done. apply I1. lia.
      + intros x Hx. destruct (decide (x = k)) as [->|Hne].
        * rewrite list_lookup_total_insert_eq by lia.
          rewrite list_lookup_total_insert_ne by lia.
          rewrite list_lookup_total_insert_eq by lia.
          rewrite I1, Hdeg by lia. rewrite Nat2Z.id. by rewrite start_S.
        * rewrite list_lookup_total_insert_ne by done. apply I2. lia. }
  apply (Hk nn). done.
Qed.

(** ** Third pass: the records *)

Section fill.
Context (nn : nat) (l : list CapacityArc.t).
Context (Hl : Forall (arc_ok nn) l).

Definition filled (k : nat) (st : arena * list nat) : Prop :=
  length st.1 = 2 * length l ∧ length st.2 = S nn ∧
  (∀ x, x < nn → st.2 !!! x = start l x + occ (take k l) x) ∧
  (∀ j a, j < k → l !! j = Some a →
     st.1 !!! fwd_pos l j a
       = ResidualArc.mk (CapacityArc.head a) (CapacityArc.capacity a) (bwd_pos l j a) ∧
     st.1 !!! bwd_pos l j a
       = ResidualArc.mk (CapacityArc.tail a) 0%Z (fwd_pos l j a)).

Lemma arc_ok_lookup j a : l !! j = Some a → arc_ok nn a.
Proof. intros H. eapply Forall_lookup_1; eauto. Qed.

Lemma incid_tail a : arc_ok nn a → incid (CapacityArc.tail a) a = 1.
Proof. intros (_ & _ & Hne & _). unfold incid. repeat case_decide; congruence || lia. Qed.

Lemma incid_head a : arc_ok nn a → incid (CapacityArc.head a) a = 1.
Proof. intros (_ & _ & Hne & _). unfold incid. repeat case_decide; congruence || lia. Qed.

Lemma fwd_pos_lt j a : l !! j = Some a → fwd_pos l j a < 2 * length l.
Proof.
  intros H. pose proof (arc_ok_lookup j a H) as Ha.
  apply (slot_lt nn); [done | apply Ha |].
  eapply occ_take_lt; [done|]. rewrite incid_tail; [lia | done].
Qed.

Lemma bwd_pos_lt j a : l !! j = Some a → bwd_pos l j a < 2 * length l.
Proof.
  intros H. pose proof (arc_ok_lookup j a H) as Ha.
  apply (slot_lt nn); [done | apply Ha |].
  eapply occ_take_lt; [done|]. rewrite incid_head; [lia | done].
Qed.

Lemma fwd_bwd_ne i a j b :
  l !! i = Some a → l !! j = Some b → fwd_pos l i a ≠ bwd_pos l j b.
Proof.
  intros Hi Hj Heq. pose proof (arc_ok_lookup i a Hi) as Ha.
  pose proof (arc_ok_lookup j b Hj) as Hb.
  apply slot_inj in Heq as [Hx Hp].
  - destruct (Nat.lt_trichotomy i j) as [Hlt | [-> | Hlt]].
    + pose proof (occ_take_S l i a (CapacityArc.tail a) Hi) as H1.
      rewrite incid_tail in H1 by done.
      pose proof (occ_take_mono l (S i) j (CapacityArc.tail a) ltac:(lia)).
      rewrite Hx in *. lia.
    + rewrite Hi in Hj. injection Hj as ->. destruct Hb as (_ & _ & Hne & _). done.
    + pose proof (occ_take_S l j b (CapacityArc.head b) Hj) as H1.
      rewrite incid_head in H1 by done.
      pose proof (occ_take_mono l (S j) i (CapacityArc.head b) ltac:(lia)).
      rewrite <- Hx in *. lia.
  - eapply occ_take_lt; [done|]. rewrite incid_tail; [lia | done].
  - eapply occ_take_lt; [done|]. rewrite incid_head; [lia | done].
Qed.

Lemma fwd_pos_inj i a j b :
  l !! i = Some a → l !! j = Some b → fwd_pos l i a = fwd_pos l j b → i = j.
Proof.
  intros Hi Hj Heq. pose proof (arc_ok_lookup i a Hi) as Ha.
  pose proof (arc_ok_lookup j b Hj) as Hb.
  apply slot_inj in Heq as [Hx Hp].
  - destruct (Nat.lt_trichotomy i j) as [Hlt | [-> | Hlt]]; [|done|].
    + pose proof (occ_take_S l i a (CapacityArc.tail a) Hi) as H1.
      rewrite incid_tail in H1 by done.
      pose proof (occ_take_mono l (S i) j (CapacityArc.tail a) ltac:(lia)).
      rewrite Hx in *. lia.
    + pose proof (occ_take_S l j b (CapacityArc.tail b) Hj) as H1.
      rewrite incid_tail in H1 by done.
      pose proof (occ_take_mono l (S j) i (CapacityArc.tail b) ltac:(lia)).
      rewrite <- Hx in *. lia.
  - eapply occ_take_lt; [done|]. rewrite incid_tail; [lia | done].
  - eapply occ_take_lt; [done|]. rewrite incid_tail; [lia | done].
Qed.

Lemma bwd_pos_inj i a j b :
  l !! i = Some a → l !! j = Some b → bwd_pos l i a = bwd_pos l j b → i = j.
Proof.
  intros Hi Hj Heq. pose proof (arc_ok_lookup i a Hi) as Ha.
  pose proof (arc_ok_lookup j b Hj) as Hb.
  apply slot_inj in Heq as [Hx Hp].
  - destruct (Nat.lt_trichotomy i j) as [Hlt | [-> | Hlt]]; [|done|].
    + pose proof (occ_take_S l i a (CapacityArc.head a) Hi) as H1.
      rewrite incid_head in H1 by done.
      pose proof (occ_take_mono l (S i) j (CapacityArc.head a) ltac:(lia)).
      rewrite Hx in *. lia.
    + pose proof (occ_take_S l j b (CapacityArc.head b) Hj) as H1.
      rewrite incid_head in H1 by done.
      pose proof (occ_take_mono l (S j) i (CapacityArc.head b) ltac:(lia)).
      rewrite <- Hx in *. lia.
  - eapply occ_take_lt; [done|]. rewrite incid_head; [lia | done].
  - eapply occ_take_lt; [done|]. rewrite incid_head; [lia | done].
Qed.

Lemma fill_step_filled k a st :
  l !! k = Some a → filled k st → filled (S k) (ResidualNetwork.fill_step st a).
Proof.
  intros Hk (L1 & L2 & Hit & Hrec). destruct st as [adj it]. simpl in *.
  pose proof (arc_ok_lookup k a Hk) as Ha.
  destruct Ha as (Ht & Hh & Hne & Hc).
  assert (it !!! CapacityArc.tail a = fwd_pos l k a) as Eu by (by rewrite Hit).
  assert (it !!! CapacityArc.head a = bwd_pos l k a) as Ev by (by rewrite Hit).
  pose proof (fwd_pos_lt k a Hk) as Hfl. pose proof (bwd_pos_lt k a Hk) as Hbl.
  pose proof (fwd_bwd_ne k a k a Hk Hk) as Hfb.
  unfold filled. simpl. rewrite Eu, Ev.
  rewrite !length_insert. split_and!; [done | done | |].
  - intros x Hx. rewrite (occ_take_S l k a x Hk). unfold incid.
    destruct (decide (CapacityArc.head a = x)) as [<-|Hhx].
    + rewrite list_lookup_total_insert_eq by (rewrite length_insert; lia).
      rewrite list_lookup_total_insert_ne by done.
      rewrite decide_False by done. rewrite Hit by done. lia.
    + rewrite list_lookup_total_insert_ne by done.
      destruct (decide (CapacityArc.tail a = x)) as [<-|Htx].
      * rewrite list_lookup_total_insert_eq by lia. unfold fwd_pos. lia.
      * rewrite list_lookup_total_insert_ne by done. rewrite Hit by done. lia.
  - intros j b Hj Hb.
    destruct (decide (j = k)) as [->|Hjk].
    + rewrite Hk in Hb. injection Hb as <-.
      rewrite list_lookup_total_insert_ne by (intros E; by symmetry in E).
      rewrite list_lookup_total_insert_eq by lia. split; [done|].
      by rewrite list_lookup_total_insert_eq by (rewrite length_insert; lia).
    + destruct (Hrec j b ltac:(lia) Hb) as [R1 R2].
      rewrite !list_lookup_total_insert_ne; [done | ..]; intros E;
        first [ apply (fwd_pos_inj k a j b) in E; done
              | apply (bwd_pos_inj k a j b) in E; done
              | by apply (fwd_bwd_ne k a j b) in E
              | symmetry in E; by apply (fwd_bwd_ne j b k a) in E ].
Qed.

Lemma fill_filled it0 k :
  length it0 = S nn → (∀ x, x ≤ nn → it0 !!! x = start l x) → k ≤ length l →
  filled k (foldl ResidualNetwork.fill_step
              (replicate (2 * length l) ResidualArc.zero, it0) (take k l)).
Proof.
  intros L0 H0. induction k as [|k IH]; intros Hk.
  - rewrite take_0. simpl. unfold filled. simpl.
    rewrite length_replicate. split_and!; [done | done | | intros; lia].
    intros x Hx. rewrite H0 by lia. unfold occ. simpl. lia.
  - destruct (lookup_lt_is_Some_2 l k ltac:(lia)) as [a Ha].
    rewrite (take_S_r _ _ _ Ha), foldl_snoc.
    apply fill_step_filled; [done|]. apply IH. lia.
Qed.
End fill.

(** Every position below [start l nn] lies in the range of one vertex. *)
Lemma start_find l nn p :
  p < start l nn → ∃ x, x < nn ∧ start l x ≤ p < start l (S x).
Proof.
  induction nn as [|k IH]; intros Hp; [unfold start in Hp; simpl in Hp; lia|].
  destruct (decide (p < start l k)) as [Hlt|Hge].
  - destruct (IH Hlt) as (x & Hx & Hr). exists x. split; [lia | done].
  - exists k. split; [lia|]. lia.
Qed.

(** The [q]-th occurrence of [x] in [l] is an endpoint of some arc of [l]. *)
Lemma incid_le_1 nn x a : arc_ok nn a → incid x a ≤ 1.
Proof. intros (_ & _ & Hne & _). unfold incid. repeat case_decide; congruence || lia. Qed.

Lemma occ_find nn l x q k :
  Forall (arc_ok nn) l →
  q < occ (take k l) x →
  ∃ j a, j < k ∧ l !! j = Some a ∧ 0 < incid x a ∧ occ (take j l) x = q.
Proof.
  intros Hl. induction k as [|k IH]; intros Hq.
  - rewrite take_0 in Hq. unfold occ in Hq. simpl in Hq. lia.
  - destruct (l !! k) as [a|] eqn:Ha.
    + rewrite (occ_take_S l k a x Ha) in Hq.
      destruct (decide (q < occ (take k l) x)) as [Hlt|Hge].
      * destruct (IH Hlt) as (j & b & Hj & Hb & Hi & Ho).
        exists j, b. split_and!; [lia | done..].
      * pose proof (incid_le_1 nn x a (Forall_lookup_1 _ _ _ _ Hl Ha)).
        exists k, a. split_and!; [lia | done | lia | lia].
    + apply lookup_ge_None in Ha.
      rewrite take_ge in Hq by lia. rewrite <- (take_ge l k) in Hq by lia.
      destruct (IH Hq) as (j & b & Hj & Hb & Hi & Ho).
      exists j, b. split_and!; [lia | done..].
Qed.

Lemma pos_find nn l p :
  Forall (arc_ok nn) l → p < 2 * length l →
  ∃ j a, l !! j = Some a ∧ (p = fwd_pos l j a ∨ p = bwd_pos l j a).
Proof.
  intros Hl Hp. rewrite <- (start_total nn l Hl) in Hp.
  destruct (start_find l nn p Hp) as (x & Hx & Hr).
  rewrite start_S in Hr.
  destruct (occ_find nn l x (p - start l x) (length l) Hl)
    as (j & a & Hj & Ha & Hi & Ho).
  { rewrite take_ge by lia. lia. }
  exists j, a. split; [done|]. unfold incid in Hi. unfold fwd_pos, bwd_pos.
  destruct (decide (CapacityArc.tail a = x)) as [->|]; [left; lia|].
  destruct (decide (CapacityArc.head a = x)) as [->|]; [right; lia | lia].
Qed.

(** ** The constructor, on a valid network *)

Lemma construct_spec net :
  valid net →
  let rn := ResidualNetwork.construct net in
  let l := FlowNetwork.arcs net in
  ResidualNetwork.n rn = FlowNetwork.n net ∧
  ResidualNetwork.m rn = 2 * FlowNetwork.m net ∧
  ResidualNetwork.source rn = FlowNetwork.source net ∧
  ResidualNetwork.sink rn = FlowNetwork.sink net ∧
  length (ResidualNetwork.arcs_out_span rn) = FlowNetwork.n net ∧
  (∀ x, x < FlowNetwork.n net →
     ResidualNetwork.arcs_out_span rn !!! x = (start l x, start l (S x))) ∧
  length (ResidualNetwork.adjlist rn) = 2 * FlowNetwork.m net ∧
  (∀ j a, l !! j = Some a →
     ResidualNetwork.adjlist rn !!! fwd_pos l j a
       = ResidualArc.mk (CapacityArc.head a) (CapacityArc.capacity a) (bwd_pos l j a) ∧
     ResidualNetwork.adjlist rn !!! bwd_pos l j a
       = ResidualArc.mk (CapacityArc.tail a) 0%Z (fwd_pos l j a)).
Proof.
  intros (Hm & Hn & H2m & Hs & Ht & Hst & Hl). simpl.
  unfold ResidualNetwork.construct.
  destruct (count_degree_spec _ _ Hl ltac:(lia)) as [Dlen Ddeg].
  pose proof (place_spec _ (FlowNetwork.arcs net) _ Dlen Ddeg) as P. simpl in P.
  destruct (ResidualNetwork.place _ _) as [it spans]. simpl in P.
  destruct P as (P1 & P2 & P3 & P4).
  pose proof (fill_filled _ _ Hl it (length (FlowNetwork.arcs net)) P1 P3 ltac:(lia)) as F.
  rewrite take_ge in F by lia. rewrite Hm in F.
  destruct (foldl _ _ _) as [adj it']. simpl.
  destruct F as (F1 & F2 & F3 & F4). simpl in *.
  split_and!; try done. 
  - lia.
  - intros j a Ha. apply F4; [|done]. apply lookup_lt_Some in Ha. lia.
Qed.

(** ** The residual network as a graph *)

Abbreviation hd adj a := (ResidualArc.head (adj !!! a)).
Abbreviation tw adj a := (ResidualArc.twin (adj !!! a)).
Abbreviation rc adj a := (ResidualArc.residual_capacity (adj !!! a)).

Import ResidualNetwork.

Definition in_span (rn : ResidualNetwork.t) (u a : nat) : Prop :=
  span_begin rn u ≤ a < span_end rn u.

Lemma arcs_out_seq rn u :
  arcs_out rn u = seq (span_begin rn u) (span_end rn u - span_begin rn u).
Proof. unfold arcs_out, span_begin, span_end. by destruct (_ !!! u). Qed.

Lemma elem_of_arcs_out rn u a : a ∈ arcs_out rn u ↔ in_span rn u a.
Proof. rewrite arcs_out_seq, elem_of_seq. unfold in_span. lia. Qed.

Lemma NoDup_arcs_out rn u : NoDup (arcs_out rn u).
Proof. rewrite arcs_out_seq. apply NoDup_seq. Qed.

(** What the solvers rely on: the records of a vertex are the arcs leaving
    it, twins are mutual and run the other way, no residual capacity is
    negative and the two of a pair add up to less than 2^32. *)
Record wf (rn : ResidualNetwork.t) : Prop := Wf {
  wf_len : length (adjlist rn) = m rn;
  wf_spans : length (arcs_out_span rn) = n rn;
  wf_n : (Z.of_nat (n rn) < 4294967296)%Z;
  wf_source : source rn < n rn;
  wf_sink : sink rn < n rn;
  wf_st : source rn ≠ sink rn;
  wf_span_le : ∀ u, u < n rn → span_begin rn u ≤ span_end rn u;
  wf_in : ∀ u a, u < n rn → in_span rn u a → a < m rn ∧ tail (adjlist rn) a = u;
  wf_out : ∀ a, a < m rn →
    tail (adjlist rn) a < n rn ∧ in_span rn (tail (adjlist rn) a) a;
  wf_head : ∀ a, a < m rn → hd (adjlist rn) a < n rn;
  wf_twin : ∀ a, a < m rn →
    tw (adjlist rn) a < m rn ∧ tw (adjlist rn) (tw (adjlist rn) a) = a ∧
    hd (adjlist rn) a ≠ tail (adjlist rn) a;
  wf_rc : ∀ a, a < m rn →
    (0 ≤ rc (adjlist rn) a)%Z ∧
    (rc (adjlist rn) a + rc (adjlist rn) (tw (adjlist rn) a) < 4294967296)%Z }.

(** [rn] is [rn0] after some flow was moved inside the pairs. *)
Record evolves (rn0 rn : ResidualNetwork.t) : Prop := Evolves {
  ev_n : n rn = n rn0;
  ev_m : m rn = m rn0;
  ev_source : source rn = source rn0;
  ev_sink : sink rn = sink rn0;
  ev_spans : arcs_out_span rn = arcs_out_span rn0;
  ev_len : length (adjlist rn) = length (adjlist rn0);
  ev_hd : ∀ a, hd (adjlist rn) a = hd (adjlist rn0) a;
  ev_tw : ∀ a, tw (adjlist rn) a = tw (adjlist rn0) a;
  ev_sum : ∀ a, a < m rn0 →
    (rc (adjlist rn) a + rc (adjlist rn) (tw (adjlist rn) a)
     = rc (adjlist rn0) a + rc (adjlist rn0) (tw (adjlist rn0) a))%Z }.

Lemma evolves_refl rn : evolves rn rn.
Proof. by constructor. Qed.

Lemma evolves_trans rn0 rn1 rn2 : evolves rn0 rn1 → evolves rn1 rn2 → evolves rn0 rn2.
Proof.
  intros E1 E2. constructor.
  - by rewrite (ev_n _ _ E2), (ev_n _ _ E1).
  - by rewrite (ev_m _ _ E2), (ev_m _ _ E1).
  - by rewrite (ev_source _ _ E2), (ev_source _ _ E1).
  - by rewrite (ev_sink _ _ E2), (ev_sink _ _ E1).
  - by rewrite (ev_spans _ _ E2), (ev_spans _ _ E1).
  - by rewrite (ev_len _ _ E2), (ev_len _ _ E1).
  - intros a. by rewrite (ev_hd _ _ E2), (ev_hd _ _ E1).
  - intros a. by rewrite (ev_tw _ _ E2), (ev_tw _ _ E1).
  - intros a Ha. rewrite (ev_sum _ _ E2) by (rewrite (ev_m _ _ E1); lia).
    by apply (ev_sum _ _ E1).
Qed.

Lemma evolves_tail rn0 rn a :
  evolves rn0 rn → tail (adjlist rn) a = tail (adjlist rn0) a.
Proof. intros E. unfold tail. by rewrite (ev_tw _ _ E), (ev_hd _ _ E). Qed.

Lemma evolves_arcs_out rn0 rn u : evolves rn0 rn → arcs_out rn u = arcs_out rn0 u.
Proof. intros E. unfold arcs_out. by rewrite (ev_spans _ _ E). Qed.

Lemma evolves_span_begin rn0 rn u : evolves rn0 rn → span_begin rn u = span_begin rn0 u.
Proof. intros E. unfold span_begin. by rewrite (ev_spans _ _ E). Qed.

Lemma evolves_span_end rn0 rn u : evolves rn0 rn → span_end rn u = span_end rn0 u.
Proof. intros E. unfold span_end. by rewrite (ev_spans _ _ E). Qed.

Lemma wf_twin_ne rn a : wf rn → a < m rn → tw (adjlist rn) a ≠ a.
Proof.
  intros W Ha E. destruct (wf_twin _ W a Ha) as (_ & _ & Hne).
  unfold tail in Hne. by rewrite E in Hne.
Qed.

Lemma wf_tail_twin rn a :
  wf rn → a < m rn → tail (adjlist rn) (tw (adjlist rn) a) = hd (adjlist rn) a.
Proof.
  intros W Ha. destruct (wf_twin _ W a Ha) as (_ & E & _). unfold tail. by rewrite E.
Qed.

Lemma wf_arcs_out rn u a :
  wf rn → u < n rn → a ∈ arcs_out rn u → a < m rn ∧ tail (adjlist rn) a = u.
Proof. intros W Hu Ha. apply (wf_in _ W); [done|]. by apply elem_of_arcs_out. Qed.

Lemma wf_arcs_out_iff rn u a :
  wf rn → u < n rn → a < m rn → a ∈ arcs_out rn u ↔ tail (adjlist rn) a = u.
Proof.
  intros W Hu Ha. split.
  - intros H. by apply (wf_arcs_out rn u a W Hu).
  - intros <-. apply elem_of_arcs_out. by apply (wf_out _ W).
Qed.

(** ** [push_flow] on the arena *)

Lemma set_rc_insert_lookup (l : arena) i c b :
  <[i := set_rc (l !!! i) c]> l !!! b
  = if decide (b = i ∧ i < length l) then set_rc (l !!! i) c else l !!! b.
Proof.
  rewrite list_lookup_total_insert.
  repeat case_decide; try done; naive_solver.
Qed.

Lemma push_flow_length adj a f : length (push_flow adj a f) = length adj.
Proof. unfold push_flow. by rewrite !length_insert. Qed.

Lemma push_flow_hd adj a f b : hd (push_flow adj a f) b = hd adj b.
Proof.
  unfold push_flow. rewrite !set_rc_insert_lookup.
  repeat case_decide; simpl; try done; destruct_and?; congruence.
Qed.

Lemma push_flow_tw adj a f b : tw (push_flow adj a f) b = tw adj b.
Proof.
  unfold push_flow. rewrite !set_rc_insert_lookup.
  repeat case_decide; simpl; try done; destruct_and?; congruence.
Qed.

Lemma push_flow_tail adj a f b : tail (push_flow adj a f) b = tail adj b.
Proof. unfold tail. by rewrite push_flow_tw, push_flow_hd. Qed.

Lemma push_flow_rc adj a f b :
  a < length adj → tw adj a < length adj → tw adj a ≠ a →
  rc (push_flow adj a f) b
  = if decide (b = a) then wrap32 (rc adj a - f)
    else if decide (b = tw adj a) then wrap32 (rc adj (tw adj a) + f)
    else rc adj b.
Proof.
  intros Ha Ht Hne. unfold push_flow. rewrite !set_rc_insert_lookup.
  rewrite !length_insert.
  repeat case_decide; simpl; try done; destruct_and?; subst; try done; naive_solver.
Qed.

(** A push of at most the residual capacity does not wrap. *)
Lemma push_flow_rc_exact rn a f b :
  wf rn → a < m rn → (0 ≤ f ≤ rc (adjlist rn) a)%Z →
  rc (push_flow (adjlist rn) a f) b
  = if decide (b = a) then (rc (adjlist rn) a - f)%Z
    else if decide (b = tw (adjlist rn) a) then (rc (adjlist rn) (tw (adjlist rn) a) + f)%Z
    else rc (adjlist rn) b.
Proof.
  intros W Ha Hf.
  destruct (wf_twin _ W a Ha) as (Ht & _ & _).
  pose proof (wf_twin_ne _ a W Ha) as Hne.
  destruct (wf_rc _ W a Ha) as [R1 R2].
  destruct (wf_rc _ W _ Ht) as [R3 _].
  rewrite push_flow_rc by (rewrite ?(wf_len _ W); done).
  unfold wrap32. repeat case_decide; try done; rewrite Z.mod_small; lia.
Qed.

Lemma push_flow_wf rn a f :
  wf rn → a < m rn → (0 ≤ f ≤ rc (adjlist rn) a)%Z →
  wf (with_adjlist rn (push_flow (adjlist rn) a f)) ∧
  evolves rn (with_adjlist rn (push_flow (adjlist rn) a f)).
Proof.
  intros W Ha Hf.
  pose proof (push_flow_rc_exact rn a f) as RC.
  destruct (wf_twin _ W a Ha) as (Ht & Htt & _).
  pose proof (wf_twin_ne _ a W Ha) as Hne.
  assert (∀ b, b < m rn →
    (rc (push_flow (adjlist rn) a f) b
     + rc (push_flow (adjlist rn) a f) (tw (adjlist rn) b)
     = rc (adjlist rn) b + rc (adjlist rn) (tw (adjlist rn) b))%Z) as Hsum.
  { intros b Hb. rewrite !RC by done.
    destruct (wf_twin _ W b Hb) as (Hbt & Hbtt & _).
    repeat case_decide; subst; rewrite ?Htt; try lia; try congruence. }
  split.
  - destruct W. constructor; simpl; try done.
    + by rewrite push_flow_length.
    + intros u b. rewrite push_flow_tail. apply wf_in0.
    + intros b. rewrite push_flow_tail. apply wf_out0.
    + intros b. rewrite push_flow_hd. apply wf_head0.
    + intros b. rewrite !push_flow_tw, push_flow_hd, push_flow_tail. apply wf_twin0.
    + intros b Hb. rewrite push_flow_tw, Hsum by done.
      split; [|by apply wf_rc0].
      rewrite RC by (done || by constructor).
      destruct (wf_rc0 b Hb) as [? _]. destruct (wf_rc0 _ Ht) as [? _].
      repeat case_decide; subst; lia.
  - constructor; simpl; try done.
    + by rewrite push_flow_length.
    + intros b. apply push_flow_hd.
    + intros b. apply push_flow_tw.
    + intros b Hb. rewrite push_flow_tw. by apply Hsum.
Qed.

(** ** Flow leaving a vertex, read off the residual capacities *)

(** Capacity used up on the records [out], with respect to the arena [adj0]. *)
Definition used (adj0 adj : arena) (out : list nat) : Z :=
  sumZ ((λ a, rc adj0 a - rc adj a)%Z <$> out).

(** Net flow leaving [x] in [rn], the flow being zero in [rn0]. *)
Definition net_out (rn0 rn : ResidualNetwork.t) (x : nat) : Z :=
  used (adjlist rn0) (adjlist rn) (arcs_out rn0 x).

Lemma sumZ_fmap_ext {A} (g g' : A → Z) (l : list A) :
  (∀ b, b ∈ l → g' b = g b) → sumZ (g' <$> l) = sumZ (g <$> l).
Proof.
  induction l as [|x l IH]; intros H; [done|].
  rewrite !fmap_cons, !sumZ_cons.
  rewrite H, IH; [done | | left]. intros b Hb. apply H. by right.
Qed.

Lemma sumZ_fmap_upd (g g' : nat → Z) (l : list nat) (a : nat) (δ : Z) :
  NoDup l → (∀ b, b ≠ a → g' b = g b) → g' a = (g a + δ)%Z →
  sumZ (g' <$> l) = (sumZ (g <$> l) + if decide (a ∈ l) then δ else 0)%Z.
Proof.
  intros Hnd Hother Ha. induction l as [|x l IH].
  - rewrite decide_False by apply not_elem_of_nil. simpl. lia.
  - apply NoDup_cons in Hnd as [Hx Hnd]. rewrite !fmap_cons, !sumZ_cons, (IH Hnd).
    destruct (decide (x = a)) as [->|Hxa].
    + rewrite Ha. rewrite (decide_True (P := a ∈ a :: l)) by left.
      rewrite decide_False by done. lia.
    + rewrite Hother by done.
      destruct (decide (a ∈ l)) as [Hin|Hin].
      * rewrite decide_True by (by right). lia.
      * rewrite decide_False; [lia|]. intros [?|?]%elem_of_cons; congruence.
Qed.

Lemma push_flow_net_out rn0 rn a f x :
  wf rn → evolves rn0 rn → a < m rn → (0 ≤ f ≤ rc (adjlist rn) a)%Z → x < n rn →
  net_out rn0 (with_adjlist rn (push_flow (adjlist rn) a f)) x
  = (net_out rn0 rn x
     + (if decide (x = tail (adjlist rn) a) then f else 0)
     - (if decide (x = hd (adjlist rn) a) then f else 0))%Z.
Proof.
  intros W E Ha Hf Hx. unfold net_out, used. simpl.
  pose proof (push_flow_rc_exact rn a f) as RC.
  destruct (wf_twin _ W a Ha) as (Ht & Htt & _).
  pose proof (wf_twin_ne _ a W Ha) as Hne.
  set (g := λ b, (rc (adjlist rn0) b - rc (adjlist rn) b)%Z).
  set (g1 := λ b, if decide (b = a) then (g b + f)%Z else g b).
  rewrite (sumZ_fmap_upd g1 _ _ (tw (adjlist rn) a) (- f)%Z).
  - rewrite (sumZ_fmap_upd g g1 _ a f).
    + rewrite <- (evolves_arcs_out rn0 rn x E).
      assert (a ∈ arcs_out rn x ↔ x = tail (adjlist rn) a) as Ea.
      { rewrite wf_arcs_out_iff by done. naive_solver. }
      assert (tw (adjlist rn) a ∈ arcs_out rn x ↔ x = hd (adjlist rn) a) as Et.
      { rewrite wf_arcs_out_iff by done. rewrite wf_tail_twin by done. naive_solver. }
      repeat case_decide; try lia; naive_solver.
    + apply NoDup_arcs_out.
    + intros b Hb. unfold g1. by rewrite decide_False.
    + unfold g1. by rewrite decide_True.
  - apply NoDup_arcs_out.
  - intros b Hb. unfold g1, g. rewrite RC by done.
    repeat case_decide; subst; try done; lia.
  - unfold g1, g. rewrite RC by done.
    repeat case_decide; try congruence; lia.
Qed.

(** ** The constructed network is well formed *)

Lemma range_unique l x y p :
  start l x ≤ p < start l (S x) → start l y ≤ p < start l (S y) → x = y.
Proof.
  intros Hx Hy.
  destruct (Nat.lt_trichotomy x y) as [Hlt | [-> | Hlt]]; [| done |].
  - pose proof (start_mono l (S x) y ltac:(lia)). lia.
  - pose proof (start_mono l (S y) x ltac:(lia)). lia.
Qed.

Section constructed.
Context (net : FlowNetwork.t) (Hv : valid net).
Local Abbreviation l := (FlowNetwork.arcs net).
Local Abbreviation rn0 := (construct net).

Lemma valid_arcs : Forall (arc_ok (FlowNetwork.n net)) l.
Proof. apply Hv. Qed.

Lemma valid_arc j a : l !! j = Some a → arc_ok (FlowNetwork.n net) a.
Proof. intros H. eapply Forall_lookup_1; [apply valid_arcs | done]. Qed.

Lemma construct_n : n rn0 = FlowNetwork.n net.
Proof. apply (construct_spec net Hv). Qed.

Lemma construct_m : m rn0 = 2 * FlowNetwork.m net.
Proof. apply (construct_spec net Hv). Qed.

Lemma construct_m_len : m rn0 = 2 * length l.
Proof. rewrite construct_m. destruct Hv as [-> _]. done. Qed.

Lemma construct_source : source rn0 = FlowNetwork.source net.
Proof. apply (construct_spec net Hv). Qed.

Lemma construct_sink : sink rn0 = FlowNetwork.sink net.
Proof. apply (construct_spec net Hv). Qed.

Lemma construct_span_begin x :
  x < FlowNetwork.n net → span_begin rn0 x = start l x.
Proof.
  intros Hx. unfold span_begin.
  destruct (construct_spec net Hv) as (_ & _ & _ & _ & _ & S & _).
  by rewrite S.
Qed.

Lemma construct_span_end x :
  x < FlowNetwork.n net → span_end rn0 x = start l (S x).
Proof.
  intros Hx. unfold span_end.
  destruct (construct_spec net Hv) as (_ & _ & _ & _ & _ & S & _).
  by rewrite S.
Qed.

Lemma construct_fwd j a :
  l !! j = Some a →
  adjlist rn0 !!! fwd_pos l j a
  = ResidualArc.mk (CapacityArc.head a) (CapacityArc.capacity a) (bwd_pos l j a).
Proof. intros H. by apply (construct_spec net Hv). Qed.

Lemma construct_bwd j a :
  l !! j = Some a →
  adjlist rn0 !!! bwd_pos l j a
  = ResidualArc.mk (CapacityArc.tail a) 0%Z (fwd_pos l j a).
Proof. intros H. by apply (construct_spec net Hv). Qed.

Lemma fwd_in_span j a :
  l !! j = Some a → in_span rn0 (CapacityArc.tail a) (fwd_pos l j a).
Proof.
  intros H. destruct (valid_arc j a H) as (Ht & Hh & Hne & Hc).
  unfold in_span. rewrite construct_span_begin, construct_span_end by done.
  rewrite start_S. unfold fwd_pos.
  pose proof (occ_take_lt l j a (CapacityArc.tail a) H).
  rewrite (incid_tail _ a (valid_arc j a H)) in H0. lia.
Qed.

Lemma bwd_in_span j a :
  l !! j = Some a → in_span rn0 (CapacityArc.head a) (bwd_pos l j a).
Proof.
  intros H. destruct (valid_arc j a H) as (Ht & Hh & Hne & Hc).
  unfold in_span. rewrite construct_span_begin, construct_span_end by done.
  rewrite start_S. unfold bwd_pos.
  pose proof (occ_take_lt l j a (CapacityArc.head a) H).
  rewrite (incid_head _ a (valid_arc j a H)) in H0. lia.
Qed.

Lemma construct_find p :
  p < m rn0 → ∃ j a, l !! j = Some a ∧ (p = fwd_pos l j a ∨ p = bwd_pos l j a).
Proof.
  intros Hp. rewrite construct_m_len in Hp.
  by apply (pos_find (FlowNetwork.n net)); [apply valid_arcs|].
Qed.

Lemma in_span_unique u v p :
  u < FlowNetwork.n net → v < FlowNetwork.n net →
  in_span rn0 u p → in_span rn0 v p → u = v.
Proof.
  unfold in_span. intros Hu Hv'.
  rewrite !construct_span_begin, !construct_span_end by done.
  apply range_unique.
Qed.

Lemma construct_wf : wf rn0.
Proof.
  pose proof Hv as (Hm & Hn & H2m & Hs & Ht & Hst & Hl).
  pose proof (construct_spec net Hv) as (Sn & Sm & Ss & St & Sl & Sp & Al & Ar).
  simpl in Sn, Sm, Ss, St, Sl, Sp, Al, Ar.
  assert (∀ a, a < m rn0 →
    tail (adjlist rn0) a < n rn0 ∧ in_span rn0 (tail (adjlist rn0) a) a ∧
    hd (adjlist rn0) a < n rn0 ∧
    tw (adjlist rn0) a < m rn0 ∧ tw (adjlist rn0) (tw (adjlist rn0) a) = a ∧
    hd (adjlist rn0) a ≠ tail (adjlist rn0) a ∧
    (0 ≤ rc (adjlist rn0) a)%Z ∧
    (rc (adjlist rn0) a + rc (adjlist rn0) (tw (adjlist rn0) a) < 4294967296)%Z) as K.
  { intros a Ha. destruct (construct_find a Ha) as (j & a0 & Hj & [->| ->]);
      pose proof (construct_fwd j a0 Hj) as F;
      pose proof (construct_bwd j a0 Hj) as B;
      pose proof (fwd_in_span j a0 Hj) as FS;
      pose proof (bwd_in_span j a0 Hj) as BS;
      destruct (valid_arc j a0 Hj) as (V1 & V2 & V3 & V4);
      pose proof (fwd_pos_lt _ l valid_arcs j a0 Hj);
      pose proof (bwd_pos_lt _ l valid_arcs j a0 Hj);
      unfold tail; rewrite ?F, ?B; simpl; rewrite ?F, ?B; simpl;
      rewrite Sn, construct_m_len; split_and!; try done; try lia. }
  constructor; try done; try lia.
  - intros u Hu. rewrite Sn in Hu.
    rewrite construct_span_begin, construct_span_end by done.
    apply start_mono. lia.
  - intros u a Hu Ha. rewrite Sn in Hu.
    assert (a < m rn0) as Hlt.
    { unfold in_span in Ha. rewrite construct_span_end in Ha by done.
      pose proof (start_mono l (S u) (FlowNetwork.n net) ltac:(lia)).
      rewrite (start_total _ l valid_arcs) in H. rewrite construct_m_len. lia. }
    split; [done|].
    destruct (K a Hlt) as (K1 & K2 & _). rewrite Sn in K1.
    by apply (in_span_unique _ u a).
  - intros a Ha. destruct (K a Ha) as (K1 & K2 & _). done.
  - intros a Ha. by apply K.
  - intros a Ha. destruct (K a Ha) as (_ & _ & _ & K4 & K5 & K6 & _). done.
  - intros a Ha. destruct (K a Ha) as (_ & _ & _ & _ & _ & _ & K7 & K8). done.
Qed.
End constructed.

(** ** Flow extraction *)

Lemma begin_cursors_spec rn cur :
  length cur = n rn →
  length (begin_cursors rn cur) = n rn ∧
  ∀ x, x < n rn → begin_cursors rn cur !!! x = span_begin rn x.
Proof.
  intros Hlen. unfold begin_cursors.
  assert (∀ k, k ≤ n rn →
    let c := foldl (λ c u, <[u := span_begin rn u]> c) cur (seq 0 k) in
    length c = n rn ∧ ∀ x, x < k → c !!! x = span_begin rn x) as H.
  { induction k as [|k IH]; intros Hk.
    - simpl. split; [done | intros; lia].
    - destruct (IH ltac:(lia)) as [L I]. rewrite seq_S, foldl_snoc. cbv zeta in *.
      simpl plus. rewrite length_insert. split; [done|]. intros x Hx.
      destruct (decide (x = k)) as [->|Hne].
      + by rewrite list_lookup_total_insert_eq by lia.
      + rewrite list_lookup_total_insert_ne by done. apply I. lia. }
  by apply (H (n rn)).
Qed.

(** State of the loop of [get_flow_arcs] after [k] arcs. *)
Definition extraction (net : FlowNetwork.t) (rn : ResidualNetwork.t) (k : nat)
  : list Z * list nat :=
  foldl (get_flow_step (adjlist rn))
        ([], begin_cursors rn (replicate (FlowNetwork.n net) 0))
        (take k (FlowNetwork.arcs net)).

Lemma get_flow_arcs_extraction net rn :
  get_flow_arcs net rn = (extraction net rn (length (FlowNetwork.arcs net))).1.
Proof. unfold get_flow_arcs, extraction. by rewrite take_ge. Qed.

Section extraction.
Context (net : FlowNetwork.t) (Hv : valid net).
Context (rn : ResidualNetwork.t) (He : evolves (construct net) rn).
Local Abbreviation l := (FlowNetwork.arcs net).
Local Abbreviation rn0 := (construct net).

Lemma evolved_fwd_twin j a :
  l !! j = Some a → tw (adjlist rn) (fwd_pos l j a) = bwd_pos l j a.
Proof. intros H. by rewrite (ev_tw _ _ He), (construct_fwd net Hv j a H). Qed.

Lemma evolved_bwd_twin j a :
  l !! j = Some a → tw (adjlist rn) (bwd_pos l j a) = fwd_pos l j a.
Proof. intros H. by rewrite (ev_tw _ _ He), (construct_bwd net Hv j a H). Qed.

Lemma evolved_fwd_head j a :
  l !! j = Some a → hd (adjlist rn) (fwd_pos l j a) = CapacityArc.head a.
Proof. intros H. by rewrite (ev_hd _ _ He), (construct_fwd net Hv j a H). Qed.

Lemma evolved_bwd_head j a :
  l !! j = Some a → hd (adjlist rn) (bwd_pos l j a) = CapacityArc.tail a.
Proof. intros H. by rewrite (ev_hd _ _ He), (construct_bwd net Hv j a H). Qed.

Lemma evolved_pair_sum j a :
  l !! j = Some a →
  (rc (adjlist rn) (fwd_pos l j a) + rc (adjlist rn) (bwd_pos l j a)
   = CapacityArc.capacity a)%Z.
Proof.
  intros H. pose proof (ev_sum _ _ He (fwd_pos l j a)) as S.
  rewrite (evolved_fwd_twin j a H) in S. rewrite S.
  - rewrite (construct_fwd net Hv j a H). simpl.
    rewrite (construct_bwd net Hv j a H). simpl. lia.
  - rewrite (construct_m_len net Hv).
    apply (fwd_pos_lt _ l (valid_arcs net Hv) j a H).
Qed.

Lemma extraction_inv k :
  k ≤ length l →
  (extraction net rn k).1 = imap (λ j a, rc (adjlist rn) (bwd_pos l j a)) (take k l) ∧
  length (extraction net rn k).2 = FlowNetwork.n net ∧
  ∀ x, x < FlowNetwork.n net →
    (extraction net rn k).2 !!! x = start l x + occ (take k l) x.
Proof.
  unfold extraction. induction k as [|k IH]; intros Hk.
  - rewrite take_0. simpl.
    assert (n rn = FlowNetwork.n net) as En
      by (rewrite (ev_n _ _ He); apply (construct_n net Hv)).
    destruct (begin_cursors_spec rn (replicate (FlowNetwork.n net) 0)) as [L I].
    { by rewrite length_replicate. }
    split_and!; [done | congruence |].
    intros x Hx. rewrite I by lia.
    rewrite (evolves_span_begin _ _ _ He), (construct_span_begin net Hv) by done.
    unfold occ. simpl. lia.
  - destruct (IH ltac:(lia)) as (I1 & I2 & I3). clear IH.
    destruct (lookup_lt_is_Some_2 l k ltac:(lia)) as [a Ha].
    rewrite (take_S_r _ _ _ Ha), foldl_snoc.
    destruct (foldl _ _ (take k l)) as [fa cur]. simpl in *.
    destruct (valid_arc net Hv k a Ha) as (Ht & Hh & Hne & Hc).
    rewrite !length_insert. split_and!; [| done |].
    + rewrite imap_app. simpl. rewrite length_take, Nat.min_l, Nat.add_0_r by lia.
      rewrite I1. f_equal. f_equal.
      rewrite I3 by done. fold (fwd_pos l k a).
      by rewrite (evolved_fwd_twin k a Ha).
    + intros x Hx. rewrite occ_snoc. unfold incid.
      destruct (decide (CapacityArc.head a = x)) as [<-|Hhx].
      * rewrite list_lookup_total_insert_eq by (rewrite length_insert; lia).
        rewrite list_lookup_total_insert_ne by done.
        rewrite decide_False by done. rewrite I3 by done. lia.
      * rewrite list_lookup_total_insert_ne by done.
        destruct (decide (CapacityArc.tail a = x)) as [<-|Htx].
        -- rewrite list_lookup_total_insert_eq by lia. rewrite I3 by done. lia.
        -- rewrite list_lookup_total_insert_ne by done. rewrite I3 by done. lia.
Qed.

Lemma get_flow_arcs_spec :
  get_flow_arcs net rn = imap (λ j a, rc (adjlist rn) (bwd_pos l j a)) l.
Proof.
  rewrite get_flow_arcs_extraction.
  destruct (extraction_inv (length l)) as (I & _); [done|].
  by rewrite I, take_ge.
Qed.

Lemma get_flow_arcs_length : length (get_flow_arcs net rn) = length l.
Proof. by rewrite get_flow_arcs_spec, length_imap. Qed.

Lemma get_flow_arcs_lookup j a :
  l !! j = Some a → get_flow_arcs net rn !!! j = rc (adjlist rn) (bwd_pos l j a).
Proof.
  intros H. apply list_lookup_total_correct.
  by rewrite get_flow_arcs_spec, list_lookup_imap, H.
Qed.
End extraction.

(** ** Flows on the arcs of the network *)

#[global] Instance CapacityArc_inhabited : Inhabited CapacityArc.t :=
  populate (CapacityArc.mk 0 0 0%Z).

(** Sum of [w j a] over the arcs [a] of [l], [j] the index of [a]. *)
Definition arc_sum (l : list CapacityArc.t) (w : nat → CapacityArc.t → Z) : Z :=
  sumZ (imap w l).

Definition outflow (l : list CapacityArc.t) (g : list Z) (x : nat) : Z :=
  arc_sum l (λ j a, if decide (CapacityArc.tail a = x) then g !!! j else 0%Z).

Definition inflow (l : list CapacityArc.t) (g : list Z) (x : nat) : Z :=
  arc_sum l (λ j a, if decide (CapacityArc.head a = x) then g !!! j else 0%Z).

(** A flow of the network: within the capacities, conserved at every
    vertex but the source and the sink. *)
Definition feasible (net : FlowNetwork.t) (g : list Z) : Prop :=
  length g = length (FlowNetwork.arcs net) ∧
  (∀ j a, FlowNetwork.arcs net !! j = Some a →
     (0 ≤ g !!! j ≤ CapacityArc.capacity a)%Z) ∧
  (∀ x, x < FlowNetwork.n net →
     x ≠ FlowNetwork.source net → x ≠ FlowNetwork.sink net →
     inflow (FlowNetwork.arcs net) g x = outflow (FlowNetwork.arcs net) g x).

Definition flow_value (net : FlowNetwork.t) (g : list Z) : Z :=
  (outflow (FlowNetwork.arcs net) g (FlowNetwork.source net)
   - inflow (FlowNetwork.arcs net) g (FlowNetwork.source net))%Z.

Definition is_max_flow_value (net : FlowNetwork.t) (v : Z) : Prop :=
  (∃ g, feasible net g ∧ flow_value net g = v) ∧
  (∀ g, feasible net g → (flow_value net g ≤ v)%Z).

Lemma arc_sum_snoc l a w : arc_sum (l ++ [a]) w = (arc_sum l w + w (length l) a)%Z.
Proof.
  unfold arc_sum. rewrite imap_app, sumZ_app. simpl.
  rewrite Nat.add_0_r. lia.
Qed.

Lemma arc_sum_nil w : arc_sum [] w = 0%Z.
Proof. done. Qed.

Lemma arc_sum_ext l w w' :
  (∀ j a, l !! j = Some a → w j a = w' j a) → arc_sum l w = arc_sum l w'.
Proof. intros H. unfold arc_sum. f_equal. by apply imap_ext. Qed.

Lemma arc_sum_le l w w' :
  (∀ j a, l !! j = Some a → (w j a ≤ w' j a)%Z) → (arc_sum l w ≤ arc_sum l w')%Z.
Proof.
  induction l as [|a l IH] using rev_ind; intros H; [done|].
  rewrite !arc_sum_snoc.
  assert (w (length l) a ≤ w' (length l) a)%Z.
  { apply H. rewrite lookup_app_r by lia. by rewrite Nat.sub_diag. }
  assert (arc_sum l w ≤ arc_sum l w')%Z; [|lia].
  apply IH. intros j b Hj. apply H. by apply lookup_app_l_Some.
Qed.

Lemma arc_sum_add l w w' :
  arc_sum l (λ j a, w j a + w' j a)%Z = (arc_sum l w + arc_sum l w')%Z.
Proof.
  induction l as [|a l IH] using rev_ind; [done|].
  rewrite !arc_sum_snoc, IH. lia.
Qed.

Lemma arc_sum_sub l w w' :
  arc_sum l (λ j a, w j a - w' j a)%Z = (arc_sum l w - arc_sum l w')%Z.
Proof.
  induction l as [|a l IH] using rev_ind; [done|].
  rewrite !arc_sum_snoc, IH. lia.
Qed.

(** ** The flow read off a residual network *)

Section arena_flow.
Context (net : FlowNetwork.t) (Hv : valid net).
Context (rn : ResidualNetwork.t) (He : evolves (construct net) rn).
Local Abbreviation l := (FlowNetwork.arcs net).
Local Abbreviation rn0 := (construct net).

(** Summing over the first records of the range of [x] is summing over
    the first arcs that have [x] as an endpoint. *)
Lemma span_sum_prefix (g : nat → Z) x k :
  k ≤ length l →
  sumZ (g <$> seq (start l x) (occ (take k l) x))
  = arc_sum (take k l) (λ j a,
      (if decide (CapacityArc.tail a = x) then g (fwd_pos l j a) else 0)
      + (if decide (CapacityArc.head a = x) then g (bwd_pos l j a) else 0))%Z.
Proof.
  induction k as [|k IH]; intros Hk.
  - rewrite take_0. done.
  - destruct (lookup_lt_is_Some_2 l k ltac:(lia)) as [a Ha].
    rewrite (occ_take_S l k a x Ha). rewrite (take_S_r _ _ _ Ha).
    rewrite arc_sum_snoc, <- IH by lia.
    rewrite length_take, Nat.min_l by lia.
    rewrite seq_app, fmap_app, sumZ_app. f_equal.
    destruct (valid_arc net Hv k a Ha) as (Ht & Hh & Hne & Hc).
    unfold incid, fwd_pos, bwd_pos.
    repeat case_decide; subst; simpl; try lia; congruence.
Qed.

Lemma net_out_arcs x :
  x < FlowNetwork.n net →
  net_out rn0 rn x = (outflow l (get_flow_arcs net rn) x
                      - inflow l (get_flow_arcs net rn) x)%Z.
Proof.
  intros Hx. unfold net_out, used. rewrite arcs_out_seq.
  rewrite (construct_span_begin net Hv), (construct_span_end net Hv) by done.
  rewrite start_S.
  replace (start l x + occ l x - start l x) with (occ (take (length l) l) x)
    by (rewrite take_ge by lia; lia).
  rewrite span_sum_prefix by done. rewrite take_ge by done.
  unfold outflow, inflow. rewrite <- arc_sum_sub.
  apply arc_sum_ext. intros j a Ha.
  rewrite (get_flow_arcs_lookup net Hv rn He j a Ha).
  pose proof (evolved_pair_sum net Hv rn He j a Ha) as S.
  rewrite (construct_fwd net Hv j a Ha), (construct_bwd net Hv j a Ha). simpl.
  repeat case_decide; lia.
Qed.
End arena_flow.

(** ** Cuts *)

Lemma sumZ_point (w : nat → Z) (u nn : nat) :
  sumZ ((λ x, if decide (u = x) then w x else 0%Z) <$> seq 0 nn)
  = if decide (u < nn) then w u else 0%Z.
Proof.
  induction nn as [|k IH]; [done|].
  rewrite seq_S, fmap_app, sumZ_app, IH. simpl.
  repeat case_decide; subst; lia.
Qed.

Lemma sumZ_fmap_add {A} (f g : A → Z) (l : list A) :
  sumZ ((λ x, f x + g x)%Z <$> l) = (sumZ (f <$> l) + sumZ (g <$> l))%Z.
Proof. induction l as [|x l IH]; [done|]. rewrite !fmap_cons, !sumZ_cons, IH. lia. Qed.

Lemma sumZ_fmap_zero {A} (l : list A) : sumZ ((λ _, 0%Z) <$> l) = 0%Z.
Proof. induction l as [|x l IH]; [done|]. rewrite !fmap_cons, !sumZ_cons, IH. lia. Qed.

Definition ind (b : bool) : Z := if b then 1%Z else 0%Z.

(** Summing the net outflow over a set of vertices counts every arc
    leaving the set and discounts every arc entering it. *)
Lemma side_sum nn (l : list CapacityArc.t) (g : list Z) (S : nat → bool) :
  Forall (arc_ok nn) l →
  sumZ ((λ x, if S x then (outflow l g x - inflow l g x)%Z else 0%Z) <$> seq 0 nn)
  = arc_sum l (λ j a, g !!! j * (ind (S (CapacityArc.tail a)) - ind (S (CapacityArc.head a))))%Z.
Proof.
  induction l as [|a l IH] using rev_ind; intros Hl.
  - unfold outflow, inflow. rewrite !arc_sum_nil.
    rewrite (sumZ_fmap_ext (λ _, 0%Z)); [apply sumZ_fmap_zero|].
    intros b _. by destruct (S b).
  - rewrite Forall_app, Forall_singleton in Hl. destruct Hl as [Hl (Ht & Hh & _)].
    rewrite arc_sum_snoc, <- (IH Hl). clear IH.
    set (k := length l).
    rewrite (sumZ_fmap_ext
      (λ x, (if S x then (outflow l g x - inflow l g x)%Z else 0%Z)
            + ((if decide (CapacityArc.tail a = x) then g !!! k * ind (S x) else 0)
               + (if decide (CapacityArc.head a = x) then - (g !!! k * ind (S x)) else 0)))%Z).
    + rewrite !sumZ_fmap_add, !sumZ_point.
      rewrite !decide_True by done. lia.
    + intros x _. unfold outflow, inflow. rewrite !arc_sum_snoc. fold k.
      unfold ind. destruct (S x); repeat case_decide; lia.
Qed.

Lemma sumZ_single (h : nat → Z) (l : list nat) (s : nat) :
  NoDup l → s ∈ l → (∀ x, x ∈ l → x ≠ s → h x = 0%Z) → sumZ (h <$> l) = h s.
Proof.
  induction l as [|y l IH]; intros Hnd Hs H0.
  - by apply elem_of_nil in Hs.
  - apply NoDup_cons in Hnd as [Hy Hnd]. rewrite fmap_cons, sumZ_cons.
    destruct (decide (y = s)) as [->|Hne].
    + rewrite (sumZ_fmap_ext (λ _, 0%Z)); [rewrite sumZ_fmap_zero; lia|].
      intros b Hb. apply H0; [by right | congruence].
    + rewrite IH; [| done | | ].
      * rewrite H0; [lia | by left | done].
      * apply elem_of_cons in Hs as [?|?]; [congruence | done].
      * intros x Hx. apply H0. by right.
Qed.

Definition cut_capacity (net : FlowNetwork.t) (S : nat → bool) : Z :=
  arc_sum (FlowNetwork.arcs net) (λ _ a,
    if S (CapacityArc.tail a) && negb (S (CapacityArc.head a))
    then CapacityArc.capacity a else 0%Z).

Section cut.
Context (net : FlowNetwork.t) (Hv : valid net).
Context (S : nat → bool).
Context (HSs : S (FlowNetwork.source net) = true).
Context (HSt : S (FlowNetwork.sink net) = false).
Local Abbreviation l := (FlowNetwork.arcs net).

Lemma flow_value_side g :
  feasible net g →
  flow_value net g
  = arc_sum l (λ j a,
      g !!! j * (ind (S (CapacityArc.tail a)) - ind (S (CapacityArc.head a))))%Z.
Proof.
  intros (Hlen & Hcap & Hcons).
  rewrite <- (side_sum (FlowNetwork.n net)) by apply Hv.
  rewrite (sumZ_single _ _ (FlowNetwork.source net)).
  - by rewrite HSs.
  - apply NoDup_seq.
  - apply elem_of_seq. destruct Hv as (_ & _ & _ & ? & _). lia.
  - intros x Hx Hne. destruct (S x) eqn:E; [|done].
    rewrite Hcons; [lia | | done |].
    + apply elem_of_seq in Hx. lia.
    + intros ->. congruence.
Qed.

Lemma flow_value_le_cut g :
  feasible net g → (flow_value net g ≤ cut_capacity net S)%Z.
Proof.
  intros Hg. rewrite (flow_value_side g Hg). apply arc_sum_le.
  intros j a Ha. destruct Hg as (_ & Hcap & _). specialize (Hcap j a Ha).
  unfold ind. destruct (S (CapacityArc.tail a)), (S (CapacityArc.head a)); simpl; lia.
Qed.

Lemma flow_value_eq_cut g :
  feasible net g →
  (∀ j a, l !! j = Some a →
     S (CapacityArc.tail a) = true → S (CapacityArc.head a) = false →
     g !!! j = CapacityArc.capacity a) →
  (∀ j a, l !! j = Some a →
     S (CapacityArc.tail a) = false → S (CapacityArc.head a) = true →
     g !!! j = 0%Z) →
  flow_value net g = cut_capacity net S.
Proof.
  intros Hg Hsat Hzero. rewrite (flow_value_side g Hg). apply arc_sum_ext.
  intros j a Ha. specialize (Hsat j a Ha). specialize (Hzero j a Ha).
  unfold ind. destruct (S (CapacityArc.tail a)), (S (CapacityArc.head a)); simpl;
    first [lia | rewrite Hsat by done; lia | rewrite Hzero by done; lia].
Qed.

(** A flow that fills the arcs leaving the side of the source and leaves
    empty the arcs entering it has the largest value. *)
Lemma saturated_cut_max g :
  feasible net g →
  (∀ j a, l !! j = Some a →
     S (CapacityArc.tail a) = true → S (CapacityArc.head a) = false →
     g !!! j = CapacityArc.capacity a) →
  (∀ j a, l !! j = Some a →
     S (CapacityArc.tail a) = false → S (CapacityArc.head a) = true →
     g !!! j = 0%Z) →
  is_max_flow_value net (flow_value net g).
Proof.
  intros Hg Hsat Hzero. split; [by exists g|].
  intros g' Hg'. rewrite (flow_value_eq_cut g Hg Hsat Hzero).
  by apply flow_value_le_cut.
Qed.
End cut.

Lemma is_max_flow_value_unique net v w :
  is_max_flow_value net v → is_max_flow_value net w → v = w.
Proof.
  intros [(g & Hg & <-) Hv] [(g' & Hg' & <-) Hw].
  specialize (Hv g' Hg'). specialize (Hw g Hg). lia.
Qed.

(** ** From the residual network to a maximum flow *)

(** No vertex but the source and the sink keeps or creates flow. *)
Definition conserving (rn0 rn : ResidualNetwork.t) : Prop :=
  ∀ x, x < n rn0 → x ≠ source rn0 → x ≠ sink rn0 → net_out rn0 rn x = 0%Z.

(** No arc with residual capacity leaves the side [S]. *)
Definition closed_side (rn : ResidualNetwork.t) (S : nat → bool) : Prop :=
  ∀ a, a < m rn → S (tail (adjlist rn) a) = true →
       rc (adjlist rn) a ≠ 0%Z → S (hd (adjlist rn) a) = true.

Section solved.
Context (net : FlowNetwork.t) (Hv : valid net).
Context (rn : ResidualNetwork.t).
Context (He : evolves (construct net) rn) (Hw : wf rn).
Context (Hc : conserving (construct net) rn).
Local Abbreviation l := (FlowNetwork.arcs net).
Local Abbreviation rn0 := (construct net).

Lemma evolved_m : m rn = 2 * length l.
Proof. rewrite (ev_m _ _ He). apply (construct_m_len net Hv). Qed.

Lemma evolved_fwd_lt j a : l !! j = Some a → fwd_pos l j a < m rn.
Proof. intros H. rewrite evolved_m. apply (fwd_pos_lt _ l (valid_arcs net Hv) j a H). Qed.

Lemma evolved_bwd_lt j a : l !! j = Some a → bwd_pos l j a < m rn.
Proof. intros H. rewrite evolved_m. apply (bwd_pos_lt _ l (valid_arcs net Hv) j a H). Qed.

Lemma extracted_bounds j a :
  l !! j = Some a →
  (0 ≤ get_flow_arcs net rn !!! j ≤ CapacityArc.capacity a)%Z.
Proof.
  intros H. rewrite (get_flow_arcs_lookup net Hv rn He j a H).
  pose proof (evolved_pair_sum net Hv rn He j a H).
  destruct (wf_rc _ Hw _ (evolved_fwd_lt j a H)) as [? _].
  destruct (wf_rc _ Hw _ (evolved_bwd_lt j a H)) as [? _]. lia.
Qed.

Lemma extracted_conserved x :
  x < FlowNetwork.n net → x ≠ FlowNetwork.source net → x ≠ FlowNetwork.sink net →
  inflow l (get_flow_arcs net rn) x = outflow l (get_flow_arcs net rn) x.
Proof.
  intros Hx Hs Ht. pose proof (net_out_arcs net Hv rn He x Hx) as E.
  rewrite Hc in E; [lia | | |].
  - by rewrite (construct_n net Hv).
  - by rewrite (construct_source net Hv).
  - by rewrite (construct_sink net Hv).
Qed.

Lemma extracted_feasible : feasible net (get_flow_arcs net rn).
Proof.
  split_and!.
  - apply (get_flow_arcs_length net Hv rn He).
  - apply extracted_bounds.
  - apply extracted_conserved.
Qed.

Lemma extracted_value :
  flow_value net (get_flow_arcs net rn) = net_out rn0 rn (FlowNetwork.source net).
Proof.
  unfold flow_value. rewrite (net_out_arcs net Hv rn He); [done|]. apply Hv.
Qed.

Lemma extracted_max (S : nat → bool) :
  S (FlowNetwork.source net) = true → S (FlowNetwork.sink net) = false →
  closed_side rn S →
  is_max_flow_value net (net_out rn0 rn (FlowNetwork.source net)).
Proof.
  intros HSs HSt Hcl. rewrite <- extracted_value.
  apply (saturated_cut_max net Hv S HSs HSt); [apply extracted_feasible | |].
  - intros j a Ha H1 H2. rewrite (get_flow_arcs_lookup net Hv rn He j a Ha).
    pose proof (evolved_pair_sum net Hv rn He j a Ha) as Hsum.
    destruct (decide (rc (adjlist rn) (fwd_pos l j a) = 0%Z)) as [E|E]; [lia|].
    specialize (Hcl _ (evolved_fwd_lt j a Ha)).
    unfold tail in Hcl.
    rewrite (evolved_fwd_twin net Hv rn He j a Ha) in Hcl.
    rewrite (evolved_bwd_head net Hv rn He j a Ha) in Hcl.
    rewrite (evolved_fwd_head net Hv rn He j a Ha) in Hcl.
    specialize (Hcl H1 E). congruence.
  - intros j a Ha H1 H2. rewrite (get_flow_arcs_lookup net Hv rn He j a Ha).
    destruct (decide (rc (adjlist rn) (bwd_pos l j a) = 0%Z)) as [E|E]; [lia|].
    specialize (Hcl _ (evolved_bwd_lt j a Ha)).
    unfold tail in Hcl.
    rewrite (evolved_bwd_twin net Hv rn He j a Ha) in Hcl.
    rewrite (evolved_fwd_head net Hv rn He j a Ha) in Hcl.
    rewrite (evolved_bwd_head net Hv rn He j a Ha) in Hcl.
    specialize (Hcl H2 E). congruence.
Qed.
End solved.

Lemma is_residual_spec r :
  ResidualArc.is_residual r = true ↔ ResidualArc.residual_capacity r ≠ 0%Z.
Proof.
  unfold ResidualArc.is_residual, ResidualArc.is_saturated.
  destruct (Z.eqb_spec (ResidualArc.residual_capacity r) 0); simpl; split; congruence.
Qed.

Lemma is_residual_false r :
  ResidualArc.is_residual r = false ↔ ResidualArc.residual_capacity r = 0%Z.
Proof.
  unfold ResidualArc.is_residual, ResidualArc.is_saturated.
  destruct (Z.eqb_spec (ResidualArc.residual_capacity r) 0); simpl; split; congruence.
Qed.

(** Distinct vertices below [nn] are at most [nn]. *)
Lemma NoDup_bounded_length (l : list nat) nn :
  NoDup l → (∀ x, x ∈ l → x < nn) → length l ≤ nn.
Proof.
  intros Hnd Hlt. assert (l ⊆+ seq 0 nn) as H.
  { apply NoDup_submseteq; [done|].
    intros x Hx. apply elem_of_seq. specialize (Hlt x Hx). lia. }
  apply submseteq_length in H. by rewrite length_seq in H.
Qed.

Lemma take_S_insert {A} (l : list A) k x :
  k < length l → take (S k) (<[k := x]> l) = take k l ++ [x].
Proof.
  intros Hk. rewrite (take_S_r _ _ x).
  - by rewrite take_insert_ge by lia.
  - by apply list_lookup_insert_eq.
Qed.

(** ** Predecessor chains *)

(** [linked rn prd y p]: following [prd] from [y] back to the source
    goes through the arcs [p], the first of them entering [y]. *)
Inductive linked (rn : ResidualNetwork.t) (prd : list (option nat))
  : nat → list nat → Prop :=
| linked_source :
    prd !!! source rn = None → linked rn prd (source rn) []
| linked_step y a p :
    y ≠ source rn → prd !!! y = Some a → a < m rn →
    hd (adjlist rn) a = y → linked rn prd (tail (adjlist rn) a) p →
    linked rn prd y (a :: p).

Lemma linked_det rn prd y p p' : linked rn prd y p → linked rn prd y p' → p = p'.
Proof.
  intros H. revert p'. induction H as [Hs | y a p Hy Ha Hlt Hh Hl IH]; intros p' H'.
  - inversion H'; subst; [done | congruence].
  - inversion H' as [|y' a' p'' Hy' Ha' Hlt' Hh' Hl']; subst; [congruence|].
    assert (a' = a) as -> by congruence. f_equal. by apply IH.
Qed.

Lemma linked_update rn prd y p w a :
  linked rn prd y p → prd !!! w = None → w ≠ source rn →
  linked rn (<[w := Some a]> prd) y p.
Proof.
  intros H Hw Hws. induction H as [Hs | y b p Hy Hb Hlt Hh Hl IH].
  - apply linked_source. by rewrite list_lookup_total_insert_ne.
  - apply linked_step; try done.
    rewrite list_lookup_total_insert_ne; [done|]. intros ->. congruence.
Qed.

Lemma linked_evolves rn rn' prd y p :
  evolves rn rn' → linked rn prd y p → linked rn' prd y p.
Proof.
  intros E H. induction H as [Hs | y b p Hy Hb Hlt Hh Hl IH].
  - rewrite <- (ev_source _ _ E). apply linked_source. by rewrite (ev_source _ _ E).
  - apply linked_step.
    + by rewrite (ev_source _ _ E).
    + done.
    + by rewrite (ev_m _ _ E).
    + by rewrite (ev_hd _ _ E).
    + by rewrite (evolves_tail _ _ _ E).
Qed.

(** Every arc of a chain starts a chain of its own. *)
Lemma linked_suffix rn prd y p b :
  linked rn prd y p → b ∈ p →
  ∃ p', length p' < length p ∧ linked rn prd (tail (adjlist rn) b) p' ∧
        linked rn prd (hd (adjlist rn) b) (b :: p').
Proof.
  intros H. induction H as [Hs | y a p Hy Ha Hlt Hh Hl IH]; intros Hb.
  - by apply elem_of_nil in Hb.
  - apply elem_of_cons in Hb as [->|Hb].
    + exists p. split_and!; [simpl; lia | done |].
      rewrite Hh. by apply linked_step.
    + destruct (IH Hb) as (p' & Hlen & H1 & H2).
      exists p'. split_and!; [simpl; lia | done | done].
Qed.

(** The arcs of a chain are distinct and none is the twin of another. *)
Lemma linked_indep rn prd y a p b :
  wf rn → linked rn prd y (a :: p) → b ∈ p → b ≠ a ∧ b ≠ tw (adjlist rn) a.
Proof.
  intros W H Hb.
  inversion H as [|y' a' p'' Hy Ha Hlt Hh Hl]; subst.
  destruct (linked_suffix _ _ _ _ b Hl Hb) as (p' & Hlen & H1 & H2).
  split.
  - intros ->. pose proof (linked_det _ _ _ _ _ H H2) as E.
    injection E as ->. lia.
  - intros ->. rewrite (wf_tail_twin _ _ W Hlt) in H1.
    pose proof (linked_det _ _ _ _ _ H H1) as E.
    rewrite <- E in Hlen. simpl in Hlen. lia.
Qed.

(** ** The breadth-first search of Edmonds-Karp *)

Section ek_bfs.
Context (rn : ResidualNetwork.t) (W : wf rn).
Local Abbreviation adj := (adjlist rn).

Definition queue (st : bfs_state) : list nat := take (last st) (bfs_ordering st).

Record bfs_inv (st : bfs_state) : Prop := BfsInv {
  bi_pred_len : length (pred st) = n rn;
  bi_ord_len : length (bfs_ordering st) = n rn;
  bi_last : 1 ≤ last st ≤ n rn;
  bi_first : bfs_ordering st !!! 0 = source rn;
  bi_nodup : NoDup (queue st);
  bi_lt : ∀ v, v ∈ queue st → v < n rn;
  bi_visited : ∀ v, v < n rn →
    (v ∈ queue st ↔ v = source rn ∨ pred st !!! v ≠ None);
  bi_source : pred st !!! source rn = None;
  bi_sink : pred st !!! sink rn = None;
  bi_pred : ∀ v a, pred st !!! v = Some a → a < m rn ∧ rc adj a ≠ 0%Z;
  bi_linked : ∀ v, v ∈ queue st → ∃ p, linked rn (pred st) v p }.

Record bfs_found (st : bfs_state) : Prop := BfsFound {
  bf_pred_len : length (pred st) = n rn;
  bf_ord_len : length (bfs_ordering st) = n rn;
  bf_first : bfs_ordering st !!! 0 = source rn;
  bf_path : ∃ p, linked rn (pred st) (sink rn) p;
  bf_pred : ∀ v a, pred st !!! v = Some a → a < m rn ∧ rc adj a ≠ 0%Z }.

(** The queue only grows. *)
Definition extends (st st' : bfs_state) : Prop :=
  last st ≤ last st' ∧
  (∀ v, v ∈ queue st → v ∈ queue st') ∧
  (∀ i, i < last st → bfs_ordering st' !!! i = bfs_ordering st !!! i).

Lemma extends_refl st : extends st st.
Proof. by split_and!. Qed.

Lemma extends_trans st1 st2 st3 : extends st1 st2 → extends st2 st3 → extends st1 st3.
Proof.
  intros (L1 & Q1 & O1) (L2 & Q2 & O2). split_and!; [lia | auto |].
  intros i Hi. rewrite O2 by lia. by apply O1.
Qed.

Lemma queue_length st : bfs_inv st → length (queue st) = last st.
Proof.
  intros I. unfold queue. rewrite length_take.
  pose proof (bi_last _ I). pose proof (bi_ord_len _ I). lia.
Qed.

Lemma queue_lookup st i :
  bfs_inv st → i < last st → bfs_ordering st !!! i ∈ queue st.
Proof.
  intros I Hi. unfold queue. apply elem_of_take. exists i. split; [|done].
  apply list_lookup_lookup_total_lt.
  pose proof (bi_last _ I). pose proof (bi_ord_len _ I). lia.
Qed.

Lemma queue_elem st v :
  bfs_inv st → v ∈ queue st → ∃ i, i < last st ∧ bfs_ordering st !!! i = v.
Proof.
  intros I Hv. unfold queue in Hv. apply elem_of_take in Hv as (i & Hi & Hlt).
  exists i. split; [done|]. by apply list_lookup_total_correct.
Qed.

Lemma ek_visit_spec st u a :
  bfs_inv st → u ∈ queue st → a ∈ arcs_out rn u →
  match ek_visit rn st a with
  | (st', true) => bfs_found st'
  | (st', false) =>
      bfs_inv st' ∧ extends st st' ∧ (rc adj a ≠ 0%Z → hd adj a ∈ queue st')
  end.
Proof.
  intros I Hu Ha.
  pose proof (bi_lt _ I u Hu) as Hun.
  destruct (wf_arcs_out rn u a W Hun Ha) as [Hlt Htail].
  pose proof (wf_head _ W a Hlt) as Hh.
  unfold ek_visit.
  destruct (bool_decide (pred st !!! hd adj a = None)) eqn:E1; simpl.
  2: { split_and!; [done | apply extends_refl |]. intros _.
       apply bool_decide_eq_false in E1.
       apply (bi_visited _ I); [done | by right]. }
  apply bool_decide_eq_true in E1.
  destruct (ResidualArc.is_residual (adj !!! a)) eqn:E2; simpl.
  2: { split_and!; [done | apply extends_refl |]. intros Hrc.
       apply is_residual_false in E2. done. }
  apply is_residual_spec in E2.
  destruct (Nat.eqb_spec (hd adj a) (source rn)) as [E3|E3]; simpl.
  { split_and!; [done | apply extends_refl |]. intros _.
    apply (bi_visited _ I); [done | by left]. }
  destruct (bi_linked _ I u Hu) as [p Hp].
  assert (linked rn (<[hd adj a := Some a]> (pred st)) (hd adj a) (a :: p)) as Hnew.
  { apply linked_step; try done.
    - apply list_lookup_total_insert_eq. by rewrite (bi_pred_len _ I).
    - rewrite Htail. by apply linked_update. }
  assert (∀ v b, <[hd adj a := Some a]> (pred st) !!! v = Some b →
                 b < m rn ∧ rc adj b ≠ 0%Z) as Hpred.
  { intros v b. destruct (decide (v = hd adj a)) as [->|Hne].
    - rewrite list_lookup_total_insert_eq by (by rewrite (bi_pred_len _ I)).
      intros [= <-]. done.
    - rewrite list_lookup_total_insert_ne by done. apply (bi_pred _ I). }
  destruct (Nat.eqb_spec (hd adj a) (sink rn)) as [E4|E4].
  - constructor; simpl.
    + rewrite length_insert. apply (bi_pred_len _ I).
    + apply (bi_ord_len _ I).
    + apply (bi_first _ I).
    + exists (a :: p). by rewrite <- E4.
    + done.
  - assert (hd adj a ∉ queue st) as Hnotin.
    { rewrite (bi_visited _ I) by done. intros [?|?]; done. }
    assert (last st < n rn) as Hlast.
    { pose proof (NoDup_bounded_length (hd adj a :: queue st) (n rn)) as P.
      simpl in P. rewrite (queue_length _ I) in P. apply P.
      - apply NoDup_cons. split; [done | apply (bi_nodup _ I)].
      - intros x [->|Hx]%elem_of_cons; [done | by apply (bi_lt _ I)]. }
    assert (queue (BfsState (<[hd adj a := Some a]> (pred st))
                     (<[last st := hd adj a]> (bfs_ordering st)) (S (last st)))
            = queue st ++ [hd adj a]) as Hq.
    { unfold queue. simpl. apply take_S_insert. by rewrite (bi_ord_len _ I). }
    pose proof (bi_last _ I) as Hl1.
    split_and!.
    + constructor; simpl; rewrite ?Hq.
      * rewrite length_insert. apply (bi_pred_len _ I).
      * rewrite length_insert. apply (bi_ord_len _ I).
      * lia.
      * rewrite list_lookup_total_insert_ne by lia. apply (bi_first _ I).
      * apply NoDup_app. split_and!; [apply (bi_nodup _ I) | | apply NoDup_singleton].
        intros x Hx ->%list_elem_of_singleton. done.
      * intros v [Hv| ->%list_elem_of_singleton]%elem_of_app;
          [by apply (bi_lt _ I) | done].
      * intros v Hv. rewrite elem_of_app, list_elem_of_singleton.
        rewrite (bi_visited _ I) by done.
        destruct (decide (v = hd adj a)) as [->|Hne].
        -- rewrite list_lookup_total_insert_eq by (by rewrite (bi_pred_len _ I)).
           naive_solver.
        -- rewrite list_lookup_total_insert_ne by done. naive_solver.
      * rewrite list_lookup_total_insert_ne by done. apply (bi_source _ I).
      * rewrite list_lookup_total_insert_ne by done. apply (bi_sink _ I).
      * done.
      * intros v [Hv| ->%list_elem_of_singleton]%elem_of_app.
        -- destruct (bi_linked _ I v Hv) as [q Hq'].
           exists q. by apply linked_update.
        -- by exists (a :: p).
    + unfold extends. simpl. rewrite Hq. split_and!; [lia | |].
      * intros v Hv. apply elem_of_app. by left.
      * intros i Hi. by rewrite list_lookup_total_insert_ne by lia.
    + intros _. rewrite Hq. apply elem_of_app. right. by apply list_elem_of_singleton.
Qed.

Lemma ek_scan_spec out st u :
  bfs_inv st → u ∈ queue st → (∀ a, a ∈ out → a ∈ arcs_out rn u) →
  match ek_scan rn out st with
  | (st', true) => bfs_found st'
  | (st', false) =>
      bfs_inv st' ∧ extends st st' ∧
      (∀ a, a ∈ out → rc adj a ≠ 0%Z → hd adj a ∈ queue st')
  end.
Proof.
  revert st. induction out as [|a out IH]; intros st I Hu Hout; simpl.
  - split_and!; [done | apply extends_refl |]. intros a Ha. by apply elem_of_nil in Ha.
  - pose proof (ek_visit_spec st u a I Hu (Hout a ltac:(left))) as V.
    destruct (ek_visit rn st a) as [st1 [|]]; [done|].
    destruct V as (I1 & E1 & V1).
    specialize (IH st1 I1 (proj1 (proj2 E1) u Hu)
                   (λ b Hb, Hout b ltac:(by right))).
    destruct (ek_scan rn out st1) as [st2 [|]]; [done|].
    destruct IH as (I2 & E2 & V2).
    split_and!; [done | by eapply extends_trans |].
    intros b [->|Hb]%elem_of_cons Hrc.
    + apply E2. by apply V1.
    + by apply V2.
Qed.

(** Every arc with residual capacity out of a vertex among the first [u]
    of the queue leads to a vertex of the queue. *)
Definition scanned (st : bfs_state) (u : nat) : Prop :=
  ∀ i a, i < u → a ∈ arcs_out rn (bfs_ordering st !!! i) →
         rc adj a ≠ 0%Z → hd adj a ∈ queue st.

Lemma ek_bfs_loop_spec slots u st :
  bfs_inv st → u ≤ last st → slots + u = n rn → scanned st u →
  match ek_bfs_loop rn slots u st with
  | (st', true) => bfs_found st'
  | (st', false) => bfs_inv st' ∧ scanned st' (last st')
  end.
Proof.
  revert u st. induction slots as [|k IH]; intros u st I Hu Hn Hsc; simpl.
  - pose proof (bi_last _ I). assert (u = last st) as -> by lia. done.
  - destruct (Nat.eqb_spec u (last st)) as [->|Hne]; [done|].
    pose proof (queue_lookup st u I ltac:(lia)) as Hq.
    pose proof (ek_scan_spec (arcs_out rn (bfs_ordering st !!! u)) st
                  (bfs_ordering st !!! u) I Hq (λ a Ha, Ha)) as Sc.
    destruct (ek_scan rn _ st) as [st1 [|]]; [done|].
    destruct Sc as (I1 & (E1 & E2 & E3) & S1).
    apply IH; [done | lia | lia |].
    intros i a Hi Ha Hrc.
    destruct (decide (i = u)) as [->|Hiu].
    + rewrite E3 in Ha by lia. by apply S1.
    + rewrite E3 in Ha by lia. apply E2. apply (Hsc i a); [lia | done | done].
Qed.
End ek_bfs.

Lemma with_adjlist_eta rn : with_adjlist rn (adjlist rn) = rn.
Proof. by destruct rn. Qed.

Lemma evolves_eta rn0 rn : evolves rn0 rn → with_adjlist rn0 (adjlist rn) = rn.
Proof.
  intros [E1 E2 E3 E4 E5 _ _ _ _]. destruct rn, rn0. simpl in *.
  unfold with_adjlist. simpl. congruence.
Qed.

(** ** Paths of residual arcs *)

(** [p] is a path from [x] to [y] along arcs of positive residual capacity. *)
Fixpoint residual_path (rn : ResidualNetwork.t) (x : nat) (p : list nat) (y : nat) : Prop :=
  match p with
  | [] => x = y
  | a :: p' =>
      a ∈ arcs_out rn x ∧ (0 < rc (adjlist rn) a)%Z ∧
      residual_path rn (hd (adjlist rn) a) p' y
  end.

Lemma closed_side_path rn S p x y :
  wf rn → closed_side rn S → x < n rn → S x = true →
  residual_path rn x p y → S y = true.
Proof.
  intros W Hcl. revert x. induction p as [|a p IH]; intros x Hx HS; simpl.
  - by intros <-.
  - intros (Ha & Hrc & Hp).
    destruct (wf_arcs_out rn x a W Hx Ha) as [Hlt Ht].
    apply (IH (hd (adjlist rn) a)); [by apply (wf_head _ W) | | done].
    apply Hcl; [done | by rewrite Ht | lia].
Qed.

(** ** What a call of [push_flow] must satisfy *)

Definition call_ok (rn0 : ResidualNetwork.t) (c : push_call) : Prop :=
  wf (with_adjlist rn0 (before c)) ∧
  evolves rn0 (with_adjlist rn0 (before c)) ∧
  arc c < m rn0 ∧
  (0 < amount c ≤ rc (before c) (arc c))%Z.

(** The calls of a history follow one another from [adj0] to [adj]. *)
Fixpoint chain (adj0 : arena) (hist : list push_call) (adj : arena) : Prop :=
  match hist with
  | [] => adj = adj0
  | c :: h => before c = adj0 ∧ chain (after c) h adj
  end.

Lemma chain_snoc adj0 hist adj a f :
  chain adj0 hist adj → chain adj0 (hist ++ [PushCall adj a f]) (push_flow adj a f).
Proof.
  revert adj0. induction hist as [|c h IH]; intros adj0; simpl.
  - intros ->. done.
  - intros [E C]. split; [done | by apply IH].
Qed.

(** A history is that of a run from [rn0] that has reached the arena [adj]. *)
Definition history_ok (rn0 : ResidualNetwork.t) (hist : list push_call) (adj : arena)
  : Prop :=
  Forall (call_ok rn0) hist ∧ chain (adjlist rn0) hist adj.

Lemma history_ok_nil rn0 : history_ok rn0 [] (adjlist rn0).
Proof. by split. Qed.

Lemma history_ok_snoc rn0 hist rn a f :
  history_ok rn0 hist (adjlist rn) → wf rn → evolves rn0 rn → a < m rn →
  (0 < f ≤ rc (adjlist rn) a)%Z →
  history_ok rn0 (hist ++ [PushCall (adjlist rn) a f]) (push_flow (adjlist rn) a f).
Proof.
  intros [F C] W E Ha Hf. split; [|by apply chain_snoc].
  apply Forall_app. split; [done|]. apply Forall_singleton.
  unfold call_ok. simpl. rewrite (evolves_eta _ _ E).
  split_and!; [done | done | | lia | lia].
  by rewrite <- (ev_m _ _ E).
Qed.

(** ** Walking the predecessor chain *)

Lemma min_along_linked rn prd p y :
  linked rn prd y p →
  ∀ rn' fuel acc, evolves rn rn' → length p ≤ fuel →
  min_along fuel (adjlist rn') prd (prd !!! y) acc
  = Some (foldl Z.min acc ((λ b, rc (adjlist rn') b) <$> p)).
Proof.
  induction 1 as [Hs | y a p Hy Ha Hlt Hh Hl IH]; intros rn' fuel acc E Hfuel.
  - rewrite Hs. by destruct fuel.
  - rewrite Ha. destruct fuel as [|k]; [simpl in Hfuel; lia|]. simpl.
    rewrite (evolves_tail _ _ _ E). apply IH; [done | simpl in Hfuel; lia].
Qed.

Lemma foldl_min_le acc (l : list Z) : (foldl Z.min acc l ≤ acc)%Z.
Proof.
  revert acc. induction l as [|x l IH]; intros acc; simpl; [lia|].
  specialize (IH (Z.min acc x)). lia.
Qed.

Lemma foldl_min_le_elem acc (l : list Z) x : x ∈ l → (foldl Z.min acc l ≤ x)%Z.
Proof.
  revert acc. induction l as [|z l IH]; intros acc Hx; simpl.
  - by apply elem_of_nil in Hx.
  - apply elem_of_cons in Hx as [->|Hx]; [|by apply IH].
    pose proof (foldl_min_le (Z.min acc z) l). lia.
Qed.

Lemma foldl_min_pos acc (l : list Z) :
  (0 < acc)%Z → (∀ x, x ∈ l → (0 < x)%Z) → (0 < foldl Z.min acc l)%Z.
Proof.
  revert acc. induction l as [|z l IH]; intros acc Hacc Hl; simpl; [done|].
  apply IH.
  - specialize (Hl z ltac:(left)). lia.
  - intros x Hx. apply Hl. by right.
Qed.

Lemma push_along_spec rn0 rnB prd f :
  wf rnB → (0 < f)%Z →
  ∀ p y, linked rnB prd y p →
  ∀ rn hist fuel,
    wf rn → evolves rn0 rn → evolves rnB rn → length p ≤ fuel →
    (∀ b, b ∈ p → (f ≤ rc (adjlist rn) b)%Z) →
    history_ok rn0 hist (adjlist rn) →
    ∃ adj' hist',
      push_along fuel (adjlist rn) prd (prd !!! y) f hist = Some (adj', hist') ∧
      wf (with_adjlist rn adj') ∧ evolves rn (with_adjlist rn adj') ∧
      history_ok rn0 hist' adj' ∧
      ∀ x, x < n rn →
        net_out rn0 (with_adjlist rn adj') x
        = (net_out rn0 rn x
           + (if decide (x = source rn) then f else 0)
           - (if decide (x = y) then f else 0))%Z.
Proof.
  intros WB Hf p y HL.
  induction HL as [Hs | y a p Hy Ha Hlt Hh Hl IH];
    intros rn hist fuel W E0 EB Hfuel Hmin Hhist.
  - rewrite Hs. exists (adjlist rn), hist. rewrite with_adjlist_eta.
    split_and!; [by destruct fuel | done | apply evolves_refl | done |].
    intros x Hx. rewrite (ev_source _ _ EB). repeat case_decide; lia.
  - rewrite Ha. destruct fuel as [|k]; [simpl in Hfuel; lia|]. simpl.
    assert (a < m rn) as Hlt' by (by rewrite (ev_m _ _ EB)).
    assert (0 ≤ f ≤ rc (adjlist rn) a)%Z as Hfa.
    { split; [lia|]. apply Hmin. by left. }
    destruct (push_flow_wf rn a f W Hlt' Hfa) as [W1 E1].
    set (rn1 := with_adjlist rn (push_flow (adjlist rn) a f)) in *.
    rewrite push_flow_tail, (evolves_tail _ _ _ EB).
    destruct (IH rn1 (hist ++ [PushCall (adjlist rn) a f]) k) as (adj' & hist' & P & W' & E' & H' & N').
    + done.
    + by eapply evolves_trans.
    + by eapply evolves_trans.
    + simpl in Hfuel. lia.
    + intros b Hb. unfold rn1. simpl.
      rewrite (push_flow_rc_exact rn a f b W Hlt' Hfa).
      destruct (linked_indep rnB prd y a p b WB) as [N1 N2];
        [by apply linked_step | done |].
      rewrite <- (ev_tw _ _ EB) in N2.
      rewrite !decide_False by done. apply Hmin. by right.
    + apply history_ok_snoc; try done. lia.
    + exists adj', hist'. split_and!; [done | done | | done |].
      * by apply (evolves_trans _ rn1).
      * intros x Hx. change (with_adjlist rn adj') with (with_adjlist rn1 adj').
        rewrite N' by done. unfold rn1 at 1.
        rewrite (push_flow_net_out rn0 rn a f x W E0 Hlt' Hfa Hx).
        rewrite (evolves_tail _ _ _ EB), (ev_hd _ _ EB), Hh. simpl.
        repeat case_decide; lia.
Qed.

(** ** More fuel changes nothing *)

Lemma min_along_mono fuel fuel' adj prd cur acc r :
  min_along fuel adj prd cur acc = Some r → fuel ≤ fuel' →
  min_along fuel' adj prd cur acc = Some r.
Proof.
  revert fuel' cur acc. induction fuel as [|k IH]; intros fuel' cur acc H Hle.
  - destruct cur; [done|]. by destruct fuel'.
  - destruct cur as [a|]; [|by destruct fuel'].
    destruct fuel' as [|k']; [lia|]. simpl in *. apply IH; [done | lia].
Qed.

Lemma push_along_mono fuel fuel' adj prd cur f hist r :
  push_along fuel adj prd cur f hist = Some r → fuel ≤ fuel' →
  push_along fuel' adj prd cur f hist = Some r.
Proof.
  revert fuel' adj cur hist. induction fuel as [|k IH]; intros fuel' adj cur hist H Hle.
  - destruct cur; [done|]. by destruct fuel'.
  - destruct cur as [a|]; [|by destruct fuel'].
    destruct fuel' as [|k']; [lia|]. simpl in *. apply IH; [done | lia].
Qed.

Lemma ek_loop_mono fuel fuel' s r :
  ek_loop fuel s = Some r → fuel ≤ fuel' → ek_loop fuel' s = Some r.
Proof.
  revert fuel' s. induction fuel as [|k IH]; intros fuel' s H Hle; [done|].
  destruct fuel' as [|k']; [lia|]. simpl in *.
  destruct (bfs_find_augmenting_path _ _) as [st [|]]; [|done].
  destruct (pred st !!! _) as [a0|]; [|done].
  destruct (min_along k _ _ _ _) as [f|] eqn:Hm; [|done].
  rewrite (min_along_mono k k' _ _ _ _ _ Hm) by lia.
  destruct (push_along k _ _ _ _ _) as [[adj1 hist1]|] eqn:Hp; [|done].
  rewrite (push_along_mono k k' _ _ _ _ _ _ Hp) by lia.
  apply IH; [done | lia].
Qed.

(** ** The state of the solver between two searches *)

Record ek_inv (rn0 : ResidualNetwork.t) (s : ek_state) : Prop := EkInv {
  ei_wf : wf (ek_rnetwork s);
  ei_ev : evolves rn0 (ek_rnetwork s);
  ei_cons : conserving rn0 (ek_rnetwork s);
  ei_value : ek_maxflow s = wrap32 (net_out rn0 (ek_rnetwork s) (source rn0));
  ei_balance :
    (net_out rn0 (ek_rnetwork s) (source rn0)
     + net_out rn0 (ek_rnetwork s) (sink rn0) = 0)%Z;
  ei_pred_len : length (pred (ek_bfs s)) = n rn0;
  ei_ord_len : length (bfs_ordering (ek_bfs s)) = n rn0;
  ei_first : bfs_ordering (ek_bfs s) !!! 0 = source rn0;
  ei_hist : history_ok rn0 (ek_history s) (adjlist (ek_rnetwork s)) }.

(** Residual capacity left on the arcs out of the source. *)
Definition slack (rn : ResidualNetwork.t) : Z :=
  sumZ ((λ a, rc (adjlist rn) a) <$> arcs_out rn (source rn)).

Lemma sumZ_fmap_nonneg {A} (g : A → Z) (l : list A) :
  (∀ x, x ∈ l → (0 ≤ g x)%Z) → (0 ≤ sumZ (g <$> l))%Z.
Proof.
  induction l as [|x l IH]; intros H; [done|].
  rewrite fmap_cons, sumZ_cons.
  assert (0 ≤ g x)%Z by (apply H; by left).
  assert (0 ≤ sumZ (g <$> l))%Z by (apply IH; intros y Hy; apply H; by right). lia.
Qed.

Lemma slack_nonneg rn : wf rn → (0 ≤ slack rn)%Z.
Proof.
  intros W. apply sumZ_fmap_nonneg. intros a Ha.
  destruct (wf_arcs_out rn _ a W (wf_source _ W) Ha) as [Hlt _].
  by apply (wf_rc _ W).
Qed.

Lemma sumZ_fmap_sub {A} (f g : A → Z) (l : list A) :
  sumZ ((λ x, f x - g x)%Z <$> l) = (sumZ (f <$> l) - sumZ (g <$> l))%Z.
Proof. induction l as [|x l IH]; [done|]. rewrite !fmap_cons, !sumZ_cons, IH. lia. Qed.

Lemma net_out_slack rn0 rn :
  evolves rn0 rn →
  net_out rn0 rn (source rn0) = (slack rn0 - slack rn)%Z.
Proof.
  intros E. unfold net_out, used, slack.
  rewrite (evolves_arcs_out _ _ _ E), (ev_source _ _ E). apply sumZ_fmap_sub.
Qed.

Lemma net_out_refl rn x : net_out rn rn x = 0%Z.
Proof.
  unfold net_out, used. rewrite (sumZ_fmap_ext (λ _, 0%Z)); [apply sumZ_fmap_zero|].
  intros b _. lia.
Qed.

Lemma linked_pred rn prd y p b :
  linked rn prd y p → b ∈ p → prd !!! hd (adjlist rn) b = Some b.
Proof.
  intros H Hb. destruct (linked_suffix _ _ _ _ b H Hb) as (p' & _ & _ & H2).
  by inversion H2.
Qed.

Lemma wrap32_add_l a b : wrap32 (wrap32 a + b) = wrap32 (a + b).
Proof. unfold wrap32. by rewrite Zplus_mod_idemp_l. Qed.

(** One turn of the loop of [edmonds_karp]. *)
Lemma ek_step rn0 s :
  ek_inv rn0 s →
  let rn := ek_rnetwork s in
  let r := bfs_find_augmenting_path rn (ek_bfs s) in
  if r.2 then
    ∃ a0 f adj1 hist1 k0,
      pred r.1 !!! sink rn = Some a0 ∧
      (∀ k, k0 ≤ k →
         min_along k (adjlist rn) (pred r.1) (Some a0) (rc (adjlist rn) a0) = Some f ∧
         push_along k (adjlist rn) (pred r.1) (Some a0) f (ek_history s)
         = Some (adj1, hist1)) ∧
      (0 < f)%Z ∧
      ek_inv rn0 (EkState (with_adjlist rn adj1) r.1 (wrap32 (ek_maxflow s + f)) hist1) ∧
      slack (with_adjlist rn adj1) = (slack rn - f)%Z
  else
    ek_inv rn0 (EkState rn r.1 (ek_maxflow s) (ek_history s)) ∧
    bfs_inv rn r.1 ∧ scanned rn r.1 (last r.1).
Proof.
  intros I rn r. pose proof (ei_wf _ _ I) as W. pose proof (ei_ev _ _ I) as E.
  fold rn in W, E.
  assert (n rn = n rn0) as En by apply (ev_n _ _ E).
  assert (source rn = source rn0) as Es by apply (ev_source _ _ E).
  assert (sink rn = sink rn0) as Et by apply (ev_sink _ _ E).
  pose proof (wf_source _ W) as Hsn. pose proof (wf_st _ W) as Hst.
  assert (bfs_inv rn (BfsState (replicate (length (pred (ek_bfs s))) None)
                        (bfs_ordering (ek_bfs s)) 1)) as I0.
  { assert (queue (BfsState (replicate (length (pred (ek_bfs s))) None)
                     (bfs_ordering (ek_bfs s)) 1) = [source rn]) as Hq.
    { unfold queue. simpl.
      destruct (bfs_ordering (ek_bfs s)) as [|x o] eqn:Eo.
      - pose proof (ei_ord_len _ _ I) as L. rewrite Eo in L. simpl in L. lia.
      - pose proof (ei_first _ _ I) as F. rewrite Eo in F.
        change (x = source rn0) in F. cbn. rewrite take_0. congruence. }
    constructor; simpl; rewrite ?Hq.
    - rewrite length_replicate, (ei_pred_len _ _ I). done.
    - by rewrite (ei_ord_len _ _ I).
    - lia.
    - rewrite (ei_first _ _ I). done.
    - apply NoDup_singleton.
    - intros v ->%list_elem_of_singleton. done.
    - intros v Hv. rewrite list_elem_of_singleton.
      rewrite lookup_total_replicate_2 by (rewrite (ei_pred_len _ _ I); lia).
      naive_solver.
    - apply lookup_total_replicate_2. rewrite (ei_pred_len _ _ I). lia.
    - apply lookup_total_replicate_2. rewrite (ei_pred_len _ _ I).
      pose proof (wf_sink _ W). lia.
    - intros v a. destruct (decide (v < length (pred (ek_bfs s)))) as [Hv|Hv].
      + by rewrite lookup_total_replicate_2.
      + rewrite list_lookup_total_alt, (proj1 (lookup_replicate_None _ _ _)); [done | lia].
    - intros v ->%list_elem_of_singleton. exists []. apply linked_source.
      apply lookup_total_replicate_2. rewrite (ei_pred_len _ _ I). lia. }
  pose proof (ek_bfs_loop_spec rn W (length (bfs_ordering (ek_bfs s))) 0 _ I0) as L.
  fold (bfs_find_augmenting_path rn (ek_bfs s)) in L. fold r in L.
  specialize (L ltac:(simpl; lia)
                ltac:(rewrite (ei_ord_len _ _ I); lia)
                ltac:(intros i a Hi; lia)).
  destruct r as [st [|]]; simpl.
  - destruct L as [Lp Lo Lf [p Hp] Lpred].
    inversion Hp as [Hs | y a0 p' Hy Ha Hlt Hh Hl]; subst; [congruence|].
    assert (∀ b, b ∈ a0 :: p' → (0 < rc (adjlist rn) b)%Z) as Hpos.
    { intros b Hb. pose proof (linked_pred _ _ _ _ b Hp Hb) as Hb'.
      destruct (Lpred _ _ Hb') as [Hblt Hbrc].
      destruct (wf_rc _ W b Hblt) as [? _]. lia. }
    set (f := foldl Z.min (rc (adjlist rn) a0)
                ((λ b, rc (adjlist rn) b) <$> a0 :: p')).
    assert (0 < f)%Z as Hf.
    { apply foldl_min_pos; [apply Hpos; by left|].
      intros x (b & -> & Hb)%list_elem_of_fmap. by apply Hpos. }
    destruct (push_along_spec rn0 rn (pred st) f W Hf _ _ Hp rn (ek_history s)
                (length (a0 :: p')) W E (evolves_refl rn) ltac:(done))
      as (adj1 & hist1 & P & W1 & E1 & H1 & N1).
    { intros b Hb. apply foldl_min_le_elem.
      by apply (list_elem_of_fmap_2 (λ b, rc (adjlist rn) b)). }
    { apply (ei_hist _ _ I). }
    exists a0, f, adj1, hist1, (length (a0 :: p')).
    split_and!; [done | | done | |].
    + intros k Hk. rewrite <- Ha. split.
      * by apply (min_along_linked rn (pred st) _ _ Hp rn k _ (evolves_refl rn)).
      * by apply (push_along_mono _ _ _ _ _ _ _ _ P).
    + constructor; simpl.
      * done.
      * by apply (evolves_trans _ rn).
      * intros x Hx Hxs Hxt. rewrite N1 by lia.
        pose proof (ei_cons _ _ I x Hx Hxs Hxt) as C. fold rn in C. rewrite C.
        rewrite !decide_False by congruence. lia.
      * rewrite N1 by lia. rewrite (ei_value _ _ I), wrap32_add_l.
        rewrite decide_True by done. rewrite decide_False by congruence.
        f_equal. fold rn. lia.
      * rewrite !N1 by (pose proof (wf_sink _ W); lia).
        pose proof (ei_balance _ _ I) as B. fold rn in B.
        rewrite (decide_True (P := source rn0 = source rn)) by done.
        rewrite (decide_False (P := source rn0 = sink rn)) by congruence.
        rewrite (decide_False (P := sink rn0 = source rn)) by congruence.
        rewrite (decide_True (P := sink rn0 = sink rn)) by done. lia.
      * congruence.
      * congruence.
      * congruence.
      * done.
    + pose proof (net_out_slack rn0 rn E) as S0.
      pose proof (net_out_slack rn0 _ (evolves_trans _ _ _ E E1)) as S1.
      rewrite N1 in S1 by lia.
      rewrite decide_True in S1 by done. rewrite decide_False in S1 by congruence.
      lia.
  - destruct L as [Li Ls]. split_and!; [|done|done].
    destruct I. constructor; simpl; try done.
    + rewrite (bi_pred_len _ _ Li). done.
    + rewrite (bi_ord_len _ _ Li). done.
    + rewrite (bi_first _ _ Li). done.
Qed.

(** ** The loop ends, in a state where the search has failed *)

Definition ek_done (rn0 : ResidualNetwork.t) (s : ek_state) : Prop :=
  ek_inv rn0 s ∧ bfs_inv (ek_rnetwork s) (ek_bfs s) ∧
  scanned (ek_rnetwork s) (ek_bfs s) (last (ek_bfs s)).

Lemma ek_loop_terminates rn0 k :
  ∀ s, ek_inv rn0 s → (slack (ek_rnetwork s) ≤ Z.of_nat k)%Z →
  ∃ fuel s', ek_loop fuel s = Some s' ∧ ek_done rn0 s'.
Proof.
  induction k as [|k IH]; intros s I Hk;
    pose proof (ek_step rn0 s I) as St; simpl in St;
    destruct (bfs_find_augmenting_path (ek_rnetwork s) (ek_bfs s)) as [st [|]] eqn:B;
    simpl in St.
  - destruct St as (a0 & f & adj1 & hist1 & k0 & Ha & Hrun & Hf & I1 & Sl).
    pose proof (slack_nonneg _ (ei_wf _ _ I1)) as P. simpl in P. lia.
  - exists 1, (EkState (ek_rnetwork s) st (ek_maxflow s) (ek_history s)).
    split; [|done]. simpl. by rewrite B.
  - destruct St as (a0 & f & adj1 & hist1 & k0 & Ha & Hrun & Hf & I1 & Sl).
    destruct (IH _ I1) as (fuel1 & s' & L & D); [simpl; lia|].
    exists (S (max fuel1 k0)), s'. split; [|done].
    simpl. rewrite B, Ha.
    destruct (Hrun (max fuel1 k0) ltac:(lia)) as [-> ->].
    apply (ek_loop_mono fuel1); [done | lia].
  - exists 1, (EkState (ek_rnetwork s) st (ek_maxflow s) (ek_history s)).
    split; [|done]. simpl. by rewrite B.
Qed.

Lemma returns_intro {A} (run : nat → option A) k r :
  run k = Some r → (∀ k', k ≤ k' → run k = Some r → run k' = Some r) → returns run r.
Proof. intros H M. exists k. intros k' Hk. by apply M. Qed.

Lemma returns_det {A} (run : nat → option A) r r' :
  returns run r → returns run r' → r = r'.
Proof.
  intros [k H] [k' H']. specialize (H (max k k') ltac:(lia)).
  specialize (H' (max k k') ltac:(lia)). congruence.
Qed.

Lemma returns_bind {A B} (run : nat → option A) (f : A → B) r :
  returns run r → returns (λ k, x ← run k; Some (f x)) (f r).
Proof. intros [k H]. exists k. intros k' Hk. by rewrite (H k' Hk). Qed.

Section ek_correct.
Context (net : FlowNetwork.t) (Hv : valid net).
Local Abbreviation rn0 := (construct net).

Lemma ek_init_inv : ek_inv rn0 (ek_init net).
Proof.
  pose proof (construct_wf net Hv) as W.
  pose proof (wf_source _ W) as Hs.
  constructor; simpl.
  - done.
  - apply evolves_refl.
  - intros x _ _ _. apply net_out_refl.
  - by rewrite net_out_refl.
  - by rewrite !net_out_refl.
  - apply length_replicate.
  - by rewrite length_insert, length_replicate.
  - apply list_lookup_total_insert_eq. rewrite length_replicate. lia.
  - apply history_ok_nil.
Qed.

Lemma edmonds_karp_run_done :
  ∃ s, returns (λ k, edmonds_karp_run k net) s ∧ ek_done rn0 s.
Proof.
  destruct (ek_loop_terminates rn0 (Z.to_nat (slack rn0)) (ek_init net) ek_init_inv)
    as (fuel & s & L & D).
  { simpl. pose proof (slack_nonneg _ (construct_wf net Hv)). lia. }
  exists s. split; [|done]. exists fuel. intros k Hk.
  by apply (ek_loop_mono fuel).
Qed.
End ek_correct.

(** The side of the source, once the search has failed. *)
Definition ek_side (s : ek_state) (x : nat) : bool :=
  bool_decide (x ∈ queue (ek_bfs s)).

Lemma ek_done_cut rn0 s :
  ek_done rn0 s →
  ek_side s (source rn0) = true ∧ ek_side s (sink rn0) = false ∧
  closed_side (ek_rnetwork s) (ek_side s).
Proof.
  intros (I & B & Sc).
  pose proof (ei_wf _ _ I) as W. pose proof (ei_ev _ _ I) as E.
  unfold ek_side. split_and!.
  - apply bool_decide_eq_true. rewrite <- (ev_source _ _ E).
    apply (bi_visited _ _ B); [apply (wf_source _ W) | by left].
  - apply bool_decide_eq_false. rewrite <- (ev_sink _ _ E).
    rewrite (bi_visited _ _ B) by apply (wf_sink _ W).
    pose proof (bi_sink _ _ B). pose proof (wf_st _ W). naive_solver.
  - intros a Ha Ht Hrc.
    apply bool_decide_eq_true in Ht. apply bool_decide_eq_true.
    destruct (queue_elem _ _ _ B Ht) as (i & Hi & Ei).
    apply (Sc i a Hi); [|done]. rewrite Ei.
    apply elem_of_arcs_out. by apply (wf_out _ W).
Qed.

(** ** The layering of Dinitz-Cherkassky *)

Section rank_bfs.
Context (rn : ResidualNetwork.t) (W : wf rn).
Local Abbreviation adj := (adjlist rn).
Local Abbreviation Unreached := DinitzCherkassky.Unreached.

(** A state of [bfs_compute_rank]: ranks, worklist, end of the worklist. *)
Definition rstate : Type := list Z * list nat * nat.

Definition rqueue (st : rstate) : list nat := take st.2 st.1.2.

Record rank_inv (st : rstate) : Prop := RankInv {
  ri_rk_len : length st.1.1 = n rn;
  ri_ord_len : length st.1.2 = n rn;
  ri_last : 1 ≤ st.2 ≤ n rn;
  ri_first : st.1.2 !!! 0 = sink rn;
  ri_nodup : NoDup (rqueue st);
  ri_lt : ∀ v, v ∈ rqueue st → v < n rn;
  ri_reached : ∀ v, v < n rn → (v ∈ rqueue st ↔ st.1.1 !!! v ≠ Unreached);
  ri_pos : ∀ i, i < st.2 → (0 ≤ st.1.1 !!! (st.1.2 !!! i) ≤ Z.of_nat i)%Z;
  ri_unreached : ∀ v, v < n rn → v ∉ rqueue st → st.1.1 !!! v = Unreached;
  ri_sink : st.1.1 !!! sink rn = 0%Z;
  ri_zero : ∀ v, v < n rn → st.1.1 !!! v = 0%Z → v = sink rn;
  ri_witness : ∀ v, v ∈ rqueue st → v ≠ sink rn →
    ∃ a, a ∈ arcs_out rn v ∧ rc adj a ≠ 0%Z ∧
         st.1.1 !!! hd adj a ≠ Unreached ∧
         st.1.1 !!! v = (st.1.1 !!! hd adj a + 1)%Z }.

Definition rextends (st st' : rstate) : Prop :=
  st.2 ≤ st'.2 ∧
  (∀ i, i < st.2 → st'.1.2 !!! i = st.1.2 !!! i) ∧
  (∀ v, st.1.1 !!! v ≠ Unreached → st'.1.1 !!! v = st.1.1 !!! v).

Lemma rextends_refl st : rextends st st.
Proof. by split_and!. Qed.

Lemma rextends_trans st1 st2 st3 : rextends st1 st2 → rextends st2 st3 → rextends st1 st3.
Proof.
  intros (L1 & O1 & R1) (L2 & O2 & R2). split_and!; [lia | |].
  - intros i Hi. rewrite O2 by lia. by apply O1.
  - intros v Hv. rewrite R2; [by apply R1|]. by rewrite R1.
Qed.

Lemma rqueue_length st : rank_inv st → length (rqueue st) = st.2.
Proof.
  intros I. unfold rqueue. rewrite length_take.
  pose proof (ri_last _ I). pose proof (ri_ord_len _ I). lia.
Qed.

Lemma rqueue_lookup st i : rank_inv st → i < st.2 → st.1.2 !!! i ∈ rqueue st.
Proof.
  intros I Hi. unfold rqueue. apply elem_of_take. exists i. split; [|done].
  apply list_lookup_lookup_total_lt.
  pose proof (ri_last _ I). pose proof (ri_ord_len _ I). lia.
Qed.

Lemma rqueue_elem st v :
  rank_inv st → v ∈ rqueue st → ∃ i, i < st.2 ∧ st.1.2 !!! i = v.
Proof.
  intros I Hv. unfold rqueue in Hv. apply elem_of_take in Hv as (i & Hi & Hlt).
  exists i. split; [done|]. by apply list_lookup_total_correct.
Qed.

Lemma rank_range st v :
  rank_inv st → v < n rn → (0 ≤ st.1.1 !!! v ≤ Unreached)%Z.
Proof.
  intros I Hv. destruct (decide (v ∈ rqueue st)) as [Hin|Hin].
  - destruct (rqueue_elem st v I Hin) as (i & Hi & <-).
    pose proof (ri_pos _ I i Hi). pose proof (ri_last _ I). pose proof (wf_n _ W).
    unfold Unreached. lia.
  - rewrite (ri_unreached _ I v Hv Hin). unfold Unreached. lia.
Qed.

Lemma rank_visit_spec st i a :
  rank_inv st → i < st.2 → a ∈ arcs_out rn (st.1.2 !!! i) →
  let st' := DinitzCherkassky.rank_visit adj (st.1.2 !!! i) st a in
  rank_inv st' ∧ rextends st st' ∧
  (rc adj (tw adj a) ≠ 0%Z → st'.1.1 !!! hd adj a ≠ Unreached).
Proof.
  intros I Hi Ha. destruct st as [[rk ord] lst]. simpl in *.
  pose proof (ri_rk_len _ I) as Lrk. pose proof (ri_ord_len _ I) as Lord.
  simpl in Lrk, Lord.
  set (u := ord !!! i) in *.
  pose proof (rqueue_lookup _ i I Hi) as Hu. simpl in Hu. fold u in Hu.
  pose proof (ri_lt _ I u Hu) as Hun.
  destruct (wf_arcs_out rn u a W Hun Ha) as [Hlt Htail].
  pose proof (wf_head _ W a Hlt) as Hh.
  destruct (wf_twin _ W a Hlt) as (Htw & Htt & Hne).
  destruct (bool_decide (rk !!! hd adj a = Unreached)) eqn:E1; simpl.
  2: { split_and!; [done | apply rextends_refl |]. intros _.
       by apply bool_decide_eq_false in E1. }
  apply bool_decide_eq_true in E1.
  destruct (ResidualArc.is_residual (adj !!! tw adj a)) eqn:E2; simpl.
  2: { split_and!; [done | apply rextends_refl |]. intros Hrc.
       apply is_residual_false in E2. done. }
  apply is_residual_spec in E2.
  assert (hd adj a ∉ rqueue (rk, ord, lst)) as Hnotin.
  { rewrite (ri_reached _ I) by done. simpl. by intros []. }
  assert (lst < n rn) as Hlast.
  { pose proof (NoDup_bounded_length (hd adj a :: rqueue (rk, ord, lst)) (n rn)) as P.
    simpl in P. rewrite (rqueue_length _ I) in P. apply P.
    - apply NoDup_cons. split; [done | apply (ri_nodup _ I)].
    - intros x [->|Hx]%elem_of_cons; [done | by apply (ri_lt _ I)]. }
  pose proof (ri_pos _ I i Hi) as Hpos. simpl in Hpos. fold u in Hpos.
  pose proof (wf_n _ W) as Hn32.
  assert (wrap32 (rk !!! u + 1) = rk !!! u + 1)%Z as Hwrap.
  { unfold wrap32. apply Z.mod_small. lia. }
  rewrite Hwrap.
  assert (hd adj a ≠ u) as Hhu by (by rewrite <- Htail).
  assert (rk !!! u ≠ Unreached) as Hru.
  { apply (ri_reached _ I u Hun). done. }
  set (st' := (<[hd adj a := (rk !!! u + 1)%Z]> rk, <[lst := hd adj a]> ord, S lst)).
  assert (rqueue st' = rqueue (rk, ord, lst) ++ [hd adj a]) as Hq.
  { unfold rqueue. simpl. apply take_S_insert. by rewrite Lord. }
  pose proof (ri_last _ I) as Hl1. simpl in Hl1.
  assert (∀ v, v ≠ hd adj a → st'.1.1 !!! v = rk !!! v) as Hother.
  { intros v Hv. simpl. by rewrite list_lookup_total_insert_ne. }
  assert (st'.1.1 !!! hd adj a = rk !!! u + 1)%Z as Hnew.
  { simpl. apply list_lookup_total_insert_eq. by rewrite Lrk. }
  assert (∀ v, v ∈ rqueue (rk, ord, lst) → v ≠ hd adj a) as Hold.
  { intros v Hv ->. done. }
  split_and!.
  - constructor; rewrite ?Hq.
    + simpl. rewrite length_insert. apply (ri_rk_len _ I).
    + simpl. rewrite length_insert. apply (ri_ord_len _ I).
    + simpl. lia.
    + simpl. rewrite list_lookup_total_insert_ne by lia. apply (ri_first _ I).
    + apply NoDup_app. split_and!; [apply (ri_nodup _ I) | | apply NoDup_singleton].
      intros x Hx ->%list_elem_of_singleton. done.
    + intros v [Hv| ->%list_elem_of_singleton]%elem_of_app;
        [by apply (ri_lt _ I) | done].
    + intros v Hv. rewrite elem_of_app, list_elem_of_singleton.
      destruct (decide (v = hd adj a)) as [->|Hne'].
      * rewrite Hnew. unfold Unreached. split; [lia | by right].
      * rewrite Hother by done. rewrite (ri_reached _ I) by done. simpl. naive_solver.
    + intros j Hj. simpl in Hj. destruct (decide (j = lst)) as [->|Hjl].
      * simpl (st'.1.2).
        rewrite list_lookup_total_insert_eq by (by rewrite Lord).
        rewrite Hnew. lia.
      * simpl (st'.1.2). rewrite list_lookup_total_insert_ne by done.
        rewrite Hother.
        -- apply (ri_pos _ I j). simpl. lia.
        -- apply Hold. apply (rqueue_lookup _ j I). simpl. lia.
    + intros v Hv Hnin. rewrite elem_of_app, list_elem_of_singleton in Hnin.
      rewrite Hother by naive_solver. apply (ri_unreached _ I); naive_solver.
    + rewrite Hother; [apply (ri_sink _ I)|].
      intros E. rewrite <- E in E1. pose proof (ri_sink _ I) as S0. simpl in S0.
      rewrite S0 in E1. done.
    + intros v Hv. destruct (decide (v = hd adj a)) as [->|Hne'].
      * rewrite Hnew. lia.
      * rewrite Hother by done. by apply (ri_zero _ I).
    + intros v [Hv| ->%list_elem_of_singleton]%elem_of_app Hvs.
      * destruct (ri_witness _ I v Hv Hvs) as (b & Hb1 & Hb2 & Hb3 & Hb4).
        simpl in Hb3, Hb4.
        exists b. split_and!; [done | done | |].
        -- rewrite Hother; [done|]. intros E. by rewrite E in Hb3.
        -- rewrite (Hother v) by (by apply Hold).
           rewrite Hother; [done|]. intros E. by rewrite E in Hb3.
      * exists (tw adj a).
        split_and!.
        -- apply (wf_arcs_out_iff rn _ _ W Hh Htw). by apply wf_tail_twin.
        -- done.
        -- change (hd adj (tw adj a)) with (tail adj a). rewrite Htail.
           by rewrite Hother.
        -- change (hd adj (tw adj a)) with (tail adj a). rewrite Htail.
           rewrite Hnew. by rewrite Hother.
  - unfold rextends. simpl. split_and!; [lia | |].
    + intros j Hj. by rewrite list_lookup_total_insert_ne by lia.
    + intros v Hv. rewrite list_lookup_total_insert_ne; [done|]. intros <-. done.
  - intros _. simpl in Hnew. simpl. rewrite Hnew. unfold Unreached. lia.
Qed.

Lemma rank_scan_spec out st i :
  rank_inv st → i < st.2 → (∀ a, a ∈ out → a ∈ arcs_out rn (st.1.2 !!! i)) →
  let st' := foldl (DinitzCherkassky.rank_visit adj (st.1.2 !!! i)) st out in
  rank_inv st' ∧ rextends st st' ∧
  (∀ a, a ∈ out → rc adj (tw adj a) ≠ 0%Z → st'.1.1 !!! hd adj a ≠ Unreached).
Proof.
  revert st. induction out as [|a out IH]; intros st I Hi Hout; simpl.
  - split_and!; [done | apply rextends_refl |]. intros a Ha. by apply elem_of_nil in Ha.
  - destruct (rank_visit_spec st i a I Hi (Hout a ltac:(left))) as (I1 & E1 & V1).
    set (st1 := DinitzCherkassky.rank_visit adj (st.1.2 !!! i) st a) in *.
    destruct E1 as (L1 & O1 & R1).
    assert (st1.1.2 !!! i = st.1.2 !!! i) as Eu by (by apply O1).
    destruct (IH st1 I1 ltac:(lia)) as (I2 & E2 & V2).
    { intros b Hb. rewrite Eu. apply Hout. by right. }
    rewrite Eu in I2, E2, V2.
    split_and!; [done | by apply (rextends_trans _ st1) |].
    intros b [->|Hb]%elem_of_cons Hrc.
    + destruct E2 as (_ & _ & R2). rewrite R2; by apply V1.
    + by apply V2.
Qed.

Definition rscanned (st : rstate) (u : nat) : Prop :=
  ∀ i a, i < u → a ∈ arcs_out rn (st.1.2 !!! i) →
         rc adj (tw adj a) ≠ 0%Z → st.1.1 !!! hd adj a ≠ Unreached.

Lemma rank_loop_spec slots u st :
  rank_inv st → u ≤ st.2 → slots + u = n rn → rscanned st u →
  let st' := DinitzCherkassky.rank_loop rn slots u st in
  rank_inv st' ∧ rscanned st' st'.2.
Proof.
  revert u st. induction slots as [|k IH]; intros u st I Hu Hn Hsc; simpl.
  - pose proof (ri_last _ I). assert (u = st.2) as -> by lia. done.
  - destruct (Nat.eqb_spec u st.2) as [->|Hne]; [done|].
    destruct (rank_scan_spec (arcs_out rn (st.1.2 !!! u)) st u I ltac:(lia) (λ a Ha, Ha))
      as (I1 & (E1 & E2 & E3) & S1).
    apply IH; [done | lia | lia |].
    intros i a Hi Ha Hrc.
    destruct (decide (i = u)) as [->|Hiu].
    + rewrite E2 in Ha by lia. by apply S1.
    + rewrite E2 in Ha by lia. rewrite E3; by apply (Hsc i a); [lia | done | done].
Qed.
End rank_bfs.

(** ** The depth-first search of a phase *)

Abbreviation drn d := (DinitzCherkassky.rnetwork d).
Abbreviation dadj d := (adjlist (DinitzCherkassky.rnetwork d)).
Abbreviation dcur d := (DinitzCherkassky.current_arc d).
Abbreviation drk d := (DinitzCherkassky.rank d).

Ltac split4 := split; [|split; [|split]].

Section dfs.
Context (rn0 : ResidualNetwork.t).
Local Abbreviation Unreached := DinitzCherkassky.Unreached.

Record dfs_inv (d : DinitzCherkassky.t) : Prop := DfsInv {
  di_wf : wf (drn d);
  di_ev : evolves rn0 (drn d);
  di_cur_len : length (dcur d) = n rn0;
  di_cur : ∀ x, x < n rn0 → span_begin rn0 x ≤ dcur d !!! x ≤ span_end rn0 x;
  di_rk_len : length (drk d) = n rn0;
  di_rank : ∀ v, v < n rn0 → (0 ≤ drk d !!! v ≤ Unreached)%Z;
  di_zero : ∀ v, v < n rn0 → drk d !!! v = 0%Z → v = sink rn0;
  di_hist : history_ok rn0 (DinitzCherkassky.history d) (dadj d) }.

(** [d'] is [d] but for the cursors of vertices of rank at most [r] and
    the residual capacities of arcs leaving such vertices. *)
Record below (r : Z) (d d' : DinitzCherkassky.t) : Prop := Below {
  bl_rank : drk d' = drk d;
  bl_ord : DinitzCherkassky.bfs_ordering d' = DinitzCherkassky.bfs_ordering d;
  bl_net : DinitzCherkassky.network d' = DinitzCherkassky.network d;
  bl_cur : ∀ x, x < n rn0 → (r < drk d !!! x)%Z → dcur d' !!! x = dcur d !!! x;
  bl_rc : ∀ a, a < m rn0 → (r < drk d !!! tail (adjlist rn0) a)%Z →
               rc (dadj d') a = rc (dadj d) a }.

Lemma below_refl r d : below r d d.
Proof. by constructor. Qed.

Lemma below_trans r d1 d2 d3 : below r d1 d2 → below r d2 d3 → below r d1 d3.
Proof.
  intros [R1 O1 N1 C1 A1] [R2 O2 N2 C2 A2]. constructor; try congruence.
  - intros x Hx Hr. rewrite C2, C1; try done. by rewrite R1.
  - intros a Ha Hr. rewrite A2, A1; try done. by rewrite R1.
Qed.

Lemma below_mono r r' d d' : (r ≤ r')%Z → below r d d' → below r' d d'.
Proof.
  intros Hr [R O N C A]. constructor; try done.
  - intros x Hx Hlt. apply C; [done | lia].
  - intros a Ha Hlt. apply A; [done | lia].
Qed.

Definition dfs_post (u : nat) (flow : Z) (d : DinitzCherkassky.t)
    (res : Z * DinitzCherkassky.t) : Prop :=
  dfs_inv res.2 ∧ (0 ≤ res.1 ≤ flow)%Z ∧ below (drk d !!! u) d res.2 ∧
  ∀ x, x < n rn0 →
    net_out rn0 (drn res.2) x
    = (net_out rn0 (drn d) x
       + (if decide (x = u) then res.1 else 0)
       - (if decide (x = sink rn0) then res.1 else 0))%Z.

Lemma dfs_post_pre u flow d d1 res :
  below (drk d !!! u) d d1 →
  (∀ x, x < n rn0 → net_out rn0 (drn d1) x = net_out rn0 (drn d) x) →
  dfs_post u flow d1 res → dfs_post u flow d res.
Proof.
  intros B N (I & F & B' & N'). split4; [done | done | |].
  - apply (below_trans _ _ d1); [done|]. by rewrite <- (bl_rank _ _ _ B).
  - intros x Hx. rewrite N', N by done. done.
Qed.

Lemma step_inv d u :
  dfs_inv d → u < n rn0 → dcur d !!! u < span_end rn0 u →
  dfs_inv (DinitzCherkassky.step_current_arc d u).
Proof.
  intros [] Hu Hc. constructor; simpl; try done.
  - by rewrite length_insert.
  - intros x Hx. destruct (decide (x = u)) as [->|Hne].
    + rewrite list_lookup_total_insert_eq by lia. specialize (di_cur0 u Hu). lia.
    + rewrite list_lookup_total_insert_ne by done. by apply di_cur0.
Qed.

Lemma step_below d u :
  below (drk d !!! u) d (DinitzCherkassky.step_current_arc d u).
Proof.
  constructor; simpl; try done.
  intros x Hx Hr. rewrite list_lookup_total_insert_ne; [done|]. intros ->. lia.
Qed.

Lemma push_inv d c df :
  dfs_inv d → c < m rn0 → (0 < df ≤ rc (dadj d) c)%Z →
  dfs_inv (DinitzCherkassky.push d c df).
Proof.
  intros I Hc Hdf. pose proof (di_wf _ I) as W. pose proof (di_ev _ I) as E.
  assert (c < m (drn d)) as Hc' by (by rewrite (ev_m _ _ E)).
  destruct (push_flow_wf (drn d) c df W Hc' ltac:(lia)) as [W1 E1].
  destruct I. constructor; simpl; try done.
  - by apply (evolves_trans _ (drn d)).
  - unfold DinitzCherkassky.adj. by apply history_ok_snoc.
Qed.

Lemma push_below r d c df :
  dfs_inv d → c < m rn0 → (0 < df ≤ rc (dadj d) c)%Z →
  (drk d !!! tail (adjlist rn0) c ≤ r)%Z →
  (drk d !!! hd (adjlist rn0) c ≤ r)%Z →
  below r d (DinitzCherkassky.push d c df).
Proof.
  intros I Hc Hdf H1 H2. pose proof (di_wf _ I) as W. pose proof (di_ev _ I) as E.
  assert (c < m (drn d)) as Hc' by (by rewrite (ev_m _ _ E)).
  constructor; simpl; try done.
  intros a Ha Hr. unfold DinitzCherkassky.adj.
  rewrite (push_flow_rc_exact (drn d) c df a W Hc' ltac:(lia)).
  rewrite decide_False by (intros ->; lia).
  rewrite decide_False; [done|]. intros ->.
  rewrite <- (evolves_tail _ _ _ E), (wf_tail_twin _ _ W Hc'), (ev_hd _ _ E) in Hr. lia.
Qed.

Lemma push_net_out d c df x :
  dfs_inv d → c < m rn0 → (0 < df ≤ rc (dadj d) c)%Z → x < n rn0 →
  net_out rn0 (drn (DinitzCherkassky.push d c df)) x
  = (net_out rn0 (drn d) x
     + (if decide (x = tail (adjlist rn0) c) then df else 0)
     - (if decide (x = hd (adjlist rn0) c) then df else 0))%Z.
Proof.
  intros I Hc Hdf Hx. pose proof (di_wf _ I) as W. pose proof (di_ev _ I) as E.
  assert (c < m (drn d)) as Hc' by (by rewrite (ev_m _ _ E)).
  simpl. unfold DinitzCherkassky.adj.
  rewrite (push_flow_net_out rn0 (drn d) c df x W E Hc' ltac:(lia))
    by (by rewrite (ev_n _ _ E)).
  by rewrite (evolves_tail _ _ _ E), (ev_hd _ _ E).
Qed.

(** An arc passes the test of [dfs_phase_loop] only when it goes one rank down. *)
Lemma admissible_spec d u h :
  dfs_inv d → u < n rn0 → h < n rn0 → u ≠ sink rn0 →
  (drk d !!! u =? wrap32 (drk d !!! h + 1))%Z = true →
  drk d !!! u = (drk d !!! h + 1)%Z.
Proof.
  intros I Hu Hh Hus Heq. apply Z.eqb_eq in Heq.
  pose proof (di_rank _ I u Hu) as Ru. pose proof (di_rank _ I h Hh) as Rh.
  unfold Unreached in *.
  destruct (decide (drk d !!! h = 4294967295%Z)) as [E|E].
  - rewrite E in Heq. change (wrap32 (4294967295 + 1)) with 0%Z in Heq.
    by apply (di_zero _ I u Hu) in Heq.
  - rewrite Heq. unfold wrap32. apply Z.mod_small. lia.
Qed.

Lemma dfs_correct k :
  (∀ u flow d res,
     DinitzCherkassky.dfs_phase_loop k u flow d = Some res →
     dfs_inv d → u < n rn0 → (0 ≤ flow)%Z → dfs_post u flow d res) ∧
  (∀ u flow d res,
     DinitzCherkassky.dfs_for k u flow d = Some res →
     dfs_inv d → u < n rn0 → u ≠ sink rn0 → (0 < flow)%Z → dfs_post u flow d res).
Proof.
  induction k as [|k [IHP IHQ]]; [done|]. split.
  - intros u flow d res H I Hu Hflow. simpl in H.
    destruct (Z.eqb_spec flow 0) as [->|Hf0]; simpl in H.
    { injection H as <-. split4; [done | simpl; lia | apply below_refl |].
      intros x Hx. simpl. repeat case_decide; lia. }
    destruct (Nat.eqb_spec u (sink (drn d))) as [Hs|Hs].
    { injection H as <-. split4; [done | simpl; lia | apply below_refl |].
      intros x Hx. simpl. rewrite (ev_sink _ _ (di_ev _ I)) in Hs.
      repeat case_decide; try lia; congruence. }
    apply IHQ; try done; [|lia].
    by rewrite <- (ev_sink _ _ (di_ev _ I)).
  - intros u flow d res H I Hu Hus Hflow. simpl in H.
    pose proof (di_wf _ I) as W. pose proof (di_ev _ I) as E.
    set (c := dcur d !!! u) in *.
    pose proof (di_cur _ I u Hu) as Hcur. fold c in Hcur.
    rewrite (evolves_span_end _ _ u E) in H.
    destruct (Nat.eqb_spec c (span_end rn0 u)) as [Hend|Hend].
    { injection H as <-. split4; [done | simpl; lia | apply below_refl |].
      intros x Hx. simpl. repeat case_decide; lia. }
    assert (c < m (drn d) ∧ tail (dadj d) c = u) as [Hc Htail].
    { apply (wf_in _ W); [by rewrite (ev_n _ _ E)|]. unfold in_span.
      rewrite (evolves_span_begin _ _ u E), (evolves_span_end _ _ u E). lia. }
    assert (c < m rn0) as Hc0 by (by rewrite <- (ev_m _ _ E)).
    assert (tail (adjlist rn0) c = u) as Htail0
      by (by rewrite <- (evolves_tail _ _ _ E)).
    pose proof (wf_head _ W c Hc) as Hh. rewrite (ev_n _ _ E) in Hh.
    unfold DinitzCherkassky.adj in H.
    set (h := hd (dadj d) c) in *.
    assert (hd (adjlist rn0) c = h) as Hh0 by (by rewrite <- (ev_hd _ _ E)).
    destruct ((drk d !!! u =? wrap32 (drk d !!! h + 1))%Z
              && ResidualArc.is_residual (dadj d !!! c)) eqn:Adm.
    + apply andb_true_iff in Adm as [A1 A2].
      apply (admissible_spec d u h I Hu Hh Hus) in A1.
      apply is_residual_spec in A2.
      destruct (wf_rc _ W c Hc) as [Hrc0 _].
      destruct (DinitzCherkassky.dfs_phase_loop k h _ d) as [[df1 d1]|] eqn:R; [|done].
      apply IHP in R; [| done | done | lia].
      destruct R as (I1 & F1 & B1 & N1). simpl in I1, F1, B1, N1.
      assert (rc (dadj d1) c = rc (dadj d) c) as Hrc1.
      { apply (bl_rc _ _ _ B1); [done|]. rewrite Htail0. lia. }
      assert (dcur d1 !!! u = c) as Hcur1.
      { apply (bl_cur _ _ _ B1); [done | lia]. }
      destruct (Z.gtb_spec df1 0) as [Hpos|Hnpos].
      * injection H as <-. simpl.
        assert (0 < df1 ≤ rc (dadj d1) c)%Z as Hdf by lia.
        split4.
        -- by apply push_inv.
        -- simpl. lia.
        -- apply (below_trans _ _ d1); [apply (below_mono (drk d !!! h)); [lia|done]|].
           rewrite <- (bl_rank _ _ _ B1).
           apply push_below; try done; rewrite ?Htail0, ?Hh0, (bl_rank _ _ _ B1); lia.
        -- intros x Hx.
           pose proof (push_net_out d1 c df1 x I1 Hc0 Hdf Hx) as PN.
           simpl in PN. simpl. rewrite PN, N1 by done.
           rewrite Htail0, Hh0. repeat case_decide; lia.
      * assert (df1 = 0%Z) as -> by lia.
        apply IHQ in H; [| apply step_inv; [done | done | lia] | done | done | done].
        apply (dfs_post_pre u flow d (DinitzCherkassky.step_current_arc d1 u)); [| |done].
        -- apply (below_trans _ _ d1); [apply (below_mono (drk d !!! h)); [lia|done]|].
           rewrite <- (bl_rank _ _ _ B1). apply step_below.
        -- intros x Hx. simpl. rewrite N1 by done. repeat case_decide; lia.
    + apply IHQ in H; [| apply step_inv; [done | done | lia] | done | done | done].
      apply (dfs_post_pre u flow d (DinitzCherkassky.step_current_arc d u)); [| |done].
      * apply step_below.
      * done.
Qed.
End dfs.

(** ** More fuel changes nothing *)

Lemma dfs_mono k :
  (∀ u flow d res k',
     DinitzCherkassky.dfs_phase_loop k u flow d = Some res → k ≤ k' →
     DinitzCherkassky.dfs_phase_loop k' u flow d = Some res) ∧
  (∀ u flow d res k',
     DinitzCherkassky.dfs_for k u flow d = Some res → k ≤ k' →
     DinitzCherkassky.dfs_for k' u flow d = Some res).
Proof.
  induction k as [|k [IHP IHQ]]; [done|].
  split; intros u flow d res k' H Hk; (destruct k' as [|k']; [lia|]); simpl in *.
  - destruct (_ || _); [done|]. apply IHQ; [done | lia].
  - destruct (_ =? _); [done|].
    destruct (_ && _).
    + destruct (DinitzCherkassky.dfs_phase_loop k _ _ d) as [[df1 d1]|] eqn:R; [|done].
      rewrite (IHP _ _ _ _ k' R) by lia.
      destruct (df1 >? 0)%Z; [done|]. apply IHQ; [done | lia].
    + apply IHQ; [done | lia].
Qed.

Lemma phase_mono k k' d mf res :
  DinitzCherkassky.phase k d mf = Some res → k ≤ k' →
  DinitzCherkassky.phase k' d mf = Some res.
Proof.
  revert k' d mf. induction k as [|k IH]; intros k' d mf H Hk; [done|].
  destruct k' as [|k']; [lia|]. simpl in *.
  destruct (DinitzCherkassky.dfs_phase_loop k _ _ d) as [[df d1]|] eqn:R; [|done].
  rewrite (proj1 (dfs_mono k) _ _ _ _ k' R) by lia.
  destruct (df =? 0)%Z; [done|]. apply IH; [done | lia].
Qed.

Lemma phases_mono k k' d mf res :
  DinitzCherkassky.phases k d mf = Some res → k ≤ k' →
  DinitzCherkassky.phases k' d mf = Some res.
Proof.
  revert k' d mf. induction k as [|k IH]; intros k' d mf H Hk; [done|].
  destruct k' as [|k']; [lia|]. simpl in *.
  destruct (DinitzCherkassky.bfs_compute_rank d) as [d1 [|]]; [|done].
  destruct (DinitzCherkassky.phase k _ mf) as [[d2 mf2]|] eqn:R; [|done].
  rewrite (phase_mono k k' _ _ _ R) by lia. apply IH; [done | lia].
Qed.

Section dfs_runs.
Context (rn0 : ResidualNetwork.t).
Local Abbreviation Unreached := DinitzCherkassky.Unreached.

(** ** The search returns *)

Lemma dfs_for_terminates u flow (d0 : DinitzCherkassky.t) :
  u < n rn0 → u ≠ sink rn0 → (0 < flow)%Z →
  (∀ h flow' d, dfs_inv rn0 d → drk d = drk d0 → h < n rn0 → (0 ≤ flow')%Z →
     (drk d0 !!! h < drk d0 !!! u)%Z →
     ∃ k res, DinitzCherkassky.dfs_phase_loop k h flow' d = Some res) →
  ∀ j d, dfs_inv rn0 d → drk d = drk d0 →
    span_end rn0 u - dcur d !!! u ≤ j →
    ∃ k res, DinitzCherkassky.dfs_for k u flow d = Some res.
Proof.
  intros Hu Hus Hflow Hrec.
  induction j as [|j IH]; intros d I Hrk Hj;
    pose proof (di_wf _ _ I) as W; pose proof (di_ev _ _ I) as E;
    pose proof (di_cur _ _ I u Hu) as Hcur.
  - exists 1, (0%Z, d). simpl. rewrite (evolves_span_end _ _ u E).
    destruct (Nat.eqb_spec (dcur d !!! u) (span_end rn0 u)); [done | lia].
  - destruct (decide (dcur d !!! u = span_end rn0 u)) as [Hend|Hend].
    { exists 1, (0%Z, d). simpl. rewrite (evolves_span_end _ _ u E).
      destruct (Nat.eqb_spec (dcur d !!! u) (span_end rn0 u)); [done | lia]. }
    set (c := dcur d !!! u) in *.
    assert (c < m (drn d) ∧ tail (dadj d) c = u) as [Hc Htail].
    { apply (wf_in _ W); [by rewrite (ev_n _ _ E)|]. unfold in_span.
      rewrite (evolves_span_begin _ _ u E), (evolves_span_end _ _ u E). lia. }
    pose proof (wf_head _ W c Hc) as Hh. rewrite (ev_n _ _ E) in Hh.
    set (h := hd (dadj d) c) in *.
    destruct (IH (DinitzCherkassky.step_current_arc d u)) as (k2 & res2 & R2).
    { apply step_inv; [done | done | fold c; lia]. }
    { done. }
    { simpl. rewrite list_lookup_total_insert_eq by (rewrite (di_cur_len _ _ I); lia).
      fold c. lia. }
    destruct ((drk d !!! u =? wrap32 (drk d !!! h + 1))%Z
              && ResidualArc.is_residual (dadj d !!! c)) eqn:Adm.
    + pose proof Adm as Adm'. apply andb_true_iff in Adm' as [A1 A2].
      apply (admissible_spec rn0 d u h I Hu Hh Hus) in A1.
      destruct (wf_rc _ W c Hc) as [Hrc0 _].
      assert (0 ≤ Z.min flow (rc (dadj d) c))%Z as Hmin by lia.
      destruct (Hrec h (Z.min flow (rc (dadj d) c)) d I Hrk Hh Hmin)
        as (k1 & [df1 d1] & R1).
      { rewrite <- Hrk. lia. }
      pose proof (proj1 (dfs_correct rn0 k1) _ _ _ _ R1 I Hh ltac:(lia))
        as (I1 & F1 & B1 & N1). simpl in I1, F1, B1, N1.
      assert (dcur d1 !!! u = c) as Hcur1.
      { apply (bl_cur _ _ _ _ B1); [done | lia]. }
      destruct (Z.gtb_spec df1 0) as [Hpos|Hnpos].
      * exists (S k1), (df1, DinitzCherkassky.push d1 c df1). simpl.
        rewrite (evolves_span_end _ _ u E). fold c.
        destruct (Nat.eqb_spec c (span_end rn0 u)); [done|].
        unfold DinitzCherkassky.adj. fold h. rewrite Adm, R1.
        destruct (Z.gtb_spec df1 0); [done | lia].
      * destruct (IH (DinitzCherkassky.step_current_arc d1 u)) as (k3 & res3 & R3).
        { apply step_inv; [done | done | rewrite Hcur1; lia]. }
        { simpl. by rewrite (bl_rank _ _ _ _ B1). }
        { simpl.
          rewrite list_lookup_total_insert_eq by (rewrite (di_cur_len _ _ I1); lia).
          rewrite Hcur1. lia. }
        exists (S (max k1 k3)), res3. simpl.
        rewrite (evolves_span_end _ _ u E). fold c.
        destruct (Nat.eqb_spec c (span_end rn0 u)); [done|].
        unfold DinitzCherkassky.adj. fold h. rewrite Adm.
        rewrite (proj1 (dfs_mono k1) _ _ _ _ (max k1 k3) R1) by lia.
        destruct (Z.gtb_spec df1 0); [lia|].
        apply (proj2 (dfs_mono k3)); [done | lia].
    + exists (S k2), res2. simpl.
      rewrite (evolves_span_end _ _ u E). fold c.
      destruct (Nat.eqb_spec c (span_end rn0 u)); [done|].
      unfold DinitzCherkassky.adj. fold h. by rewrite Adm.
Qed.

Lemma dfs_terminates r :
  ∀ u flow d, dfs_inv rn0 d → u < n rn0 → (0 ≤ flow)%Z →
    (drk d !!! u ≤ Z.of_nat r)%Z →
    ∃ k res, DinitzCherkassky.dfs_phase_loop k u flow d = Some res.
Proof.
  induction r as [r IH] using lt_wf_ind. intros u flow d I Hu Hflow Hr.
  pose proof (di_ev _ _ I) as E.
  destruct (decide (flow = 0%Z ∨ u = sink rn0)) as [Hstop|Hgo].
  { exists 1, (flow, d). simpl. rewrite (ev_sink _ _ E).
    destruct (Z.eqb_spec flow 0); [done|].
    destruct (Nat.eqb_spec u (sink rn0)); [done | naive_solver]. }
  assert (flow ≠ 0%Z ∧ u ≠ sink rn0) as [Hf0 Hus] by naive_solver.
  destruct (dfs_for_terminates u flow d Hu Hus ltac:(lia)) with
    (j := span_end rn0 u - dcur d !!! u) (d := d) as (k & res & R); try done.
  { intros h flow' d' I' Hrk Hh Hflow' Hlt.
    pose proof (di_rank _ _ I h Hh) as Rh.
    apply (IH (Z.to_nat (drk d !!! h))); try done; [lia | rewrite Hrk; lia]. }
  exists (S k), res. simpl. rewrite (ev_sink _ _ E).
  destruct (Z.eqb_spec flow 0); [done|].
  destruct (Nat.eqb_spec u (sink rn0)); [done | done].
Qed.

(** ** The first search of a phase finds a path *)

(** The cursors of the vertices of rank at most [r] are at the start. *)
Definition fresh (d : DinitzCherkassky.t) (r : Z) : Prop :=
  ∀ x, x < n rn0 → (drk d !!! x ≤ r)%Z → dcur d !!! x = span_begin rn0 x.

(** Every ranked vertex but the sink has an arc with residual capacity
    one rank down. *)
Definition alive (d : DinitzCherkassky.t) : Prop :=
  ∀ v, v < n rn0 → drk d !!! v ≠ Unreached → v ≠ sink rn0 →
    ∃ a, in_span rn0 v a ∧ rc (dadj d) a ≠ 0%Z ∧
         drk d !!! v = (drk d !!! hd (adjlist rn0) a + 1)%Z.

Lemma dfs_progress k :
  (∀ u flow d res,
     DinitzCherkassky.dfs_phase_loop k u flow d = Some res →
     dfs_inv rn0 d → u < n rn0 → (0 < flow)%Z → drk d !!! u ≠ Unreached →
     fresh d (drk d !!! u) → alive d → (0 < res.1)%Z) ∧
  (∀ u flow d res,
     DinitzCherkassky.dfs_for k u flow d = Some res →
     dfs_inv rn0 d → u < n rn0 → u ≠ sink rn0 → (0 < flow)%Z →
     drk d !!! u ≠ Unreached → fresh d (drk d !!! u - 1) → alive d →
     (∃ a, dcur d !!! u ≤ a < span_end rn0 u ∧ rc (dadj d) a ≠ 0%Z ∧
           drk d !!! u = (drk d !!! hd (adjlist rn0) a + 1)%Z) →
     (0 < res.1)%Z).
Proof.
  induction k as [|k [IHP IHQ]]; [done|]. split.
  - intros u flow d res H I Hu Hflow Hru Hfr Hal. simpl in H.
    pose proof (di_ev _ _ I) as E.
    destruct (Z.eqb_spec flow 0) as [->|Hf0]; [lia|]. simpl in H.
    rewrite (ev_sink _ _ E) in H.
    destruct (Nat.eqb_spec u (sink rn0)) as [Hs|Hs].
    { injection H as <-. simpl. lia. }
    apply IHQ in H; try done.
    + intros x Hx Hr. apply Hfr; [done | lia].
    + destruct (Hal u Hu Hru Hs) as (a & Ha & Hrc & Hrk).
      exists a. split_and!; try done; [|apply Ha].
      rewrite (Hfr u Hu ltac:(lia)). apply Ha.
  - intros u flow d res H I Hu Hus Hflow Hru Hfr Hal (a & Ha & Harc & Hark).
    simpl in H.
    pose proof (di_wf _ _ I) as W. pose proof (di_ev _ _ I) as E.
    pose proof (di_cur _ _ I u Hu) as Hcur.
    set (c := dcur d !!! u) in *.
    rewrite (evolves_span_end _ _ u E) in H.
    destruct (Nat.eqb_spec c (span_end rn0 u)) as [Hend|Hend]; [lia|].
    assert (c < m (drn d) ∧ tail (dadj d) c = u) as [Hc Htail].
    { apply (wf_in _ W); [by rewrite (ev_n _ _ E)|]. unfold in_span.
      rewrite (evolves_span_begin _ _ u E), (evolves_span_end _ _ u E). lia. }
    pose proof (wf_head _ W c Hc) as Hh. rewrite (ev_n _ _ E) in Hh.
    unfold DinitzCherkassky.adj in H.
    set (h := hd (dadj d) c) in *.
    pose proof (di_rank _ _ I u Hu) as Ru.
    destruct ((drk d !!! u =? wrap32 (drk d !!! h + 1))%Z
              && ResidualArc.is_residual (dadj d !!! c)) eqn:Adm.
    + apply andb_true_iff in Adm as [A1 A2].
      apply (admissible_spec rn0 d u h I Hu Hh Hus) in A1.
      apply is_residual_spec in A2.
      destruct (wf_rc _ W c Hc) as [Hrc0 _].
      destruct (DinitzCherkassky.dfs_phase_loop k h _ d) as [[df1 d1]|] eqn:R; [|done].
      apply IHP in R; try done.
      * simpl in R. destruct (Z.gtb_spec df1 0) as [Hpos|Hnpos]; [|lia].
        injection H as <-. done.
      * lia.
      * unfold Unreached in *. lia.
      * intros x Hx Hr. apply Hfr; [done | lia].
    + assert (dfs_inv rn0 (DinitzCherkassky.step_current_arc d u)) as I2.
      { apply step_inv; [done | done | fold c; lia]. }
      assert (fresh (DinitzCherkassky.step_current_arc d u) (drk d !!! u - 1)) as F2.
      { intros x Hx Hr. simpl in *.
        rewrite list_lookup_total_insert_ne by (intros ->; lia). by apply Hfr. }
      apply (IHQ _ _ _ _ H I2 Hu Hus Hflow Hru F2 Hal).
      exists a. simpl.
        rewrite list_lookup_total_insert_eq by (rewrite (di_cur_len _ _ I); lia).
        fold c. split_and!; try done; [|lia].
        destruct (decide (a = c)) as [->|Hne]; [|lia].
        exfalso.
        assert (hd (adjlist rn0) c = h) as Hh0 by (by rewrite <- (ev_hd _ _ E)).
        rewrite Hh0 in Hark.
        apply andb_false_iff in Adm as [A1|A2].
        -- apply Z.eqb_neq in A1. apply A1. rewrite Hark.
           unfold wrap32. rewrite Z.mod_small; [done|].
           pose proof (di_rank _ _ I h Hh). unfold Unreached in *. lia.
        -- apply is_residual_false in A2. done.
Qed.
End dfs_runs.

(** ** The phases of Dinitz-Cherkassky *)

(** The flow is conserved and [mf] is its value, as [flow_t]. *)
Definition flow_ok (rn0 rn : ResidualNetwork.t) (mf : Z) : Prop :=
  conserving rn0 rn ∧
  mf = wrap32 (net_out rn0 rn (source rn0)) ∧
  (net_out rn0 rn (source rn0) + net_out rn0 rn (sink rn0) = 0)%Z.

Section phases.
Context (rn0 : ResidualNetwork.t).
Local Abbreviation Unreached := DinitzCherkassky.Unreached.

Lemma dfs_from_source d mf k df d1 :
  dfs_inv rn0 d → flow_ok rn0 (drn d) mf →
  DinitzCherkassky.dfs_phase_loop k (source (drn d)) DinitzCherkassky.InfiniteFlow d
    = Some (df, d1) →
  dfs_inv rn0 d1 ∧ flow_ok rn0 (drn d1) (wrap32 (mf + df)) ∧ (0 ≤ df)%Z ∧
  drk d1 = drk d ∧
  DinitzCherkassky.bfs_ordering d1 = DinitzCherkassky.bfs_ordering d ∧
  slack (drn d1) = (slack (drn d) - df)%Z.
Proof.
  intros I (Hc & Hmf & Hbal) R.
  pose proof (di_wf _ _ I) as W. pose proof (di_ev _ _ I) as E.
  pose proof (wf_source _ W) as Hs. pose proof (wf_sink _ W) as Ht.
  pose proof (wf_st _ W) as Hst.
  rewrite (ev_n _ _ E) in Hs, Ht.
  rewrite (ev_source _ _ E) in Hs, Hst, R. rewrite (ev_sink _ _ E) in Ht, Hst.
  apply (proj1 (dfs_correct rn0 k)) in R; [| done | done | done].
  destruct R as (I1 & F1 & B1 & N1). simpl in I1, F1, B1, N1.
  assert (net_out rn0 (drn d1) (source rn0)
          = net_out rn0 (drn d) (source rn0) + df)%Z as Ns.
  { rewrite N1 by done. rewrite decide_True by done.
    rewrite decide_False by done. lia. }
  split_and!; [done | | lia | apply (bl_rank _ _ _ _ B1) | apply (bl_ord _ _ _ _ B1) |].
  - split_and!.
    + intros x Hx Hxs Hxt. rewrite N1 by done. rewrite (Hc x Hx Hxs Hxt).
      rewrite !decide_False by done. lia.
    + rewrite Ns, Hmf, wrap32_add_l. done.
    + rewrite Ns, N1 by done. rewrite decide_False by done.
      rewrite decide_True by done. lia.
  - pose proof (net_out_slack rn0 _ E) as S0.
    pose proof (net_out_slack rn0 _ (di_ev _ _ I1)) as S1. lia.
Qed.

Lemma phase_terminates j :
  ∀ d mf, dfs_inv rn0 d → flow_ok rn0 (drn d) mf →
    (slack (drn d) ≤ Z.of_nat j)%Z →
    ∃ k d' mf',
      DinitzCherkassky.phase k d mf = Some (d', mf') ∧
      dfs_inv rn0 d' ∧ flow_ok rn0 (drn d') mf' ∧
      DinitzCherkassky.bfs_ordering d' = DinitzCherkassky.bfs_ordering d ∧
      (slack (drn d') ≤ slack (drn d))%Z ∧
      (drk d !!! source rn0 ≠ Unreached → fresh rn0 d (drk d !!! source rn0) →
       alive rn0 d → (slack (drn d') < slack (drn d))%Z).
Proof.
  induction j as [|j IH]; intros d mf I F Hj;
    pose proof (di_wf _ _ I) as W; pose proof (di_ev _ _ I) as E;
    pose proof (wf_source _ W) as Hs; rewrite (ev_n _ _ E) in Hs;
    (destruct (dfs_terminates rn0 (Z.to_nat (drk d !!! source (drn d)))
               (source (drn d)) DinitzCherkassky.InfiniteFlow d I Hs ltac:(done))
      as (k1 & [df d1] & R1);
     [pose proof (di_rank _ _ I _ Hs); lia|]);
    destruct (dfs_from_source d mf k1 df d1 I F R1) as (I1 & F1 & Hdf & Rk1 & O1 & S1);
    pose proof (slack_nonneg _ (di_wf _ _ I1)) as Hnn;
    (assert (drk d !!! source rn0 ≠ Unreached → fresh rn0 d (drk d !!! source rn0) →
             alive rn0 d → (0 < df)%Z) as Hprog;
     [intros Hru Hfr Hal; rewrite (ev_source _ _ E) in R1, Hs;
      apply (proj1 (dfs_progress rn0 k1) _ _ _ _ R1 I Hs ltac:(done) Hru Hfr Hal)|]);
    destruct (decide (df = 0%Z)) as [->|Hne].
  - exists (S k1), d1, (wrap32 (mf + 0)). simpl. rewrite R1. simpl.
    split_and!; try done; [lia|]. intros Hru Hfr Hal.
    specialize (Hprog Hru Hfr Hal). lia.
  - lia.
  - exists (S k1), d1, (wrap32 (mf + 0)). simpl. rewrite R1. simpl.
    split_and!; try done; [lia|]. intros Hru Hfr Hal.
    specialize (Hprog Hru Hfr Hal). lia.
  - destruct (IH d1 _ I1 F1 ltac:(lia)) as (k2 & d' & mf' & P2 & I2 & F2 & O2 & S2 & _).
    exists (S (max k1 k2)), d', mf'. simpl.
    rewrite (proj1 (dfs_mono k1) _ _ _ _ (max k1 k2) R1) by lia.
    destruct (Z.eqb_spec df 0) as [?|_]; [done|].
    split_and!; try done.
    + apply (phase_mono k2); [done | lia].
    + congruence.
    + lia.
    + intros _ _ _. lia.
Qed.

(** The state of the solver between two phases. *)
Record dc_outer (d : DinitzCherkassky.t) (mf : Z) : Prop := DcOuter {
  do_wf : wf (drn d);
  do_ev : evolves rn0 (drn d);
  do_cur_len : length (dcur d) = n rn0;
  do_rk_len : length (drk d) = n rn0;
  do_ord_len : length (DinitzCherkassky.bfs_ordering d) = n rn0;
  do_first : DinitzCherkassky.bfs_ordering d !!! 0 = sink rn0;
  do_hist : history_ok rn0 (DinitzCherkassky.history d) (dadj d);
  do_flow : flow_ok rn0 (drn d) mf }.

(** The layering is complete: what [rank_loop] leaves behind. *)
Definition layered (d : DinitzCherkassky.t) : Prop :=
  ∃ lst,
    rank_inv (drn d) (drk d, DinitzCherkassky.bfs_ordering d, lst) ∧
    rscanned (drn d) (drk d, DinitzCherkassky.bfs_ordering d, lst) lst.

Lemma bfs_compute_rank_spec d mf :
  dc_outer d mf →
  let r := DinitzCherkassky.bfs_compute_rank d in
  dc_outer r.1 mf ∧ drn r.1 = drn d ∧ layered r.1 ∧
  r.2 = negb (drk r.1 !!! source rn0 =? Unreached)%Z.
Proof.
  intros O. pose proof (do_wf _ _ O) as W. pose proof (do_ev _ _ O) as E.
  pose proof (wf_sink _ W) as Ht. pose proof (wf_n _ W) as Hn32.
  assert (n (drn d) = n rn0) as En by apply (ev_n _ _ E).
  assert (sink (drn d) = sink rn0) as Et by apply (ev_sink _ _ E).
  unfold DinitzCherkassky.bfs_compute_rank.
  set (rk0 := <[sink (drn d) := 0%Z]> (replicate (length (drk d)) Unreached)).
  assert (rank_inv (drn d) (rk0, DinitzCherkassky.bfs_ordering d, 1)) as I0.
  { assert (rqueue (rk0, DinitzCherkassky.bfs_ordering d, 1) = [sink (drn d)]) as Hq.
    { unfold rqueue. simpl.
      destruct (DinitzCherkassky.bfs_ordering d) as [|x o] eqn:Eo.
      - pose proof (do_ord_len _ _ O) as L. rewrite Eo in L. simpl in L. lia.
      - pose proof (do_first _ _ O) as F. rewrite Eo in F.
        change (x = sink rn0) in F. cbn. rewrite take_0. congruence. }
    assert (∀ v, v < n (drn d) → v ≠ sink (drn d) → rk0 !!! v = Unreached) as Hun.
    { intros v Hv Hne. unfold rk0. rewrite list_lookup_total_insert_ne by done.
      apply lookup_total_replicate_2. rewrite (do_rk_len _ _ O). lia. }
    assert (rk0 !!! sink (drn d) = 0%Z) as Hsk.
    { unfold rk0. apply list_lookup_total_insert_eq.
      rewrite length_replicate, (do_rk_len _ _ O). lia. }
    constructor; simpl; rewrite ?Hq.
    - unfold rk0. rewrite length_insert, length_replicate, (do_rk_len _ _ O). done.
    - rewrite (do_ord_len _ _ O). done.
    - lia.
    - rewrite (do_first _ _ O). done.
    - apply NoDup_singleton.
    - intros v ->%list_elem_of_singleton. done.
    - intros v Hv. rewrite list_elem_of_singleton.
      destruct (decide (v = sink (drn d))) as [->|Hne].
      + rewrite Hsk. unfold Unreached. naive_solver.
      + rewrite Hun by done. naive_solver.
    - intros i Hi. assert (i = 0) as -> by lia.
      rewrite (do_first _ _ O), <- Et, Hsk. lia.
    - intros v Hv Hnin. rewrite list_elem_of_singleton in Hnin. by apply Hun.
    - done.
    - intros v Hv Hz. destruct (decide (v = sink (drn d))) as [->|Hne]; [done|].
      rewrite Hun in Hz by done. done.
    - intros v ->%list_elem_of_singleton Hne. done. }
  pose proof (rank_loop_spec (drn d) W (length (DinitzCherkassky.bfs_ordering d)) 0
                _ I0) as L.
  specialize (L ltac:(simpl; lia)
                ltac:(rewrite (do_ord_len _ _ O); lia)
                ltac:(intros i a Hi; lia)).
  simpl in L.
  destruct (DinitzCherkassky.rank_loop _ _ _ _) as [[rk ord] lst]. simpl.
  destruct L as [Li Ls].
  split_and!; [| done | by exists lst | by rewrite (ev_source _ _ E)].
  destruct O. constructor; simpl; try done.
  - rewrite <- En. apply (ri_rk_len _ _ Li).
  - rewrite <- En. apply (ri_ord_len _ _ Li).
  - rewrite <- Et. apply (ri_first _ _ Li).
Qed.

Lemma reset_spec d mf :
  dc_outer d mf → layered d →
  let d' := DinitzCherkassky.reset_current_arc d in
  dfs_inv rn0 d' ∧ alive rn0 d' ∧ (∀ r, fresh rn0 d' r) ∧
  drn d' = drn d ∧ drk d' = drk d ∧
  DinitzCherkassky.bfs_ordering d' = DinitzCherkassky.bfs_ordering d.
Proof.
  intros O (lst & Li & Ls). pose proof (do_wf _ _ O) as W. pose proof (do_ev _ _ O) as E.
  assert (n (drn d) = n rn0) as En by apply (ev_n _ _ E).
  assert (sink (drn d) = sink rn0) as Et by apply (ev_sink _ _ E).
  destruct (begin_cursors_spec (drn d) (dcur d)) as [CL CB].
  { by rewrite (do_cur_len _ _ O). }
  simpl. split_and!; try done.
  - constructor; simpl; try apply O.
    + by rewrite CL.
    + intros x Hx. rewrite CB by lia. rewrite (evolves_span_begin _ _ x E).
      pose proof (wf_span_le _ W x ltac:(lia)) as P.
      rewrite (evolves_span_begin _ _ x E), (evolves_span_end _ _ x E) in P. lia.
    + intros v Hv. apply (rank_range (drn d) W _ v Li). lia.
    + intros v Hv Hz. rewrite <- Et. apply (ri_zero _ _ Li v); [lia | done].
  - intros v Hv Hr Hvs. simpl in *.
    assert (v ∈ rqueue (drk d, DinitzCherkassky.bfs_ordering d, lst)) as Hq.
    { apply (ri_reached _ _ Li v); [lia | done]. }
    destruct (ri_witness _ _ Li v Hq ltac:(congruence)) as (a & Ha & Hrc & _ & Hrk).
    simpl in Hrk. exists a. split_and!; [| done |].
    + apply elem_of_arcs_out in Ha. unfold in_span in *.
      by rewrite <- (evolves_span_begin _ _ v E), <- (evolves_span_end _ _ v E).
    + by rewrite <- (ev_hd _ _ E).
  - intros r x Hx _. simpl. rewrite CB by lia. apply (evolves_span_begin _ _ x E).
Qed.

Definition dc_done (r : DinitzCherkassky.t * Z) : Prop :=
  dc_outer r.1 r.2 ∧ layered r.1 ∧ drk r.1 !!! source rn0 = Unreached.

Lemma phases_terminates j :
  ∀ d mf, dc_outer d mf → (slack (drn d) ≤ Z.of_nat j)%Z →
    ∃ k r, DinitzCherkassky.phases k d mf = Some r ∧ dc_done r.
Proof.
  induction j as [|j IH]; intros d mf O Hj;
    pose proof (bfs_compute_rank_spec d mf O) as B; simpl in B;
    destruct (DinitzCherkassky.bfs_compute_rank d) as [d1 reached] eqn:Eb;
    simpl in B; destruct B as (O1 & Ern & L1 & Hfl);
    (destruct (Z.eqb_spec (drk d1 !!! source rn0) Unreached) as [Hun|Hre];
     simpl in Hfl; subst reached;
     [ exists 1, (d1, mf); simpl; rewrite Eb; split; [done|]; by split_and! |]);
    destruct (reset_spec d1 mf O1 L1) as (I2 & A2 & F2 & Ern2 & Erk2 & Eord2);
    set (d2 := DinitzCherkassky.reset_current_arc d1) in *;
    (destruct (phase_terminates (Z.to_nat (slack (drn d2))) d2 mf I2)
       as (k1 & d3 & mf3 & P & I3 & F3 & O3 & S3 & Pr);
     [ rewrite Ern2; apply O1
     | pose proof (slack_nonneg _ (di_wf _ _ I2)); lia |]);
    (assert (slack (drn d3) < slack (drn d))%Z as Hlt;
     [ rewrite <- Ern, <- Ern2; apply Pr; [by rewrite Erk2 | apply F2 | done] |]);
    pose proof (slack_nonneg _ (di_wf _ _ I3)) as Hnn.
  - lia.
  - assert (dc_outer d3 mf3) as O3'.
    { destruct I3. constructor; try done.
      - rewrite O3, Eord2. apply O1.
      - rewrite O3, Eord2. apply O1. }
    destruct (IH d3 mf3 O3' ltac:(lia)) as (k2 & r & P2 & D).
    exists (S (max k1 k2)), r. split; [|done]. simpl. rewrite Eb.
    fold d2. rewrite (phase_mono k1 (max k1 k2) _ _ _ P) by lia.
    apply (phases_mono k2); [done | lia].
Qed.

(** The side of the source, once the layering misses the source. *)
Definition dc_side (d : DinitzCherkassky.t) (x : nat) : bool :=
  bool_decide (drk d !!! x = Unreached).

Lemma dc_done_cut r :
  dc_done r →
  dc_side r.1 (source rn0) = true ∧ dc_side r.1 (sink rn0) = false ∧
  closed_side (drn r.1) (dc_side r.1).
Proof.
  intros (O & (lst & Li & Ls) & Hs).
  pose proof (do_wf _ _ O) as W. pose proof (do_ev _ _ O) as E.
  unfold dc_side. split_and!.
  - by apply bool_decide_eq_true.
  - apply bool_decide_eq_false. rewrite <- (ev_sink _ _ E).
    pose proof (ri_sink _ _ Li) as Z0. simpl in Z0. rewrite Z0. done.
  - intros a Ha Ht Hrc.
    apply bool_decide_eq_true in Ht. apply bool_decide_eq_true.
    destruct (decide (drk r.1 !!! hd (dadj r.1) a = Unreached)) as [|Hre]; [done|].
    exfalso.
    pose proof (wf_head _ W a Ha) as Hh.
    destruct (wf_twin _ W a Ha) as (Htw & Htt & _).
    assert (hd (dadj r.1) a ∈ rqueue (drk r.1, DinitzCherkassky.bfs_ordering r.1, lst))
      as Hq by (by apply (ri_reached _ _ Li)).
    destruct (rqueue_elem _ _ _ Li Hq) as (i & Hi & Ei). simpl in Hi, Ei.
    specialize (Ls i (tw (dadj r.1) a) Hi). simpl in Ls.
    rewrite Ei, Htt in Ls.
    apply Ls; [| done | done].
    apply (wf_arcs_out_iff _ _ _ W Hh Htw). by apply wf_tail_twin.
Qed.
End phases.

Section dc_correct.
Context (net : FlowNetwork.t) (Hv : valid net).
Local Abbreviation rn0 := (construct net).

Lemma dc_init_outer : dc_outer rn0 (DinitzCherkassky.construct net) 0%Z.
Proof.
  pose proof (construct_wf net Hv) as W.
  pose proof (wf_sink _ W) as Hs.
  pose proof (construct_n net Hv) as En.
  constructor; simpl.
  - done.
  - apply evolves_refl.
  - by rewrite length_replicate.
  - by rewrite length_replicate.
  - by rewrite length_insert, length_replicate.
  - apply list_lookup_total_insert_eq. rewrite length_replicate. lia.
  - apply history_ok_nil.
  - split_and!.
    + intros x _ _ _. apply net_out_refl.
    + by rewrite net_out_refl.
    + by rewrite !net_out_refl.
Qed.

Lemma dinitz_run_done :
  ∃ r, returns (λ k, DinitzCherkassky.run k net) r ∧ dc_done rn0 r.
Proof.
  destruct (phases_terminates rn0 (Z.to_nat (slack rn0))
              (DinitzCherkassky.construct net) 0%Z dc_init_outer)
    as (fuel & r & L & D).
  { simpl. pose proof (slack_nonneg _ (construct_wf net Hv)). lia. }
  exists r. split; [|done]. exists fuel. intros k Hk.
  by apply (phases_mono fuel).
Qed.
End dc_correct.

(** ** What both solvers leave behind *)

(** [rn] holds a flow of [net] whose value is [mf] as [flow_t], and a set of
    vertices around the source that no arc with residual capacity leaves. *)
Record solved (net : FlowNetwork.t) (rn : ResidualNetwork.t) (mf : Z) : Prop := Solved {
  sv_wf : wf rn;
  sv_ev : evolves (construct net) rn;
  sv_flow : flow_ok (construct net) rn mf;
  sv_cut : ∃ S : nat → bool,
    S (source (construct net)) = true ∧ S (sink (construct net)) = false ∧
    closed_side rn S }.

Lemma ek_solved net s :
  ek_done (construct net) s → solved net (ek_rnetwork s) (ek_maxflow s).
Proof.
  intros D. pose proof D as (I & _ & _). constructor.
  - apply (ei_wf _ _ I).
  - apply (ei_ev _ _ I).
  - split_and!; [apply (ei_cons _ _ I) | apply (ei_value _ _ I) | apply (ei_balance _ _ I)].
  - exists (ek_side s). by apply ek_done_cut.
Qed.

Lemma dc_solved net r :
  dc_done (construct net) r → solved net (drn r.1) r.2.
Proof.
  intros D. pose proof D as (O & _ & _). constructor.
  - apply (do_wf _ _ _ O).
  - apply (do_ev _ _ _ O).
  - apply (do_flow _ _ _ O).
  - exists (dc_side r.1). by apply dc_done_cut.
Qed.

Section solved_network.
Context (net : FlowNetwork.t) (Hv : valid net).
Context (rn : ResidualNetwork.t) (mf : Z) (Hs : solved net rn mf).
Local Abbreviation l := (FlowNetwork.arcs net).
Local Abbreviation rn0 := (construct net).
Local Abbreviation fa := (get_flow_arcs net rn).

Lemma solved_conserving : conserving rn0 rn.
Proof. apply (sv_flow _ _ _ Hs). Qed.

Lemma solved_length : length fa = FlowNetwork.m net.
Proof.
  rewrite (get_flow_arcs_length net Hv rn (sv_ev _ _ _ Hs)). apply Hv.
Qed.

Lemma solved_bounds i a :
  l !! i = Some a → (0 ≤ fa !!! i ≤ CapacityArc.capacity a)%Z.
Proof. apply (extracted_bounds net Hv rn (sv_ev _ _ _ Hs) (sv_wf _ _ _ Hs)). Qed.

Lemma solved_conserved x :
  x < FlowNetwork.n net → x ≠ FlowNetwork.source net → x ≠ FlowNetwork.sink net →
  inflow l fa x = outflow l fa x.
Proof. apply (extracted_conserved net Hv rn (sv_ev _ _ _ Hs) solved_conserving). Qed.

Lemma solved_value : mf = wrap32 (flow_value net fa).
Proof.
  destruct (sv_flow _ _ _ Hs) as (_ & -> & _).
  rewrite (extracted_value net Hv rn (sv_ev _ _ _ Hs)).
  by rewrite (construct_source net Hv).
Qed.

Lemma solved_balance :
  (outflow l fa (FlowNetwork.source net) - inflow l fa (FlowNetwork.source net)
   = inflow l fa (FlowNetwork.sink net) - outflow l fa (FlowNetwork.sink net))%Z.
Proof.
  destruct (sv_flow _ _ _ Hs) as (_ & _ & B).
  rewrite (construct_source net Hv), (construct_sink net Hv) in B.
  rewrite !(net_out_arcs net Hv rn (sv_ev _ _ _ Hs)) in B by apply Hv. lia.
Qed.

Lemma solved_max : is_max_flow_value net (flow_value net fa).
Proof.
  destruct (sv_cut _ _ _ Hs) as (S & HSs & HSt & Hcl).
  rewrite (construct_source net Hv) in HSs. rewrite (construct_sink net Hv) in HSt.
  rewrite (extracted_value net Hv rn (sv_ev _ _ _ Hs)).
  apply (extracted_max net Hv rn (sv_ev _ _ _ Hs) (sv_wf _ _ _ Hs)
           solved_conserving S HSs HSt Hcl).
Qed.

Lemma solved_no_path p : ¬ residual_path rn (source rn) p (sink rn).
Proof.
  destruct (sv_cut _ _ _ Hs) as (S & HSs & HSt & Hcl). intros Hp.
  pose proof (sv_wf _ _ _ Hs) as W. pose proof (sv_ev _ _ _ Hs) as E.
  rewrite <- (ev_source _ _ E) in HSs. rewrite <- (ev_sink _ _ E) in HSt.
  pose proof (closed_side_path rn S p _ _ W Hcl (wf_source _ W) HSs Hp). congruence.
Qed.
End solved_network.

(** ** Histories of pushes *)

(** A call within bounds: an arc of the arena, an amount that is positive
    and at most the residual capacity of the arc. *)
Definition valid_push (rn0 : ResidualNetwork.t) (c : push_call) : Prop :=
  arc c < m rn0 ∧ (0 < amount c ≤ rc (before c) (arc c))%Z.

(** [adj] is the arena of [rn0] after the valid calls [hist]. *)
Definition pushes_from (rn0 : ResidualNetwork.t) (hist : list push_call) (adj : arena)
  : Prop :=
  Forall (valid_push rn0) hist ∧ chain (adjlist rn0) hist adj.

(** Amount pushed through record [b], over a history. *)
Definition pushed_through (hist : list push_call) (b : nat) : Z :=
  sumZ ((λ c, if decide (arc c = b) then amount c else 0%Z) <$> hist).

Lemma call_ok_valid rn0 c : call_ok rn0 c → valid_push rn0 c.
Proof. intros (_ & _ & H1 & H2). by split. Qed.

Lemma history_ok_pushes_from rn0 hist adj :
  history_ok rn0 hist adj → pushes_from rn0 hist adj.
Proof.
  intros [F C]. split; [|done]. eapply Forall_impl; [done|]. apply call_ok_valid.
Qed.

Lemma chain_evolves rn0 hist :
  ∀ adjA adj,
    wf (with_adjlist rn0 adjA) → evolves rn0 (with_adjlist rn0 adjA) →
    Forall (valid_push rn0) hist → chain adjA hist adj →
    wf (with_adjlist rn0 adj) ∧ evolves rn0 (with_adjlist rn0 adj) ∧
    Forall (call_ok rn0) hist ∧
    ∀ b, b < m rn0 →
      rc adj b = (rc adjA b - pushed_through hist b
                  + pushed_through hist (tw (adjlist rn0) b))%Z.
Proof.
  induction hist as [|c h IH]; intros adjA adj W E F C; simpl in C.
  - subst adj. split_and!; [done | done | done |].
    intros b Hb. unfold pushed_through. simpl. lia.
  - destruct C as [Eb C]. apply Forall_cons in F as [[Hc Hf] F].
    rewrite Eb in Hf. subst adjA.
    set (rnA := with_adjlist rn0 (before c)) in *.
    assert (arc c < m rnA) as Hc' by done.
    destruct (push_flow_wf rnA (arc c) (amount c) W Hc' ltac:(simpl; lia)) as [W1 E1].
    simpl in W1, E1.
    destruct (IH (after c) adj W1 (evolves_trans _ _ _ E E1) F C)
      as (W2 & E2 & F2 & R2).
    split_and!; [done | done | |].
    + apply Forall_cons. split; [|done]. split_and!; try done; lia.
    + intros b Hb. rewrite R2 by done. unfold after.
      pose proof (push_flow_rc_exact rnA (arc c) (amount c) b W Hc' ltac:(simpl; lia))
        as RC.
      simpl in RC. rewrite RC. unfold pushed_through. rewrite !fmap_cons, !sumZ_cons.
      destruct (wf_twin _ W (arc c) Hc') as (T1 & T2 & _). simpl in T1, T2.
      destruct (wf_twin _ W b Hb) as (T3 & T4 & _). simpl in T3, T4.
      pose proof (wf_twin_ne _ _ W Hc') as T5. simpl in T5.
      pose proof (ev_tw _ _ E) as Etw. simpl in Etw.
      rewrite <- (Etw b).
      repeat case_decide; subst; try lia; congruence.
Qed.

Lemma chain_prefix adj0 h1 c h2 adj :
  chain adj0 (h1 ++ c :: h2) adj → chain adj0 (h1 ++ [c]) (after c).
Proof.
  revert adj0. induction h1 as [|x h1 IH]; intros adj0; simpl.
  - intros [E _]. done.
  - intros [E C]. split; [done | by apply IH].
Qed.

Section pushes.
Context (net : FlowNetwork.t) (Hv : valid net).
Local Abbreviation l := (FlowNetwork.arcs net).
Local Abbreviation rn0 := (construct net).

Lemma pushes_from_evolves hist adj :
  pushes_from rn0 hist adj →
  wf (with_adjlist rn0 adj) ∧ evolves rn0 (with_adjlist rn0 adj) ∧
  ∀ b, b < m rn0 →
    rc adj b = (rc (adjlist rn0) b - pushed_through hist b
                + pushed_through hist (tw (adjlist rn0) b))%Z.
Proof.
  intros [F C]. pose proof (construct_wf net Hv) as W.
  destruct (chain_evolves rn0 hist (adjlist rn0) adj) as (W1 & E1 & _ & R1);
    rewrite ?with_adjlist_eta; try done; try apply evolves_refl.
Qed.

Lemma pushes_from_prefix h1 c h2 adj :
  pushes_from rn0 (h1 ++ c :: h2) adj → pushes_from rn0 (h1 ++ [c]) (after c).
Proof.
  intros [F C]. split; [|by eapply chain_prefix].
  rewrite Forall_app in F. destruct F as [F1 F2]. apply Forall_cons in F2 as [F2 _].
  apply Forall_app. split; [done|]. by apply Forall_singleton.
Qed.

Lemma pushed_through_nonneg hist adj b :
  pushes_from rn0 hist adj → (0 ≤ pushed_through hist b)%Z.
Proof.
  intros [F _]. unfold pushed_through. apply sumZ_fmap_nonneg.
  intros c Hc. rewrite Forall_forall in F. destruct (F c Hc) as [_ ?].
  case_decide; lia.
Qed.

(** The two records of an arc keep its capacity between them. *)
Definition pair_sums (adj : arena) : Prop :=
  ∀ i a, l !! i = Some a →
    (rc adj (fwd_pos l i a) + rc adj (bwd_pos l i a) = CapacityArc.capacity a)%Z.

Lemma pushes_from_pair_sums hist adj :
  pushes_from rn0 hist adj → pair_sums adj.
Proof.
  intros P. destruct (pushes_from_evolves hist adj P) as (W & E & _).
  intros i a Ha. apply (evolved_pair_sum net Hv _ E i a Ha).
Qed.
End pushes.

(** ** Fuel of the two entry points *)

Lemma edmonds_karp_mono net k k' r :
  edmonds_karp k net = Some r → k ≤ k' → edmonds_karp k' net = Some r.
Proof.
  unfold edmonds_karp, edmonds_karp_run. intros H Hk.
  destruct (ek_loop k (ek_init net)) as [s|] eqn:E; [|done].
  by rewrite (ek_loop_mono k k' _ _ E Hk).
Qed.

Lemma dinitz_call_mono net k k' r :
  DinitzCherkassky.call k net = Some r → k ≤ k' →
  DinitzCherkassky.call k' net = Some r.
Proof.
  unfold DinitzCherkassky.call, DinitzCherkassky.run. intros H Hk.
  destruct (DinitzCherkassky.phases k _ _) as [s|] eqn:E; [|done].
  by rewrite (phases_mono k k' _ _ _ E Hk).
Qed.

Lemma returns_from {A} (run : nat → option A) k r :
  (∀ k k' r, run k = Some r → k ≤ k' → run k' = Some r) →
  run k = Some r → returns run r.
Proof. intros M H. exists k. intros k' Hk. by apply (M k). Qed.

Section results.
Context (net : FlowNetwork.t) (Hv : valid net).
Local Abbreviation rn0 := (construct net).

Lemma edmonds_karp_returns :
  ∃ s, returns (λ k, edmonds_karp_run k net) s ∧ ek_done rn0 s ∧
       returns (λ k, edmonds_karp k net)
         (Flow.mk (ek_maxflow s) (get_flow_arcs net (ek_rnetwork s))).
Proof.
  destruct (edmonds_karp_run_done net Hv) as (s & R & D).
  exists s. split_and!; [done | done |].
  apply (returns_bind _ (λ s, Flow.mk (ek_maxflow s) (get_flow_arcs net (ek_rnetwork s)))).
  done.
Qed.

Lemma dinitz_returns :
  ∃ r, returns (λ k, DinitzCherkassky.run k net) r ∧ dc_done rn0 r ∧
       returns (λ k, DinitzCherkassky.call k net)
         (Flow.mk r.2 (get_flow_arcs net (drn r.1))).
Proof.
  destruct (dinitz_run_done net Hv) as (r & R & D).
  exists r. split_and!; [done | done |].
  apply (returns_bind _ (λ r : DinitzCherkassky.t * Z,
                           Flow.mk r.2 (get_flow_arcs net (drn r.1)))).
  done.
Qed.
End results.

(** ** Two concrete networks *)

(** The worked example of [main.cpp]. *)
Definition minimal_example : FlowNetwork.t :=
  FlowNetwork.mk 6 9 0 5
    [ CapacityArc.mk 0 1 10; CapacityArc.mk 0 2 10; CapacityArc.mk 1 2 2;
      CapacityArc.mk 1 3 4; CapacityArc.mk 1 4 8; CapacityArc.mk 2 4 9;
      CapacityArc.mk 3 5 10; CapacityArc.mk 4 3 6; CapacityArc.mk 4 5 10 ].

(** Three arcs of capacity 2^31: one from the source to the sink, two
    through a middle vertex. *)
Definition overflow_example : FlowNetwork.t :=
  FlowNetwork.mk 3 3 0 2
    [ CapacityArc.mk 0 2 2147483648; CapacityArc.mk 0 1 2147483648;
      CapacityArc.mk 1 2 2147483648 ].

(** What both solvers return on it. *)
Definition overflow_flow : Flow.t :=
  Flow.mk 0 [2147483648; 2147483648; 2147483648]%Z.

Ltac prove_valid :=
  unfold valid; simpl; split_and!; try lia;
  repeat (constructor; [unfold arc_ok; simpl; lia|]); constructor.

Lemma minimal_example_valid : valid minimal_example.
Proof. prove_valid. Defined.

Lemma overflow_example_valid : valid overflow_example.
Proof. prove_valid. Defined.

Example minimal_example_edmonds_karp :
  edmonds_karp 8 minimal_example
  = Some (Flow.mk 19 [10; 9; 0; 4; 6; 9; 9; 5; 10]%Z).
Proof. vm_compute. reflexivity. Qed.

Example minimal_example_dinitz :
  DinitzCherkassky.call 18 minimal_example
  = Some (Flow.mk 19 [10; 9; 0; 4; 6; 9; 9; 5; 10]%Z).
Proof. vm_compute. reflexivity. Qed.

Lemma overflow_example_edmonds_karp :
  edmonds_karp 4 overflow_example = Some overflow_flow.
Proof. vm_compute. reflexivity. Qed.

Lemma overflow_example_dinitz :
  DinitzCherkassky.call 10 overflow_example = Some overflow_flow.
Proof. vm_compute. reflexivity. Qed.

Lemma overflow_example_returns :
  returns (λ k, edmonds_karp k overflow_example) overflow_flow.
Proof.
  apply (returns_from _ 4);
    [intros k k' r; apply edmonds_karp_mono | apply overflow_example_edmonds_karp].
Qed.

Lemma overflow_example_dinitz_returns :
  returns (λ k, DinitzCherkassky.call k overflow_example) overflow_flow.
Proof.
  apply (returns_from _ 10);
    [intros k k' r; apply dinitz_call_mono | apply overflow_example_dinitz].
Qed.

Lemma overflow_example_max : is_max_flow_value overflow_example 4294967296.
Proof.
  destruct (edmonds_karp_returns _ overflow_example_valid) as (s & _ & D & R).
  pose proof (returns_det _ _ _ R overflow_example_returns) as E.
  apply (f_equal Flow.flow_arcs) in E. cbn [Flow.flow_arcs] in E.
  pose proof (solved_max _ overflow_example_valid _ _ (ek_solved _ _ D)) as M.
  rewrite E in M.
  replace 4294967296%Z
    with (flow_value overflow_example (Flow.flow_arcs overflow_flow))
    by (vm_compute; reflexivity).
  exact M.
Qed.

Lemma overflow_example_zero_not_max : ¬ is_max_flow_value overflow_example 0.
Proof.
  intros M. pose proof (is_max_flow_value_unique _ _ _ M overflow_example_max). done.
Qed.

(** The flow that is 0 on every arc is feasible, so a maximum flow value is
    never negative. *)
Lemma arc_sum_zero l : arc_sum l (λ _ _, 0%Z) = 0%Z.
Proof.
  induction l as [|a l IH] using rev_ind; [done|]. rewrite arc_sum_snoc. lia.
Qed.

Lemma zero_flow_feasible net :
  valid net →
  feasible net (replicate (length (FlowNetwork.arcs net)) 0%Z) ∧
  flow_value net (replicate (length (FlowNetwork.arcs net)) 0%Z) = 0%Z.
Proof.
  intros Hv.
  assert (∀ j a, FlowNetwork.arcs net !! j = Some a →
            replicate (length (FlowNetwork.arcs net)) 0%Z !!! j = 0%Z) as Z0.
  { intros j a Ha. apply lookup_total_replicate_2. by apply lookup_lt_Some in Ha. }
  assert (∀ (P : CapacityArc.t → Prop) `{∀ a, Decision (P a)},
            arc_sum (FlowNetwork.arcs net)
              (λ j a, if decide (P a)
                      then replicate (length (FlowNetwork.arcs net)) 0%Z !!! j
                      else 0%Z) = 0%Z) as S0.
  { intros P ?.
    transitivity (arc_sum (FlowNetwork.arcs net) (λ _ _, 0%Z)); [|apply arc_sum_zero].
    apply arc_sum_ext. intros j a Ha. rewrite (Z0 j a Ha). by case_decide. }
  split; [split_and!|].
  - by rewrite length_replicate.
  - intros j a Ha. rewrite (Z0 j a Ha). pose proof (valid_arc net Hv j a Ha) as (_ & _ & _ & ?). lia.
  - intros x _ _ _. unfold inflow, outflow.
    rewrite (S0 (λ a, CapacityArc.head a = x) _), (S0 (λ a, CapacityArc.tail a = x) _). done.
  - unfold flow_value, inflow, outflow.
    rewrite (S0 (λ a, CapacityArc.head a = FlowNetwork.source net) _),
            (S0 (λ a, CapacityArc.tail a = FlowNetwork.source net) _). done.
Qed.

Lemma is_max_flow_value_nonneg net v :
  valid net → is_max_flow_value net v → (0 ≤ v)%Z.
Proof.
  intros Hv [_ M]. destruct (zero_flow_feasible net Hv) as [F E].
  specialize (M _ F). lia.
Qed.

Lemma wrap32_small v : (0 ≤ v < 4294967296)%Z → wrap32 v = v.
Proof. intros H. unfold wrap32. by apply Z.mod_small. Qed.

(** ** Properties of a returned flow *)

Definition within_capacities (net : FlowNetwork.t) (fa : list Z) : Prop :=
  length fa = FlowNetwork.m net ∧
  ∀ i a, FlowNetwork.arcs net !! i = Some a →
    (0 ≤ fa !!! i ≤ CapacityArc.capacity a)%Z.

Definition conserved (net : FlowNetwork.t) (fa : list Z) : Prop :=
  ∀ x, x < FlowNetwork.n net →
    x ≠ FlowNetwork.source net → x ≠ FlowNetwork.sink net →
    inflow (FlowNetwork.arcs net) fa x = outflow (FlowNetwork.arcs net) fa x.

(** Net flow leaving the source, and net flow entering the sink. *)
Definition net_from_source (net : FlowNetwork.t) (fa : list Z) : Z :=
  (outflow (FlowNetwork.arcs net) fa (FlowNetwork.source net)
   - inflow (FlowNetwork.arcs net) fa (FlowNetwork.source net))%Z.

Definition net_into_sink (net : FlowNetwork.t) (fa : list Z) : Z :=
  (inflow (FlowNetwork.arcs net) fa (FlowNetwork.sink net)
   - outflow (FlowNetwork.arcs net) fa (FlowNetwork.sink net))%Z.

(** The 32-bit accumulator [mf] holds the amount [v]: modulo 2^32, and
    exactly when [v] is below 2^32. *)
Definition holds_mod32 (mf v : Z) : Prop :=
  mf = wrap32 v ∧ ((v < 4294967296)%Z → mf = v).

(** No path of arcs with positive residual capacity from source to sink. *)
Definition no_augmenting_path (rn : ResidualNetwork.t) : Prop :=
  ∀ p, ¬ residual_path rn (source rn) p (sink rn).

(** Position in the range of [x] of the record that arc [i] puts there. *)
Definition record_pos (l : list CapacityArc.t) (x i : nat) (a : CapacityArc.t) : nat :=
  if decide (CapacityArc.tail a = x) then fwd_pos l i a else bwd_pos l i a.

Definition endpoint (x : nat) (a : CapacityArc.t) : Prop :=
  CapacityArc.tail a = x ∨ CapacityArc.head a = x.

(** Every call of a history is within bounds, does not wrap, and leaves
    every residual capacity between 0 and what the record started with plus
    what was pushed through its twin. *)
Definition pushes_safe (rn0 : ResidualNetwork.t) (hist : list push_call) : Prop :=
  ∀ h1 c h2, hist = h1 ++ c :: h2 →
    arc c < m rn0 ∧
    (0 < amount c ≤ rc (before c) (arc c))%Z ∧
    rc (after c) (arc c) = (rc (before c) (arc c) - amount c)%Z ∧
    rc (after c) (tw (before c) (arc c))
      = (rc (before c) (tw (before c) (arc c)) + amount c)%Z ∧
    ∀ b, b < m rn0 →
      (0 ≤ rc (after c) b
         ≤ rc (adjlist rn0) b + pushed_through (h1 ++ [c]) (tw (adjlist rn0) b))%Z.

Section claims.
Context (net : FlowNetwork.t) (Hv : valid net).
Local Abbreviation l := (FlowNetwork.arcs net).
Local Abbreviation rn0 := (construct net).

Lemma solved_flow rn mf :
  solved net rn mf →
  within_capacities net (get_flow_arcs net rn) ∧
  conserved net (get_flow_arcs net rn) ∧
  holds_mod32 mf (net_from_source net (get_flow_arcs net rn)) ∧
  net_from_source net (get_flow_arcs net rn) = net_into_sink net (get_flow_arcs net rn) ∧
  is_max_flow_value net (net_from_source net (get_flow_arcs net rn)) ∧
  no_augmenting_path rn.
Proof.
  intros S. split_and!.
  - split; [apply (solved_length net Hv rn mf S) | apply (solved_bounds net Hv rn mf S)].
  - intros x. apply (solved_conserved net Hv rn mf S).
  - pose proof (solved_value net Hv rn mf S) as V.
    pose proof (is_max_flow_value_nonneg net _ Hv (solved_max net Hv rn mf S)) as N.
    change (flow_value net (get_flow_arcs net rn))
      with (net_from_source net (get_flow_arcs net rn)) in V, N.
    split; [exact V|]. intros B. rewrite V. apply wrap32_small. lia.
  - apply (solved_balance net Hv rn mf S).
  - apply (solved_max net Hv rn mf S).
  - intros p. apply (solved_no_path net rn mf S).
Qed.

Lemma history_safe hist adj : history_ok rn0 hist adj → pushes_safe rn0 hist.
Proof.
  intros H h1 c h2 ->. pose proof (history_ok_pushes_from _ _ _ H) as P.
  destruct H as [F _].
  rewrite Forall_app in F. destruct F as [_ F]. apply Forall_cons in F as [Hc _].
  destruct Hc as (W & E & Ha & Hf).
  pose proof (pushes_from_prefix net _ _ _ _ P) as P1.
  destruct (pushes_from_evolves net Hv _ _ P1) as (W1 & _ & R1).
  assert (arc c < m (with_adjlist rn0 (before c))) as Ha' by done.
  pose proof (push_flow_rc_exact _ (arc c) (amount c) (arc c) W Ha' ltac:(simpl; lia)) as X1.
  pose proof (push_flow_rc_exact _ (arc c) (amount c) (tw (before c) (arc c)) W Ha'
                ltac:(simpl; lia)) as X2.
  pose proof (wf_twin_ne _ _ W Ha') as Hne. simpl in X1, X2, Hne.
  rewrite decide_True in X1 by done.
  rewrite decide_False in X2 by done. rewrite decide_True in X2 by done.
  split_and!; try done; try lia.
  intros b Hb. rewrite (R1 b Hb).
  pose proof (pushed_through_nonneg net (h1 ++ [c]) (after c) b P1).
  destruct (wf_rc _ W1 b Hb) as [Hnn _]. simpl in Hnn. rewrite (R1 b Hb) in Hnn. lia.
Qed.

Lemma history_pair_sums hist adj :
  history_ok rn0 hist adj →
  pair_sums net adj ∧ Forall (λ c, pair_sums net (after c)) hist.
Proof.
  intros H. pose proof (history_ok_pushes_from _ _ _ H) as P. split.
  - apply (pushes_from_pair_sums net Hv hist adj P).
  - apply Forall_forall. intros c Hc.
    apply list_elem_of_split in Hc as (h1 & h2 & ->).
    apply (pushes_from_pair_sums net Hv (h1 ++ [c])).
    by apply (pushes_from_prefix net h1 c h2 adj).
Qed.
End claims.

(** ** The claims *)

(** C1 (as amended). On every valid network [edmonds_karp] and
    [DinitzCherkassky::operator()] return the same [value], and that value is
    the maximum flow value modulo 2^32: the maximum flow value itself when
    that is below 2^32. *)
Theorem solvers_agree (net : FlowNetwork.t) :
  valid net →
  ∃ re rd v,
    returns (λ k, edmonds_karp k net) re ∧
    returns (λ k, DinitzCherkassky.call k net) rd ∧
    Flow.value re = Flow.value rd ∧
    is_max_flow_value net v ∧ holds_mod32 (Flow.value re) v.
Proof.
  intros Hv.
  destruct (edmonds_karp_returns net Hv) as (s & _ & De & Re).
  destruct (dinitz_returns net Hv) as (r & _ & Dd & Rd).
  destruct (solved_flow net Hv _ _ (ek_solved _ _ De)) as (_ & _ & Ve & _ & Me & _).
  destruct (solved_flow net Hv _ _ (dc_solved _ _ Dd)) as (_ & _ & Vd & _ & Md & _).
  pose proof (is_max_flow_value_unique _ _ _ Me Md) as E.
  eexists _, _, _. split_and!; [exact Re | exact Rd | | exact Me | exact Ve].
  simpl. rewrite (proj1 Ve), (proj1 Vd), E. done.
Qed.

Lemma solvers_agree_witness :
  valid minimal_example ∧
  ∃ re rd v,
    returns (λ k, edmonds_karp k minimal_example) re ∧
    returns (λ k, DinitzCherkassky.call k minimal_example) rd ∧
    Flow.value re = Flow.value rd ∧
    is_max_flow_value minimal_example v ∧ holds_mod32 (Flow.value re) v.
Proof.
  split; [prove_valid | apply (solvers_agree minimal_example); prove_valid].
Defined.

(** C1 as stated fails: on two parallel arcs of capacity 2^31 both solvers
    return 0, and the maximum flow value is 2^32. *)
Lemma solvers_agree_not_max :
  valid overflow_example ∧
  ¬ ∃ re rd,
      returns (λ k, edmonds_karp k overflow_example) re ∧
      returns (λ k, DinitzCherkassky.call k overflow_example) rd ∧
      Flow.value re = Flow.value rd ∧
      is_max_flow_value overflow_example (Flow.value re).
Proof.
  split; [apply overflow_example_valid|].
  intros (re & rd & Re & _ & _ & M).
  rewrite (returns_det _ _ _ Re overflow_example_returns) in M.
  by apply overflow_example_zero_not_max.
Qed.

(** C2. The flow returned by either solver lies, on every arc, between 0
    and the capacity of the arc. *)
Theorem flow_within_capacities (net : FlowNetwork.t) :
  valid net →
  (∃ r, returns (λ k, edmonds_karp k net) r ∧
        within_capacities net (Flow.flow_arcs r)) ∧
  (∃ r, returns (λ k, DinitzCherkassky.call k net) r ∧
        within_capacities net (Flow.flow_arcs r)).
Proof.
  intros Hv.
  destruct (edmonds_karp_returns net Hv) as (s & _ & De & Re).
  destruct (dinitz_returns net Hv) as (r & _ & Dd & Rd).
  split; eexists; (split; [eassumption|]); simpl.
  - apply (solved_flow net Hv _ _ (ek_solved _ _ De)).
  - apply (solved_flow net Hv _ _ (dc_solved _ _ Dd)).
Qed.

Lemma flow_within_capacities_witness :
  valid minimal_example ∧
  (∃ r, returns (λ k, edmonds_karp k minimal_example) r ∧
        within_capacities minimal_example (Flow.flow_arcs r)) ∧
  (∃ r, returns (λ k, DinitzCherkassky.call k minimal_example) r ∧
        within_capacities minimal_example (Flow.flow_arcs r)).
Proof.
  split; [prove_valid | apply (flow_within_capacities minimal_example); prove_valid].
Defined.

(** C3. The flow returned by either solver is conserved at every vertex
    other than the source and the sink. *)
Theorem flow_conserved (net : FlowNetwork.t) :
  valid net →
  (∃ r, returns (λ k, edmonds_karp k net) r ∧ conserved net (Flow.flow_arcs r)) ∧
  (∃ r, returns (λ k, DinitzCherkassky.call k net) r ∧
        conserved net (Flow.flow_arcs r)).
Proof.
  intros Hv.
  destruct (edmonds_karp_returns net Hv) as (s & _ & De & Re).
  destruct (dinitz_returns net Hv) as (r & _ & Dd & Rd).
  split; eexists; (split; [eassumption|]); simpl.
  - apply (solved_flow net Hv _ _ (ek_solved _ _ De)).
  - apply (solved_flow net Hv _ _ (dc_solved _ _ Dd)).
Qed.

Lemma flow_conserved_witness :
  valid minimal_example ∧
  (∃ r, returns (λ k, edmonds_karp k minimal_example) r ∧
        conserved minimal_example (Flow.flow_arcs r)) ∧
  (∃ r, returns (λ k, DinitzCherkassky.call k minimal_example) r ∧
        conserved minimal_example (Flow.flow_arcs r)).
Proof.
  split; [prove_valid | apply (flow_conserved minimal_example); prove_valid].
Defined.

(** C4 (as amended). For either solver the net flow leaving the source,
    computed from [flow_arcs], equals the net flow entering the sink, and
    [value] is that amount modulo 2^32: that amount itself when it is below
    2^32. *)
Theorem value_consistent (net : FlowNetwork.t) :
  valid net →
  (∃ r, returns (λ k, edmonds_karp k net) r ∧
        holds_mod32 (Flow.value r) (net_from_source net (Flow.flow_arcs r)) ∧
        net_from_source net (Flow.flow_arcs r) = net_into_sink net (Flow.flow_arcs r)) ∧
  (∃ r, returns (λ k, DinitzCherkassky.call k net) r ∧
        holds_mod32 (Flow.value r) (net_from_source net (Flow.flow_arcs r)) ∧
        net_from_source net (Flow.flow_arcs r) = net_into_sink net (Flow.flow_arcs r)).
Proof.
  intros Hv.
  destruct (edmonds_karp_returns net Hv) as (s & _ & De & Re).
  destruct (dinitz_returns net Hv) as (r & _ & Dd & Rd).
  split; eexists; (split; [eassumption|]); simpl.
  - destruct (solved_flow net Hv _ _ (ek_solved _ _ De)) as (_ & _ & V & B & _). done.
  - destruct (solved_flow net Hv _ _ (dc_solved _ _ Dd)) as (_ & _ & V & B & _). done.
Qed.

Lemma value_consistent_witness :
  valid minimal_example ∧
  (∃ r, returns (λ k, edmonds_karp k minimal_example) r ∧
        holds_mod32 (Flow.value r)
          (net_from_source minimal_example (Flow.flow_arcs r)) ∧
        net_from_source minimal_example (Flow.flow_arcs r)
        = net_into_sink minimal_example (Flow.flow_arcs r)) ∧
  (∃ r, returns (λ k, DinitzCherkassky.call k minimal_example) r ∧
        holds_mod32 (Flow.value r)
          (net_from_source minimal_example (Flow.flow_arcs r)) ∧
        net_from_source minimal_example (Flow.flow_arcs r)
        = net_into_sink minimal_example (Flow.flow_arcs r)).
Proof.
  split; [prove_valid | apply (value_consistent minimal_example); prove_valid].
Defined.

(** C4 as stated fails: on two parallel arcs of capacity 2^31 the value
    returned is 0 and the net flow leaving the source is 2^32. *)
Lemma value_not_net_flow :
  valid overflow_example ∧
  ∃ r, returns (λ k, edmonds_karp k overflow_example) r ∧
       Flow.value r = 0%Z ∧
       net_from_source overflow_example (Flow.flow_arcs r) = 4294967296%Z ∧
       Flow.value r ≠ net_from_source overflow_example (Flow.flow_arcs r).
Proof.
  split; [apply overflow_example_valid|].
  eexists. split; [apply overflow_example_returns|]. simpl.
  split_and!; [reflexivity | vm_compute; reflexivity | vm_compute; discriminate].
Qed.

(** C5 (as amended). When either solver returns, its search has just failed
    (no predecessor for the sink, no rank for the source), the residual
    network has no path of arcs with positive residual capacity from the
    source to the sink, and the value is the maximum flow value modulo 2^32:
    the maximum flow value itself when that is below 2^32. *)
Theorem no_augmenting_path_at_return (net : FlowNetwork.t) :
  valid net →
  (∃ s, returns (λ k, edmonds_karp_run k net) s ∧
        pred (ek_bfs s) !!! FlowNetwork.sink net = None ∧
        no_augmenting_path (ek_rnetwork s) ∧
        ∃ v, is_max_flow_value net v ∧ holds_mod32 (ek_maxflow s) v) ∧
  (∃ r, returns (λ k, DinitzCherkassky.run k net) r ∧
        DinitzCherkassky.rank r.1 !!! FlowNetwork.source net
          = DinitzCherkassky.Unreached ∧
        no_augmenting_path (DinitzCherkassky.rnetwork r.1) ∧
        ∃ v, is_max_flow_value net v ∧ holds_mod32 r.2 v).
Proof.
  intros Hv.
  destruct (edmonds_karp_returns net Hv) as (s & Rs & De & _).
  destruct (dinitz_returns net Hv) as (r & Rr & Dd & _).
  split.
  - exists s. destruct (solved_flow net Hv _ _ (ek_solved _ _ De)) as (_ & _ & V & _ & M & P).
    destruct De as (I & B & _).
    split_and!; [done | | done | by eexists].
    rewrite <- (construct_sink net Hv), <- (ev_sink _ _ (ei_ev _ _ I)).
    apply (bi_sink _ _ B).
  - exists r. destruct (solved_flow net Hv _ _ (dc_solved _ _ Dd)) as (_ & _ & V & _ & M & P).
    destruct Dd as (_ & _ & U).
    split_and!; [done | | done | by eexists].
    by rewrite <- (construct_source net Hv).
Qed.

Lemma no_augmenting_path_at_return_witness :
  valid minimal_example ∧
  (∃ s, returns (λ k, edmonds_karp_run k minimal_example) s ∧
        pred (ek_bfs s) !!! FlowNetwork.sink minimal_example = None ∧
        no_augmenting_path (ek_rnetwork s) ∧
        ∃ v, is_max_flow_value minimal_example v ∧ holds_mod32 (ek_maxflow s) v) ∧
  (∃ r, returns (λ k, DinitzCherkassky.run k minimal_example) r ∧
        DinitzCherkassky.rank r.1 !!! FlowNetwork.source minimal_example
          = DinitzCherkassky.Unreached ∧
        no_augmenting_path (DinitzCherkassky.rnetwork r.1) ∧
        ∃ v, is_max_flow_value minimal_example v ∧ holds_mod32 r.2 v).
Proof.
  split; [prove_valid | apply (no_augmenting_path_at_return minimal_example); prove_valid].
Defined.

(** C5 as stated fails: on two parallel arcs of capacity 2^31 the value with
    which [edmonds_karp] leaves its loop is 0, which is not the maximum flow
    value. *)
Lemma value_at_return_not_max :
  valid overflow_example ∧
  ¬ ∃ s, returns (λ k, edmonds_karp_run k overflow_example) s ∧
         no_augmenting_path (ek_rnetwork s) ∧
         is_max_flow_value overflow_example (ek_maxflow s).
Proof.
  split; [apply overflow_example_valid|].
  intros (s & Rs & _ & M).
  pose proof (returns_bind _
    (λ s, Flow.mk (ek_maxflow s) (get_flow_arcs overflow_example (ek_rnetwork s))) _ Rs) as R.
  pose proof (returns_det _ _ _ R overflow_example_returns) as E.
  injection E as E1 _. rewrite E1 in M.
  by apply overflow_example_zero_not_max.
Qed.

(** C6. The constructor fills an arena of [2m] records; arc [i = (u, v, c)]
    has its forward record [(v, c)] in the range of [u] and its backward
    record [(u, 0)] in the range of [v], each the twin of the other; in the
    range of a vertex the records come in the order of the arcs. *)
Theorem construct_records (net : FlowNetwork.t) :
  valid net →
  let rn := construct net in
  let l := FlowNetwork.arcs net in
  length (adjlist rn) = 2 * FlowNetwork.m net ∧
  (∀ i a, l !! i = Some a →
     fwd_pos l i a ∈ arcs_out rn (CapacityArc.tail a) ∧
     adjlist rn !! fwd_pos l i a
       = Some (ResidualArc.mk (CapacityArc.head a) (CapacityArc.capacity a)
                              (bwd_pos l i a)) ∧
     bwd_pos l i a ∈ arcs_out rn (CapacityArc.head a) ∧
     adjlist rn !! bwd_pos l i a
       = Some (ResidualArc.mk (CapacityArc.tail a) 0%Z (fwd_pos l i a))) ∧
  (∀ x i j a b, i < j → l !! i = Some a → l !! j = Some b →
     endpoint x a → endpoint x b →
     record_pos l x i a < record_pos l x j b).
Proof.
  intros Hv rn l. subst rn l.
  pose proof (construct_spec net Hv) as (_ & _ & _ & _ & _ & _ & Hlen & _).
  simpl in Hlen. split_and!; [done | |].
  - intros i a Ha.
    pose proof (fwd_pos_lt _ _ (valid_arcs net Hv) i a Ha) as F0.
    pose proof (bwd_pos_lt _ _ (valid_arcs net Hv) i a Ha) as B0.
    pose proof (proj1 Hv) as Hm.
    assert (fwd_pos (FlowNetwork.arcs net) i a < length (adjlist (construct net)))
      as F by lia.
    assert (bwd_pos (FlowNetwork.arcs net) i a < length (adjlist (construct net)))
      as B by lia.
    split_and!.
    + apply elem_of_arcs_out. by apply fwd_in_span.
    + rewrite <- (construct_fwd net Hv i a Ha).
      by apply list_lookup_lookup_total_lt.
    + apply elem_of_arcs_out. by apply bwd_in_span.
    + rewrite <- (construct_bwd net Hv i a Ha).
      by apply list_lookup_lookup_total_lt.
  - intros x i j a b Hij Ha Hb Xa Xb.
    pose proof (valid_arc net Hv i a Ha) as Va.
    assert (record_pos (FlowNetwork.arcs net) x i a
            = start (FlowNetwork.arcs net) x + occ (take i (FlowNetwork.arcs net)) x) as ->.
    { unfold record_pos, fwd_pos, bwd_pos, endpoint in *.
      case_decide; [by subst | destruct Xa; [done | by subst]]. }
    assert (record_pos (FlowNetwork.arcs net) x j b
            = start (FlowNetwork.arcs net) x + occ (take j (FlowNetwork.arcs net)) x) as ->.
    { unfold record_pos, fwd_pos, bwd_pos, endpoint in *.
      case_decide; [by subst | destruct Xb; [done | by subst]]. }
    pose proof (occ_take_S _ i a x Ha) as S.
    pose proof (occ_take_mono (FlowNetwork.arcs net) (Datatypes.S i) j x ltac:(lia)).
    assert (0 < incid x a); [|lia].
    unfold incid, endpoint in *. repeat case_decide; try lia; naive_solver.
Qed.

Lemma construct_records_witness :
  valid minimal_example ∧
  let rn := construct minimal_example in
  let l := FlowNetwork.arcs minimal_example in
  length (adjlist rn) = 2 * FlowNetwork.m minimal_example ∧
  (∀ i a, l !! i = Some a →
     fwd_pos l i a ∈ arcs_out rn (CapacityArc.tail a) ∧
     adjlist rn !! fwd_pos l i a
       = Some (ResidualArc.mk (CapacityArc.head a) (CapacityArc.capacity a)
                              (bwd_pos l i a)) ∧
     bwd_pos l i a ∈ arcs_out rn (CapacityArc.head a) ∧
     adjlist rn !! bwd_pos l i a
       = Some (ResidualArc.mk (CapacityArc.tail a) 0%Z (fwd_pos l i a))) ∧
  (∀ x i j a b, i < j → l !! i = Some a → l !! j = Some b →
     endpoint x a → endpoint x b →
     record_pos l x i a < record_pos l x j b).
Proof.
  split; [prove_valid | apply (construct_records minimal_example); prove_valid].
Defined.

(** C7. On the network as constructed and then changed by any valid calls
    of [push_flow], [get_flow_arcs] meets arc [i] with the cursor of its tail
    on the forward record of the arc, and returns for it the residual
    capacity of the twin, the backward record: what was pushed through the
    forward record less what was pushed through the backward record. *)
Theorem get_flow_arcs_reads_flow (net : FlowNetwork.t) hist adj :
  valid net →
  pushes_from (construct net) hist adj →
  let rn := with_adjlist (construct net) adj in
  let l := FlowNetwork.arcs net in
  length (get_flow_arcs net rn) = FlowNetwork.m net ∧
  ∀ i a, l !! i = Some a →
    (extraction net rn i).2 !!! CapacityArc.tail a = fwd_pos l i a ∧
    tw adj (fwd_pos l i a) = bwd_pos l i a ∧
    get_flow_arcs net rn !! i = Some (rc adj (bwd_pos l i a)) ∧
    rc adj (bwd_pos l i a)
    = (pushed_through hist (fwd_pos l i a) - pushed_through hist (bwd_pos l i a))%Z.
Proof.
  intros Hv P rn l. subst rn l.
  destruct (pushes_from_evolves net Hv hist adj P) as (W & E & R).
  set (rn := with_adjlist (construct net) adj) in *.
  split.
  - rewrite (get_flow_arcs_length net Hv rn E). apply Hv.
  - intros i a Ha.
    pose proof (lookup_lt_Some _ _ _ Ha) as Hi.
    destruct (extraction_inv net Hv rn E i ltac:(lia)) as (_ & _ & C).
    destruct (valid_arc net Hv i a Ha) as (Ht & _).
    split_and!.
    + by rewrite C.
    + apply (evolved_fwd_twin net Hv rn E i a Ha).
    + by rewrite (get_flow_arcs_spec net Hv rn E), list_lookup_imap, Ha.
    + rewrite R.
      * rewrite (construct_bwd net Hv i a Ha). simpl. lia.
      * rewrite (construct_m_len net Hv).
        apply (bwd_pos_lt _ _ (valid_arcs net Hv) i a Ha).
Qed.

(** One push of 5 through the first record of the worked example. *)
Definition one_push : push_call :=
  PushCall (adjlist (construct minimal_example)) 0 5.

Lemma get_flow_arcs_reads_flow_witness :
  (valid minimal_example ∧
   pushes_from (construct minimal_example) [one_push] (after one_push)) ∧
  let net := minimal_example in
  let hist := [one_push] in
  let adj := after one_push in
  let rn := with_adjlist (construct net) adj in
  let l := FlowNetwork.arcs net in
  length (get_flow_arcs net rn) = FlowNetwork.m net ∧
  ∀ i a, l !! i = Some a →
    (extraction net rn i).2 !!! CapacityArc.tail a = fwd_pos l i a ∧
    tw adj (fwd_pos l i a) = bwd_pos l i a ∧
    get_flow_arcs net rn !! i = Some (rc adj (bwd_pos l i a)) ∧
    rc adj (bwd_pos l i a)
    = (pushed_through hist (fwd_pos l i a) - pushed_through hist (bwd_pos l i a))%Z.
Proof.
  assert (valid minimal_example) as Hv by prove_valid.
  assert (pushes_from (construct minimal_example) [one_push] (after one_push)) as Hp.
  { split.
    - constructor; [|constructor]. split; [vm_compute; lia | vm_compute; split; [reflexivity | discriminate]].
    - split; reflexivity. }
  split; [by split|].
  apply (get_flow_arcs_reads_flow minimal_example [one_push] (after one_push) Hv Hp).
Defined.

(** C8. On every valid network both solvers return: the loop of
    [edmonds_karp], the loop of [operator()] over the phases and the
    searches of every phase come to an end. *)
Theorem solvers_terminate (net : FlowNetwork.t) :
  valid net →
  (∃ r, returns (λ k, edmonds_karp k net) r) ∧
  (∃ r, returns (λ k, DinitzCherkassky.call k net) r).
Proof.
  intros Hv.
  destruct (edmonds_karp_returns net Hv) as (s & _ & _ & Re).
  destruct (dinitz_returns net Hv) as (r & _ & _ & Rd).
  split; eexists; eassumption.
Qed.

Lemma solvers_terminate_witness :
  valid minimal_example ∧
  (∃ r, returns (λ k, edmonds_karp k minimal_example) r) ∧
  (∃ r, returns (λ k, DinitzCherkassky.call k minimal_example) r).
Proof.
  split; [prove_valid | apply (solvers_terminate minimal_example); prove_valid].
Defined.

(** C9. The two residual capacities of a pair add up to the capacity of
    their arc in the arena as constructed and after every [push_flow] of
    either solver, whose calls lead from that arena to the final one. *)
Theorem pair_sum_invariant (net : FlowNetwork.t) :
  valid net →
  pair_sums net (adjlist (construct net)) ∧
  (∃ s, returns (λ k, edmonds_karp_run k net) s ∧
        chain (adjlist (construct net)) (ek_history s) (adjlist (ek_rnetwork s)) ∧
        Forall (λ c, pair_sums net (after c)) (ek_history s) ∧
        pair_sums net (adjlist (ek_rnetwork s))) ∧
  (∃ r, returns (λ k, DinitzCherkassky.run k net) r ∧
        chain (adjlist (construct net)) (DinitzCherkassky.history r.1)
              (adjlist (DinitzCherkassky.rnetwork r.1)) ∧
        Forall (λ c, pair_sums net (after c)) (DinitzCherkassky.history r.1) ∧
        pair_sums net (adjlist (DinitzCherkassky.rnetwork r.1))).
Proof.
  intros Hv.
  destruct (edmonds_karp_returns net Hv) as (s & Rs & (Ie & _) & _).
  destruct (dinitz_returns net Hv) as (r & Rr & (Od & _) & _).
  split_and!.
  - apply (pushes_from_pair_sums net Hv []). split; [constructor | done].
  - exists s. pose proof (ei_hist _ _ Ie) as H.
    destruct (history_pair_sums net Hv _ _ H) as [P1 P2].
    split_and!; [done | apply H | done | done].
  - exists r. pose proof (do_hist _ _ _ Od) as H.
    destruct (history_pair_sums net Hv _ _ H) as [P1 P2].
    split_and!; [done | apply H | done | done].
Qed.

Lemma pair_sum_invariant_witness :
  valid minimal_example ∧
  pair_sums minimal_example (adjlist (construct minimal_example)) ∧
  (∃ s, returns (λ k, edmonds_karp_run k minimal_example) s ∧
        chain (adjlist (construct minimal_example)) (ek_history s)
              (adjlist (ek_rnetwork s)) ∧
        Forall (λ c, pair_sums minimal_example (after c)) (ek_history s) ∧
        pair_sums minimal_example (adjlist (ek_rnetwork s))) ∧
  (∃ r, returns (λ k, DinitzCherkassky.run k minimal_example) r ∧
        chain (adjlist (construct minimal_example)) (DinitzCherkassky.history r.1)
              (adjlist (DinitzCherkassky.rnetwork r.1)) ∧
        Forall (λ c, pair_sums minimal_example (after c))
               (DinitzCherkassky.history r.1) ∧
        pair_sums minimal_example (adjlist (DinitzCherkassky.rnetwork r.1))).
Proof.
  split; [prove_valid | apply (pair_sum_invariant minimal_example); prove_valid].
Defined.

(** C10. Every [push_flow(f)] of either solver is called with
    [0 < f <= residual_capacity]: neither the subtraction nor the addition
    wraps, and every residual capacity stays between 0 and its first value
    plus what was pushed through the twin. *)
Theorem pushes_within_residual (net : FlowNetwork.t) :
  valid net →
  (∃ s, returns (λ k, edmonds_karp_run k net) s ∧
        pushes_safe (construct net) (ek_history s)) ∧
  (∃ r, returns (λ k, DinitzCherkassky.run k net) r ∧
        pushes_safe (construct net) (DinitzCherkassky.history r.1)).
Proof.
  intros Hv.
  destruct (edmonds_karp_returns net Hv) as (s & Rs & (Ie & _) & _).
  destruct (dinitz_returns net Hv) as (r & Rr & (Od & _) & _).
  split.
  - exists s. split; [done|]. apply (history_safe net Hv _ _ (ei_hist _ _ Ie)).
  - exists r. split; [done|]. apply (history_safe net Hv _ _ (do_hist _ _ _ Od)).
Qed.

Lemma pushes_within_residual_witness :
  valid minimal_example ∧
  (∃ s, returns (λ k, edmonds_karp_run k minimal_example) s ∧
        pushes_safe (construct minimal_example) (ek_history s)) ∧
  (∃ r, returns (λ k, DinitzCherkassky.run k minimal_example) r ∧
        pushes_safe (construct minimal_example) (DinitzCherkassky.history r.1)).
Proof.
  split; [prove_valid | apply (pushes_within_residual minimal_example); prove_valid].
Defined.

(** * Further properties of [maxflow.hpp] *)

(** ** The layout the constructor leaves *)

(** [nodes()] and [degree_out(node)] of a residual network. *)
Definition nodes (rn : ResidualNetwork.t) : list nat := seq 0 (n rn).

Definition degree_out (rn : ResidualNetwork.t) (node : nat) : nat :=
  span_end rn node - span_begin rn node.

(** Arcs of [l] that leave, and that enter, the vertex [u]. *)
Definition leaving (l : list CapacityArc.t) (u : nat) : nat :=
  length (filter (λ a, CapacityArc.tail a = u) l).

Definition entering (l : list CapacityArc.t) (u : nat) : nat :=
  length (filter (λ a, CapacityArc.head a = u) l).

Lemma occ_count l u : occ l u = leaving l u + entering l u.
Proof.
  unfold occ, leaving, entering. induction l as [|a l IH]; [done|].
  rewrite !filter_cons. cbn [sum_list_with]. rewrite IH. unfold incid.
  repeat case_decide; simpl; lia.
Qed.

Lemma start_sum l (f : nat → nat) u :
  (∀ x, x < u → f x = occ l x) → start l u = sum_list_with f (seq 0 u).
Proof.
  intros H. unfold start. apply sum_list_with_ext_in.
  intros x Hx. apply elem_of_seq in Hx. symmetry. apply H. lia.
Qed.

(** The ranges of the vertices follow one another from position 0 to the
    end of the arena, and the range of a vertex has one record for every arc
    that leaves the vertex and one for every arc that enters it. *)
Theorem construct_layout (net : FlowNetwork.t) :
  valid net →
  let rn := construct net in
  let l := FlowNetwork.arcs net in
  nodes rn = seq 0 (FlowNetwork.n net) ∧
  span_begin rn 0 = 0 ∧
  (∀ u, S u < n rn → span_end rn u = span_begin rn (S u)) ∧
  span_end rn (n rn - 1) = length (adjlist rn) ∧
  (∀ u, u < n rn →
     degree_out rn u = leaving l u + entering l u ∧
     length (arcs_out rn u) = degree_out rn u ∧
     span_begin rn u = sum_list_with (degree_out rn) (seq 0 u)) ∧
  sum_list_with (degree_out rn) (nodes rn) = length (adjlist rn).
Proof.
  intros Hv rn l. subst rn l.
  pose proof (construct_n net Hv) as En.
  pose proof (construct_wf net Hv) as W.
  pose proof (wf_len _ W) as Hlen. rewrite (construct_m_len net Hv) in Hlen.
  pose proof (wf_source _ W) as Hs.
  assert (∀ u, u < n (construct net) →
            degree_out (construct net) u = occ (FlowNetwork.arcs net) u) as Hdeg.
  { intros u Hu. unfold degree_out.
    rewrite (construct_span_begin net Hv), (construct_span_end net Hv) by lia.
    rewrite start_S. lia. }
  split_and!.
  - unfold nodes. by rewrite En.
  - by rewrite (construct_span_begin net Hv) by lia.
  - intros u Hu.
    by rewrite (construct_span_begin net Hv), (construct_span_end net Hv) by lia.
  - rewrite (construct_span_end net Hv) by lia.
    replace (S (n (construct net) - 1)) with (FlowNetwork.n net) by lia.
    rewrite (start_total _ _ (valid_arcs net Hv)). lia.
  - intros u Hu. split_and!.
    + rewrite Hdeg by done. apply occ_count.
    + rewrite arcs_out_seq, length_seq. done.
    + rewrite (construct_span_begin net Hv) by lia.
      apply start_sum. intros x Hx. apply Hdeg. lia.
  - unfold nodes. rewrite <- (start_sum (FlowNetwork.arcs net)) by done.
    rewrite En, (start_total _ _ (valid_arcs net Hv)). lia.
Qed.

Lemma construct_layout_witness :
  valid minimal_example ∧
  let rn := construct minimal_example in
  let l := FlowNetwork.arcs minimal_example in
  nodes rn = seq 0 (FlowNetwork.n minimal_example) ∧
  span_begin rn 0 = 0 ∧
  (∀ u, S u < n rn → span_end rn u = span_begin rn (S u)) ∧
  span_end rn (n rn - 1) = length (adjlist rn) ∧
  (∀ u, u < n rn →
     degree_out rn u = leaving l u + entering l u ∧
     length (arcs_out rn u) = degree_out rn u ∧
     span_begin rn u = sum_list_with (degree_out rn) (seq 0 u)) ∧
  sum_list_with (degree_out rn) (nodes rn) = length (adjlist rn).
Proof.
  split; [prove_valid | apply (construct_layout minimal_example); prove_valid].
Defined.

(** Every position of the arena holds the forward record of one arc or the
    backward record of one arc, never both and never of two arcs: no record
    is left as it was allocated, with a null [twin]. *)
Theorem construct_fills_arena (net : FlowNetwork.t) :
  valid net →
  let rn := construct net in
  let l := FlowNetwork.arcs net in
  ∀ p, p < length (adjlist rn) →
    ∃ j a, l !! j = Some a ∧
      (p = fwd_pos l j a ∧ p ≠ bwd_pos l j a ∧
       adjlist rn !! p
       = Some (ResidualArc.mk (CapacityArc.head a) (CapacityArc.capacity a)
                              (bwd_pos l j a))
       ∨
       p = bwd_pos l j a ∧ p ≠ fwd_pos l j a ∧
       adjlist rn !! p
       = Some (ResidualArc.mk (CapacityArc.tail a) 0%Z (fwd_pos l j a))) ∧
      ∀ j' a', l !! j' = Some a' →
        p = fwd_pos l j' a' ∨ p = bwd_pos l j' a' → j' = j.
Proof.
  intros Hv rn l p Hp. subst rn l.
  pose proof (construct_wf net Hv) as W.
  pose proof (valid_arcs net Hv) as Hl.
  rewrite (wf_len _ W) in Hp.
  destruct (construct_find net Hv p Hp) as (j & a & Ha & Hpos).
  assert (adjlist (construct net) !! p = Some (adjlist (construct net) !!! p)) as Hlk.
  { apply list_lookup_lookup_total_lt. by rewrite (wf_len _ W). }
  exists j, a. split_and!; [done | |].
  - destruct Hpos as [-> | ->]; [left | right]; split_and!; try done.
    + apply (fwd_bwd_ne _ _ Hl j a j a Ha Ha).
    + by rewrite Hlk, (construct_fwd net Hv j a Ha).
    + intros E. by apply (fwd_bwd_ne _ _ Hl j a j a Ha Ha).
    + by rewrite Hlk, (construct_bwd net Hv j a Ha).
  - intros j' a' Ha' Hpos'.
    destruct Hpos as [-> | ->], Hpos' as [E | E].
    + by apply (fwd_pos_inj _ _ Hl j' a' j a Ha' Ha).
    + by destruct (fwd_bwd_ne _ _ Hl j a j' a' Ha Ha').
    + by destruct (fwd_bwd_ne _ _ Hl j' a' j a Ha' Ha).
    + by apply (bwd_pos_inj _ _ Hl j' a' j a Ha' Ha).
Qed.

Lemma construct_fills_arena_witness :
  valid minimal_example ∧
  let rn := construct minimal_example in
  let l := FlowNetwork.arcs minimal_example in
  ∀ p, p < length (adjlist rn) →
    ∃ j a, l !! j = Some a ∧
      (p = fwd_pos l j a ∧ p ≠ bwd_pos l j a ∧
       adjlist rn !! p
       = Some (ResidualArc.mk (CapacityArc.head a) (CapacityArc.capacity a)
                              (bwd_pos l j a))
       ∨
       p = bwd_pos l j a ∧ p ≠ fwd_pos l j a ∧
       adjlist rn !! p
       = Some (ResidualArc.mk (CapacityArc.tail a) 0%Z (fwd_pos l j a))) ∧
      ∀ j' a', l !! j' = Some a' →
        p = fwd_pos l j' a' ∨ p = bwd_pos l j' a' → j' = j.
Proof.
  split; [prove_valid | apply (construct_fills_arena minimal_example); prove_valid].
Defined.

(** ** [tail()] and the twins *)

(** In the network as constructed and after any valid calls of [push_flow],
    [tail()] of a record in the range of [u] is [u]; its head is another
    vertex; its twin lies in the range of that vertex, leads back to [u],
    and has the record for twin. *)
Theorem tail_is_owner (net : FlowNetwork.t) hist adj :
  valid net →
  pushes_from (construct net) hist adj →
  let rn := construct net in
  ∀ u a, u < n rn → a ∈ arcs_out rn u →
    a < length adj ∧
    tail adj a = u ∧
    hd adj a < n rn ∧ hd adj a ≠ u ∧
    tw adj a ∈ arcs_out rn (hd adj a) ∧
    hd adj (tw adj a) = u ∧
    tw adj (tw adj a) = a.
Proof.
  intros Hv P rn u a Hu Ha. subst rn.
  destruct (pushes_from_evolves net Hv hist adj P) as (W & E & _).
  set (rn := with_adjlist (construct net) adj) in *.
  assert (n rn = n (construct net)) as En by done.
  assert (m rn = m (construct net)) as Em by done.
  assert (arcs_out rn u = arcs_out (construct net) u) as Eo by done.
  rewrite <- Eo in Ha.
  destruct (wf_arcs_out rn u a W ltac:(lia) Ha) as [Hlt Ht].
  destruct (wf_twin _ W a Hlt) as (Htw & Htt & Hne).
  pose proof (wf_head _ W a Hlt) as Hh.
  change (adjlist rn) with adj in *.
  split_and!; try done.
  - pose proof (wf_len _ W) as L. change (adjlist rn) with adj in L. lia.
  - congruence.
  - change (arcs_out (construct net) (hd adj a)) with (arcs_out rn (hd adj a)).
    apply (wf_arcs_out_iff rn _ _ W Hh Htw).
    by apply (wf_tail_twin rn a W Hlt).
Qed.

Lemma tail_is_owner_witness :
  (valid minimal_example ∧
   pushes_from (construct minimal_example) [] (adjlist (construct minimal_example))) ∧
  let adj := adjlist (construct minimal_example) in
  let rn := construct minimal_example in
  ∀ u a, u < n rn → a ∈ arcs_out rn u →
    a < length adj ∧
    tail adj a = u ∧
    hd adj a < n rn ∧ hd adj a ≠ u ∧
    tw adj a ∈ arcs_out rn (hd adj a) ∧
    hd adj (tw adj a) = u ∧
    tw adj (tw adj a) = a.
Proof.
  assert (valid minimal_example) as Hv by prove_valid.
  assert (pushes_from (construct minimal_example) []
            (adjlist (construct minimal_example))) as Hp.
  { split; [constructor | reflexivity]. }
  split; [by split|].
  apply (tail_is_owner minimal_example [] _ Hv Hp).
Defined.

(** ** [push_flow] on its own *)

Lemma arena_eq (l1 l2 : arena) :
  length l1 = length l2 →
  (∀ b, hd l1 b = hd l2 b) → (∀ b, tw l1 b = tw l2 b) → (∀ b, rc l1 b = rc l2 b) →
  l1 = l2.
Proof.
  intros Hlen Hh Ht Hr. apply list_eq. intros i.
  destruct (decide (i < length l1)) as [Hi|Hi].
  - rewrite (list_lookup_lookup_total_lt l1), (list_lookup_lookup_total_lt l2) by lia.
    f_equal. specialize (Hh i). specialize (Ht i). specialize (Hr i).
    destruct (l1 !!! i), (l2 !!! i). simpl in *. congruence.
  - rewrite !lookup_ge_None_2 by lia. done.
Qed.

Lemma wrap32_sub_add x f : wrap32 (wrap32 (x - f) + f) = wrap32 x.
Proof. unfold wrap32. rewrite Zplus_mod_idemp_l. f_equal. lia. Qed.

Lemma wrap32_add_sub x f : wrap32 (wrap32 (x + f) - f) = wrap32 x.
Proof. unfold wrap32. rewrite Zminus_mod_idemp_l. f_equal. lia. Qed.

Lemma wrap32_sub_sub x f g : wrap32 (wrap32 (x - f) - g) = wrap32 (x - wrap32 (f + g)).
Proof.
  unfold wrap32. rewrite Zminus_mod_idemp_l, Zminus_mod_idemp_r. f_equal. lia.
Qed.

Lemma wrap32_add_add x f g : wrap32 (wrap32 (x + f) + g) = wrap32 (x + wrap32 (f + g)).
Proof.
  unfold wrap32. rewrite Zplus_mod_idemp_l, Zplus_mod_idemp_r. f_equal. lia.
Qed.

(** A record [a] and its twin are two records of the arena, each the twin
    of the other. *)
Definition paired (adj : arena) (a : nat) : Prop :=
  a < length adj ∧ tw adj a < length adj ∧ tw adj a ≠ a ∧ tw adj (tw adj a) = a.

Definition in_flow_t (z : Z) : Prop := (0 ≤ z < 4294967296)%Z.

(** Whatever the amount, [push_flow] keeps the size of the arena, every
    head and every twin, every record other than the two of the pair, and
    the sum of the two residual capacities of the pair modulo 2^32. *)
Theorem push_flow_frame (adj : arena) (a : nat) (f : Z) :
  paired adj a →
  let adj' := push_flow adj a f in
  length adj' = length adj ∧
  (∀ b, hd adj' b = hd adj b ∧ tw adj' b = tw adj b) ∧
  (∀ b, b ≠ a → b ≠ tw adj a → adj' !!! b = adj !!! b) ∧
  rc adj' a = wrap32 (rc adj a - f) ∧
  rc adj' (tw adj a) = wrap32 (rc adj (tw adj a) + f) ∧
  wrap32 (rc adj' a + rc adj' (tw adj a)) = wrap32 (rc adj a + rc adj (tw adj a)).
Proof.
  intros (Ha & Ht & Hne & Htt) adj'. subst adj'.
  pose proof (push_flow_rc adj a f a Ha Ht Hne) as Ra.
  pose proof (push_flow_rc adj a f (tw adj a) Ha Ht Hne) as Rt.
  rewrite decide_True in Ra by done.
  rewrite decide_False, decide_True in Rt by done.
  split_and!.
  - apply push_flow_length.
  - intros b. split; [apply push_flow_hd | apply push_flow_tw].
  - intros b Hb1 Hb2.
    pose proof (push_flow_hd adj a f b) as H1.
    pose proof (push_flow_tw adj a f b) as H2.
    pose proof (push_flow_rc adj a f b Ha Ht Hne) as H3.
    rewrite !decide_False in H3 by done.
    destruct (push_flow adj a f !!! b), (adj !!! b). simpl in *. congruence.
  - done.
  - done.
  - rewrite Ra, Rt. unfold wrap32.
    rewrite <- Zplus_mod. f_equal. lia.
Qed.

Lemma push_flow_frame_witness :
  let adj := adjlist (construct minimal_example) in
  paired adj 0 ∧
  let adj' := push_flow adj 0 7 in
  length adj' = length adj ∧
  (∀ b, hd adj' b = hd adj b ∧ tw adj' b = tw adj b) ∧
  (∀ b, b ≠ 0 → b ≠ tw adj 0 → adj' !!! b = adj !!! b) ∧
  rc adj' 0 = wrap32 (rc adj 0 - 7) ∧
  rc adj' (tw adj 0) = wrap32 (rc adj (tw adj 0) + 7) ∧
  wrap32 (rc adj' 0 + rc adj' (tw adj 0)) = wrap32 (rc adj 0 + rc adj (tw adj 0)).
Proof.
  assert (paired (adjlist (construct minimal_example)) 0) as Hp.
  { unfold paired. vm_compute. split_and!; [lia | lia | discriminate | reflexivity]. }
  split; [exact Hp|].
  apply (push_flow_frame (adjlist (construct minimal_example)) 0 7 Hp).
Defined.

(** Pushing an amount through a record and the same amount through its
    twin gives back the arena, whether or not the amount was within the
    residual capacity. *)
Theorem push_flow_undo (adj : arena) (a : nat) (f : Z) :
  paired adj a →
  in_flow_t (rc adj a) → in_flow_t (rc adj (tw adj a)) →
  push_flow (push_flow adj a f) (tw adj a) f = adj.
Proof.
  intros (Ha & Ht & Hne & Htt) Ra Rt.
  set (adj1 := push_flow adj a f).
  assert (length adj1 = length adj) as L1 by apply push_flow_length.
  assert (tw adj1 (tw adj a) = a) as T1 by (unfold adj1; by rewrite push_flow_tw).
  apply arena_eq.
  - by rewrite push_flow_length.
  - intros b. unfold adj1. by rewrite !push_flow_hd.
  - intros b. unfold adj1. by rewrite !push_flow_tw.
  - intros b. rewrite push_flow_rc; rewrite ?T1; [| lia | lia | done].
    unfold adj1. rewrite !(push_flow_rc adj a f) by done.
    rewrite (decide_False (P := tw adj a = a)) by done.
    rewrite (decide_True (P := tw adj a = tw adj a)) by done.
    rewrite (decide_True (P := a = a)) by done.
    rewrite wrap32_add_sub, wrap32_sub_add.
    unfold in_flow_t, wrap32 in *.
    repeat case_decide; subst; try done; by rewrite Z.mod_small.
Qed.

Lemma push_flow_undo_witness :
  let adj := adjlist (construct minimal_example) in
  (paired adj 0 ∧ in_flow_t (rc adj 0) ∧ in_flow_t (rc adj (tw adj 0))) ∧
  push_flow (push_flow adj 0 77) (tw adj 0) 77 = adj.
Proof.
  assert (paired (adjlist (construct minimal_example)) 0) as Hp.
  { unfold paired. vm_compute. split_and!; [lia | lia | discriminate | reflexivity]. }
  assert (in_flow_t (rc (adjlist (construct minimal_example)) 0)) as H1.
  { unfold in_flow_t. vm_compute. split; [discriminate | reflexivity]. }
  assert (in_flow_t (rc (adjlist (construct minimal_example))
                        (tw (adjlist (construct minimal_example)) 0))) as H2.
  { unfold in_flow_t. vm_compute. split; [discriminate | reflexivity]. }
  split; [by split_and!|].
  apply (push_flow_undo (adjlist (construct minimal_example)) 0 77 Hp H1 H2).
Defined.

(** Two pushes through the same record are one push of the sum of the two
    amounts, taken as a [flow_t]. *)
Theorem push_flow_twice (adj : arena) (a : nat) (f g : Z) :
  paired adj a →
  push_flow (push_flow adj a f) a g = push_flow adj a (wrap32 (f + g)).
Proof.
  intros (Ha & Ht & Hne & Htt).
  set (adj1 := push_flow adj a f).
  assert (length adj1 = length adj) as L1 by apply push_flow_length.
  assert (tw adj1 a = tw adj a) as T1 by (unfold adj1; by rewrite push_flow_tw).
  apply arena_eq.
  - by rewrite !push_flow_length.
  - intros b. unfold adj1. by rewrite !push_flow_hd.
  - intros b. unfold adj1. by rewrite !push_flow_tw.
  - intros b. rewrite (push_flow_rc adj1); rewrite ?T1; [| lia | lia | done].
    unfold adj1. rewrite !(push_flow_rc adj a) by done.
    rewrite (decide_False (P := tw adj a = a)) by done.
    rewrite (decide_True (P := tw adj a = tw adj a)) by done.
    rewrite (decide_True (P := a = a)) by done.
    rewrite wrap32_sub_sub, wrap32_add_add.
    repeat case_decide; done.
Qed.

Lemma push_flow_twice_witness :
  let adj := adjlist (construct minimal_example) in
  paired adj 0 ∧
  push_flow (push_flow adj 0 3) 0 4 = push_flow adj 0 (wrap32 (3 + 4)).
Proof.
  assert (paired (adjlist (construct minimal_example)) 0) as Hp.
  { unfold paired. vm_compute. split_and!; [lia | lia | discriminate | reflexivity]. }
  split; [exact Hp|].
  apply (push_flow_twice (adjlist (construct minimal_example)) 0 3 4 Hp).
Defined.

(** ** The two searches on their own *)

Lemma residual_path_snoc rn x p y a :
  residual_path rn x p y → a ∈ arcs_out rn y → (0 < rc (adjlist rn) a)%Z →
  residual_path rn x (p ++ [a]) (hd (adjlist rn) a).
Proof.
  revert x. induction p as [|b p IH]; intros x; simpl.
  - intros -> Ha Hrc. done.
  - intros (Hb & Hrc & Hp) Ha Hra. split_and!; [done | done | by apply IH].
Qed.

(** A chain of predecessors, read backwards, is a path from the source. *)
Lemma linked_residual_path rn prd y p :
  wf rn →
  (∀ v a, prd !!! v = Some a → a < m rn ∧ rc (adjlist rn) a ≠ 0%Z) →
  linked rn prd y p → residual_path rn (source rn) (reverse p) y.
Proof.
  intros W Hprd H. induction H as [Hs | y a p Hy Ha Hlt Hh Hl IH]; [done|].
  rewrite reverse_cons, <- Hh.
  apply (residual_path_snoc rn _ _ (tail (adjlist rn) a)); [done | |].
  - apply elem_of_arcs_out. by apply (wf_out _ W).
  - destruct (Hprd _ _ Ha) as [_ Hne]. destruct (wf_rc _ W a Hlt) as [? _]. lia.
Qed.

(** The state [bfs_find_augmenting_path] starts its loop with. *)
Lemma bfs_start_inv rn st :
  wf rn →
  length (pred st) = n rn → length (bfs_ordering st) = n rn →
  bfs_ordering st !!! 0 = source rn →
  bfs_inv rn (BfsState (replicate (length (pred st)) None) (bfs_ordering st) 1).
Proof.
  intros W Lp Lo Hf.
  pose proof (wf_source _ W) as Hsn. pose proof (wf_sink _ W) as Htn.
  assert (queue (BfsState (replicate (length (pred st)) None) (bfs_ordering st) 1)
          = [source rn]) as Hq.
  { unfold queue. simpl. destruct (bfs_ordering st) as [|x o] eqn:Eo.
    - simpl in Lo. lia.
    - change (x = source rn) in Hf. cbn. rewrite take_0. congruence. }
  constructor; simpl; rewrite ?Hq.
  - by rewrite length_replicate.
  - done.
  - lia.
  - done.
  - apply NoDup_singleton.
  - intros v ->%list_elem_of_singleton. done.
  - intros v Hv. rewrite list_elem_of_singleton.
    rewrite lookup_total_replicate_2 by lia. naive_solver.
  - apply lookup_total_replicate_2. lia.
  - apply lookup_total_replicate_2. lia.
  - intros v a. destruct (decide (v < length (pred st))) as [Hv|Hv].
    + by rewrite lookup_total_replicate_2.
    + rewrite list_lookup_total_alt, (proj1 (lookup_replicate_None _ _ _)); [done | lia].
  - intros v ->%list_elem_of_singleton. exists []. apply linked_source.
    apply lookup_total_replicate_2. lia.
Qed.

(** A residual network is its own starting point. *)
Lemma ek_inv_self rn st :
  wf rn →
  length (pred st) = n rn → length (bfs_ordering st) = n rn →
  bfs_ordering st !!! 0 = source rn →
  ek_inv rn (EkState rn st 0%Z []).
Proof.
  intros W Lp Lo Hf. constructor; simpl.
  - done.
  - apply evolves_refl.
  - intros x _ _ _. apply net_out_refl.
  - by rewrite net_out_refl.
  - by rewrite !net_out_refl.
  - done.
  - done.
  - done.
  - apply history_ok_nil.
Qed.

(** What the search leaves when it fails: the vertices with a predecessor,
    and the source, are those a path of residual arcs reaches from the
    source. *)
Lemma bfs_failed_reach rn st :
  wf rn → bfs_inv rn st → scanned rn st (last st) →
  ∀ v, v < n rn →
    (v = source rn ∨ pred st !!! v ≠ None) ↔
    ∃ p, residual_path rn (source rn) p v.
Proof.
  intros W B Sc v Hv.
  assert (ek_done rn (EkState rn st 0%Z [])) as D.
  { split_and!; [|done|done].
    apply ek_inv_self; [done | apply (bi_pred_len _ _ B) | apply (bi_ord_len _ _ B)
                       | apply (bi_first _ _ B)]. }
  destruct (ek_done_cut rn _ D) as (_ & _ & Hcl). simpl in Hcl.
  rewrite <- (bi_visited _ _ B v Hv). split.
  - intros Hq. destruct (bi_linked _ _ B v Hq) as [p Hp].
    exists (reverse p). apply (linked_residual_path rn (pred st)); [done | | done].
    apply (bi_pred _ _ B).
  - intros [p Hp].
    pose proof (closed_side_path rn _ p (source rn) v W Hcl (wf_source _ W)) as C.
    unfold ek_side in C. simpl in C.
    rewrite !bool_decide_eq_true in C. apply C; [|done].
    apply (bi_visited _ _ B); [apply (wf_source _ W) | by left].
Qed.

Section searches.
Context (net : FlowNetwork.t) (Hv : valid net).
Context (hist : list push_call) (adj : arena).
Context (Hp : pushes_from (construct net) hist adj).
Local Abbreviation rn := (with_adjlist (construct net) adj).

Lemma pushed_wf : wf rn.
Proof. apply (pushes_from_evolves net Hv hist adj Hp). Qed.

Lemma pushed_n : n rn = FlowNetwork.n net.
Proof. apply (construct_n net Hv). Qed.

Lemma pushed_source : source rn = FlowNetwork.source net.
Proof. apply (construct_source net Hv). Qed.

Lemma pushed_sink : sink rn = FlowNetwork.sink net.
Proof. apply (construct_sink net Hv). Qed.

Lemma bfs_find_spec st :
  length (pred st) = FlowNetwork.n net →
  length (bfs_ordering st) = FlowNetwork.n net →
  bfs_ordering st !!! 0 = FlowNetwork.source net →
  match bfs_find_augmenting_path rn st with
  | (st', true) => bfs_found rn st'
  | (st', false) => bfs_inv rn st' ∧ scanned rn st' (last st')
  end.
Proof.
  intros Lp Lo Hf. pose proof pushed_wf as W.
  rewrite <- pushed_n in Lp, Lo. rewrite <- pushed_source in Hf.
  pose proof (bfs_start_inv rn st W Lp Lo Hf) as I0.
  pose proof (ek_bfs_loop_spec rn W (length (bfs_ordering st)) 0 _ I0) as L.
  apply L; [simpl; lia | lia | intros i a Hi; lia].
Qed.
End searches.

(** [bfs_find_augmenting_path], on the network as constructed and after any
    valid calls of [push_flow], with [pred] and [bfs_ordering] of [n] entries
    and the source first in [bfs_ordering], whatever else they hold: it
    returns [true] exactly when a path of arcs with positive residual capacity
    leads from the source to the sink.  Then the predecessors from the sink
    back are such a path; otherwise the vertices with a predecessor are
    those that such paths reach.  The two vectors keep their sizes and the
    source its place. *)
Theorem bfs_find_augmenting_path_correct (net : FlowNetwork.t) hist adj st :
  valid net →
  pushes_from (construct net) hist adj →
  length (pred st) = FlowNetwork.n net →
  length (bfs_ordering st) = FlowNetwork.n net →
  bfs_ordering st !!! 0 = FlowNetwork.source net →
  let rn := with_adjlist (construct net) adj in
  let r := bfs_find_augmenting_path rn st in
  (r.2 = true ↔ ∃ p, residual_path rn (source rn) p (sink rn)) ∧
  (r.2 = true →
     ∃ p, linked rn (pred r.1) (sink rn) p ∧
          residual_path rn (source rn) (reverse p) (sink rn)) ∧
  (r.2 = false →
     ∀ v, v < n rn →
       (v = source rn ∨ pred r.1 !!! v ≠ None) ↔
       ∃ p, residual_path rn (source rn) p v) ∧
  length (pred r.1) = FlowNetwork.n net ∧
  length (bfs_ordering r.1) = FlowNetwork.n net ∧
  bfs_ordering r.1 !!! 0 = FlowNetwork.source net.
Proof.
  intros Hv P Lp Lo Hf rn r. subst rn r.
  pose proof (pushed_wf net Hv hist adj P) as W.
  pose proof (bfs_find_spec net Hv hist adj P st Lp Lo Hf) as S.
  pose proof (pushed_n net Hv adj) as En.
  pose proof (pushed_source net Hv adj) as Es.
  destruct (bfs_find_augmenting_path (with_adjlist (construct net) adj) st)
    as [st' [|]]; simpl.
  - destruct S as [Lp' Lo' Lf' [p Hpath] Lpred].
    pose proof (linked_residual_path _ _ _ _ W Lpred Hpath) as R.
    split_and!; try done; try congruence.
    + split; [intros _; by eexists | done].
    + intros _. by exists p.
  - destruct S as [B Sc].
    pose proof (bfs_failed_reach _ _ W B Sc) as Reach.
    split_and!; try done.
    + split; [done|]. intros Hpath.
      apply (Reach _ (wf_sink _ W)) in Hpath as [E | E].
      * by destruct (wf_st _ W).
      * by rewrite (bi_sink _ _ B) in E.
    + rewrite <- En. apply (bi_pred_len _ _ B).
    + rewrite <- En. apply (bi_ord_len _ _ B).
    + rewrite <- Es. apply (bi_first _ _ B).
Qed.

Lemma bfs_find_augmenting_path_correct_witness :
  let net := minimal_example in
  let adj := adjlist (construct net) in
  let st := ek_bfs (ek_init net) in
  (valid net ∧ pushes_from (construct net) [] adj ∧
   length (pred st) = FlowNetwork.n net ∧
   length (bfs_ordering st) = FlowNetwork.n net ∧
   bfs_ordering st !!! 0 = FlowNetwork.source net) ∧
  let rn := with_adjlist (construct net) adj in
  let r := bfs_find_augmenting_path rn st in
  (r.2 = true ↔ ∃ p, residual_path rn (source rn) p (sink rn)) ∧
  (r.2 = true →
     ∃ p, linked rn (pred r.1) (sink rn) p ∧
          residual_path rn (source rn) (reverse p) (sink rn)) ∧
  (r.2 = false →
     ∀ v, v < n rn →
       (v = source rn ∨ pred r.1 !!! v ≠ None) ↔
       ∃ p, residual_path rn (source rn) p v) ∧
  length (pred r.1) = FlowNetwork.n net ∧
  length (bfs_ordering r.1) = FlowNetwork.n net ∧
  bfs_ordering r.1 !!! 0 = FlowNetwork.source net.
Proof.
  assert (valid minimal_example) as Hv by prove_valid.
  assert (pushes_from (construct minimal_example) []
            (adjlist (construct minimal_example))) as Hp.
  { split; [constructor | reflexivity]. }
  split; [split_and!; [exact Hv | exact Hp | reflexivity | reflexivity | reflexivity]|].
  apply (bfs_find_augmenting_path_correct minimal_example [] _ _ Hv Hp);
    reflexivity.
Defined.

(** ** The layering on its own *)

(** [d] with nothing but what [bfs_compute_rank] reads. *)
Definition bare (d : DinitzCherkassky.t) : DinitzCherkassky.t :=
  DinitzCherkassky.mk (DinitzCherkassky.network d) (drn d)
    (replicate (n (drn d)) 0) (drk d) (DinitzCherkassky.bfs_ordering d) [].

Lemma bfs_compute_rank_bare d :
  let r := DinitzCherkassky.bfs_compute_rank d in
  let r' := DinitzCherkassky.bfs_compute_rank (bare d) in
  drn r.1 = drn d ∧ drn r'.1 = drn d ∧
  drk r.1 = drk r'.1 ∧
  DinitzCherkassky.bfs_ordering r.1 = DinitzCherkassky.bfs_ordering r'.1 ∧
  r.2 = r'.2 ∧
  dcur r.1 = dcur d ∧
  DinitzCherkassky.history r.1 = DinitzCherkassky.history d ∧
  DinitzCherkassky.network r.1 = DinitzCherkassky.network d.
Proof.
  unfold DinitzCherkassky.bfs_compute_rank, bare. simpl.
  destruct (DinitzCherkassky.rank_loop _ _ _ _) as [[rk ord] lst]. done.
Qed.

Lemma dc_outer_bare d :
  wf (drn d) →
  length (drk d) = n (drn d) →
  length (DinitzCherkassky.bfs_ordering d) = n (drn d) →
  DinitzCherkassky.bfs_ordering d !!! 0 = sink (drn d) →
  dc_outer (drn d) (bare d) 0%Z.
Proof.
  intros W Lr Lo Hf. constructor; simpl.
  - done.
  - apply evolves_refl.
  - by rewrite length_replicate.
  - done.
  - done.
  - done.
  - apply history_ok_nil.
  - split_and!.
    + intros x _ _ _. apply net_out_refl.
    + by rewrite net_out_refl.
    + by rewrite !net_out_refl.
Qed.

(** No arc with residual capacity leaves the vertices left without rank. *)
Lemma layered_closed d :
  wf (drn d) → layered d → closed_side (drn d) (dc_side d).
Proof.
  intros W (lst & Li & Ls). unfold dc_side.
  intros a Ha Ht Hrc.
  apply bool_decide_eq_true in Ht. apply bool_decide_eq_true.
  destruct (decide (drk d !!! hd (dadj d) a = DinitzCherkassky.Unreached)) as [|Hre];
    [done|].
  exfalso.
  pose proof (wf_head _ W a Ha) as Hh.
  destruct (wf_twin _ W a Ha) as (Htw & Htt & _).
  assert (hd (dadj d) a ∈ rqueue (drk d, DinitzCherkassky.bfs_ordering d, lst))
    as Hq by (by apply (ri_reached _ _ Li)).
  destruct (rqueue_elem _ _ _ Li Hq) as (i & Hi & Ei). simpl in Hi, Ei.
  specialize (Ls i (tw (dadj d) a) Hi). simpl in Ls.
  rewrite Ei, Htt in Ls.
  apply Ls; [| done | done].
  apply (wf_arcs_out_iff _ _ _ W Hh Htw). by apply wf_tail_twin.
Qed.

(** From a vertex of rank [r], [r] arcs with residual capacity lead to the
    sink. *)
Lemma layered_path d :
  wf (drn d) → layered d →
  ∀ v, v < n (drn d) → drk d !!! v ≠ DinitzCherkassky.Unreached →
    ∃ p, residual_path (drn d) v p (sink (drn d)) ∧
         Z.of_nat (length p) = drk d !!! v.
Proof.
  intros W (lst & Li & Ls) v.
  remember (Z.to_nat (drk d !!! v)) as k eqn:Ek. revert v Ek.
  induction k as [k IH] using lt_wf_ind. intros v Ek Hv Hr.
  destruct (decide (v = sink (drn d))) as [->|Hne].
  - exists []. split; [done|]. pose proof (ri_sink _ _ Li) as Z0. simpl in *. by rewrite Z0.
  - assert (v ∈ rqueue (drk d, DinitzCherkassky.bfs_ordering d, lst)) as Hq
      by (by apply (ri_reached _ _ Li)).
    destruct (ri_witness _ _ Li v Hq Hne) as (a & Ha & Hrc & Hh & Hrk). simpl in *.
    destruct (wf_arcs_out _ v a W Hv Ha) as [Hlt _].
    pose proof (wf_head _ W a Hlt) as Hhn.
    pose proof (rank_range _ W _ _ Li Hhn) as Rg. simpl in Rg.
    destruct (IH (Z.to_nat (drk d !!! hd (dadj d) a)) ltac:(lia) _ eq_refl Hhn Hh)
      as (p & Hp & Hlen).
    exists (a :: p). split.
    + simpl. split_and!; [done | | done].
      destruct (wf_rc _ W a Hlt) as [? _]. lia.
    + simpl length. lia.
Qed.

(** [bfs_compute_rank], on the network as constructed and after any valid
    calls of [push_flow], with [rank] and [bfs_ordering] of [n] entries and
    the sink first in [bfs_ordering]: the sink gets rank 0; a vertex gets a
    rank exactly when arcs with positive residual capacity lead from it to the
    sink, and then as many arcs as its rank do; the result is [true] exactly
    when that holds of the source.  Nothing but [rank] and [bfs_ordering]
    changes, and these keep their sizes and the sink its place. *)
Theorem bfs_compute_rank_correct (net : FlowNetwork.t) hist adj d :
  valid net →
  pushes_from (construct net) hist adj →
  DinitzCherkassky.rnetwork d = with_adjlist (construct net) adj →
  length (DinitzCherkassky.rank d) = FlowNetwork.n net →
  length (DinitzCherkassky.bfs_ordering d) = FlowNetwork.n net →
  DinitzCherkassky.bfs_ordering d !!! 0 = FlowNetwork.sink net →
  let rn := DinitzCherkassky.rnetwork d in
  let r := DinitzCherkassky.bfs_compute_rank d in
  (DinitzCherkassky.rnetwork r.1 = rn ∧
   DinitzCherkassky.network r.1 = DinitzCherkassky.network d ∧
   DinitzCherkassky.current_arc r.1 = DinitzCherkassky.current_arc d ∧
   DinitzCherkassky.history r.1 = DinitzCherkassky.history d) ∧
  (length (DinitzCherkassky.rank r.1) = FlowNetwork.n net ∧
   length (DinitzCherkassky.bfs_ordering r.1) = FlowNetwork.n net ∧
   DinitzCherkassky.bfs_ordering r.1 !!! 0 = FlowNetwork.sink net) ∧
  DinitzCherkassky.rank r.1 !!! sink rn = 0%Z ∧
  (∀ v, v < n rn →
     DinitzCherkassky.rank r.1 !!! v ≠ DinitzCherkassky.Unreached ↔
     ∃ p, residual_path rn v p (sink rn)) ∧
  (∀ v, v < n rn →
     DinitzCherkassky.rank r.1 !!! v ≠ DinitzCherkassky.Unreached →
     ∃ p, residual_path rn v p (sink rn) ∧
          Z.of_nat (length p) = DinitzCherkassky.rank r.1 !!! v) ∧
  (r.2 = true ↔ ∃ p, residual_path rn (source rn) p (sink rn)).
Proof.
  intros Hv P Ern Lr Lo Hf rn r.
  pose proof (pushed_wf net Hv hist adj P) as W. rewrite <- Ern in W.
  assert (n (drn d) = FlowNetwork.n net) as En
    by (rewrite Ern; apply (construct_n net Hv)).
  assert (sink (drn d) = FlowNetwork.sink net) as Et
    by (rewrite Ern; apply (construct_sink net Hv)).
  pose proof (dc_outer_bare d W ltac:(lia) ltac:(lia) ltac:(congruence)) as O.
  pose proof (bfs_compute_rank_spec (drn d) (bare d) 0%Z O) as S.
  pose proof (bfs_compute_rank_bare d) as B. simpl in S, B.
  fold r in B.
  destruct (DinitzCherkassky.bfs_compute_rank (bare d)) as [d' b'].
  destruct r as [d1 b1]. simpl in *.
  destruct S as (O' & Ed' & L' & Hb').
  destruct B as (E1 & _ & Erk & Eord & Eb & Ecur & Ehist & Enet).
  assert (layered d1) as L1.
  { destruct L' as (lst & Li & Ls). exists lst. by rewrite E1, Erk, Eord, <- Ed'. }
  assert (wf (drn d1)) as W1 by (by rewrite E1).
  pose proof (layered_closed d1 W1 L1) as Hcl.
  pose proof (layered_path d1 W1 L1) as Hpath.
  assert (drk d1 !!! sink (drn d) = 0%Z) as Hz.
  { destruct L1 as (lst & Li & _). pose proof (ri_sink _ _ Li) as Z0. simpl in Z0.
    by rewrite E1 in Z0. }
  assert (∀ v, v < n (drn d) →
            drk d1 !!! v ≠ DinitzCherkassky.Unreached ↔
            ∃ p, residual_path (drn d) v p (sink (drn d))) as Hiff.
  { intros v Hvn. split.
    - intros Hr. rewrite <- E1 in Hvn.
      destruct (Hpath v Hvn Hr) as (p & Hp1 & _). exists p. by rewrite <- E1.
    - intros [p Hp1] Hr.
      pose proof (closed_side_path (drn d1) (dc_side d1) p v (sink (drn d1)) W1 Hcl) as C.
      rewrite E1 in C. unfold dc_side in C. rewrite !bool_decide_eq_true in C.
      specialize (C Hvn Hr Hp1). rewrite Hz in C. done. }
  subst rn. split_and!; try done.
  - rewrite Erk, <- En. apply (do_rk_len _ _ _ O').
  - rewrite Eord, <- En. apply (do_ord_len _ _ _ O').
  - rewrite Eord, <- Et. apply (do_first _ _ _ O').
  - intros v Hvn Hr. rewrite <- E1 in Hvn |- *. by apply Hpath.
  - rewrite <- (Hiff _ (wf_source _ W)), Eb, Hb', Erk.
    destruct (Z.eqb_spec (drk d' !!! source (drn d)) DinitzCherkassky.Unreached);
      simpl; split; done.
Qed.

(** A state for the layering of the worked example: the network as
    constructed, ranks and worklist of six entries, the sink first. *)
Definition layering_start : DinitzCherkassky.t :=
  DinitzCherkassky.mk minimal_example
    (with_adjlist (construct minimal_example) (adjlist (construct minimal_example)))
    (replicate 6 0) (replicate 6 0%Z) (5 :: replicate 5 0) [].

Lemma bfs_compute_rank_correct_witness :
  let net := minimal_example in
  let adj := adjlist (construct net) in
  let d := layering_start in
  (valid net ∧ pushes_from (construct net) [] adj ∧
   DinitzCherkassky.rnetwork d = with_adjlist (construct net) adj ∧
   length (DinitzCherkassky.rank d) = FlowNetwork.n net ∧
   length (DinitzCherkassky.bfs_ordering d) = FlowNetwork.n net ∧
   DinitzCherkassky.bfs_ordering d !!! 0 = FlowNetwork.sink net) ∧
  let rn := DinitzCherkassky.rnetwork d in
  let r := DinitzCherkassky.bfs_compute_rank d in
  (DinitzCherkassky.rnetwork r.1 = rn ∧
   DinitzCherkassky.network r.1 = DinitzCherkassky.network d ∧
   DinitzCherkassky.current_arc r.1 = DinitzCherkassky.current_arc d ∧
   DinitzCherkassky.history r.1 = DinitzCherkassky.history d) ∧
  (length (DinitzCherkassky.rank r.1) = FlowNetwork.n net ∧
   length (DinitzCherkassky.bfs_ordering r.1) = FlowNetwork.n net ∧
   DinitzCherkassky.bfs_ordering r.1 !!! 0 = FlowNetwork.sink net) ∧
  DinitzCherkassky.rank r.1 !!! sink rn = 0%Z ∧
  (∀ v, v < n rn →
     DinitzCherkassky.rank r.1 !!! v ≠ DinitzCherkassky.Unreached ↔
     ∃ p, residual_path rn v p (sink rn)) ∧
  (∀ v, v < n rn →
     DinitzCherkassky.rank r.1 !!! v ≠ DinitzCherkassky.Unreached →
     ∃ p, residual_path rn v p (sink rn) ∧
          Z.of_nat (length p) = DinitzCherkassky.rank r.1 !!! v) ∧
  (r.2 = true ↔ ∃ p, residual_path rn (source rn) p (sink rn)).
Proof.
  assert (valid minimal_example) as Hv by prove_valid.
  assert (pushes_from (construct minimal_example) []
            (adjlist (construct minimal_example))) as Hp.
  { split; [constructor | reflexivity]. }
  split; [exact (conj Hv (conj Hp (conj eq_refl (conj eq_refl (conj eq_refl eq_refl)))))|].
  exact (bfs_compute_rank_correct minimal_example [] _ layering_start Hv Hp
           eq_refl eq_refl eq_refl eq_refl).
Defined.

(** ** The cut a solver ends on *)

(** A side of the vertices with the source in and the sink out. *)
Definition is_cut (net : FlowNetwork.t) (S : nat → bool) : Prop :=
  S (FlowNetwork.source net) = true ∧ S (FlowNetwork.sink net) = false.

Definition is_min_cut (net : FlowNetwork.t) (S : nat → bool) : Prop :=
  is_cut net S ∧
  ∀ S', is_cut net S' → (cut_capacity net S ≤ cut_capacity net S')%Z.

(** The source and the vertices that [pred] gives a predecessor. *)
Definition pred_side (src : nat) (prd : list (option nat)) (x : nat) : bool :=
  bool_decide (x = src ∨ prd !!! x ≠ None).

Lemma closed_cut_value net rn (S : nat → bool) :
  valid net → evolves (construct net) rn → wf rn →
  conserving (construct net) rn →
  is_cut net S → closed_side rn S →
  flow_value net (get_flow_arcs net rn) = cut_capacity net S.
Proof.
  intros Hv He Hw Hc [HSs HSt] Hcl.
  apply (flow_value_eq_cut net Hv S HSs HSt);
    [apply (extracted_feasible net Hv rn He Hw Hc) | |].
  - intros j a Ha H1 H2. rewrite (get_flow_arcs_lookup net Hv rn He j a Ha).
    pose proof (evolved_pair_sum net Hv rn He j a Ha) as Hsum.
    destruct (decide (rc (adjlist rn) (fwd_pos (FlowNetwork.arcs net) j a) = 0%Z))
      as [E|E]; [lia|].
    specialize (Hcl _ (evolved_fwd_lt net Hv rn He j a Ha)).
    unfold tail in Hcl.
    rewrite (evolved_fwd_twin net Hv rn He j a Ha) in Hcl.
    rewrite (evolved_bwd_head net Hv rn He j a Ha) in Hcl.
    rewrite (evolved_fwd_head net Hv rn He j a Ha) in Hcl.
    specialize (Hcl H1 E). congruence.
  - intros j a Ha H1 H2. rewrite (get_flow_arcs_lookup net Hv rn He j a Ha).
    destruct (decide (rc (adjlist rn) (bwd_pos (FlowNetwork.arcs net) j a) = 0%Z))
      as [E|E]; [lia|].
    specialize (Hcl _ (evolved_bwd_lt net Hv rn He j a Ha)).
    unfold tail in Hcl.
    rewrite (evolved_bwd_twin net Hv rn He j a Ha) in Hcl.
    rewrite (evolved_fwd_head net Hv rn He j a Ha) in Hcl.
    rewrite (evolved_bwd_head net Hv rn He j a Ha) in Hcl.
    specialize (Hcl H2 E). congruence.
Qed.

Lemma closed_cut_min net rn (S : nat → bool) :
  valid net → evolves (construct net) rn → wf rn →
  conserving (construct net) rn →
  is_cut net S → closed_side rn S →
  is_min_cut net S ∧
  is_max_flow_value net (cut_capacity net S) ∧
  cut_capacity net S = net_from_source net (get_flow_arcs net rn).
Proof.
  intros Hv He Hw Hc HS Hcl.
  pose proof (closed_cut_value net rn S Hv He Hw Hc HS Hcl) as E.
  pose proof (extracted_feasible net Hv rn He Hw Hc) as F.
  split_and!.
  - split; [done|]. intros S' [HSs' HSt']. rewrite <- E.
    by apply (flow_value_le_cut net Hv S' HSs' HSt').
  - rewrite <- E. destruct HS as [HSs HSt].
    rewrite (extracted_value net Hv rn He).
    by apply (extracted_max net Hv rn He Hw Hc S).
  - by rewrite <- E.
Qed.

Lemma pred_side_closed rn0 s :
  ek_done rn0 s →
  pred_side (source rn0) (pred (ek_bfs s)) (source rn0) = true ∧
  pred_side (source rn0) (pred (ek_bfs s)) (sink rn0) = false ∧
  closed_side (ek_rnetwork s) (pred_side (source rn0) (pred (ek_bfs s))).
Proof.
  intros D. pose proof D as (I & B & Sc).
  pose proof (ei_wf _ _ I) as W. pose proof (ei_ev _ _ I) as E.
  destruct (ek_done_cut rn0 s D) as (_ & _ & Hcl).
  assert (∀ x, x < n (ek_rnetwork s) →
            pred_side (source rn0) (pred (ek_bfs s)) x = ek_side s x) as Hside.
  { intros x Hx. unfold pred_side, ek_side. apply bool_decide_ext.
    rewrite (bi_visited _ _ B x Hx), (ev_source _ _ E). done. }
  split_and!.
  - apply bool_decide_eq_true. by left.
  - apply bool_decide_eq_false. rewrite <- (ev_sink _ _ E), <- (ev_source _ _ E).
    pose proof (bi_sink _ _ B). pose proof (wf_st _ W). naive_solver.
  - intros a Ha Ht Hrc.
    destruct (wf_out _ W a Ha) as [Htn _]. pose proof (wf_head _ W a Ha) as Hhn.
    rewrite Hside in Ht |- * by done. by apply Hcl.
Qed.

(** When either solver returns, the vertices its last search marked (for
    [edmonds_karp] the source and the vertices with a predecessor, for
    [DinitzCherkassky] the vertices left without rank) are the source side of
    a minimum cut: its capacity is the maximum flow value, and the net flow
    out of the source in [flow_arcs]. *)
Theorem min_cut_at_return (net : FlowNetwork.t) :
  valid net →
  (∃ s, returns (λ k, edmonds_karp_run k net) s ∧
        let S := pred_side (FlowNetwork.source net) (pred (ek_bfs s)) in
        is_min_cut net S ∧
        is_max_flow_value net (cut_capacity net S) ∧
        cut_capacity net S
        = net_from_source net (get_flow_arcs net (ek_rnetwork s))) ∧
  (∃ r, returns (λ k, DinitzCherkassky.run k net) r ∧
        let S := dc_side r.1 in
        is_min_cut net S ∧
        is_max_flow_value net (cut_capacity net S) ∧
        cut_capacity net S
        = net_from_source net (get_flow_arcs net (DinitzCherkassky.rnetwork r.1))).
Proof.
  intros Hv.
  destruct (edmonds_karp_returns net Hv) as (s & Rs & De & _).
  destruct (dinitz_returns net Hv) as (r & Rr & Dd & _).
  split.
  - exists s. split; [done|]. cbv zeta.
    pose proof De as (I & _ & _).
    destruct (pred_side_closed _ _ De) as (H1 & H2 & H3).
    rewrite (construct_source net Hv) in H1, H2, H3.
    rewrite (construct_sink net Hv) in H2.
    apply (closed_cut_min net (ek_rnetwork s));
      [done | apply (ei_ev _ _ I) | apply (ei_wf _ _ I) | apply (ei_cons _ _ I)
      | by split | done].
  - exists r. split; [done|]. cbv zeta.
    pose proof Dd as (O & _ & _).
    destruct (dc_done_cut _ _ Dd) as (H1 & H2 & H3).
    rewrite (construct_source net Hv) in H1.
    rewrite (construct_sink net Hv) in H2.
    apply (closed_cut_min net (drn r.1));
      [done | apply (do_ev _ _ _ O) | apply (do_wf _ _ _ O) | apply (do_flow _ _ _ O)
      | by split | done].
Qed.

Lemma min_cut_at_return_witness :
  valid minimal_example ∧
  (∃ s, returns (λ k, edmonds_karp_run k minimal_example) s ∧
        let S := pred_side (FlowNetwork.source minimal_example) (pred (ek_bfs s)) in
        is_min_cut minimal_example S ∧
        is_max_flow_value minimal_example (cut_capacity minimal_example S) ∧
        cut_capacity minimal_example S
        = net_from_source minimal_example
            (get_flow_arcs minimal_example (ek_rnetwork s))) ∧
  (∃ r, returns (λ k, DinitzCherkassky.run k minimal_example) r ∧
        let S := dc_side r.1 in
        is_min_cut minimal_example S ∧
        is_max_flow_value minimal_example (cut_capacity minimal_example S) ∧
        cut_capacity minimal_example S
        = net_from_source minimal_example
            (get_flow_arcs minimal_example (DinitzCherkassky.rnetwork r.1))).
Proof.
  split; [prove_valid | apply (min_cut_at_return minimal_example); prove_valid].
Defined.

(** ** When the value is exact *)

(** Sum of the capacities of the arcs out of the source, and into the sink. *)
Definition source_capacity (net : FlowNetwork.t) : Z :=
  arc_sum (FlowNetwork.arcs net) (λ _ a,
    if decide (CapacityArc.tail a = FlowNetwork.source net)
    then CapacityArc.capacity a else 0%Z).

Definition sink_capacity (net : FlowNetwork.t) : Z :=
  arc_sum (FlowNetwork.arcs net) (λ _ a,
    if decide (CapacityArc.head a = FlowNetwork.sink net)
    then CapacityArc.capacity a else 0%Z).

Lemma max_flow_le_capacities net v :
  valid net → is_max_flow_value net v →
  (v ≤ source_capacity net)%Z ∧ (v ≤ sink_capacity net)%Z.
Proof.
  intros Hv [(g & Hg & <-) _].
  pose proof Hv as (_ & _ & _ & _ & _ & Hst & _).
  split.
  - etrans.
    + apply (flow_value_le_cut net Hv
               (λ x, bool_decide (x = FlowNetwork.source net))); [| | done].
      * by apply bool_decide_eq_true.
      * apply bool_decide_eq_false. congruence.
    + apply arc_sum_le. intros j a Ha.
      destruct (valid_arc net Hv j a Ha) as (_ & _ & _ & Hc).
      repeat case_bool_decide; repeat case_decide; simpl; try lia; done.
  - etrans.
    + apply (flow_value_le_cut net Hv
               (λ x, bool_decide (x ≠ FlowNetwork.sink net))); [| | done].
      * by apply bool_decide_eq_true.
      * apply bool_decide_eq_false. naive_solver.
    + apply arc_sum_le. intros j a Ha.
      destruct (valid_arc net Hv j a Ha) as (_ & _ & _ & Hc).
      repeat case_bool_decide; repeat case_decide; simpl; try lia; done.
Qed.

(** When the capacities of the arcs out of the source, or those of the
    arcs into the sink, add up to less than 2^32, nothing wraps: both solvers
    return the maximum flow value, which is the net flow out of the source in
    their [flow_arcs]. *)
Theorem value_exact_when_small (net : FlowNetwork.t) :
  valid net →
  (source_capacity net < 4294967296 ∨ sink_capacity net < 4294967296)%Z →
  ∃ re rd,
    returns (λ k, edmonds_karp k net) re ∧
    returns (λ k, DinitzCherkassky.call k net) rd ∧
    is_max_flow_value net (Flow.value re) ∧
    Flow.value rd = Flow.value re ∧
    Flow.value re = net_from_source net (Flow.flow_arcs re) ∧
    Flow.value rd = net_from_source net (Flow.flow_arcs rd).
Proof.
  intros Hv Hsmall.
  destruct (edmonds_karp_returns net Hv) as (s & _ & De & Re).
  destruct (dinitz_returns net Hv) as (r & _ & Dd & Rd).
  destruct (solved_flow net Hv _ _ (ek_solved _ _ De)) as (_ & _ & [_ Ve] & _ & Me & _).
  destruct (solved_flow net Hv _ _ (dc_solved _ _ Dd)) as (_ & _ & [_ Vd] & _ & Md & _).
  pose proof (is_max_flow_value_unique _ _ _ Me Md) as E.
  destruct (max_flow_le_capacities net _ Hv Me) as [B1 B2].
  assert (net_from_source net (get_flow_arcs net (ek_rnetwork s)) < 4294967296)%Z
    as Hlt by (destruct Hsmall; lia).
  specialize (Ve Hlt). rewrite <- E in Vd. specialize (Vd Hlt).
  eexists _, _. split_and!; [exact Re | exact Rd | | | |]; simpl.
  - by rewrite Ve.
  - congruence.
  - done.
  - congruence.
Qed.

Lemma value_exact_when_small_witness :
  (valid minimal_example ∧
   (source_capacity minimal_example < 4294967296
    ∨ sink_capacity minimal_example < 4294967296)%Z) ∧
  ∃ re rd,
    returns (λ k, edmonds_karp k minimal_example) re ∧
    returns (λ k, DinitzCherkassky.call k minimal_example) rd ∧
    is_max_flow_value minimal_example (Flow.value re) ∧
    Flow.value rd = Flow.value re ∧
    Flow.value re = net_from_source minimal_example (Flow.flow_arcs re) ∧
    Flow.value rd = net_from_source minimal_example (Flow.flow_arcs rd).
Proof.
  assert (valid minimal_example) as Hv by prove_valid.
  assert (source_capacity minimal_example < 4294967296
          ∨ sink_capacity minimal_example < 4294967296)%Z as Hs.
  { left. vm_compute. reflexivity. }
  split; [by split|].
  apply (value_exact_when_small minimal_example Hv Hs).
Defined.

(** ** What the solvers never touch *)

(** [adj] has the size, the heads and the twins of [adj0]. *)
Definition same_links (adj0 adj : arena) : Prop :=
  length adj = length adj0 ∧
  ∀ a, hd adj a = hd adj0 a ∧ tw adj a = tw adj0 a.

Definition same_shape (rn0 rn : ResidualNetwork.t) : Prop :=
  n rn = n rn0 ∧ m rn = m rn0 ∧ source rn = source rn0 ∧ sink rn = sink rn0 ∧
  arcs_out_span rn = arcs_out_span rn0 ∧
  same_links (adjlist rn0) (adjlist rn).

Lemma evolves_same_shape rn0 rn : evolves rn0 rn → same_shape rn0 rn.
Proof.
  intros [E1 E2 E3 E4 E5 E6 E7 E8 _]. unfold same_shape, same_links.
  split_and!; done.
Qed.

Lemma history_same_links rn0 hist adj :
  history_ok rn0 hist adj →
  Forall (λ c, same_links (adjlist rn0) (before c)
               ∧ same_links (adjlist rn0) (after c)) hist.
Proof.
  intros [F _]. eapply Forall_impl; [exact F|]. intros c (_ & E & _ & _).
  destruct (evolves_same_shape _ _ E) as (_ & _ & _ & _ & _ & L & H). simpl in L, H.
  split; [by split|]. unfold after. split.
  - by rewrite push_flow_length.
  - intros a. rewrite push_flow_hd, push_flow_tw. apply H.
Qed.

(** From the constructor to the return of either solver the residual
    network keeps its counts, its source and sink, the range of every vertex,
    the size of the arena and the head and twin of every record: before and
    after every [push_flow], and at the end. *)
Theorem solvers_keep_shape (net : FlowNetwork.t) :
  valid net →
  (∃ s, returns (λ k, edmonds_karp_run k net) s ∧
        same_shape (construct net) (ek_rnetwork s) ∧
        length (adjlist (ek_rnetwork s)) = 2 * FlowNetwork.m net ∧
        Forall (λ c, same_links (adjlist (construct net)) (before c)
                     ∧ same_links (adjlist (construct net)) (after c))
               (ek_history s)) ∧
  (∃ r, returns (λ k, DinitzCherkassky.run k net) r ∧
        same_shape (construct net) (DinitzCherkassky.rnetwork r.1) ∧
        length (adjlist (DinitzCherkassky.rnetwork r.1)) = 2 * FlowNetwork.m net ∧
        Forall (λ c, same_links (adjlist (construct net)) (before c)
                     ∧ same_links (adjlist (construct net)) (after c))
               (DinitzCherkassky.history r.1)).
Proof.
  intros Hv.
  destruct (edmonds_karp_returns net Hv) as (s & Rs & (Ie & _) & _).
  destruct (dinitz_returns net Hv) as (r & Rr & (Od & _) & _).
  split.
  - exists s. split_and!; [done | | |].
    + apply evolves_same_shape, (ei_ev _ _ Ie).
    + rewrite (wf_len _ (ei_wf _ _ Ie)), (ev_m _ _ (ei_ev _ _ Ie)).
      apply (construct_m net Hv).
    + apply (history_same_links _ _ _ (ei_hist _ _ Ie)).
  - exists r. split_and!; [done | | |].
    + apply evolves_same_shape, (do_ev _ _ _ Od).
    + rewrite (wf_len _ (do_wf _ _ _ Od)), (ev_m _ _ (do_ev _ _ _ Od)).
      apply (construct_m net Hv).
    + apply (history_same_links _ _ _ (do_hist _ _ _ Od)).
Qed.

Lemma solvers_keep_shape_witness :
  valid minimal_example ∧
  (∃ s, returns (λ k, edmonds_karp_run k minimal_example) s ∧
        same_shape (construct minimal_example) (ek_rnetwork s) ∧
        length (adjlist (ek_rnetwork s)) = 2 * FlowNetwork.m minimal_example ∧
        Forall (λ c, same_links (adjlist (construct minimal_example)) (before c)
                     ∧ same_links (adjlist (construct minimal_example)) (after c))
               (ek_history s)) ∧
  (∃ r, returns (λ k, DinitzCherkassky.run k minimal_example) r ∧
        same_shape (construct minimal_example) (DinitzCherkassky.rnetwork r.1) ∧
        length (adjlist (DinitzCherkassky.rnetwork r.1))
        = 2 * FlowNetwork.m minimal_example ∧
        Forall (λ c, same_links (adjlist (construct minimal_example)) (before c)
                     ∧ same_links (adjlist (construct minimal_example)) (after c))
               (DinitzCherkassky.history r.1)).
Proof.
  split; [prove_valid | apply (solvers_keep_shape minimal_example); prove_valid].
Defined.

(** ** A network whose sink the source does not reach *)

Lemma ek_loop_stop k s st :
  bfs_find_augmenting_path (ek_rnetwork s) (ek_bfs s) = (st, false) →
  ek_loop (S k) s = Some (EkState (ek_rnetwork s) st (ek_maxflow s) (ek_history s)).
Proof. intros H. simpl. by rewrite H. Qed.

Lemma phases_stop k d mf d1 :
  DinitzCherkassky.bfs_compute_rank d = (d1, false) →
  DinitzCherkassky.phases (S k) d mf = Some (d1, mf).
Proof. intros H. simpl. by rewrite H. Qed.

Lemma get_flow_arcs_construct net :
  valid net →
  get_flow_arcs net (construct net) = replicate (FlowNetwork.m net) 0%Z.
Proof.
  intros Hv.
  rewrite (get_flow_arcs_spec net Hv (construct net) (evolves_refl _)).
  rewrite <- (proj1 Hv). apply list_eq. intros i. rewrite list_lookup_imap.
  destruct (FlowNetwork.arcs net !! i) as [a|] eqn:E; simpl.
  - rewrite (construct_bwd net Hv i a E). simpl. symmetry.
    apply lookup_replicate_2. by apply lookup_lt_Some in E.
  - symmetry. apply lookup_replicate_None. by apply lookup_ge_None in E.
Qed.

Section unreachable.
Context (net : FlowNetwork.t) (Hv : valid net).
Context (Hno : ¬ ∃ p, residual_path (construct net) (FlowNetwork.source net) p
                                    (FlowNetwork.sink net)).
Local Abbreviation rn0 := (construct net).

Lemma first_search_fails :
  ∃ st, bfs_find_augmenting_path rn0 (ek_bfs (ek_init net)) = (st, false).
Proof.
  pose proof (ek_init_inv net Hv) as I.
  assert (pushes_from rn0 [] (adjlist rn0)) as P by (split; [constructor | done]).
  pose proof (bfs_find_spec net Hv [] (adjlist rn0) P (ek_bfs (ek_init net))) as S.
  rewrite with_adjlist_eta in S.
  specialize (S ltac:(rewrite <- (construct_n net Hv); apply (ei_pred_len _ _ I))
                ltac:(rewrite <- (construct_n net Hv); apply (ei_ord_len _ _ I))
                ltac:(rewrite <- (construct_source net Hv); apply (ei_first _ _ I))).
  destruct (bfs_find_augmenting_path rn0 (ek_bfs (ek_init net))) as [st [|]];
    [|by exists st].
  destruct S as [_ _ _ [p Hp] Lpred]. destruct Hno.
  exists (reverse p).
  rewrite <- (construct_source net Hv), <- (construct_sink net Hv).
  by apply (linked_residual_path rn0 _ _ _ (construct_wf net Hv) Lpred).
Qed.

Lemma first_layering_fails :
  ∃ d1, DinitzCherkassky.bfs_compute_rank (DinitzCherkassky.construct net) = (d1, false)
        ∧ drn d1 = rn0 ∧ DinitzCherkassky.history d1 = [].
Proof.
  pose proof (dc_init_outer net Hv) as O.
  pose proof (bfs_compute_rank_spec rn0 _ 0%Z O) as S.
  pose proof (bfs_compute_rank_bare (DinitzCherkassky.construct net)) as B.
  simpl in S, B.
  destruct (DinitzCherkassky.bfs_compute_rank (DinitzCherkassky.construct net))
    as [d1 b]. simpl in *.
  destruct S as (O1 & E1 & L1 & Hb).
  destruct B as (_ & _ & _ & _ & _ & _ & Eh & _).
  exists d1. split_and!; [| done | done].
  destruct b; [|done]. destruct Hno.
  symmetry in Hb. apply negb_true_iff in Hb. apply Z.eqb_neq in Hb.
  pose proof (construct_wf net Hv) as W.
  destruct (layered_path d1 ltac:(by rewrite E1) L1 (source rn0)) as (p & Hp & _).
  - rewrite E1. apply (wf_source _ W).
  - done.
  - exists p. rewrite E1 in Hp.
    by rewrite <- (construct_source net Hv), <- (construct_sink net Hv).
Qed.
End unreachable.

(** When no path of arcs with positive capacity leads from the source to the
    sink (the records the constructor gives a positive residual capacity are
    the forward records of such arcs), the first search of either solver
    fails: it returns at once, with value 0 and flow 0 on every arc, and has
    pushed nothing. *)
Theorem no_path_no_flow (net : FlowNetwork.t) :
  valid net →
  (¬ ∃ p, residual_path (construct net) (FlowNetwork.source net) p
                        (FlowNetwork.sink net)) →
  ∀ k,
    edmonds_karp (S k) net
    = Some (Flow.mk 0 (replicate (FlowNetwork.m net) 0%Z)) ∧
    DinitzCherkassky.call (S k) net
    = Some (Flow.mk 0 (replicate (FlowNetwork.m net) 0%Z)) ∧
    (∃ s, edmonds_karp_run (S k) net = Some s ∧
          ek_history s = [] ∧ ek_rnetwork s = construct net) ∧
    (∃ r, DinitzCherkassky.run (S k) net = Some r ∧
          DinitzCherkassky.history r.1 = [] ∧
          DinitzCherkassky.rnetwork r.1 = construct net).
Proof.
  intros Hv Hno k.
  destruct (first_search_fails net Hv Hno) as [st Hst].
  destruct (first_layering_fails net Hv Hno) as (d1 & Hd1 & Ern & Ehist).
  pose proof (ek_loop_stop k (ek_init net) st Hst) as Hek.
  pose proof (phases_stop k (DinitzCherkassky.construct net) 0%Z d1 Hd1) as Hdc.
  split_and!.
  - unfold edmonds_karp, edmonds_karp_run. rewrite Hek. simpl.
    by rewrite (get_flow_arcs_construct net Hv).
  - unfold DinitzCherkassky.call, DinitzCherkassky.run. rewrite Hdc. simpl.
    by rewrite Ern, (get_flow_arcs_construct net Hv).
  - eexists. split; [exact Hek|]. done.
  - eexists. split; [exact Hdc|]. done.
Qed.

(** Two vertices and no arc. *)
Definition empty_example : FlowNetwork.t := FlowNetwork.mk 2 0 0 1 [].

Lemma no_path_no_flow_witness :
  (valid empty_example ∧
   ¬ ∃ p, residual_path (construct empty_example) (FlowNetwork.source empty_example) p
                        (FlowNetwork.sink empty_example)) ∧
  ∀ k,
    edmonds_karp (S k) empty_example
    = Some (Flow.mk 0 (replicate (FlowNetwork.m empty_example) 0%Z)) ∧
    DinitzCherkassky.call (S k) empty_example
    = Some (Flow.mk 0 (replicate (FlowNetwork.m empty_example) 0%Z)) ∧
    (∃ s, edmonds_karp_run (S k) empty_example = Some s ∧
          ek_history s = [] ∧ ek_rnetwork s = construct empty_example) ∧
    (∃ r, DinitzCherkassky.run (S k) empty_example = Some r ∧
          DinitzCherkassky.history r.1 = [] ∧
          DinitzCherkassky.rnetwork r.1 = construct empty_example).
Proof.
  assert (valid empty_example) as Hv by prove_valid.
  assert (¬ ∃ p, residual_path (construct empty_example)
                   (FlowNetwork.source empty_example) p
                   (FlowNetwork.sink empty_example)) as Hno.
  { intros [[|a p] H]; simpl in H; [discriminate|].
    destruct H as [H _]. vm_compute in H. inversion H. }
  split; [by split|].
  apply (no_path_no_flow empty_example Hv Hno).
Defined.

(** ** [dfs_phase_loop] on its own *)

Lemma dfs_phase_loop_returns rn0 d u flow :
  dfs_inv rn0 d → u < n rn0 → (0 ≤ flow)%Z →
  ∃ res, returns (λ k, DinitzCherkassky.dfs_phase_loop k u flow d) res ∧
         dfs_post rn0 u flow d res.
Proof.
  intros I Hu Hf.
  pose proof (di_rank _ _ I u Hu) as Hr.
  destruct (dfs_terminates rn0 (Z.to_nat DinitzCherkassky.Unreached) u flow d I Hu Hf)
    as (k & res & Hk).
  { unfold DinitzCherkassky.Unreached in *. lia. }
  exists res. split.
  - apply (returns_from _ k); [|done].
    intros k1 k2 r H1 H2. by apply (proj1 (dfs_mono k1) u flow d r k2).
  - by apply (proj1 (dfs_correct rn0 k) u flow d res).
Qed.

(** [dfs_phase_loop(u, flow)], in a state of the kind a phase goes through
    ([dfs_inv]: a residual network that valid pushes made of [rn0], every
    cursor within the range of its vertex, ranks within [0, Unreached] and 0
    for the sink only): it returns some [df] with [0 <= df <= flow]; [df]
    more has left [u] and [df] more has reached the sink, the balance of every
    other vertex is as before; ranks, worklist and network are untouched and
    the state is again of that kind.  With [flow = 0], or at the sink, it
    returns [flow] and changes nothing. *)
Theorem dfs_phase_loop_correct (rn0 : ResidualNetwork.t) d u flow :
  dfs_inv rn0 d → u < n rn0 → (0 ≤ flow)%Z →
  ∃ res,
    returns (λ k, DinitzCherkassky.dfs_phase_loop k u flow d) res ∧
    (0 ≤ res.1 ≤ flow)%Z ∧
    dfs_inv rn0 res.2 ∧
    DinitzCherkassky.rank res.2 = DinitzCherkassky.rank d ∧
    DinitzCherkassky.bfs_ordering res.2 = DinitzCherkassky.bfs_ordering d ∧
    DinitzCherkassky.network res.2 = DinitzCherkassky.network d ∧
    (∀ x, x < n rn0 →
       net_out rn0 (DinitzCherkassky.rnetwork res.2) x
       = (net_out rn0 (DinitzCherkassky.rnetwork d) x
          + (if decide (x = u) then res.1 else 0)
          - (if decide (x = sink rn0) then res.1 else 0))%Z) ∧
    (flow = 0%Z ∨ u = sink rn0 → res = (flow, d)).
Proof.
  intros I Hu Hf.
  destruct (dfs_phase_loop_returns rn0 d u flow I Hu Hf)
    as (res & R & Ires & Hdf & B & N).
  exists res.
  split; [done|]. split; [done|]. split; [done|].
  split; [apply (bl_rank _ _ _ _ B)|].
  split; [apply (bl_ord _ _ _ _ B)|].
  split; [apply (bl_net _ _ _ _ B)|].
  split; [done|].
  - intros Hedge. destruct R as [k0 R].
    specialize (R (S k0) ltac:(lia)). simpl in R.
    rewrite (ev_sink _ _ (di_ev _ _ I)) in R.
    destruct Hedge as [-> | ->].
    + simpl in R. congruence.
    + rewrite Nat.eqb_refl, orb_true_r in R. congruence.
Qed.

(** The state in which the first phase of the worked example starts its
    search. *)
Definition first_phase_start : DinitzCherkassky.t :=
  DinitzCherkassky.reset_current_arc
    (DinitzCherkassky.bfs_compute_rank (DinitzCherkassky.construct minimal_example)).1.

Lemma first_phase_start_inv : dfs_inv (construct minimal_example) first_phase_start.
Proof.
  pose proof (dc_init_outer minimal_example minimal_example_valid) as O.
  pose proof (bfs_compute_rank_spec _ _ _ O) as (O1 & _ & L1 & _).
  apply (reset_spec _ _ _ O1 L1).
Defined.

Lemma dfs_phase_loop_correct_witness :
  let rn0 := construct minimal_example in
  let d := first_phase_start in
  let u := 0 in
  let flow := DinitzCherkassky.InfiniteFlow in
  (dfs_inv rn0 d ∧ u < n rn0 ∧ (0 ≤ flow)%Z) ∧
  ∃ res,
    returns (λ k, DinitzCherkassky.dfs_phase_loop k u flow d) res ∧
    (0 ≤ res.1 ≤ flow)%Z ∧
    dfs_inv rn0 res.2 ∧
    DinitzCherkassky.rank res.2 = DinitzCherkassky.rank d ∧
    DinitzCherkassky.bfs_ordering res.2 = DinitzCherkassky.bfs_ordering d ∧
    DinitzCherkassky.network res.2 = DinitzCherkassky.network d ∧
    (∀ x, x < n rn0 →
       net_out rn0 (DinitzCherkassky.rnetwork res.2) x
       = (net_out rn0 (DinitzCherkassky.rnetwork d) x
          + (if decide (x = u) then res.1 else 0)
          - (if decide (x = sink rn0) then res.1 else 0))%Z) ∧
    (flow = 0%Z ∨ u = sink rn0 → res = (flow, d)).
Proof.
  assert (0 < n (construct minimal_example)) as Hu by (vm_compute; lia).
  assert (0 ≤ DinitzCherkassky.InfiniteFlow)%Z as Hf by (vm_compute; discriminate).
  split; [exact (conj first_phase_start_inv (conj Hu Hf))|].
  exact (dfs_phase_loop_correct (construct minimal_example) first_phase_start 0
           DinitzCherkassky.InfiniteFlow first_phase_start_inv Hu Hf).
Defined.

(** ** No flow into the source, none out of the sink *)

(** A [push_flow] call on a record that does not enter the source and does
    not leave the sink.  Heads and twins never change, so the record is read
    in the arena as constructed. *)
Definition inner_push (rn0 : ResidualNetwork.t) (c : push_call) : Prop :=
  hd (adjlist rn0) (arc c) ≠ source rn0 ∧ tail (adjlist rn0) (arc c) ≠ sink rn0.

(** A call on a record that does not leave the sink and whose head has a
    rank below [r]. *)
Definition downhill (rn0 : ResidualNetwork.t) (rk : list Z) (r : Z) (c : push_call)
  : Prop :=
  tail (adjlist rn0) (arc c) ≠ sink rn0 ∧ (rk !!! hd (adjlist rn0) (arc c) < r)%Z.

Lemma downhill_mono rn0 rk r r' c :
  (r ≤ r')%Z → downhill rn0 rk r c → downhill rn0 rk r' c.
Proof. intros Hr [H1 H2]. split; [done | lia]. Qed.

(** The records [p], in order, lead from [x] to [y]. *)
Fixpoint walk (rn0 : ResidualNetwork.t) (x : nat) (p : list nat) (y : nat) : Prop :=
  match p with
  | [] => x = y
  | a :: p' =>
      a < m rn0 ∧ tail (adjlist rn0) a = x ∧ walk rn0 (hd (adjlist rn0) a) p' y
  end.

(** A call of the amount [df] on a record that goes one rank down. *)
Definition descends (rn0 : ResidualNetwork.t) (rk : list Z) (df : Z) (c : push_call)
  : Prop :=
  amount c = df ∧
  rk !!! tail (adjlist rn0) (arc c) = (rk !!! hd (adjlist rn0) (arc c) + 1)%Z.

(** What one [dfs_phase_loop(u, flow)] adds to the calls made so far. *)
Definition dfs_calls (rn0 : ResidualNetwork.t) (u : nat) (d : DinitzCherkassky.t)
    (res : Z * DinitzCherkassky.t) (calls : list push_call) : Prop :=
  DinitzCherkassky.history res.2 = DinitzCherkassky.history d ++ calls ∧
  Forall (downhill rn0 (drk d) (drk d !!! u)) calls ∧
  Forall (descends rn0 (drk d) res.1) calls ∧
  (res.1 = 0%Z → calls = []) ∧
  ((0 < res.1)%Z → walk rn0 u (reverse (arc <$> calls)) (sink rn0)).

(** Calls that come in whole paths from the source to the sink, the record
    into the sink first, one positive amount for the records of a path. *)
Inductive augmentations (rn0 : ResidualNetwork.t) : list push_call → Prop :=
| aug_nil : augmentations rn0 []
| aug_path calls path f :
    augmentations rn0 calls → (0 < f)%Z →
    walk rn0 (source rn0) (reverse (arc <$> path)) (sink rn0) →
    Forall (λ c, amount c = f) path →
    augmentations rn0 (calls ++ path).

Lemma augmentations_app rn0 calls1 calls2 :
  augmentations rn0 calls1 → augmentations rn0 calls2 →
  augmentations rn0 (calls1 ++ calls2).
Proof.
  intros H1 H2. induction H2 as [|calls path f H2 IH Hf Hw Ha].
  - by rewrite app_nil_r.
  - rewrite app_assoc. by apply (aug_path _ _ _ f).
Qed.

Lemma walk_snoc rn0 x q a :
  walk rn0 x q (tail (adjlist rn0) a) → a < m rn0 →
  walk rn0 x (q ++ [a]) (hd (adjlist rn0) a).
Proof.
  revert x. induction q as [|b q IH]; intros x H Ha; simpl in *.
  - by split_and!.
  - destruct H as (Hb & Ht & H). split_and!; [done | done | by apply IH].
Qed.

(** A predecessor chain, read from its end, is a path from the source. *)
Lemma linked_walk rn prd y p :
  linked rn prd y p → walk rn (source rn) (reverse p) y.
Proof.
  induction 1 as [Hs | y a p Hy Ha Hlt Hh Hl IH]; [done|].
  rewrite reverse_cons, <- Hh. by apply walk_snoc.
Qed.

Lemma walk_evolves rn0 rn x p y :
  evolves rn0 rn → walk rn x p y → walk rn0 x p y.
Proof.
  intros E. revert x. induction p as [|a p IH]; intros x; simpl; [done|].
  rewrite (ev_m _ _ E), (evolves_tail _ _ _ E), (ev_hd _ _ E).
  intros (H1 & H2 & H3). split_and!; [done | done | by apply IH].
Qed.

Lemma dfs_calls_nil rn0 u d flow :
  (flow = 0%Z ∨ u = sink rn0) → dfs_calls rn0 u d (flow, d) [].
Proof.
  intros H. unfold dfs_calls. simpl. rewrite app_nil_r.
  split_and!; [done | done | done | done |].
  intros Hpos. destruct H as [-> | ->]; [lia | done].
Qed.

(** The calls of one [dfs_phase_loop(u, flow)]: none when it returns 0,
    else one call of the amount returned on each record of a path from [u]
    to the sink, the last record first, every record one rank down. *)
Lemma dfs_history rn0 k :
  (∀ u flow d res,
     DinitzCherkassky.dfs_phase_loop k u flow d = Some res →
     dfs_inv rn0 d → u < n rn0 → (0 ≤ flow)%Z →
     ∃ calls, dfs_calls rn0 u d res calls) ∧
  (∀ u flow d res,
     DinitzCherkassky.dfs_for k u flow d = Some res →
     dfs_inv rn0 d → u < n rn0 → u ≠ sink rn0 → (0 < flow)%Z →
     ∃ calls, dfs_calls rn0 u d res calls).
Proof.
  induction k as [|k [IHP IHQ]]; [done|]. split.
  - intros u flow d res H I Hu Hflow. simpl in H.
    destruct (Z.eqb_spec flow 0) as [->|Hf0]; simpl in H.
    { injection H as <-. exists []. apply dfs_calls_nil. by left. }
    destruct (Nat.eqb_spec u (sink (drn d))) as [Hs|Hs].
    { injection H as <-. exists []. apply dfs_calls_nil. right.
      by rewrite <- (ev_sink _ _ (di_ev _ _ I)). }
    apply (IHQ u flow d res); try done; [|lia].
    by rewrite <- (ev_sink _ _ (di_ev _ _ I)).
  - intros u flow d res H I Hu Hus Hflow. simpl in H.
    pose proof (di_wf _ _ I) as W. pose proof (di_ev _ _ I) as E.
    set (c := dcur d !!! u) in *.
    pose proof (di_cur _ _ I u Hu) as Hcur. fold c in Hcur.
    rewrite (evolves_span_end _ _ u E) in H.
    destruct (Nat.eqb_spec c (span_end rn0 u)) as [Hend|Hend].
    { injection H as <-. exists []. unfold dfs_calls. simpl. rewrite app_nil_r.
      split_and!; [done | done | done | done | lia]. }
    assert (c < m (drn d) ∧ tail (dadj d) c = u) as [Hc Htail].
    { apply (wf_in _ W); [by rewrite (ev_n _ _ E)|]. unfold in_span.
      rewrite (evolves_span_begin _ _ u E), (evolves_span_end _ _ u E). lia. }
    assert (c < m rn0) as Hc0 by (by rewrite <- (ev_m _ _ E)).
    assert (tail (adjlist rn0) c = u) as Htail0
      by (by rewrite <- (evolves_tail _ _ _ E)).
    pose proof (wf_head _ W c Hc) as Hh. rewrite (ev_n _ _ E) in Hh.
    unfold DinitzCherkassky.adj in H.
    set (h := hd (dadj d) c) in *.
    assert (hd (adjlist rn0) c = h) as Hh0 by (by rewrite <- (ev_hd _ _ E)).
    destruct ((drk d !!! u =? wrap32 (drk d !!! h + 1))%Z
              && ResidualArc.is_residual (dadj d !!! c)) eqn:Adm.
    + apply andb_true_iff in Adm as [A1 A2].
      apply (admissible_spec rn0 d u h I Hu Hh Hus) in A1.
      apply is_residual_spec in A2.
      destruct (wf_rc _ W c Hc) as [Hrc0 _].
      destruct (DinitzCherkassky.dfs_phase_loop k h _ d) as [[df1 d1]|] eqn:R; [|done].
      destruct (proj1 (dfs_correct rn0 k) _ _ _ _ R I Hh ltac:(lia))
        as (I1 & F1 & B1 & N1).
      destruct (IHP _ _ _ _ R I Hh ltac:(lia)) as (calls1 & E1 & D1 & A1' & Z1 & P1).
      simpl in I1, F1, B1, N1, E1, A1', Z1, P1.
      assert (Forall (downhill rn0 (drk d) (drk d !!! u)) calls1) as D1'.
      { eapply Forall_impl; [exact D1|]. intros x. apply downhill_mono. lia. }
      assert (dcur d1 !!! u = c) as Hcur1.
      { apply (bl_cur _ _ _ _ B1); [done | lia]. }
      destruct (Z.gtb_spec df1 0) as [Hpos|Hnpos].
      * injection H as <-.
        exists (calls1 ++ [PushCall (DinitzCherkassky.adj d1) c df1]).
        unfold dfs_calls. simpl. split_and!.
        -- by rewrite E1, app_assoc.
        -- apply Forall_app. split; [done|]. apply Forall_singleton.
           split; simpl; [by rewrite Htail0 | rewrite Hh0; lia].
        -- apply Forall_app. split; [done|]. apply Forall_singleton.
           split; simpl; [done | by rewrite Htail0, Hh0].
        -- lia.
        -- intros _. rewrite fmap_app, reverse_app. simpl.
           split_and!; [done | done |]. rewrite Hh0. apply P1. lia.
      * assert (df1 = 0%Z) as Hz1 by lia.
        rewrite (Z1 Hz1), app_nil_r in E1.
        destruct (IHQ _ _ _ _ H) as (calls2 & E2 & D2 & A2' & Z2 & P2);
          [apply step_inv; [done | done | lia] | done | done | done |].
        simpl in E2, D2, A2', Z2, P2. rewrite (bl_rank _ _ _ _ B1) in D2, A2'.
        exists calls2. unfold dfs_calls.
        split_and!; [by rewrite E2, E1 | done | done | done | done].
    + destruct (IHQ _ _ _ _ H) as (calls2 & E2 & D2 & A2' & Z2 & P2);
        [apply step_inv; [done | done | lia] | done | done | done |].
      simpl in E2, D2, A2', Z2, P2. by exists calls2.
Qed.

(** [dfs_phase_loop(u, flow)] in a state a phase goes through: when it
    returns 0 it has called [push_flow] not once; when it returns [df > 0] it
    has called it once on each record of one path from [u] to the sink, the
    record into the sink first, with the amount [df] every time, and every
    record of the path goes from a vertex to one whose rank is one less. *)
Theorem dfs_phase_loop_pushes_path (rn0 : ResidualNetwork.t) d u flow :
  dfs_inv rn0 d → u < n rn0 → (0 ≤ flow)%Z →
  ∃ res calls,
    returns (λ k, DinitzCherkassky.dfs_phase_loop k u flow d) res ∧
    DinitzCherkassky.history res.2 = DinitzCherkassky.history d ++ calls ∧
    (res.1 = 0%Z → calls = []) ∧
    ((0 < res.1)%Z → walk rn0 u (reverse (arc <$> calls)) (sink rn0)) ∧
    Forall (λ c, amount c = res.1 ∧
                 DinitzCherkassky.rank d !!! tail (adjlist rn0) (arc c)
                 = (DinitzCherkassky.rank d !!! hd (adjlist rn0) (arc c) + 1)%Z)
           calls.
Proof.
  intros I Hu Hf.
  destruct (dfs_phase_loop_returns rn0 d u flow I Hu Hf) as (res & [k0 R] & _).
  pose proof (R k0 ltac:(lia)) as Rk.
  destruct (proj1 (dfs_history rn0 k0) _ _ _ _ Rk I Hu Hf)
    as (calls & E & _ & A & Z0 & P).
  exists res, calls. split_and!; [by exists k0 | done | done | done | exact A].
Qed.

Lemma dfs_phase_loop_pushes_path_witness :
  let rn0 := construct minimal_example in
  let d := first_phase_start in
  let u := 0 in
  let flow := DinitzCherkassky.InfiniteFlow in
  (dfs_inv rn0 d ∧ u < n rn0 ∧ (0 ≤ flow)%Z) ∧
  ∃ res calls,
    returns (λ k, DinitzCherkassky.dfs_phase_loop k u flow d) res ∧
    DinitzCherkassky.history res.2 = DinitzCherkassky.history d ++ calls ∧
    (res.1 = 0%Z → calls = []) ∧
    ((0 < res.1)%Z → walk rn0 u (reverse (arc <$> calls)) (sink rn0)) ∧
    Forall (λ c, amount c = res.1 ∧
                 DinitzCherkassky.rank d !!! tail (adjlist rn0) (arc c)
                 = (DinitzCherkassky.rank d !!! hd (adjlist rn0) (arc c) + 1)%Z)
           calls.
Proof.
  assert (0 < n (construct minimal_example)) as Hu by (vm_compute; lia).
  assert (0 ≤ DinitzCherkassky.InfiniteFlow)%Z as Hf by (vm_compute; discriminate).
  split; [exact (conj first_phase_start_inv (conj Hu Hf))|].
  exact (dfs_phase_loop_pushes_path (construct minimal_example) first_phase_start 0
           DinitzCherkassky.InfiniteFlow first_phase_start_inv Hu Hf).
Defined.

(** The calls of a phase. *)
Lemma phase_history rn0 k :
  ∀ d mf r,
    DinitzCherkassky.phase k d mf = Some r →
    dfs_inv rn0 d → flow_ok rn0 (drn d) mf →
    dfs_inv rn0 r.1 ∧ flow_ok rn0 (drn r.1) r.2 ∧
    DinitzCherkassky.bfs_ordering r.1 = DinitzCherkassky.bfs_ordering d ∧
    ∃ calls,
      DinitzCherkassky.history r.1 = DinitzCherkassky.history d ++ calls ∧
      Forall (inner_push rn0) calls ∧ augmentations rn0 calls.
Proof.
  induction k as [|k IH]; intros d mf r H I F; [done|]. simpl in H.
  destruct (DinitzCherkassky.dfs_phase_loop k _ _ d) as [[df d1]|] eqn:R; [|done].
  destruct (dfs_from_source rn0 d mf k df d1 I F R) as (I1 & F1 & Hdf & Rk1 & O1 & _).
  pose proof (di_wf _ _ I) as W. pose proof (di_ev _ _ I) as E.
  pose proof (wf_source _ W) as Hs. rewrite (ev_n _ _ E) in Hs.
  destruct (proj1 (dfs_history rn0 k) _ _ _ _ R I Hs ltac:(done))
    as (calls1 & E1 & D1 & A1 & Z1 & P1).
  simpl in E1, A1, Z1, P1.
  assert (Forall (inner_push rn0) calls1) as In1.
  { eapply Forall_impl; [exact D1|]. intros c [Ht Hr]. split; [|done].
    intros Eq. rewrite (ev_source _ _ E), <- Eq in Hr. lia. }
  assert (augmentations rn0 calls1) as Au1.
  { destruct (decide (df = 0%Z)) as [Hz|Hnz].
    - rewrite (Z1 Hz). constructor.
    - apply (aug_path rn0 [] calls1 df); [constructor | lia | |].
      + rewrite <- (ev_source _ _ E). apply P1. lia.
      + eapply Forall_impl; [exact A1|]. by intros c [Hc _]. }
  destruct (Z.eqb_spec df 0) as [Hz|Hnz].
  - injection H as <-. simpl. split_and!; [done | done | done |]. by exists calls1.
  - destruct (IH _ _ _ H I1 F1) as (I2 & F2 & O2 & calls2 & E2 & In2 & Au2).
    split_and!; [done | done | congruence |].
    exists (calls1 ++ calls2). split_and!.
    + by rewrite E2, E1, app_assoc.
    + by apply Forall_app.
    + by apply augmentations_app.
Qed.

(** The calls of the loop of [operator()]. *)
Lemma phases_history rn0 k :
  ∀ d mf r,
    DinitzCherkassky.phases k d mf = Some r → dc_outer rn0 d mf →
    ∃ calls,
      DinitzCherkassky.history r.1 = DinitzCherkassky.history d ++ calls ∧
      Forall (inner_push rn0) calls ∧ augmentations rn0 calls.
Proof.
  induction k as [|k IH]; intros d mf r H O; [done|]. simpl in H.
  pose proof (bfs_compute_rank_spec rn0 d mf O) as B. simpl in B.
  pose proof (bfs_compute_rank_bare d) as (_ & _ & _ & _ & _ & _ & Hh & _).
  destruct (DinitzCherkassky.bfs_compute_rank d) as [d1 reached] eqn:Eb.
  simpl in B, Hh. destruct B as (O1 & Ern & L1 & _).
  destruct reached.
  - destruct (reset_spec rn0 d1 mf O1 L1) as (I2 & _ & _ & Ern2 & Erk2 & Eord2).
    destruct (DinitzCherkassky.phase k (DinitzCherkassky.reset_current_arc d1) mf)
      as [[d2 mf2]|] eqn:P; [|done].
    destruct (phase_history rn0 k _ _ _ P I2)
      as (I3 & F3 & O3 & calls1 & E1 & In1 & Au1).
    { rewrite Ern2. apply O1. }
    simpl in I3, F3, O3, E1.
    assert (dc_outer rn0 d2 mf2) as O3'.
    { destruct I3. constructor; try done.
      - rewrite O3. apply O1.
      - rewrite O3. apply O1. }
    destruct (IH _ _ _ H O3') as (calls2 & E2 & In2 & Au2).
    exists (calls1 ++ calls2). split_and!.
    + by rewrite E2, E1, Hh, app_assoc.
    + by apply Forall_app.
    + by apply augmentations_app.
  - injection H as <-. exists []. simpl. rewrite app_nil_r.
    split_and!; [done | done | constructor].
Qed.

(** [push_along] calls [push_flow] on the arcs of the predecessor chain, in
    order. *)
Lemma push_along_calls rn prd y p :
  linked rn prd y p →
  ∀ adj hist fuel f r,
    (∀ b, tail adj b = tail (adjlist rn) b) →
    push_along fuel adj prd (prd !!! y) f hist = Some r →
    ∃ calls, r.2 = hist ++ calls ∧ arc <$> calls = p ∧
             Forall (λ c, amount c = f) calls.
Proof.
  induction 1 as [Hs | y a p Hy Ha Hlt Hh Hl IH]; intros adj hist fuel f r T H.
  - rewrite Hs in H. exists []. rewrite app_nil_r.
    destruct fuel; simpl in H; by injection H as <-.
  - rewrite Ha in H. destruct fuel as [|k]; [done|]. simpl in H.
    rewrite push_flow_tail, T in H.
    destruct (IH _ _ _ _ _ (λ b, eq_trans (push_flow_tail adj a f b) (T b)) H)
      as (calls & E & A & F).
    exists (PushCall adj a f :: calls). split_and!.
    + by rewrite E, <- app_assoc.
    + by rewrite fmap_cons, A.
    + by apply Forall_cons.
Qed.

(** No arc of a chain from the sink enters the source or leaves the sink. *)
Lemma linked_inner rn prd p b :
  linked rn prd (sink rn) p → b ∈ p →
  hd (adjlist rn) b ≠ source rn ∧ tail (adjlist rn) b ≠ sink rn.
Proof.
  intros H Hb. destruct (linked_suffix _ _ _ _ b H Hb) as (p' & Hlen & H1 & H2).
  split.
  - by inversion H2.
  - intros Eq. rewrite Eq in H1. pose proof (linked_det _ _ _ _ _ H H1) as ->. lia.
Qed.

(** The calls of the loop of [edmonds_karp]. *)
Lemma ek_loop_history rn0 k :
  ∀ s s', ek_inv rn0 s → ek_loop k s = Some s' →
    ∃ calls, ek_history s' = ek_history s ++ calls ∧
             Forall (inner_push rn0) calls ∧ augmentations rn0 calls.
Proof.
  induction k as [|k IH]; intros s s' I H; [done|].
  pose proof (ek_step rn0 s I) as St. simpl in St, H.
  pose proof (ei_wf _ _ I) as W. pose proof (ei_ev _ _ I) as E.
  assert (length (pred (ek_bfs s)) = n (ek_rnetwork s)) as Lp
    by (by rewrite (ei_pred_len _ _ I), (ev_n _ _ E)).
  assert (length (bfs_ordering (ek_bfs s)) = n (ek_rnetwork s)) as Lo
    by (by rewrite (ei_ord_len _ _ I), (ev_n _ _ E)).
  assert (bfs_ordering (ek_bfs s) !!! 0 = source (ek_rnetwork s)) as Hf0
    by (by rewrite (ei_first _ _ I), (ev_source _ _ E)).
  pose proof (bfs_start_inv (ek_rnetwork s) (ek_bfs s) W Lp Lo Hf0) as I0.
  pose proof (ek_bfs_loop_spec (ek_rnetwork s) W
                (length (bfs_ordering (ek_bfs s))) 0 _ I0) as L.
  specialize (L ltac:(simpl; lia) ltac:(lia) ltac:(intros i a Hi; lia)).
  fold (bfs_find_augmenting_path (ek_rnetwork s) (ek_bfs s)) in L.
  destruct (bfs_find_augmenting_path (ek_rnetwork s) (ek_bfs s)) as [st [|]] eqn:B;
    simpl in St.
  - destruct St as (a0 & f & adj1 & hist1 & k0 & Ha & Hrun & Hf & I1 & _).
    rewrite Ha in H.
    destruct (min_along k _ _ _ _) as [f'|] eqn:Hm; [|done].
    destruct (push_along k _ _ _ _ _) as [[adj1' hist1']|] eqn:Hp; [|done].
    destruct (Hrun (max k k0) ltac:(lia)) as [M P].
    rewrite (min_along_mono k (max k k0) _ _ _ _ _ Hm) in M by lia.
    injection M as ->.
    rewrite (push_along_mono k (max k k0) _ _ _ _ _ _ Hp) in P by lia.
    injection P as -> ->.
    destruct (IH _ _ I1 H) as (calls2 & E2 & In2 & Au2). simpl in E2.
    destruct L as [_ _ _ [p Hl] _].
    destruct (push_along_calls (ek_rnetwork s) (pred st) (sink (ek_rnetwork s)) p Hl
                (adjlist (ek_rnetwork s)) (ek_history s) k f (adj1, hist1)
                (λ b, eq_refl)) as (calls1 & E1 & A1 & F1).
    { rewrite Ha. exact Hp. }
    simpl in E1. exists (calls1 ++ calls2). split_and!.
    + by rewrite E2, E1, app_assoc.
    + apply Forall_app. split; [|done]. apply Forall_forall. intros c Hc.
      destruct (linked_inner (ek_rnetwork s) (pred st) p (arc c) Hl) as [N1 N2].
      { rewrite <- A1. by apply (list_elem_of_fmap_2 arc). }
      unfold inner_push.
      by rewrite <- (ev_hd _ _ E), <- (evolves_tail _ _ _ E),
                 <- (ev_source _ _ E), <- (ev_sink _ _ E).
    + apply augmentations_app; [|done].
      apply (aug_path rn0 [] calls1 f); [constructor | done | | done].
      rewrite A1, <- (ev_source _ _ E), <- (ev_sink _ _ E).
      apply (walk_evolves rn0 (ek_rnetwork s)); [done|].
      by apply (linked_walk _ (pred st)).
  - injection H as <-. exists []. simpl. rewrite app_nil_r.
    split_and!; [done | done | constructor].
Qed.

(** ** What this means for the flow returned *)

Lemma pushed_amount_nonneg rn0 hist b :
  Forall (valid_push rn0) hist → (0 ≤ pushed_through hist b)%Z.
Proof.
  intros F. unfold pushed_through. apply sumZ_fmap_nonneg. intros c Hc.
  rewrite Forall_forall in F. destruct (F c Hc) as [_ Hf].
  case_decide; lia.
Qed.

Lemma pushed_through_none hist b :
  Forall (λ c, arc c ≠ b) hist → pushed_through hist b = 0%Z.
Proof.
  intros F. unfold pushed_through.
  rewrite (sumZ_fmap_ext (λ _, 0%Z)); [apply sumZ_fmap_zero|].
  intros c Hc. rewrite Forall_forall in F. by rewrite decide_False by (by apply F).
Qed.

Section terminal_arcs.
Context (net : FlowNetwork.t) (Hv : valid net).
Local Abbreviation rn0 := (construct net).
Local Abbreviation l := (FlowNetwork.arcs net).

(** An arc that enters the source or leaves the sink. *)
Definition at_terminal (a : CapacityArc.t) : Prop :=
  CapacityArc.head a = FlowNetwork.source net ∨
  CapacityArc.tail a = FlowNetwork.sink net.

Lemma terminal_flow_zero rn hist j a :
  wf rn → evolves rn0 rn → history_ok rn0 hist (adjlist rn) →
  Forall (inner_push rn0) hist →
  l !! j = Some a → at_terminal a →
  get_flow_arcs net rn !!! j = 0%Z.
Proof.
  intros W E H In Ha Hterm.
  pose proof (history_ok_pushes_from _ _ _ H) as P.
  destruct (pushes_from_evolves net Hv hist (adjlist rn) P) as (_ & _ & R).
  rewrite (get_flow_arcs_lookup net Hv rn E j a Ha).
  assert (bwd_pos l j a < m rn0) as Hb.
  { rewrite (construct_m_len net Hv).
    apply (bwd_pos_lt _ _ (valid_arcs net Hv) j a Ha). }
  assert (bwd_pos l j a < m rn) as Hb' by (by rewrite (ev_m _ _ E)).
  rewrite (R _ Hb). pose proof (R _ Hb) as R'.
  destruct (wf_rc _ W _ Hb') as [Hnn _].
  pose proof (pushed_amount_nonneg rn0 hist (bwd_pos l j a) (proj1 P)) as Hge.
  rewrite (construct_bwd net Hv j a Ha) in R' |- *. simpl in R' |- *.
  assert (pushed_through hist (fwd_pos l j a) = 0%Z) as Hz.
  { apply pushed_through_none. eapply Forall_impl; [exact In|].
    intros c [N1 N2] Eq. rewrite Eq in N1, N2. unfold tail in N2.
    rewrite (construct_fwd net Hv j a Ha) in N1, N2. simpl in N1, N2.
    rewrite (construct_bwd net Hv j a Ha) in N2. simpl in N2.
    rewrite (construct_source net Hv) in N1. rewrite (construct_sink net Hv) in N2.
    by destruct Hterm. }
  lia.
Qed.
End terminal_arcs.

(** Neither solver ever calls [push_flow] on a record that enters the source
    or on one that leaves the sink, so in the flow each returns the arcs of
    the network that enter the source or leave the sink carry nothing. *)
Theorem no_flow_through_terminals (net : FlowNetwork.t) :
  valid net →
  (∃ s, returns (λ k, edmonds_karp_run k net) s ∧
        Forall (inner_push (construct net)) (ek_history s) ∧
        ∀ j a, FlowNetwork.arcs net !! j = Some a → at_terminal net a →
               get_flow_arcs net (ek_rnetwork s) !!! j = 0%Z) ∧
  (∃ r, returns (λ k, DinitzCherkassky.run k net) r ∧
        Forall (inner_push (construct net)) (DinitzCherkassky.history r.1) ∧
        ∀ j a, FlowNetwork.arcs net !! j = Some a → at_terminal net a →
               get_flow_arcs net (DinitzCherkassky.rnetwork r.1) !!! j = 0%Z).
Proof.
  intros Hv.
  destruct (edmonds_karp_returns net Hv) as (s & Rs & (Ie & _) & _).
  destruct (dinitz_returns net Hv) as (r & Rr & (Od & _) & _).
  split.
  - assert (Forall (inner_push (construct net)) (ek_history s)) as In.
    { destruct Rs as [k0 Rs]. specialize (Rs k0 ltac:(lia)).
      destruct (ek_loop_history (construct net) k0 _ _ (ek_init_inv net Hv) Rs)
        as (calls & Ec & Hc & _).
      rewrite Ec. done. }
    exists s. split_and!; [done | done |].
    intros j a Ha Ht.
    apply (terminal_flow_zero net Hv _ (ek_history s) j a
             (ei_wf _ _ Ie) (ei_ev _ _ Ie) (ei_hist _ _ Ie) In Ha Ht).
  - assert (Forall (inner_push (construct net)) (DinitzCherkassky.history r.1)) as In.
    { destruct Rr as [k0 Rr]. specialize (Rr k0 ltac:(lia)).
      destruct (phases_history (construct net) k0 _ _ _ Rr (dc_init_outer net Hv))
        as (calls & Ec & Hc & _).
      rewrite Ec. done. }
    exists r. split_and!; [done | done |].
    intros j a Ha Ht.
    apply (terminal_flow_zero net Hv _ (DinitzCherkassky.history r.1) j a
             (do_wf _ _ _ Od) (do_ev _ _ _ Od) (do_hist _ _ _ Od) In Ha Ht).
Qed.

(** The [push_flow] calls of either solver come in whole paths: the calls up
    to the return split into groups, each one call on every record of a
    path from the source to the sink (the record into the sink first) with
    one positive amount for the whole path. *)
Theorem pushes_come_in_paths (net : FlowNetwork.t) :
  valid net →
  (∃ s, returns (λ k, edmonds_karp_run k net) s ∧
        augmentations (construct net) (ek_history s)) ∧
  (∃ r, returns (λ k, DinitzCherkassky.run k net) r ∧
        augmentations (construct net) (DinitzCherkassky.history r.1)).
Proof.
  intros Hv.
  destruct (edmonds_karp_returns net Hv) as (s & Rs & _).
  destruct (dinitz_returns net Hv) as (r & Rr & _).
  split.
  - exists s. split; [done|].
    destruct Rs as [k0 Rs]. specialize (Rs k0 ltac:(lia)).
    destruct (ek_loop_history (construct net) k0 _ _ (ek_init_inv net Hv) Rs)
      as (calls & Ec & _ & Hc).
    by rewrite Ec.
  - exists r. split; [done|].
    destruct Rr as [k0 Rr]. specialize (Rr k0 ltac:(lia)).
    destruct (phases_history (construct net) k0 _ _ _ Rr (dc_init_outer net Hv))
      as (calls & Ec & _ & Hc).
    by rewrite Ec.
Qed.

Lemma pushes_come_in_paths_witness :
  valid minimal_example ∧
  (∃ s, returns (λ k, edmonds_karp_run k minimal_example) s ∧
        augmentations (construct minimal_example) (ek_history s)) ∧
  (∃ r, returns (λ k, DinitzCherkassky.run k minimal_example) r ∧
        augmentations (construct minimal_example) (DinitzCherkassky.history r.1)).
Proof.
  split; [prove_valid | apply (pushes_come_in_paths minimal_example); prove_valid].
Defined.

(** A network with an arc into the source and an arc out of the sink. *)
Definition terminal_example : FlowNetwork.t :=
  FlowNetwork.mk 3 4 0 2
    [CapacityArc.mk 0 1 5; CapacityArc.mk 1 0 3;
     CapacityArc.mk 1 2 4; CapacityArc.mk 2 1 2].

Lemma no_flow_through_terminals_witness :
  valid terminal_example ∧
  (∃ s, returns (λ k, edmonds_karp_run k terminal_example) s ∧
        Forall (inner_push (construct terminal_example)) (ek_history s) ∧
        ∀ j a, FlowNetwork.arcs terminal_example !! j = Some a →
               at_terminal terminal_example a →
               get_flow_arcs terminal_example (ek_rnetwork s) !!! j = 0%Z) ∧
  (∃ r, returns (λ k, DinitzCherkassky.run k terminal_example) r ∧
        Forall (inner_push (construct terminal_example)) (DinitzCherkassky.history r.1) ∧
        ∀ j a, FlowNetwork.arcs terminal_example !! j = Some a →
               at_terminal terminal_example a →
               get_flow_arcs terminal_example (DinitzCherkassky.rnetwork r.1) !!! j = 0%Z).
Proof.
  split; [prove_valid | apply (no_flow_through_terminals terminal_example); prove_valid].
Defined.

(** ** Source and sink the same vertex *)

(** A network that is as [valid] asks, except that its sink is its source. *)
Definition source_is_sink (net : FlowNetwork.t) : Prop :=
  length (FlowNetwork.arcs net) = FlowNetwork.m net ∧
  (Z.of_nat (FlowNetwork.n net) < 4294967296)%Z ∧
  (2 * Z.of_nat (FlowNetwork.m net) < 4294967296)%Z ∧
  FlowNetwork.source net < FlowNetwork.n net ∧
  FlowNetwork.sink net = FlowNetwork.source net ∧
  Forall (arc_ok (FlowNetwork.n net)) (FlowNetwork.arcs net).

(** What the constructor copies, on any network. *)
Lemma construct_copies net :
  n (construct net) = FlowNetwork.n net ∧
  source (construct net) = FlowNetwork.source net ∧
  sink (construct net) = FlowNetwork.sink net.
Proof.
  unfold construct. destruct (place _ _) as [it spans].
  by destruct (foldl fill_step _ _) as [adj it'].
Qed.

(** The search of [edmonds_karp] never accepts the source, so it never
    meets a sink that is the source. *)
Lemma ek_visit_same rn st a : source rn = sink rn → (ek_visit rn st a).2 = false.
Proof.
  intros Hst. unfold ek_visit. rewrite <- Hst.
  destruct (bool_decide _ && _); simpl; [|done].
  by destruct (_ =? source rn).
Qed.

Lemma ek_scan_same rn out :
  source rn = sink rn → ∀ st, (ek_scan rn out st).2 = false.
Proof.
  intros Hst. induction out as [|a out IH]; intros st; [done|]. simpl.
  pose proof (ek_visit_same rn st a Hst) as V.
  destruct (ek_visit rn st a) as [st1 found]. simpl in V. subst found. apply IH.
Qed.

Lemma ek_bfs_loop_same rn slots :
  source rn = sink rn → ∀ u st, (ek_bfs_loop rn slots u st).2 = false.
Proof.
  intros Hst. induction slots as [|k IH]; intros u st; [done|]. simpl.
  destruct (u =? last st); [done|].
  pose proof (ek_scan_same rn (arcs_out rn (bfs_ordering st !!! u)) Hst st) as V.
  destruct (ek_scan rn _ st) as [st1 found]. simpl in V. subst found. apply IH.
Qed.

(** The layering leaves the rank of the sink at 0. *)
Lemma rank_visit_zero ad u t st a :
  st.1.1 !!! t = 0%Z → (DinitzCherkassky.rank_visit ad u st a).1.1 !!! t = 0%Z.
Proof.
  destruct st as [[rk ord] lst]. simpl. intros Ht.
  destruct (bool_decide _ && _) eqn:C; [|done]. simpl.
  apply andb_true_iff in C as [C _]. apply bool_decide_eq_true in C.
  rewrite list_lookup_total_insert_ne; [done|]. intros Eq. rewrite Eq, Ht in C.
  discriminate.
Qed.

Lemma rank_scan_zero ad u t out :
  ∀ st, st.1.1 !!! t = 0%Z →
        (foldl (DinitzCherkassky.rank_visit ad u) st out).1.1 !!! t = 0%Z.
Proof.
  induction out as [|a out IH]; intros st Ht; [done|]. simpl.
  apply IH. by apply rank_visit_zero.
Qed.

Lemma rank_loop_zero rn t slots :
  ∀ u st, st.1.1 !!! t = 0%Z →
          (DinitzCherkassky.rank_loop rn slots u st).1.1 !!! t = 0%Z.
Proof.
  induction slots as [|k IH]; intros u st Ht; [done|]. simpl.
  destruct (u =? st.2); [done|]. apply IH. by apply rank_scan_zero.
Qed.

Lemma bfs_compute_rank_same d :
  source (DinitzCherkassky.rnetwork d) = sink (DinitzCherkassky.rnetwork d) →
  sink (DinitzCherkassky.rnetwork d) < length (DinitzCherkassky.rank d) →
  ∃ d1, DinitzCherkassky.bfs_compute_rank d = (d1, true) ∧
        DinitzCherkassky.rnetwork d1 = DinitzCherkassky.rnetwork d.
Proof.
  intros Hst Hlt. unfold DinitzCherkassky.bfs_compute_rank.
  set (rk0 := <[sink (DinitzCherkassky.rnetwork d) := 0%Z]>
                (replicate (length (DinitzCherkassky.rank d))
                           DinitzCherkassky.Unreached)).
  pose proof (rank_loop_zero (DinitzCherkassky.rnetwork d)
                (sink (DinitzCherkassky.rnetwork d))
                (length (DinitzCherkassky.bfs_ordering d)) 0
                (rk0, DinitzCherkassky.bfs_ordering d, 1)) as Z0.
  destruct (DinitzCherkassky.rank_loop _ _ _ _) as [[rk ord] lst]. simpl in Z0.
  rewrite Hst, Z0.
  - eexists. split; [reflexivity | done].
  - unfold rk0. apply list_lookup_total_insert_eq. by rewrite length_replicate.
Qed.

(** With the sink for source, [dfs_phase_loop(source, InfiniteFlow)] returns
    [InfiniteFlow] at once, and the loop of the phase goes on. *)
Lemma phase_same k :
  ∀ d mf,
    source (DinitzCherkassky.rnetwork d) = sink (DinitzCherkassky.rnetwork d) →
    DinitzCherkassky.phase k d mf = None.
Proof.
  induction k as [|k IH]; intros d mf Hst; [done|]. simpl.
  destruct k as [|k]; [done|].
  cbn [DinitzCherkassky.dfs_phase_loop]. rewrite Hst, Nat.eqb_refl.
  change (DinitzCherkassky.InfiniteFlow =? 0)%Z with false.
  cbn [orb]. cbv iota beta. by apply IH.
Qed.

Lemma phases_same k :
  ∀ d mf,
    source (DinitzCherkassky.rnetwork d) = sink (DinitzCherkassky.rnetwork d) →
    sink (DinitzCherkassky.rnetwork d) < length (DinitzCherkassky.rank d) →
    DinitzCherkassky.phases k d mf = None.
Proof.
  destruct k as [|k]; intros d mf Hst Hlt; [done|]. simpl.
  destruct (bfs_compute_rank_same d Hst Hlt) as (d1 & -> & E1).
  rewrite phase_same; [done|]. simpl. by rewrite E1.
Qed.

(** When the sink is the source, the first search of [edmonds_karp] fails and
    the solver returns 0 without a [push_flow]; the loop of a phase of
    Dinitz-Cherkassky is never left, for [dfs_phase_loop] gives it
    [InfiniteFlow] every time: no number of steps brings [operator()] to its
    [return]. *)
Theorem source_is_sink_behaviour (net : FlowNetwork.t) :
  source_is_sink net →
  (∃ s, (∀ k, edmonds_karp_run (S k) net = Some s) ∧
        ek_maxflow s = 0%Z ∧ ek_history s = [] ∧ ek_rnetwork s = construct net) ∧
  (∀ d u k, sink (DinitzCherkassky.rnetwork d) = u →
            DinitzCherkassky.dfs_phase_loop (S k) u DinitzCherkassky.InfiniteFlow d
            = Some (DinitzCherkassky.InfiniteFlow, d)) ∧
  (∀ k, DinitzCherkassky.run k net = None) ∧
  (∀ k, DinitzCherkassky.call k net = None).
Proof.
  intros (_ & _ & _ & Hs & Hst & _).
  destruct (construct_copies net) as (En & Es & Et).
  assert (source (construct net) = sink (construct net)) as Hsame by congruence.
  assert (∀ k, DinitzCherkassky.run k net = None) as Hrun.
  { intros k. apply phases_same; simpl; [done|].
    rewrite length_replicate. lia. }
  split_and!.
  - pose proof (ek_bfs_loop_same (construct net)
                  (length (bfs_ordering (ek_bfs (ek_init net)))) Hsame 0
                  (BfsState (replicate (length (pred (ek_bfs (ek_init net)))) None)
                            (bfs_ordering (ek_bfs (ek_init net))) 1)) as B.
    fold (bfs_find_augmenting_path (construct net) (ek_bfs (ek_init net))) in B.
    destruct (bfs_find_augmenting_path (construct net) (ek_bfs (ek_init net)))
      as [st found] eqn:Eb.
    simpl in B. subst found.
    exists (EkState (construct net) st 0 []). split; [|done].
    intros k. unfold edmonds_karp_run. apply (ek_loop_stop k (ek_init net) st Eb).
  - intros d u k <-. cbn [DinitzCherkassky.dfs_phase_loop].
    by rewrite Nat.eqb_refl.
  - done.
  - intros k. unfold DinitzCherkassky.call. by rewrite Hrun.
Qed.

(** One arc, from the vertex that is source and sink. *)
Definition loop_example : FlowNetwork.t :=
  FlowNetwork.mk 2 1 0 0 [CapacityArc.mk 0 1 5].

Lemma source_is_sink_behaviour_witness :
  source_is_sink loop_example ∧
  (∃ s, (∀ k, edmonds_karp_run (S k) loop_example = Some s) ∧
        ek_maxflow s = 0%Z ∧ ek_history s = [] ∧
        ek_rnetwork s = construct loop_example) ∧
  (∀ d u k, sink (DinitzCherkassky.rnetwork d) = u →
            DinitzCherkassky.dfs_phase_loop (S k) u DinitzCherkassky.InfiniteFlow d
            = Some (DinitzCherkassky.InfiniteFlow, d)) ∧
  (∀ k, DinitzCherkassky.run k loop_example = None) ∧
  (∀ k, DinitzCherkassky.call k loop_example = None).
Proof.
  assert (source_is_sink loop_example) as H.
  { unfold source_is_sink; simpl; split_and!; try lia; try done.
    repeat (constructor; [unfold arc_ok; simpl; lia|]); constructor. }
  split; [exact H | exact (source_is_sink_behaviour loop_example H)].
Defined.

(** ** The rank of a vertex is its distance to the sink *)

Section levels.
Context (rn : ResidualNetwork.t) (W : wf rn).
Local Abbreviation adj := (adjlist rn).
Local Abbreviation Unreached := DinitzCherkassky.Unreached.

(** The worklist of [bfs_compute_rank] while position [u] is scanned: ranks
    do not decrease along it and end at most one above the rank at [u];
    the arcs into the vertices before [u] come from at most one rank up. *)
Record level_inv (st : rstate) (u : nat) : Prop := LevelInv {
  lv_mono : ∀ i j, i ≤ j → j < st.2 →
    (st.1.1 !!! (st.1.2 !!! i) ≤ st.1.1 !!! (st.1.2 !!! j))%Z;
  lv_front : ∀ j, u < st.2 → j < st.2 →
    (st.1.1 !!! (st.1.2 !!! j) ≤ st.1.1 !!! (st.1.2 !!! u) + 1)%Z;
  lv_done : ∀ i a, i < u → a ∈ arcs_out rn (st.1.2 !!! i) →
    rc adj (tw adj a) ≠ 0%Z →
    (st.1.1 !!! hd adj a ≤ st.1.1 !!! (st.1.2 !!! i) + 1)%Z }.

Lemma rank_visit_level st u a :
  rank_inv rn st → level_inv st u → u < st.2 → a ∈ arcs_out rn (st.1.2 !!! u) →
  let st' := DinitzCherkassky.rank_visit adj (st.1.2 !!! u) st a in
  level_inv st' u ∧
  (rc adj (tw adj a) ≠ 0%Z →
   (st'.1.1 !!! hd adj a ≤ st'.1.1 !!! (st'.1.2 !!! u) + 1)%Z).
Proof.
  intros I L Hu Ha. destruct st as [[rk ord] lst]. simpl in *.
  pose proof (ri_rk_len _ _ I) as Lrk. pose proof (ri_ord_len _ _ I) as Lord.
  simpl in Lrk, Lord.
  pose proof (rqueue_lookup _ _ u I Hu) as Hv. simpl in Hv.
  pose proof (ri_lt _ _ I _ Hv) as Hvn.
  destruct (wf_arcs_out rn _ a W Hvn Ha) as [Hlt Htail].
  pose proof (wf_head _ W a Hlt) as Hh.
  destruct (bool_decide (rk !!! hd adj a = Unreached)) eqn:E1; simpl.
  2: { apply bool_decide_eq_false in E1. split; [done|]. intros _.
       assert (hd adj a ∈ rqueue (rk, ord, lst)) as Hq
         by (by apply (ri_reached _ _ I)).
       destruct (rqueue_elem _ _ _ I Hq) as (j & Hj & Ej). simpl in Hj, Ej.
       rewrite <- Ej. by apply (lv_front _ _ L j). }
  apply bool_decide_eq_true in E1.
  destruct (ResidualArc.is_residual (adj !!! tw adj a)) eqn:E2; simpl.
  2: { split; [done|]. intros Hrc. by apply is_residual_false in E2. }
  assert (hd adj a ∉ rqueue (rk, ord, lst)) as Hnotin.
  { rewrite (ri_reached _ _ I) by done. simpl. by intros []. }
  assert (lst < n rn) as Hlast.
  { pose proof (NoDup_bounded_length (hd adj a :: rqueue (rk, ord, lst)) (n rn)) as P.
    simpl in P. rewrite (rqueue_length _ _ I) in P. apply P.
    - apply NoDup_cons. split; [done | apply (ri_nodup _ _ I)].
    - intros x [->|Hx]%elem_of_cons; [done | by apply (ri_lt _ _ I)]. }
  pose proof (ri_pos _ _ I u Hu) as Hpos. simpl in Hpos.
  pose proof (wf_n _ W) as Hn32.
  pose proof (ri_last _ _ I) as Hl1. simpl in Hl1.
  assert (wrap32 (rk !!! (ord !!! u) + 1) = rk !!! (ord !!! u) + 1)%Z as Hwrap.
  { unfold wrap32. apply Z.mod_small. lia. }
  rewrite Hwrap.
  set (h := hd adj a) in *. set (r := (rk !!! (ord !!! u) + 1)%Z) in *.
  assert (∀ j, j < lst → ord !!! j ≠ h) as Hold.
  { intros j Hj Eq. apply Hnotin. rewrite <- Eq. by apply (rqueue_lookup _ _ j I). }
  assert (∀ j, j < lst → <[lst := h]> ord !!! j = ord !!! j) as Hord.
  { intros j Hj. by rewrite list_lookup_total_insert_ne by lia. }
  assert (<[lst := h]> ord !!! lst = h) as Hordl.
  { apply list_lookup_total_insert_eq. lia. }
  assert (∀ x, x ≠ h → <[h := r]> rk !!! x = rk !!! x) as Hrk.
  { intros x Hx. by rewrite list_lookup_total_insert_ne. }
  assert (<[h := r]> rk !!! h = r) as Hrkh.
  { apply list_lookup_total_insert_eq. lia. }
  split.
  - constructor; simpl.
    + intros i j Hij Hj. destruct (decide (j = lst)) as [->|Hjl].
      * rewrite Hordl, Hrkh. destruct (decide (i = lst)) as [->|Hil].
        -- rewrite Hordl, Hrkh. lia.
        -- rewrite Hord by lia. rewrite Hrk by (apply Hold; lia).
           apply (lv_front _ _ L i); simpl; lia.
      * rewrite !Hord by lia. rewrite !Hrk by (apply Hold; lia).
        apply (lv_mono _ _ L i j); simpl; lia.
    + intros j _ Hj. rewrite (Hord u) by lia.
      rewrite (Hrk (ord !!! u)) by (apply Hold; lia).
      destruct (decide (j = lst)) as [->|Hjl].
      * rewrite Hordl, Hrkh. unfold r. lia.
      * rewrite Hord by lia. rewrite Hrk by (apply Hold; lia).
        apply (lv_front _ _ L j); simpl; lia.
    + intros i b Hi Hb Hrc. rewrite Hord in Hb |- * by lia.
      rewrite (Hrk (ord !!! i)) by (apply Hold; lia).
      pose proof (lv_done _ _ L i b Hi Hb Hrc) as D. simpl in D.
      destruct (decide (hd adj b = h)) as [Eq|Ne].
      * rewrite Eq, E1 in D.
        pose proof (ri_pos _ _ I i ltac:(simpl; lia)) as Pi. simpl in Pi.
        unfold DinitzCherkassky.Unreached in D. lia.
      * by rewrite Hrk.
  - intros _. rewrite Hrkh, (Hord u) by lia.
    rewrite (Hrk (ord !!! u)) by (apply Hold; lia). unfold r. lia.
Qed.

Lemma rank_scan_level out st u :
  rank_inv rn st → level_inv st u → u < st.2 →
  (∀ a, a ∈ out → a ∈ arcs_out rn (st.1.2 !!! u)) →
  let st' := foldl (DinitzCherkassky.rank_visit adj (st.1.2 !!! u)) st out in
  level_inv st' u ∧
  (∀ a, a ∈ out → rc adj (tw adj a) ≠ 0%Z →
        (st'.1.1 !!! hd adj a ≤ st'.1.1 !!! (st'.1.2 !!! u) + 1)%Z).
Proof.
  revert st. induction out as [|a out IH]; intros st I L Hu Hout; simpl.
  - split; [done|]. intros a Ha. by apply elem_of_nil in Ha.
  - destruct (rank_visit_spec rn W st u a I Hu (Hout a ltac:(left))) as (I1 & E1 & V1).
    destruct (rank_visit_level st u a I L Hu (Hout a ltac:(left))) as (L1 & D1).
    set (st1 := DinitzCherkassky.rank_visit adj (st.1.2 !!! u) st a) in *.
    destruct E1 as (Le1 & O1 & R1).
    assert (st1.1.2 !!! u = st.1.2 !!! u) as Eu by (by apply O1).
    assert (∀ b, b ∈ out → b ∈ arcs_out rn (st1.1.2 !!! u)) as Hout1.
    { intros b Hb. rewrite Eu. apply Hout. by right. }
    destruct (rank_scan_spec rn W out st1 u I1 ltac:(lia) Hout1) as (I2 & E2 & _).
    destruct (IH st1 I1 L1 ltac:(lia) Hout1) as (L2 & D2).
    rewrite Eu in I2, E2, L2, D2.
    split; [done|].
    intros b [->|Hb]%elem_of_cons Hrc; [|by apply D2].
    destruct E2 as (Le2 & O2 & R2).
    rewrite (O2 u) by lia. rewrite !R2.
    + by apply D1.
    + apply (ri_reached _ _ I1).
      * apply (ri_lt _ _ I1). apply (rqueue_lookup _ _ u I1). lia.
      * apply (rqueue_lookup _ _ u I1). lia.
    + by apply V1.
Qed.

Lemma rank_loop_level slots u st :
  rank_inv rn st → level_inv st u → u ≤ st.2 → slots + u = n rn →
  let st' := DinitzCherkassky.rank_loop rn slots u st in
  rank_inv rn st' ∧ level_inv st' st'.2.
Proof.
  revert u st. induction slots as [|k IH]; intros u st I L Hu Hn; simpl.
  - pose proof (ri_last _ _ I). assert (u = st.2) as -> by lia. done.
  - destruct (Nat.eqb_spec u st.2) as [->|Hne]; [done|].
    destruct (rank_scan_spec rn W (arcs_out rn (st.1.2 !!! u)) st u I ltac:(lia)
                (λ a Ha, Ha)) as (I1 & (E1 & E2 & E3) & S1).
    destruct (rank_scan_level (arcs_out rn (st.1.2 !!! u)) st u I L ltac:(lia)
                (λ a Ha, Ha)) as (L1 & D1).
    apply IH; [done | | lia | lia].
    constructor.
    + apply (lv_mono _ _ L1).
    + intros j HSu Hj.
      pose proof (lv_front _ _ L1 j ltac:(lia) Hj).
      pose proof (lv_mono _ _ L1 u (S u) ltac:(lia) HSu). lia.
    + intros i a Hi Ha Hrc. destruct (decide (i = u)) as [->|Hiu].
      * apply D1; [|done]. by rewrite E2 in Ha by lia.
      * apply (lv_done _ _ L1 i a); [lia | done | done].
Qed.

(** Once the worklist is exhausted, an arc with residual capacity goes at
    most one rank down. *)
Lemma level_arcs st a :
  rank_inv rn st → level_inv st st.2 → a < m rn → rc adj a ≠ 0%Z →
  (st.1.1 !!! tail adj a ≤ st.1.1 !!! hd adj a + 1)%Z.
Proof.
  intros I L Ha Hrc.
  pose proof (wf_head _ W a Ha) as Hh.
  destruct (wf_out _ W a Ha) as [Ht _].
  destruct (wf_twin _ W a Ha) as (Htw & Htt & _).
  destruct (decide (st.1.1 !!! hd adj a = Unreached)) as [Eq|Ne].
  - rewrite Eq. pose proof (rank_range rn W st _ I Ht). lia.
  - assert (hd adj a ∈ rqueue st) as Hq by (by apply (ri_reached _ _ I)).
    destruct (rqueue_elem _ _ _ I Hq) as (i & Hi & Ei).
    pose proof (lv_done _ _ L i (tw adj a) Hi) as D.
    rewrite Ei, Htt in D. apply D; [|done].
    apply (wf_arcs_out_iff rn _ _ W Hh Htw). by apply wf_tail_twin.
Qed.

(** So no path to the sink has fewer arcs than the rank of its start. *)
Lemma level_shortest st p :
  rank_inv rn st → level_inv st st.2 →
  ∀ v, v < n rn → residual_path rn v p (sink rn) →
       (st.1.1 !!! v ≤ Z.of_nat (length p))%Z.
Proof.
  intros I L. induction p as [|a p IH]; intros v Hv Hp; simpl in Hp.
  - subst v. rewrite (ri_sink _ _ I). simpl. lia.
  - destruct Hp as (Ha & Hrc & Hp).
    destruct (wf_arcs_out rn v a W Hv Ha) as [Hlt Htail].
    pose proof (wf_head _ W a Hlt) as Hh.
    pose proof (level_arcs st a I L Hlt ltac:(lia)) as D. rewrite Htail in D.
    specialize (IH _ Hh Hp). simpl length. lia.
Qed.

Lemma rank_start_inv (ord : list nat) (len : nat) :
  len = n rn → length ord = n rn → ord !!! 0 = sink rn →
  rank_inv rn (<[sink rn := 0%Z]> (replicate len Unreached), ord, 1).
Proof.
  intros -> Lord Hf.
  pose proof (wf_sink _ W) as Ht.
  set (rk0 := <[sink rn := 0%Z]> (replicate (n rn) Unreached)).
  assert (rqueue (rk0, ord, 1) = [sink rn]) as Hq.
  { unfold rqueue. simpl. destruct ord as [|x o]; [simpl in Lord; lia|].
    change (x = sink rn) in Hf. cbn. rewrite take_0. congruence. }
  assert (∀ v, v < n rn → v ≠ sink rn → rk0 !!! v = Unreached) as Hun.
  { intros v Hv Hne. unfold rk0. rewrite list_lookup_total_insert_ne by done.
    by apply lookup_total_replicate_2. }
  assert (rk0 !!! sink rn = 0%Z) as Hsk.
  { unfold rk0. apply list_lookup_total_insert_eq. by rewrite length_replicate. }
  constructor; simpl; rewrite ?Hq.
  - unfold rk0. by rewrite length_insert, length_replicate.
  - done.
  - lia.
  - done.
  - apply NoDup_singleton.
  - intros v ->%list_elem_of_singleton. done.
  - intros v Hv. rewrite list_elem_of_singleton.
    destruct (decide (v = sink rn)) as [->|Hne].
    + rewrite Hsk. unfold Unreached. naive_solver.
    + rewrite Hun by done. naive_solver.
  - intros i Hi. assert (i = 0) as -> by lia. rewrite Hf, Hsk. lia.
  - intros v Hv Hnin. rewrite list_elem_of_singleton in Hnin. by apply Hun.
  - done.
  - intros v Hv Hz. destruct (decide (v = sink rn)) as [->|Hne]; [done|].
    rewrite Hun in Hz by done. done.
  - intros v ->%list_elem_of_singleton Hne. done.
Qed.

Lemma level_start (rk : list Z) (ord : list nat) : level_inv (rk, ord, 1) 0.
Proof.
  constructor; simpl.
  - intros i j Hij Hj. assert (i = 0) as -> by lia. assert (j = 0) as -> by lia. lia.
  - intros j _ Hj. assert (j = 0) as -> by lia. lia.
  - intros i a Hi. lia.
Qed.
End levels.

Lemma bfs_compute_rank_levels d :
  wf (drn d) →
  length (drk d) = n (drn d) →
  length (DinitzCherkassky.bfs_ordering d) = n (drn d) →
  DinitzCherkassky.bfs_ordering d !!! 0 = sink (drn d) →
  let r := DinitzCherkassky.bfs_compute_rank d in
  ∃ lst,
    rank_inv (drn d) (drk r.1, DinitzCherkassky.bfs_ordering r.1, lst) ∧
    level_inv (drn d) (drk r.1, DinitzCherkassky.bfs_ordering r.1, lst) lst.
Proof.
  intros W Lr Lo Hf. unfold DinitzCherkassky.bfs_compute_rank.
  pose proof (rank_start_inv (drn d) W (DinitzCherkassky.bfs_ordering d)
                (length (drk d)) Lr Lo Hf) as I0.
  pose proof (rank_loop_level (drn d) W (length (DinitzCherkassky.bfs_ordering d)) 0 _
                I0 (level_start (drn d) _ _)) as L.
  specialize (L ltac:(simpl; lia) ltac:(lia)). simpl in L.
  destruct (DinitzCherkassky.rank_loop _ _ _ _) as [[rk ord] lst]. simpl in *.
  by exists lst.
Qed.

(** After [bfs_compute_rank], on the network as constructed and after any
    valid calls of [push_flow]: an arc with residual capacity goes at most one
    rank down, so no path of such arcs from a vertex to the sink has fewer
    arcs than the rank of the vertex, and one has exactly as many: the rank
    of a vertex that reaches the sink is its distance to the sink. *)
Theorem rank_is_distance (net : FlowNetwork.t) hist adj d :
  valid net →
  pushes_from (construct net) hist adj →
  DinitzCherkassky.rnetwork d = with_adjlist (construct net) adj →
  length (DinitzCherkassky.rank d) = FlowNetwork.n net →
  length (DinitzCherkassky.bfs_ordering d) = FlowNetwork.n net →
  DinitzCherkassky.bfs_ordering d !!! 0 = FlowNetwork.sink net →
  let rn := DinitzCherkassky.rnetwork d in
  let r := DinitzCherkassky.bfs_compute_rank d in
  (∀ a, a < m rn → (0 < rc (adjlist rn) a)%Z →
     (DinitzCherkassky.rank r.1 !!! tail (adjlist rn) a
      ≤ DinitzCherkassky.rank r.1 !!! hd (adjlist rn) a + 1)%Z) ∧
  (∀ v p, v < n rn → residual_path rn v p (sink rn) →
     (DinitzCherkassky.rank r.1 !!! v ≤ Z.of_nat (length p))%Z ∧
     ∃ q, residual_path rn v q (sink rn) ∧
          Z.of_nat (length q) = DinitzCherkassky.rank r.1 !!! v).
Proof.
  intros Hv P Ern Lr Lo Hf rn r.
  pose proof (pushed_wf net Hv hist adj P) as W. rewrite <- Ern in W.
  assert (n (drn d) = FlowNetwork.n net) as En
    by (rewrite Ern; apply (construct_n net Hv)).
  assert (sink (drn d) = FlowNetwork.sink net) as Et
    by (rewrite Ern; apply (construct_sink net Hv)).
  destruct (bfs_compute_rank_levels d W ltac:(lia) ltac:(lia) ltac:(congruence))
    as (lst & Li & Ll).
  pose proof (dc_outer_bare d W ltac:(lia) ltac:(lia) ltac:(congruence)) as O.
  pose proof (bfs_compute_rank_spec (drn d) (bare d) 0%Z O) as S.
  pose proof (bfs_compute_rank_bare d) as B. simpl in S, B.
  fold r in B, Li, Ll.
  destruct (DinitzCherkassky.bfs_compute_rank (bare d)) as [d' b'].
  destruct r as [d1 b1]. simpl in *.
  destruct S as (O' & Ed' & L' & Hb').
  destruct B as (E1 & _ & Erk & Eord & Eb & Ecur & Ehist & Enet).
  assert (layered d1) as L1.
  { destruct L' as (lst' & Li' & Ls'). exists lst'. by rewrite E1, Erk, Eord, <- Ed'. }
  assert (wf (drn d1)) as W1 by (by rewrite E1).
  pose proof (layered_closed d1 W1 L1) as Hcl.
  pose proof (layered_path d1 W1 L1) as Hpath.
  assert (drk d1 !!! sink (drn d) = 0%Z) as Hz.
  { pose proof (ri_sink _ _ Li) as Z0. by simpl in Z0. }
  subst rn. split.
  - intros a Ha Hrc.
    apply (level_arcs (drn d) W _ a Li Ll Ha). lia.
  - intros v p Hvn Hp. split.
    + apply (level_shortest (drn d) W _ p Li Ll v Hvn Hp).
    + assert (drk d1 !!! v ≠ DinitzCherkassky.Unreached) as Hr.
      { intros Hr.
        pose proof (closed_side_path (drn d1) (dc_side d1) p v (sink (drn d1)) W1 Hcl)
          as C.
        rewrite E1 in C. unfold dc_side in C. rewrite !bool_decide_eq_true in C.
        specialize (C Hvn Hr Hp). rewrite Hz in C. done. }
      rewrite <- E1 in Hvn |- *. by apply Hpath.
Qed.

Lemma rank_is_distance_witness :
  let net := minimal_example in
  let adj := adjlist (construct net) in
  let d := layering_start in
  (valid net ∧ pushes_from (construct net) [] adj ∧
   DinitzCherkassky.rnetwork d = with_adjlist (construct net) adj ∧
   length (DinitzCherkassky.rank d) = FlowNetwork.n net ∧
   length (DinitzCherkassky.bfs_ordering d) = FlowNetwork.n net ∧
   DinitzCherkassky.bfs_ordering d !!! 0 = FlowNetwork.sink net) ∧
  let rn := DinitzCherkassky.rnetwork d in
  let r := DinitzCherkassky.bfs_compute_rank d in
  (∀ a, a < m rn → (0 < rc (adjlist rn) a)%Z →
     (DinitzCherkassky.rank r.1 !!! tail (adjlist rn) a
      ≤ DinitzCherkassky.rank r.1 !!! hd (adjlist rn) a + 1)%Z) ∧
  (∀ v p, v < n rn → residual_path rn v p (sink rn) →
     (DinitzCherkassky.rank r.1 !!! v ≤ Z.of_nat (length p))%Z ∧
     ∃ q, residual_path rn v q (sink rn) ∧
          Z.of_nat (length q) = DinitzCherkassky.rank r.1 !!! v).
Proof.
  assert (valid minimal_example) as Hv by prove_valid.
  assert (pushes_from (construct minimal_example) []
            (adjlist (construct minimal_example))) as Hp.
  { split; [constructor | reflexivity]. }
  split; [exact (conj Hv (conj Hp (conj eq_refl (conj eq_refl (conj eq_refl eq_refl)))))|].
  exact (rank_is_distance minimal_example [] _ layering_start Hv Hp
           eq_refl eq_refl eq_refl eq_refl).
Defined.

(** ** The path that [bfs_find_augmenting_path] finds is a shortest one *)

Section ek_levels.
Context (rn : ResidualNetwork.t) (W : wf rn).
Local Abbreviation adj := (adjlist rn).

(** The predecessor chain of [x] has at most [k] arcs more than that of [y]. *)
Definition dle (prd : list (option nat)) (x y : nat) (k : nat) : Prop :=
  ∀ px py, linked rn prd x px → linked rn prd y py → length px ≤ length py + k.

Lemma dle_refl prd x k : dle prd x x k.
Proof. intros px py Hx Hy. rewrite (linked_det _ _ _ _ _ Hx Hy). lia. Qed.

Lemma dle_trans prd x y z :
  (∃ py, linked rn prd y py) → dle prd x y 1 → dle prd y z 0 → dle prd x z 1.
Proof.
  intros [py Hy] H1 H2 px pz Hx Hz.
  specialize (H1 px py Hx Hy). specialize (H2 py pz Hy Hz). lia.
Qed.

(** The worklist of [bfs_find_augmenting_path] while position [u] is scanned:
    chains do not get shorter along it and end at most one arc longer than
    the chain at [u]; the arcs with residual capacity out of the vertices
    before [u] lead to vertices of the worklist, at most one arc further
    from the source. *)
Record ek_level (st : bfs_state) (u : nat) : Prop := EkLevel {
  el_mono : ∀ i j, i ≤ j → j < last st →
    dle (pred st) (bfs_ordering st !!! i) (bfs_ordering st !!! j) 0;
  el_front : ∀ j, u < last st → j < last st →
    dle (pred st) (bfs_ordering st !!! j) (bfs_ordering st !!! u) 1;
  el_done : ∀ i a, i < u → a ∈ arcs_out rn (bfs_ordering st !!! i) →
    rc adj a ≠ 0%Z →
    hd adj a ∈ queue st ∧ dle (pred st) (hd adj a) (bfs_ordering st !!! i) 1 }.

(** The chains of the vertices of the worklist of [st] are in [st'] what they
    were. *)
Definition keeps (st st' : bfs_state) : Prop :=
  ∀ x px, x ∈ queue st → linked rn (pred st') x px → linked rn (pred st) x px.

(** No path of arcs with residual capacity from the source to the sink has
    fewer arcs than the predecessor chain of the sink. *)
Definition shortest (prd : list (option nat)) : Prop :=
  ∀ p q, linked rn prd (sink rn) p →
         residual_path rn (source rn) q (sink rn) → length p ≤ length q.

Lemma keeps_refl st : keeps st st.
Proof. by intros x px _ H. Qed.

Lemma keeps_insert st h a :
  bfs_inv rn st → pred st !!! h = None → h ≠ source rn →
  ∀ x px, x ∈ queue st →
    linked rn (<[h := Some a]> (pred st)) x px → linked rn (pred st) x px.
Proof.
  intros I Hn Hs x px Hx Hpx.
  destruct (bi_linked _ _ I x Hx) as [p0 H0].
  pose proof (linked_update rn _ x p0 h a H0 Hn Hs) as H0'.
  by rewrite (linked_det _ _ _ _ _ Hpx H0').
Qed.

Lemma linked_new st h a ph :
  bfs_inv rn st → pred st !!! h = None → h ≠ source rn → h < n rn →
  tail adj a ∈ queue st →
  linked rn (<[h := Some a]> (pred st)) h ph →
  ∃ pt, ph = a :: pt ∧ linked rn (pred st) (tail adj a) pt.
Proof.
  intros I Hn Hs Hh Ht Hph.
  inversion Hph as [Hsrc | y b p Hy Hb Hlt Hhd Hl]; subst; [done|].
  rewrite list_lookup_total_insert_eq in Hb by (by rewrite (bi_pred_len _ _ I)).
  injection Hb as <-. exists p. split; [done|].
  by apply (keeps_insert st (hd adj a) a I Hn Hs).
Qed.

(** A path to the sink from a vertex of the worklist leaves the part of the
    worklist already scanned. *)
Lemma path_frontier st u :
  bfs_inv rn st → ek_level st u → u < last st →
  ∀ q x, x ∈ queue st → residual_path rn x q (sink rn) →
  ∀ px pu, linked rn (pred st) x px →
           linked rn (pred st) (bfs_ordering st !!! u) pu →
           length pu + 1 ≤ length px + length q.
Proof.
  intros I L Hu. induction q as [|b q IH]; intros x Hx Hq px pu Hpx Hpu; simpl in Hq.
  - subst x. apply (bi_visited _ _ I) in Hx; [|apply (wf_sink _ W)].
    destruct Hx as [Hx|Hx].
    + by destruct (wf_st _ W).
    + by destruct Hx; apply (bi_sink _ _ I).
  - destruct Hq as (Hb & Hrc & Hq).
    destruct (queue_elem _ _ _ I Hx) as (i & Hi & <-).
    destruct (decide (i < u)) as [Hlt|Hge].
    + destruct (el_done _ _ L i b Hlt Hb ltac:(lia)) as [Hq' D].
      destruct (bi_linked _ _ I _ Hq') as [ph Hph].
      specialize (IH _ Hq' Hq ph pu Hph Hpu).
      specialize (D ph px Hph Hpx). simpl. lia.
    + pose proof (el_mono _ _ L u i ltac:(lia) Hi pu px Hpu Hpx). simpl. lia.
Qed.

Lemma ek_visit_level st u a :
  bfs_inv rn st → ek_level st u → u < last st →
  a ∈ arcs_out rn (bfs_ordering st !!! u) →
  match ek_visit rn st a with
  | (st', true) => shortest (pred st')
  | (st', false) =>
      ek_level st' u ∧ keeps st st' ∧
      (rc adj a ≠ 0%Z →
       hd adj a ∈ queue st' ∧
       dle (pred st') (hd adj a) (bfs_ordering st' !!! u) 1)
  end.
Proof.
  intros I L Hu Ha.
  pose proof (queue_lookup _ st u I Hu) as Hq.
  pose proof (bi_lt _ _ I _ Hq) as Hvn.
  destruct (wf_arcs_out rn _ a W Hvn Ha) as [Hlt Htail].
  pose proof (wf_head _ W a Hlt) as Hh.
  assert (∀ x, x ∈ queue st → dle (pred st) x (bfs_ordering st !!! u) 1) as Hfront.
  { intros x Hx. destruct (queue_elem _ _ _ I Hx) as (j & Hj & <-).
    by apply (el_front _ _ L). }
  unfold ek_visit.
  destruct (bool_decide (pred st !!! hd adj a = None)) eqn:E1; simpl.
  2: { split_and!; [done | apply keeps_refl |]. intros _.
       apply bool_decide_eq_false in E1.
       assert (hd adj a ∈ queue st) as Hin
         by (apply (bi_visited _ _ I); [done | by right]).
       split; [done | by apply Hfront]. }
  apply bool_decide_eq_true in E1.
  destruct (ResidualArc.is_residual (adj !!! a)) eqn:E2; simpl.
  2: { split_and!; [done | apply keeps_refl |]. intros Hrc.
       by apply is_residual_false in E2. }
  destruct (Nat.eqb_spec (hd adj a) (source rn)) as [E3|E3]; simpl.
  { split_and!; [done | apply keeps_refl |]. intros _.
    assert (hd adj a ∈ queue st) as Hin
      by (apply (bi_visited _ _ I); [done | by left]).
    split; [done | by apply Hfront]. }
  assert (tail adj a ∈ queue st) as Htq by (by rewrite Htail).
  destruct (Nat.eqb_spec (hd adj a) (sink rn)) as [E4|E4].
  - intros p q Hp Hpath. simpl in Hp. rewrite <- E4 in Hp.
    destruct (linked_new st (hd adj a) a p I E1 E3 Hh Htq Hp) as (pt & -> & Hpt).
    rewrite Htail in Hpt.
    assert (source rn ∈ queue st) as Hsq.
    { apply (bi_visited _ _ I); [apply (wf_source _ W) | by left]. }
    pose proof (path_frontier st u I L Hu q (source rn) Hsq Hpath [] pt
                  (linked_source _ _ (bi_source _ _ I)) Hpt) as F.
    simpl in *. lia.
  - assert (hd adj a ∉ queue st) as Hnotin.
    { rewrite (bi_visited _ _ I) by done. intros [?|?]; done. }
    assert (last st < n rn) as Hlast.
    { pose proof (NoDup_bounded_length (hd adj a :: queue st) (n rn)) as P.
      simpl in P. rewrite (queue_length _ _ I) in P. apply P.
      - apply NoDup_cons. split; [done | apply (bi_nodup _ _ I)].
      - intros x [->|Hx]%elem_of_cons; [done | by apply (bi_lt _ _ I)]. }
    set (h := hd adj a) in *.
    set (st' := BfsState (<[h := Some a]> (pred st))
                  (<[last st := h]> (bfs_ordering st)) (S (last st))).
    assert (queue st' = queue st ++ [h]) as Hq'.
    { unfold queue. simpl. apply take_S_insert. by rewrite (bi_ord_len _ _ I). }
    assert (∀ j, j < last st → bfs_ordering st' !!! j = bfs_ordering st !!! j) as Hord.
    { intros j Hj. simpl. by rewrite list_lookup_total_insert_ne by lia. }
    assert (bfs_ordering st' !!! last st = h) as Hordl.
    { simpl. apply list_lookup_total_insert_eq. rewrite (bi_ord_len _ _ I). lia. }
    assert (keeps st st') as K.
    { intros x px Hx Hpx. by apply (keeps_insert st h a I E1 E3). }
    assert (∀ x y k, x ∈ queue st → y ∈ queue st →
                     dle (pred st) x y k → dle (pred st') x y k) as Hkeep.
    { intros x y k Hx Hy D px py Hpx Hpy. apply D; by apply K. }
    assert (dle (pred st') h (bfs_ordering st !!! u) 1) as Hnew.
    { intros ph pu Hph Hpu.
      destruct (linked_new st h a ph I E1 E3 Hh Htq Hph) as (pt & -> & Hpt).
      rewrite Htail in Hpt. pose proof (K _ _ Hq Hpu) as Hpu'.
      rewrite (linked_det _ _ _ _ _ Hpt Hpu'). simpl. lia. }
    split_and!.
    + constructor.
      * intros i j Hij Hj. change (last st') with (S (last st)) in Hj.
        destruct (decide (j = last st)) as [->|Hjl].
        -- rewrite Hordl. destruct (decide (i = last st)) as [->|Hil].
           ++ rewrite Hordl. apply dle_refl.
           ++ rewrite Hord by lia. intros px ph Hpx Hph.
              destruct (linked_new st h a ph I E1 E3 Hh Htq Hph) as (pt & -> & Hpt).
              rewrite Htail in Hpt.
              assert (bfs_ordering st !!! i ∈ queue st) as Hiq
                by (apply (queue_lookup _ _ _ I); lia).
              pose proof (Hfront _ Hiq px pt (K _ _ Hiq Hpx) Hpt). simpl. lia.
        -- rewrite !Hord by lia.
           apply Hkeep; [apply (queue_lookup _ _ _ I); lia
                        | apply (queue_lookup _ _ _ I); lia
                        | apply (el_mono _ _ L); lia].
      * intros j _ Hj. change (last st') with (S (last st)) in Hj.
        rewrite (Hord u) by lia.
        destruct (decide (j = last st)) as [->|Hjl].
        -- by rewrite Hordl.
        -- rewrite Hord by lia.
           apply Hkeep; [apply (queue_lookup _ _ _ I); lia | done
                        | apply (el_front _ _ L); lia].
      * intros i b Hi Hb Hrc. rewrite Hord in Hb |- * by lia.
        destruct (el_done _ _ L i b Hi Hb Hrc) as [Hin D].
        split; [rewrite Hq'; apply elem_of_app; by left|].
        apply Hkeep; [done | apply (queue_lookup _ _ _ I); lia | done].
    + done.
    + intros _. split.
      * rewrite Hq'. apply elem_of_app. right. by apply list_elem_of_singleton.
      * by rewrite (Hord u) by lia.
Qed.

Lemma ek_scan_level out st u :
  bfs_inv rn st → ek_level st u → u < last st →
  (∀ a, a ∈ out → a ∈ arcs_out rn (bfs_ordering st !!! u)) →
  match ek_scan rn out st with
  | (st', true) => shortest (pred st')
  | (st', false) =>
      ek_level st' u ∧ keeps st st' ∧
      (∀ a, a ∈ out → rc adj a ≠ 0%Z →
            hd adj a ∈ queue st' ∧
            dle (pred st') (hd adj a) (bfs_ordering st' !!! u) 1)
  end.
Proof.
  revert st. induction out as [|a out IH]; intros st I L Hu Hout; simpl.
  - split_and!; [done | apply keeps_refl |]. intros a Ha. by apply elem_of_nil in Ha.
  - pose proof (queue_lookup _ st u I Hu) as Hq.
    pose proof (ek_visit_spec rn W st _ a I Hq (Hout a ltac:(left))) as V.
    pose proof (ek_visit_level st u a I L Hu (Hout a ltac:(left))) as VL.
    destruct (ek_visit rn st a) as [st1 [|]]; [done|].
    destruct V as (I1 & (Le1 & Q1 & O1) & V1). destruct VL as (L1 & K1 & D1).
    assert (bfs_ordering st1 !!! u = bfs_ordering st !!! u) as Eu by (by apply O1).
    assert (∀ b, b ∈ out → b ∈ arcs_out rn (bfs_ordering st1 !!! u)) as Hout1.
    { intros b Hb. rewrite Eu. apply Hout. by right. }
    pose proof (queue_lookup _ st1 u I1 ltac:(lia)) as Hq1.
    specialize (IH st1 I1 L1 ltac:(lia) Hout1).
    pose proof (ek_scan_spec rn W out st1 _ I1 Hq1 Hout1) as S2.
    destruct (ek_scan rn out st1) as [st2 [|]]; [done|].
    destruct IH as (L2 & K2 & D2). destruct S2 as (I2 & (Le2 & Q2 & O2) & _).
    split_and!.
    + done.
    + intros x px Hx Hpx. apply K1; [done|]. apply K2; [by apply Q1 | done].
    + intros b [->|Hb]%elem_of_cons Hrc; [|by apply D2].
      destruct (D1 Hrc) as [Hin D]. split; [by apply Q2|].
      rewrite (O2 u) by lia. intros ph pu Hph Hpu. apply D; by apply K2.
Qed.

Lemma ek_bfs_loop_level slots u st :
  bfs_inv rn st → ek_level st u → u ≤ last st → slots + u = n rn →
  match ek_bfs_loop rn slots u st with
  | (st', true) => shortest (pred st')
  | (st', false) => True
  end.
Proof.
  revert u st. induction slots as [|k IH]; intros u st I L Hu Hn; simpl; [done|].
  destruct (Nat.eqb_spec u (last st)) as [->|Hne]; [done|].
  pose proof (queue_lookup _ st u I ltac:(lia)) as Hq.
  pose proof (ek_scan_spec rn W (arcs_out rn (bfs_ordering st !!! u)) st
                (bfs_ordering st !!! u) I Hq (λ a Ha, Ha)) as Sc.
  pose proof (ek_scan_level (arcs_out rn (bfs_ordering st !!! u)) st u I L
                ltac:(lia) (λ a Ha, Ha)) as SL.
  destruct (ek_scan rn _ st) as [st1 [|]]; [done|].
  destruct Sc as (I1 & (E1 & E2 & E3) & S1). destruct SL as (L1 & K1 & D1).
  apply IH; [done | | lia | lia].
  constructor.
  - apply (el_mono _ _ L1).
  - intros j HSu Hj.
    apply (dle_trans _ _ (bfs_ordering st1 !!! u)).
    + apply (bi_linked _ _ I1). apply (queue_lookup _ _ _ I1). lia.
    + apply (el_front _ _ L1); lia.
    + apply (el_mono _ _ L1); lia.
  - intros i a Hi Ha Hrc. destruct (decide (i = u)) as [->|Hiu].
    + apply D1; [|done]. by rewrite E3 in Ha by lia.
    + apply (el_done _ _ L1 i a); [lia | done | done].
Qed.

Lemma ek_level_start prd ord : ek_level (BfsState prd ord 1) 0.
Proof.
  constructor; simpl.
  - intros i j Hij Hj. assert (i = 0) as -> by lia. assert (j = 0) as -> by lia.
    apply dle_refl.
  - intros j _ Hj. assert (j = 0) as -> by lia. apply dle_refl.
  - intros i a Hi. lia.
Qed.
End ek_levels.

(** When [bfs_find_augmenting_path] returns [true], on the network as
    constructed and after any valid calls of [push_flow], the predecessors
    from the sink back to the source are a path of arcs with residual
    capacity, and no such path from the source to the sink has fewer arcs:
    the loop of [edmonds_karp] augments along a shortest path. *)
Theorem bfs_finds_shortest_path (net : FlowNetwork.t) hist adj st :
  valid net →
  pushes_from (construct net) hist adj →
  length (pred st) = FlowNetwork.n net →
  length (bfs_ordering st) = FlowNetwork.n net →
  bfs_ordering st !!! 0 = FlowNetwork.source net →
  let rn := with_adjlist (construct net) adj in
  let r := bfs_find_augmenting_path rn st in
  r.2 = true →
  ∃ p, linked rn (pred r.1) (sink rn) p ∧
       residual_path rn (source rn) (reverse p) (sink rn) ∧
       ∀ q, residual_path rn (source rn) q (sink rn) → length p ≤ length q.
Proof.
  intros Hv P Lp Lo Hf rn r. subst rn r.
  pose proof (pushed_wf net Hv hist adj P) as W.
  pose proof (bfs_find_spec net Hv hist adj P st Lp Lo Hf) as S.
  rewrite <- (pushed_n net Hv adj) in Lp, Lo.
  rewrite <- (pushed_source net Hv adj) in Hf.
  pose proof (bfs_start_inv _ st W Lp Lo Hf) as I0.
  pose proof (ek_bfs_loop_level _ W (length (bfs_ordering st)) 0 _ I0
                (ek_level_start _ _ _) ltac:(simpl; lia) ltac:(lia)) as L.
  fold (bfs_find_augmenting_path (with_adjlist (construct net) adj) st) in L.
  destruct (bfs_find_augmenting_path (with_adjlist (construct net) adj) st)
    as [st' [|]]; simpl; [|done].
  intros _. destruct S as [_ _ _ [p Hpath] Lpred].
  exists p. split_and!; [done | |].
  - by apply (linked_residual_path _ _ _ _ W Lpred).
  - intros q Hq. by apply (L p q).
Qed.

Lemma bfs_finds_shortest_path_witness :
  let net := minimal_example in
  let adj := adjlist (construct net) in
  let st := ek_bfs (ek_init net) in
  (valid net ∧ pushes_from (construct net) [] adj ∧
   length (pred st) = FlowNetwork.n net ∧
   length (bfs_ordering st) = FlowNetwork.n net ∧
   bfs_ordering st !!! 0 = FlowNetwork.source net ∧
   (bfs_find_augmenting_path (with_adjlist (construct net) adj) st).2 = true) ∧
  let rn := with_adjlist (construct net) adj in
  let r := bfs_find_augmenting_path rn st in
  ∃ p, linked rn (pred r.1) (sink rn) p ∧
       residual_path rn (source rn) (reverse p) (sink rn) ∧
       ∀ q, residual_path rn (source rn) q (sink rn) → length p ≤ length q.
Proof.
  assert (valid minimal_example) as Hv by prove_valid.
  assert (pushes_from (construct minimal_example) []
            (adjlist (construct minimal_example))) as Hp.
  { split; [constructor | reflexivity]. }
  assert ((bfs_find_augmenting_path
             (with_adjlist (construct minimal_example)
                (adjlist (construct minimal_example)))
             (ek_bfs (ek_init minimal_example))).2 = true) as Hr
    by (vm_compute; reflexivity).
  split;
    [split_and!; [exact Hv | exact Hp | reflexivity | reflexivity | reflexivity
                 | exact Hr]|].
  exact (bfs_finds_shortest_path minimal_example []
           (adjlist (construct minimal_example)) (ek_bfs (ek_init minimal_example))
           Hv Hp eq_refl eq_refl eq_refl Hr).
Defined.

(** ** One augmentation of [edmonds_karp] *)

Lemma foldl_min_in acc (l : list Z) :
  foldl Z.min acc l = acc ∨ foldl Z.min acc l ∈ l.
Proof.
  revert acc. induction l as [|x l IH]; intros acc; simpl; [by left|].
  destruct (IH (Z.min acc x)) as [E|E]; [|right; by right].
  rewrite E. destruct (Z.min_spec acc x) as [[_ ->]|[_ ->]]; [by left|].
  right. by left.
Qed.

Lemma linked_lt rn prd y p b : linked rn prd y p → b ∈ p → b < m rn.
Proof.
  induction 1 as [Hs | y a p Hy Ha Hlt Hh Hl IH]; intros Hb.
  - by apply elem_of_nil in Hb.
  - apply elem_of_cons in Hb as [->|Hb]; [done | by apply IH].
Qed.

(** A predecessor chain never holds a record and its twin. *)
Lemma linked_no_twin rn prd y p :
  wf rn → linked rn prd y p → ∀ b, b ∈ p → tw (adjlist rn) b ∉ p.
Proof.
  intros W H. induction H as [Hs | y a p Hy Ha Hlt Hh Hl IH]; intros b Hb Ht.
  - by apply elem_of_nil in Hb.
  - pose proof (linked_step rn prd y a p Hy Ha Hlt Hh Hl) as Hfull.
    apply elem_of_cons in Hb as [->|Hb]; apply elem_of_cons in Ht as [Et|Ht].
    + by apply (wf_twin_ne rn a W Hlt).
    + by destruct (linked_indep rn prd y a p _ W Hfull Ht) as [_ N].
    + destruct (linked_indep rn prd y a p b W Hfull Hb) as [_ N]. apply N.
      rewrite <- Et.
      by destruct (wf_twin _ W b (linked_lt _ _ _ _ _ Hl Hb)) as (_ & -> & _).
    + by apply (IH b).
Qed.

Lemma if_elem_cons_ne (x a : nat) (p : list nat) (f : Z) :
  x ≠ a →
  (if decide (x ∈ a :: p) then f else 0%Z) = (if decide (x ∈ p) then f else 0%Z).
Proof.
  intros Hne. destruct (decide (x ∈ p)) as [H|H].
  - rewrite decide_True; [done | by right].
  - rewrite decide_False; [done|]. by intros [?|?]%elem_of_cons.
Qed.

Lemma if_elem_cons_eq (a : nat) (p : list nat) (f : Z) :
  (if decide (a ∈ a :: p) then f else 0%Z) = f.
Proof. rewrite decide_True; [done | by left]. Qed.

Lemma if_elem_not (x : nat) (p : list nat) (f : Z) :
  x ∉ p → (if decide (x ∈ p) then f else 0%Z) = 0%Z.
Proof. intros H. by rewrite decide_False. Qed.

(** What [push_along] leaves in the arena: [f] less on every record of the
    chain, [f] more on its twin, the rest as it was. *)
Lemma push_along_rc rnB prd f :
  wf rnB → (0 < f)%Z →
  ∀ p y, linked rnB prd y p →
  ∀ rn hist fuel r,
    wf rn → evolves rnB rn →
    (∀ b, b ∈ p → (f ≤ rc (adjlist rn) b)%Z) →
    push_along fuel (adjlist rn) prd (prd !!! y) f hist = Some r →
    ∀ b, b < m rnB →
      rc r.1 b = (rc (adjlist rn) b
                  - (if decide (b ∈ p) then f else 0)
                  + (if decide (tw (adjlist rnB) b ∈ p) then f else 0))%Z.
Proof.
  intros WB Hf p y HL.
  induction HL as [Hs | y a p Hy Ha Hlt Hh Hl IH];
    intros rn hist fuel r W EB Hmin H b Hb.
  - rewrite Hs in H. rewrite !if_elem_not by apply not_elem_of_nil.
    destruct fuel; simpl in H; injection H as <-; simpl; lia.
  - rewrite Ha in H. destruct fuel as [|k]; [done|]. simpl in H.
    assert (a < m rn) as Hlt' by (by rewrite (ev_m _ _ EB)).
    assert (0 ≤ f ≤ rc (adjlist rn) a)%Z as Hfa.
    { split; [lia|]. apply Hmin. by left. }
    destruct (push_flow_wf rn a f W Hlt' Hfa) as [W1 E1].
    set (rn1 := with_adjlist rn (push_flow (adjlist rn) a f)) in *.
    rewrite push_flow_tail, (evolves_tail _ _ _ EB) in H.
    pose proof (linked_step rnB prd y a p Hy Ha Hlt Hh Hl) as Hfull.
    assert (∀ c, c ∈ p → c ≠ a ∧ c ≠ tw (adjlist rnB) a) as Hind.
    { intros c Hc. apply (linked_indep rnB prd y a p c WB Hfull Hc). }
    assert (∀ c, c ∈ p → (f ≤ rc (adjlist rn1) c)%Z) as Hmin1.
    { intros c Hc. unfold rn1. simpl.
      rewrite (push_flow_rc_exact rn a f c W Hlt' Hfa).
      destruct (Hind c Hc) as [N1 N2]. rewrite <- (ev_tw _ _ EB) in N2.
      rewrite !decide_False by done. apply Hmin. by right. }
    rewrite (IH rn1 _ k r W1 (evolves_trans _ _ _ EB E1) Hmin1 H b Hb).
    unfold rn1. simpl. rewrite (push_flow_rc_exact rn a f b W Hlt' Hfa).
    rewrite (ev_tw _ _ EB).
    destruct (wf_twin _ WB b Hb) as (Htwb & Htt & _).
    destruct (wf_twin _ WB a Hlt) as (Htwa & Htta & _).
    pose proof (wf_twin_ne rnB a WB Hlt) as Hne.
    destruct (decide (b = a)) as [->|Hba].
    + rewrite if_elem_cons_eq.
      rewrite (if_elem_not a p) by (intros Hc; by destruct (Hind a Hc)).
      rewrite (if_elem_cons_ne _ a) by done.
      rewrite (if_elem_not (tw (adjlist rnB) a) p)
        by (intros Hc; by destruct (Hind _ Hc)).
      lia.
    + destruct (decide (b = tw (adjlist rnB) a)) as [->|Hbt].
      * rewrite Htta, if_elem_cons_eq.
        rewrite (if_elem_cons_ne _ a) by done.
        rewrite (if_elem_not (tw (adjlist rnB) a) p)
          by (intros Hc; by destruct (Hind _ Hc)).
        rewrite (if_elem_not a p) by (intros Hc; by destruct (Hind a Hc)).
        lia.
      * rewrite (if_elem_cons_ne b a) by done.
        rewrite (if_elem_cons_ne (tw (adjlist rnB) b) a); [lia|].
        intros E. apply Hbt. by rewrite <- E, Htt.
Qed.

(** One turn of the loop of [edmonds_karp], on the network as constructed
    and after any valid calls of [push_flow], when the search has found a
    path: the loops over the predecessors end; the amount is the smallest
    residual capacity on the path, and positive; [push_flow] is called with
    it once on each record of the path, from the sink back; after that every
    record of the path has that much less, its twin that much more, every
    other record what it had, and at least one record of the path is
    saturated.  The calls were valid. *)
Theorem augmentation_step (net : FlowNetwork.t) hist adj st :
  valid net →
  pushes_from (construct net) hist adj →
  length (pred st) = FlowNetwork.n net →
  length (bfs_ordering st) = FlowNetwork.n net →
  bfs_ordering st !!! 0 = FlowNetwork.source net →
  let rn := with_adjlist (construct net) adj in
  let r := bfs_find_augmenting_path rn st in
  r.2 = true →
  ∃ a0 p f adj1 calls,
    pred r.1 !!! sink rn = Some a0 ∧
    linked rn (pred r.1) (sink rn) p ∧
    returns (λ k, min_along k adj (pred r.1) (Some a0) (rc adj a0)) f ∧
    returns (λ k, push_along k adj (pred r.1) (Some a0) f hist)
            (adj1, hist ++ calls) ∧
    (0 < f)%Z ∧
    (∀ b, b ∈ p → (f ≤ rc adj b)%Z) ∧
    (∃ b, b ∈ p ∧ rc adj b = f) ∧
    arc <$> calls = p ∧
    Forall (λ c, amount c = f) calls ∧
    (∀ b, b < m rn →
       rc adj1 b = (rc adj b
                    - (if decide (b ∈ p) then f else 0)
                    + (if decide (tw adj b ∈ p) then f else 0))%Z) ∧
    (∃ b, b ∈ p ∧ rc adj1 b = 0%Z) ∧
    pushes_from (construct net) (hist ++ calls) adj1.
Proof.
  intros Hv P Lp Lo Hf rn r. subst rn r.
  pose proof (pushed_wf net Hv hist adj P) as W.
  pose proof (bfs_find_spec net Hv hist adj P st Lp Lo Hf) as S.
  destruct (pushes_from_evolves net Hv hist adj P) as (_ & E & _).
  set (rn := with_adjlist (construct net) adj) in *.
  assert (history_ok (construct net) hist (adjlist rn)) as Hh.
  { destruct P as [F C]. split; [|done].
    destruct (chain_evolves (construct net) hist (adjlist (construct net)) adj)
      as (_ & _ & Fo & _); [| | done | done | done].
    - rewrite with_adjlist_eta. apply (construct_wf net Hv).
    - rewrite with_adjlist_eta. apply evolves_refl. }
  destruct (bfs_find_augmenting_path rn st) as [st' [|]]; simpl; [|done].
  intros _. destruct S as [_ _ _ [p Hp] Lpred].
  inversion Hp as [Hs | y a0 p' Hy Ha Hlt Hhd Hl]; subst.
  { by destruct (wf_st _ W). }
  assert (∀ b, b ∈ a0 :: p' → (0 < rc adj b)%Z) as Hpos.
  { intros b Hb. pose proof (linked_pred _ _ _ _ b Hp Hb) as Hb'.
    destruct (Lpred _ _ Hb') as [Hblt Hbrc].
    destruct (wf_rc _ W b Hblt) as [? _]. simpl in *. lia. }
  set (f := foldl Z.min (rc adj a0) ((λ b, rc adj b) <$> a0 :: p')).
  assert (0 < f)%Z as Hfpos.
  { apply foldl_min_pos; [apply Hpos; by left|].
    intros x (b & -> & Hb)%list_elem_of_fmap. by apply Hpos. }
  assert (∀ b, b ∈ a0 :: p' → (f ≤ rc adj b)%Z) as Hmin.
  { intros b Hb. apply foldl_min_le_elem.
    by apply (list_elem_of_fmap_2 (λ b, rc adj b)). }
  assert (∃ b, b ∈ a0 :: p' ∧ rc adj b = f) as (bs & Hbs & Ebs).
  { destruct (foldl_min_in (rc adj a0) ((λ b, rc adj b) <$> a0 :: p')) as [E0|E0].
    - exists a0. split; [by left | done].
    - apply list_elem_of_fmap in E0 as (b & E0 & Hb). by exists b. }
  destruct (push_along_spec (construct net) rn (pred st') f W Hfpos _ _ Hp rn hist
              (length (a0 :: p')) W E (evolves_refl rn) ltac:(done) Hmin Hh)
    as (adj1 & hist1 & Pa & W1 & E1 & H1 & _).
  rewrite Ha in Pa.
  destruct (push_along_calls rn (pred st') (sink rn) (a0 :: p') Hp adj hist
              (length (a0 :: p')) f (adj1, hist1) (λ b, eq_refl))
    as (calls & Ec & Ac & Fc).
  { by rewrite Ha. }
  simpl in Ec. subst hist1.
  pose proof (push_along_rc rn (pred st') f W Hfpos _ _ Hp rn hist
                (length (a0 :: p')) (adj1, hist ++ calls) W (evolves_refl rn) Hmin)
    as Hrc.
  rewrite Ha in Hrc. specialize (Hrc Pa). simpl in Hrc.
  exists a0, (a0 :: p'), f, adj1, calls.
  split_and!.
  - done.
  - done.
  - exists (length (a0 :: p')). intros k Hk.
    pose proof (min_along_linked rn (pred st') _ _ Hp rn k (rc adj a0)
                  (evolves_refl rn) Hk) as M.
    by rewrite Ha in M.
  - apply (returns_from _ (length (a0 :: p'))); [|done].
    intros k k' r0 Hr Hk. by apply (push_along_mono k k').
  - done.
  - done.
  - by exists bs.
  - done.
  - done.
  - intros b Hb. by apply Hrc.
  - exists bs. split; [done|].
    rewrite (Hrc bs (linked_lt _ _ _ _ _ Hp Hbs)).
    rewrite decide_True by done.
    rewrite decide_False by (by apply (linked_no_twin rn (pred st') _ _ W Hp)).
    simpl in Ebs. lia.
  - by apply history_ok_pushes_from.
Qed.

Lemma augmentation_step_witness :
  let net := minimal_example in
  let adj := adjlist (construct net) in
  let st := ek_bfs (ek_init net) in
  (valid net ∧ pushes_from (construct net) [] adj ∧
   length (pred st) = FlowNetwork.n net ∧
   length (bfs_ordering st) = FlowNetwork.n net ∧
   bfs_ordering st !!! 0 = FlowNetwork.source net ∧
   (bfs_find_augmenting_path (with_adjlist (construct net) adj) st).2 = true) ∧
  let rn := with_adjlist (construct net) adj in
  let r := bfs_find_augmenting_path rn st in
  ∃ a0 p f adj1 calls,
    pred r.1 !!! sink rn = Some a0 ∧
    linked rn (pred r.1) (sink rn) p ∧
    returns (λ k, min_along k adj (pred r.1) (Some a0) (rc adj a0)) f ∧
    returns (λ k, push_along k adj (pred r.1) (Some a0) f [])
            (adj1, [] ++ calls) ∧
    (0 < f)%Z ∧
    (∀ b, b ∈ p → (f ≤ rc adj b)%Z) ∧
    (∃ b, b ∈ p ∧ rc adj b = f) ∧
    arc <$> calls = p ∧
    Forall (λ c, amount c = f) calls ∧
    (∀ b, b < m rn →
       rc adj1 b = (rc adj b
                    - (if decide (b ∈ p) then f else 0)
                    + (if decide (tw adj b ∈ p) then f else 0))%Z) ∧
    (∃ b, b ∈ p ∧ rc adj1 b = 0%Z) ∧
    pushes_from (construct net) ([] ++ calls) adj1.
Proof.
  assert (valid minimal_example) as Hv by prove_valid.
  assert (pushes_from (construct minimal_example) []
            (adjlist (construct minimal_example))) as Hp.
  { split; [constructor | reflexivity]. }
  assert ((bfs_find_augmenting_path
             (with_adjlist (construct minimal_example)
                (adjlist (construct minimal_example)))
             (ek_bfs (ek_init minimal_example))).2 = true) as Hr
    by (vm_compute; reflexivity).
  split;
    [split_and!; [exact Hv | exact Hp | reflexivity | reflexivity | reflexivity
                 | exact Hr]|].
  exact (augmentation_step minimal_example []
           (adjlist (construct minimal_example)) (ek_bfs (ek_init minimal_example))
           Hv Hp eq_refl eq_refl eq_refl Hr).
Defined.

(** ** A phase ends when the layers are blocked *)

(** A record that [dfs_phase_loop] may go through: it has residual capacity
    and goes exactly one rank down. *)
Definition adm (rn0 : ResidualNetwork.t) (rk : list Z) (ad : arena) (a : nat) : Prop :=
  a < m rn0 ∧ rc ad a ≠ 0%Z ∧
  rk !!! tail (adjlist rn0) a = (rk !!! hd (adjlist rn0) a + 1)%Z.

(** [p] is a path of such records from [x] to the sink. *)
Fixpoint apath (rn0 : ResidualNetwork.t) (rk : list Z) (ad : arena)
    (x : nat) (p : list nat) : Prop :=
  match p with
  | [] => x = sink rn0
  | a :: p' =>
      tail (adjlist rn0) a = x ∧ adm rn0 rk ad a ∧
      apath rn0 rk ad (hd (adjlist rn0) a) p'
  end.

Section blocking.
Context (rn0 : ResidualNetwork.t).

(** No record that a cursor has passed starts such a path. *)
Definition swept (d : DinitzCherkassky.t) : Prop :=
  ∀ a p, a < m rn0 → a < dcur d !!! tail (adjlist rn0) a →
         adm rn0 (drk d) (dadj d) a →
         ¬ apath rn0 (drk d) (dadj d) (hd (adjlist rn0) a) p.

Definition shrinks (rk : list Z) (ad ad' : arena) : Prop :=
  ∀ a, adm rn0 rk ad' a → adm rn0 rk ad a.

Lemma shrinks_refl rk ad : shrinks rk ad ad.
Proof. by intros a. Qed.

Lemma shrinks_trans rk ad1 ad2 ad3 :
  shrinks rk ad1 ad2 → shrinks rk ad2 ad3 → shrinks rk ad1 ad3.
Proof. intros H1 H2 a Ha. by apply H1, H2. Qed.

Lemma apath_shrinks rk ad ad' x p :
  shrinks rk ad ad' → apath rn0 rk ad' x p → apath rn0 rk ad x p.
Proof.
  intros S. revert x. induction p as [|a p IH]; intros x; simpl; [done|].
  intros (H1 & H2 & H3). split_and!; [done | by apply S | by apply IH].
Qed.

Lemma swept_shrinks d d' :
  swept d → drk d' = drk d → dcur d' = dcur d →
  shrinks (drk d) (dadj d) (dadj d') → swept d'.
Proof.
  intros Sw Erk Ecur S a p Ha Hc Hadm Hp. rewrite Erk in Hadm, Hp. rewrite Ecur in Hc.
  apply (Sw a p Ha Hc); [by apply S | by apply (apath_shrinks _ _ (dadj d'))].
Qed.

(** No record with residual capacity goes more than one rank down. *)
Definition leveled (rk : list Z) (ad : arena) : Prop :=
  ∀ a, a < m rn0 → rc ad a ≠ 0%Z →
       (rk !!! tail (adjlist rn0) a ≤ rk !!! hd (adjlist rn0) a + 1)%Z.

(** What one [dfs_phase_loop(u, flow)] leaves. *)
Definition dfs_blocks (u : nat) (flow : Z) (d : DinitzCherkassky.t)
    (res : Z * DinitzCherkassky.t) : Prop :=
  swept res.2 ∧ shrinks (drk d) (dadj d) (dadj res.2) ∧
  (res.1 = 0%Z → (0 < flow)%Z → ∀ p, ¬ apath rn0 (drk d) (dadj res.2) u p) ∧
  (leveled (drk d) (dadj d) → leveled (drk d) (dadj res.2)).

Lemma twin_ends d c :
  dfs_inv rn0 d → c < m rn0 →
  tail (adjlist rn0) (tw (dadj d) c) = hd (adjlist rn0) c ∧
  hd (adjlist rn0) (tw (dadj d) c) = tail (adjlist rn0) c.
Proof.
  intros I Hc. pose proof (di_wf _ _ I) as W. pose proof (di_ev _ _ I) as E.
  assert (c < m (drn d)) as Hc' by (by rewrite (ev_m _ _ E)).
  split.
  - rewrite <- (evolves_tail _ _ _ E), <- (ev_hd _ _ E).
    apply (wf_tail_twin _ _ W Hc').
  - by rewrite (ev_tw _ _ E).
Qed.

Lemma push_leveled d c df :
  dfs_inv rn0 d → c < m rn0 → (0 < df ≤ rc (dadj d) c)%Z →
  drk d !!! tail (adjlist rn0) c = (drk d !!! hd (adjlist rn0) c + 1)%Z →
  leveled (drk d) (dadj d) →
  leveled (drk d) (dadj (DinitzCherkassky.push d c df)).
Proof.
  intros I Hc Hdf Hrk L a Ha Hrc.
  pose proof (di_wf _ _ I) as W. pose proof (di_ev _ _ I) as E.
  assert (c < m (drn d)) as Hc' by (by rewrite (ev_m _ _ E)).
  simpl in Hrc. unfold DinitzCherkassky.adj in Hrc.
  rewrite (push_flow_rc_exact (drn d) c df a W Hc' ltac:(lia)) in Hrc.
  destruct (decide (a = c)) as [->|Hac]; [apply L; [done | lia]|].
  destruct (decide (a = tw (dadj d) c)) as [->|Hat]; [|by apply L].
  destruct (twin_ends d c I Hc) as [-> ->]. lia.
Qed.

Lemma push_shrinks d c df :
  dfs_inv rn0 d → c < m rn0 → (0 < df ≤ rc (dadj d) c)%Z →
  drk d !!! tail (adjlist rn0) c = (drk d !!! hd (adjlist rn0) c + 1)%Z →
  shrinks (drk d) (dadj d) (dadj (DinitzCherkassky.push d c df)).
Proof.
  intros I Hc Hdf Hrk a (Ha & Hrc & Hra).
  pose proof (di_wf _ _ I) as W. pose proof (di_ev _ _ I) as E.
  assert (c < m (drn d)) as Hc' by (by rewrite (ev_m _ _ E)).
  split_and!; [done | | done].
  simpl in Hrc. unfold DinitzCherkassky.adj in Hrc.
  rewrite (push_flow_rc_exact (drn d) c df a W Hc' ltac:(lia)) in Hrc.
  destruct (decide (a = c)) as [->|Hac]; [lia|].
  destruct (decide (a = tw (dadj d) c)) as [->|Hat]; [|done].
  exfalso. destruct (twin_ends d c I Hc) as [T1 T2].
  rewrite T1, T2 in Hra. lia.
Qed.

Lemma dfs_blocking k :
  (∀ u flow d res,
     DinitzCherkassky.dfs_phase_loop k u flow d = Some res →
     dfs_inv rn0 d → swept d → u < n rn0 → (0 ≤ flow)%Z →
     dfs_blocks u flow d res) ∧
  (∀ u flow d res,
     DinitzCherkassky.dfs_for k u flow d = Some res →
     dfs_inv rn0 d → swept d → u < n rn0 → u ≠ sink rn0 → (0 < flow)%Z →
     dfs_blocks u flow d res).
Proof.
  induction k as [|k [IHP IHQ]]; [done|]. split.
  - intros u flow d res H I Sw Hu Hflow. simpl in H.
    destruct (Z.eqb_spec flow 0) as [->|Hf0]; simpl in H.
    { injection H as <-.
      split_and!; [done | apply shrinks_refl | simpl; lia | done]. }
    destruct (Nat.eqb_spec u (sink (drn d))) as [Hs|Hs].
    { injection H as <-.
      split_and!; [done | apply shrinks_refl | simpl; lia | done]. }
    apply (IHQ u flow d res); try done; [|lia].
    by rewrite <- (ev_sink _ _ (di_ev _ _ I)).
  - intros u flow d res H I Sw Hu Hus Hflow. simpl in H.
    pose proof (di_wf _ _ I) as W. pose proof (di_ev _ _ I) as E.
    set (c := dcur d !!! u) in *.
    pose proof (di_cur _ _ I u Hu) as Hcur. fold c in Hcur.
    rewrite (evolves_span_end _ _ u E) in H.
    destruct (Nat.eqb_spec c (span_end rn0 u)) as [Hend|Hend].
    { injection H as <-. split_and!; [done | apply shrinks_refl | | done].
      intros _ _ p Hp. simpl in Hp. destruct p as [|a p]; simpl in Hp; [done|].
      destruct Hp as (Ht & Hadm & Hp).
      pose proof Hadm as (Ha & _ & _).
      assert (a < m (drn d)) as Ha' by (by rewrite (ev_m _ _ E)).
      destruct (wf_out _ W a Ha') as [_ Hin]. unfold in_span in Hin.
      rewrite (evolves_tail _ _ _ E), Ht in Hin.
      rewrite (evolves_span_end _ _ u E) in Hin.
      apply (Sw a p Ha); [rewrite Ht; fold c; lia | done | done]. }
    assert (c < m (drn d) ∧ tail (dadj d) c = u) as [Hc Htail].
    { apply (wf_in _ W); [by rewrite (ev_n _ _ E)|]. unfold in_span.
      rewrite (evolves_span_begin _ _ u E), (evolves_span_end _ _ u E). lia. }
    assert (c < m rn0) as Hc0 by (by rewrite <- (ev_m _ _ E)).
    assert (tail (adjlist rn0) c = u) as Htail0
      by (by rewrite <- (evolves_tail _ _ _ E)).
    pose proof (wf_head _ W c Hc) as Hh. rewrite (ev_n _ _ E) in Hh.
    unfold DinitzCherkassky.adj in H.
    set (h := hd (dadj d) c) in *.
    assert (hd (adjlist rn0) c = h) as Hh0 by (by rewrite <- (ev_hd _ _ E)).
    assert (∀ d1, dfs_inv rn0 d1 → swept d1 → dcur d1 !!! u = c →
                  (∀ p, adm rn0 (drk d1) (dadj d1) c →
                        ¬ apath rn0 (drk d1) (dadj d1) h p) →
                  swept (DinitzCherkassky.step_current_arc d1 u)) as Hstep.
    { intros d1 I1 Sw1 Hc1 Hdead a p Ha Hlt Hadm Hp. simpl in Hlt, Hadm, Hp.
      destruct (decide (tail (adjlist rn0) a = u)) as [Eu|Nu].
      - rewrite Eu in Hlt.
        rewrite list_lookup_total_insert_eq in Hlt
          by (rewrite (di_cur_len _ _ I1); lia).
        rewrite Hc1 in Hlt.
        destruct (decide (a = c)) as [->|Hac].
        + rewrite Hh0 in Hp. by apply (Hdead p).
        + apply (Sw1 a p Ha); [rewrite Eu, Hc1; lia | done | done].
      - rewrite list_lookup_total_insert_ne in Hlt by done.
        by apply (Sw1 a p Ha). }
    destruct ((drk d !!! u =? wrap32 (drk d !!! h + 1))%Z
              && ResidualArc.is_residual (dadj d !!! c)) eqn:Adm.
    + apply andb_true_iff in Adm as [A1 A2].
      apply (admissible_spec rn0 d u h I Hu Hh Hus) in A1.
      apply is_residual_spec in A2.
      destruct (wf_rc _ W c Hc) as [Hrc0 _].
      destruct (DinitzCherkassky.dfs_phase_loop k h _ d) as [[df1 d1]|] eqn:R; [|done].
      destruct (proj1 (dfs_correct rn0 k) _ _ _ _ R I Hh ltac:(lia))
        as (I1 & F1 & B1 & N1).
      destruct (IHP _ _ _ _ R I Sw Hh ltac:(lia)) as (Sw1 & S1 & D1 & L1).
      simpl in I1, F1, B1, N1, Sw1, S1, D1, L1.
      pose proof (bl_rank _ _ _ _ B1) as Erk.
      assert (rc (dadj d1) c = rc (dadj d) c) as Hrc1.
      { apply (bl_rc _ _ _ _ B1); [done|]. rewrite Htail0. lia. }
      assert (dcur d1 !!! u = c) as Hcur1.
      { apply (bl_cur _ _ _ _ B1); [done | lia]. }
      destruct (Z.gtb_spec df1 0) as [Hpos|Hnpos].
      * injection H as <-.
        assert (0 < df1 ≤ rc (dadj d1) c)%Z as Hdf by lia.
        assert (shrinks (drk d1) (dadj d1)
                  (dadj (DinitzCherkassky.push d1 c df1))) as Sp.
        { apply push_shrinks; [done | done | done |].
          rewrite Erk, Htail0, Hh0. done. }
        split_and!.
        -- by apply (swept_shrinks d1).
        -- apply (shrinks_trans _ _ (dadj d1)); [done|]. by rewrite <- Erk.
        -- simpl. lia.
        -- intros L0. rewrite <- Erk. apply push_leveled; [done | done | done | |].
           ++ rewrite Erk, Htail0, Hh0. done.
           ++ rewrite Erk. by apply L1.
      * assert (df1 = 0%Z) as Hz1 by lia.
        assert (swept (DinitzCherkassky.step_current_arc d1 u)) as Sw2.
        { apply Hstep; [done | done | done |].
          intros p _. rewrite Erk. apply D1; [done | lia]. }
        destruct (IHQ _ _ _ _ H) as (Sw3 & S3 & D3 & L3);
          [apply step_inv; [done | done | lia] | done | done | done | done |].
        simpl in Sw3, S3, D3, L3. rewrite Erk in S3, D3, L3.
        split_and!; [done | by apply (shrinks_trans _ _ (dadj d1)) | done |].
        intros L0. by apply L3, L1.
    + assert (swept (DinitzCherkassky.step_current_arc d u)) as Sw2.
      { apply Hstep; [done | done | done |].
        intros p (_ & Hrc & Hrk) _.
        rewrite Htail0, Hh0 in Hrk.
        pose proof (di_rank _ _ I u Hu) as Ru. pose proof (di_rank _ _ I h Hh) as Rh.
        unfold DinitzCherkassky.Unreached in *.
        assert (wrap32 (drk d !!! h + 1) = drk d !!! h + 1)%Z as Hw.
        { unfold wrap32. apply Z.mod_small. lia. }
        apply andb_false_iff in Adm as [A|A].
        - apply Z.eqb_neq in A. rewrite Hw in A. done.
        - apply is_residual_false in A. done. }
      destruct (IHQ _ _ _ _ H) as (Sw3 & S3 & D3 & L3);
        [apply step_inv; [done | done | lia] | done | done | done | done |].
      simpl in Sw3, S3, D3, L3. by split_and!.
Qed.

Lemma swept_start d :
  dfs_inv rn0 d → (∀ x, x < n rn0 → dcur d !!! x = span_begin rn0 x) → swept d.
Proof.
  intros I Hc a p Ha Hlt _ _.
  pose proof (di_wf _ _ I) as W. pose proof (di_ev _ _ I) as E.
  assert (a < m (drn d)) as Ha' by (by rewrite (ev_m _ _ E)).
  destruct (wf_out _ W a Ha') as [Ht Hin]. unfold in_span in Hin.
  rewrite (evolves_tail _ _ _ E) in Ht, Hin.
  rewrite (evolves_span_begin _ _ _ E) in Hin.
  rewrite Hc in Hlt by (by rewrite <- (ev_n _ _ E)). lia.
Qed.

Lemma phase_blocking k :
  ∀ d mf r,
    DinitzCherkassky.phase k d mf = Some r →
    dfs_inv rn0 d → flow_ok rn0 (drn d) mf → swept d →
    drk r.1 = drk d ∧
    (∀ p, ¬ apath rn0 (drk d) (dadj r.1) (source rn0) p) ∧
    (leveled (drk d) (dadj d) → leveled (drk d) (dadj r.1)).
Proof.
  induction k as [|k IH]; intros d mf r H I F Sw; [done|]. simpl in H.
  destruct (DinitzCherkassky.dfs_phase_loop k _ _ d) as [[df d1]|] eqn:R; [|done].
  destruct (dfs_from_source rn0 d mf k df d1 I F R) as (I1 & F1 & Hdf & Rk1 & O1 & _).
  pose proof (di_wf _ _ I) as W. pose proof (di_ev _ _ I) as E.
  pose proof (wf_source _ W) as Hs. rewrite (ev_n _ _ E) in Hs.
  destruct (proj1 (dfs_blocking k) _ _ _ _ R I Sw Hs ltac:(done))
    as (Sw1 & S1 & D1 & L1).
  simpl in Sw1, S1, D1, L1. rewrite (ev_source _ _ E) in D1.
  destruct (Z.eqb_spec df 0) as [Hz|Hnz].
  - injection H as <-. simpl. split_and!; [done | by apply D1 | done].
  - destruct (IH _ _ _ H I1 F1 Sw1) as (Rk2 & D2 & L2).
    rewrite Rk1 in D2, L2.
    split_and!; [congruence | done |]. intros L0. by apply L2, L1.
Qed.

(** With no such path left and the records leveled, a path of records with
    residual capacity from the source to the sink has more records than the
    rank of the source. *)
Lemma leveled_longer rk rn :
  wf rn → evolves rn0 rn → leveled rk (adjlist rn) → rk !!! sink rn0 = 0%Z →
  ∀ q x, x < n rn0 → residual_path rn x q (sink rn0) →
    (rk !!! x ≤ Z.of_nat (length q))%Z ∧
    (rk !!! x = Z.of_nat (length q) → apath rn0 rk (adjlist rn) x q).
Proof.
  intros W E L Hz. induction q as [|a q IH]; intros x Hx Hq; simpl in Hq.
  - subst x. rewrite Hz. simpl. split; [lia | done].
  - destruct Hq as (Ha & Hrc & Hq).
    rewrite <- (ev_n _ _ E) in Hx.
    destruct (wf_arcs_out rn x a W Hx Ha) as [Hlt Htail].
    pose proof (wf_head _ W a Hlt) as Hh.
    rewrite (ev_m _ _ E) in Hlt. rewrite (ev_n _ _ E) in Hh.
    rewrite (evolves_tail _ _ _ E) in Htail.
    destruct (IH (hd (adjlist rn) a) Hh Hq) as [Hle Heq].
    pose proof (L a Hlt ltac:(lia)) as La.
    rewrite (ev_hd _ _ E) in Hle, Heq. rewrite Htail in La.
    simpl length. split; [lia|].
    intros Hx'. simpl. split_and!; [done | | apply Heq; lia].
    split_and!; [done | lia | rewrite Htail; lia].
Qed.
End blocking.

(** The loop of a phase, started with every cursor at the beginning of its
    range in a state a solver goes through, ends, and when it ends no path
    of records with residual capacity that go one rank down each is left from
    the source to the sink; the ranks are those the phase started with. *)
Theorem phase_ends_blocked (rn0 : ResidualNetwork.t) d mf :
  dfs_inv rn0 d → flow_ok rn0 (DinitzCherkassky.rnetwork d) mf →
  (∀ x, x < n rn0 → DinitzCherkassky.current_arc d !!! x = span_begin rn0 x) →
  ∃ r, returns (λ k, DinitzCherkassky.phase k d mf) r ∧
       DinitzCherkassky.rank r.1 = DinitzCherkassky.rank d ∧
       ∀ p, ¬ apath rn0 (DinitzCherkassky.rank d)
                    (adjlist (DinitzCherkassky.rnetwork r.1)) (source rn0) p.
Proof.
  intros I F Hc.
  pose proof (slack_nonneg _ (di_wf _ _ I)) as Hnn.
  destruct (phase_terminates rn0 (Z.to_nat (slack (drn d))) d mf I F ltac:(lia))
    as (k & d' & mf' & P & _).
  destruct (phase_blocking rn0 k d mf _ P I F (swept_start rn0 d I Hc))
    as (Rk & B & _).
  exists (d', mf'). split_and!; [| done | done].
  apply (returns_from _ k); [|done].
  intros k1 k2 r H1 H2. by apply (phase_mono k1 k2).
Qed.

Lemma first_phase_start_flow :
  flow_ok (construct minimal_example) (drn first_phase_start) 0%Z.
Proof.
  pose proof (dc_init_outer minimal_example minimal_example_valid) as O.
  pose proof (bfs_compute_rank_spec _ _ _ O) as (O1 & _ & _ & _).
  exact (do_flow _ _ _ O1).
Defined.

Lemma first_phase_start_cursors :
  ∀ x, x < n (construct minimal_example) →
       dcur first_phase_start !!! x = span_begin (construct minimal_example) x.
Proof.
  pose proof (dc_init_outer minimal_example minimal_example_valid) as O.
  pose proof (bfs_compute_rank_spec _ _ _ O) as (O1 & _ & L1 & _).
  destruct (reset_spec _ _ _ O1 L1) as (I2 & _ & F2 & _).
  intros x Hx.
  apply (F2 DinitzCherkassky.Unreached x Hx). apply (di_rank _ _ I2 x Hx).
Defined.

Lemma phase_ends_blocked_witness :
  let rn0 := construct minimal_example in
  let d := first_phase_start in
  (dfs_inv rn0 d ∧ flow_ok rn0 (DinitzCherkassky.rnetwork d) 0%Z ∧
   (∀ x, x < n rn0 → DinitzCherkassky.current_arc d !!! x = span_begin rn0 x)) ∧
  ∃ r, returns (λ k, DinitzCherkassky.phase k d 0%Z) r ∧
       DinitzCherkassky.rank r.1 = DinitzCherkassky.rank d ∧
       ∀ p, ¬ apath rn0 (DinitzCherkassky.rank d)
                    (adjlist (DinitzCherkassky.rnetwork r.1)) (source rn0) p.
Proof.
  split;
    [exact (conj first_phase_start_inv
              (conj first_phase_start_flow first_phase_start_cursors))|].
  exact (phase_ends_blocked (construct minimal_example) first_phase_start 0%Z
           first_phase_start_inv first_phase_start_flow first_phase_start_cursors).
Defined.

(** ** Every phase lengthens the shortest augmenting path *)

Lemma bfs_compute_rank_leveled rn0 d mf :
  dc_outer rn0 d mf →
  let b := DinitzCherkassky.bfs_compute_rank d in
  leveled rn0 (drk b.1) (dadj b.1) ∧ drk b.1 !!! sink rn0 = 0%Z.
Proof.
  intros O. pose proof (do_wf _ _ _ O) as W. pose proof (do_ev _ _ _ O) as E.
  pose proof (bfs_compute_rank_spec rn0 d mf O) as (_ & Ern & _ & _).
  destruct (bfs_compute_rank_levels d W) as (lst & Li & Ll).
  { by rewrite (do_rk_len _ _ _ O), (ev_n _ _ E). }
  { by rewrite (do_ord_len _ _ _ O), (ev_n _ _ E). }
  { by rewrite (do_first _ _ _ O), (ev_sink _ _ E). }
  simpl in *. split.
  - intros a Ha Hrc. rewrite Ern in Hrc.
    rewrite <- (ev_m _ _ E) in Ha.
    pose proof (level_arcs (drn d) W _ a Li Ll Ha Hrc) as D. simpl in D.
    by rewrite (evolves_tail _ _ _ E), (ev_hd _ _ E) in D.
  - pose proof (ri_sink _ _ Li) as Z0. simpl in Z0. by rewrite (ev_sink _ _ E) in Z0.
Qed.

(** One turn of the loop of [operator()], from a state between two phases
    in which [bfs_compute_rank] reaches the source: the phase ends, in a state
    between two phases again, and every path of arcs with residual capacity
    that is then left from the source to the sink has more arcs than the rank
    the source had in the phase.  So the next [bfs_compute_rank], if it
    reaches the source, gives it a greater rank. *)
Theorem phase_lengthens (rn0 : ResidualNetwork.t) d mf :
  dc_outer rn0 d mf →
  let b := DinitzCherkassky.bfs_compute_rank d in
  b.2 = true →
  ∃ r,
    returns (λ k, DinitzCherkassky.phase k (DinitzCherkassky.reset_current_arc b.1) mf)
            r ∧
    dc_outer rn0 r.1 r.2 ∧
    (∀ q, residual_path (DinitzCherkassky.rnetwork r.1) (source rn0) q (sink rn0) →
          (DinitzCherkassky.rank b.1 !!! source rn0 < Z.of_nat (length q))%Z) ∧
    let b' := DinitzCherkassky.bfs_compute_rank r.1 in
    (b'.2 = true →
     (DinitzCherkassky.rank b.1 !!! source rn0
      < DinitzCherkassky.rank b'.1 !!! source rn0)%Z).
Proof.
  intros O b _.
  pose proof (bfs_compute_rank_spec rn0 d mf O) as S.
  pose proof (bfs_compute_rank_leveled rn0 d mf O) as Lv0.
  simpl in S, Lv0. fold b in S, Lv0.
  destruct S as (O1 & Ern & L1 & _). destruct Lv0 as [Lv0 Hz].
  destruct (reset_spec rn0 b.1 mf O1 L1) as (I2 & _ & F2 & Ern2 & Erk2 & Eord2).
  set (d2 := DinitzCherkassky.reset_current_arc b.1) in *.
  assert (flow_ok rn0 (drn d2) mf) as Fl2 by (rewrite Ern2; apply O1).
  pose proof (slack_nonneg _ (di_wf _ _ I2)) as Hnn.
  destruct (phase_terminates rn0 (Z.to_nat (slack (drn d2))) d2 mf I2 Fl2 ltac:(lia))
    as (k & d3 & mf3 & P & I3 & F3 & O3 & _).
  assert (swept rn0 d2) as Sw.
  { apply (swept_start rn0 d2 I2). intros x Hx.
    apply (F2 DinitzCherkassky.Unreached x Hx). apply (di_rank _ _ I2 x Hx). }
  destruct (phase_blocking rn0 k d2 mf _ P I2 Fl2 Sw) as (Rk & B & Lv).
  cbn [fst] in Rk, B, Lv.
  assert (leveled rn0 (drk d2) (dadj d3)) as Lv3.
  { apply Lv. by rewrite Erk2, Ern2. }
  assert (dc_outer rn0 d3 mf3) as O3'.
  { destruct I3. constructor; try done.
    - rewrite O3, Eord2. apply O1.
    - rewrite O3, Eord2. apply O1. }
  pose proof (di_wf _ _ I3) as W3. pose proof (di_ev _ _ I3) as E3.
  pose proof (wf_source _ W3) as Hs.
  rewrite (ev_n _ _ E3), (ev_source _ _ E3) in Hs.
  assert (∀ q, residual_path (drn d3) (source rn0) q (sink rn0) →
               (drk b.1 !!! source rn0 < Z.of_nat (length q))%Z) as Main.
  { intros q Hq.
    destruct (leveled_longer rn0 (drk d2) (drn d3) W3 E3 Lv3
                ltac:(by rewrite Erk2) q (source rn0) Hs Hq) as [Hle Heq].
    rewrite Erk2 in Hle, Heq.
    destruct (decide (drk b.1 !!! source rn0 = Z.of_nat (length q))) as [Eq|Ne];
      [|lia].
    destruct (B q). rewrite Erk2. by apply Heq. }
  exists (d3, mf3). split_and!.
  - apply (returns_from _ k); [|done].
    intros k1 k2 r H1 H2. by apply (phase_mono k1 k2).
  - done.
  - done.
  - simpl. intros Hb'.
    pose proof (bfs_compute_rank_spec rn0 d3 mf3 O3') as (O4 & Ern4 & L4 & Hfl4).
    simpl in O4, Ern4, L4, Hfl4. rewrite Hfl4 in Hb'.
    apply negb_true_iff, Z.eqb_neq in Hb'.
    set (b' := DinitzCherkassky.bfs_compute_rank d3) in *.
    assert (wf (drn b'.1)) as W4 by (by rewrite Ern4).
    destruct (layered_path b'.1 W4 L4 (source rn0)) as (q & Hq & Hlen).
    + by rewrite Ern4, (ev_n _ _ E3).
    + done.
    + rewrite Ern4, (ev_sink _ _ E3) in Hq. rewrite <- Hlen. by apply Main.
Qed.

Lemma phase_lengthens_witness :
  let rn0 := construct minimal_example in
  let d := DinitzCherkassky.construct minimal_example in
  (dc_outer rn0 d 0%Z ∧ (DinitzCherkassky.bfs_compute_rank d).2 = true) ∧
  let b := DinitzCherkassky.bfs_compute_rank d in
  ∃ r,
    returns (λ k, DinitzCherkassky.phase k (DinitzCherkassky.reset_current_arc b.1) 0%Z)
            r ∧
    dc_outer rn0 r.1 r.2 ∧
    (∀ q, residual_path (DinitzCherkassky.rnetwork r.1) (source rn0) q (sink rn0) →
          (DinitzCherkassky.rank b.1 !!! source rn0 < Z.of_nat (length q))%Z) ∧
    let b' := DinitzCherkassky.bfs_compute_rank r.1 in
    (b'.2 = true →
     (DinitzCherkassky.rank b.1 !!! source rn0
      < DinitzCherkassky.rank b'.1 !!! source rn0)%Z).
Proof.
  assert ((DinitzCherkassky.bfs_compute_rank
             (DinitzCherkassky.construct minimal_example)).2 = true) as Hb
    by (vm_compute; reflexivity).
  split; [exact (conj (dc_init_outer minimal_example minimal_example_valid) Hb)|].
  exact (phase_lengthens (construct minimal_example)
           (DinitzCherkassky.construct minimal_example) 0%Z
           (dc_init_outer minimal_example minimal_example_valid) Hb).
Defined.

From Stdlib Require Import Ascii.
From stdpp Require Import strings pretty.

(** * The instance reader of [instance_reader.hpp]

    Conventions of the embedding.
    - The file is the list of the lines that [std::getline] delivers, in
      order and without their line ends; a file that cannot be opened
      delivers none.
    - A [std::istringstream] is the characters not yet extracted and whether
      [good()] holds; once it does not, every later extraction leaves its
      variable as it was.
    - [operator>>] into an unsigned integer, in the classic locale: white
      space is skipped, then the longest run of decimal digits is taken; no
      digit stores 0 and fails, a value above the maximum of the type stores
      that maximum and fails, digits up to the end of the line end the good
      state.  What a leading sign does differs between the standard
      libraries and is kept apart as [Unspecified].
    - A variable or field that was never assigned is [None]; reading it is
      [Undefined].  [reserve] beyond [max_size()] is [Throws]; running out
      of memory is not modelled.
    - [size_max] is the largest [size_t] and [max_size] is
      [std::vector<CapacityArc>::max_size()]: both depend on the platform and
      are left open. *)

Inductive outcome (A : Type) : Type :=
| Done (a : A)
| Throws
| Undefined
| Unspecified.

Arguments Done {A} a.
Arguments Throws {A}.
Arguments Undefined {A}.
Arguments Unspecified {A}.

Definition outcome_bind {A B} (o : outcome A) (f : A → outcome B) : outcome B :=
  match o with
  | Done a => f a
  | Throws => Throws
  | Undefined => Undefined
  | Unspecified => Unspecified
  end.

Record istream := IStream { is_rest : string; is_good : bool }.

Definition isspace (c : ascii) : bool :=
  let k := N_of_ascii c in
  (k =? 32)%N || ((9 <=? k)%N && (k <=? 13)%N).

Definition digit (c : ascii) : option Z :=
  let k := Z.of_N (N_of_ascii c) in
  if (48 <=? k)%Z && (k <=? 57)%Z then Some (k - 48)%Z else None.

Definition is_sign (c : ascii) : bool :=
  (N_of_ascii c =? 43)%N || (N_of_ascii c =? 45)%N.

Fixpoint skipws (s : string) : string :=
  match s with
  | String c s' => if isspace c then skipws s' else s
  | EmptyString => EmptyString
  end.

(** The longest run of digits at the front of [s], as a number. *)
Fixpoint digits (s : string) (acc : Z) : Z * string :=
  match s with
  | String c s' =>
      match digit c with
      | Some d => digits s' (10 * acc + d)%Z
      | None => (acc, s)
      end
  | EmptyString => (acc, EmptyString)
  end.

Fixpoint drop_chars (k : nat) (s : string) : option string :=
  match k with
  | 0 => Some s
  | S k' =>
      match s with
      | String _ s' => drop_chars k' s'
      | EmptyString => None
      end
  end.

(** [input.ignore(k)]. *)
Definition ignore (k : nat) (i : istream) : istream :=
  if is_good i then
    match drop_chars k (is_rest i) with
    | Some s => IStream s true
    | None => IStream EmptyString false
    end
  else i.

(** What an extraction does to its variable. *)
Inductive extracted : Type :=
| Untouched
| Stored (v : Z)
| Sign.

Definition is_empty (s : string) : bool :=
  match s with EmptyString => true | String _ _ => false end.

(** [input >> x] for an unsigned [x] of maximum [max]. *)
Definition extract (max : Z) (i : istream) : extracted * istream :=
  if is_good i then
    match skipws (is_rest i) with
    | EmptyString => (Untouched, IStream EmptyString false)
    | String c s' =>
        match digit c with
        | Some _ =>
            let '(v, r) := digits (String c s') 0 in
            if (v <=? max)%Z then (Stored v, IStream r (negb (is_empty r)))
            else (Stored max, IStream r false)
        | None =>
            if is_sign c then (Sign, IStream (String c s') false)
            else (Stored 0, IStream (String c s') false)
        end
    end
  else (Untouched, i).

(** [input >> c] for a [char]. *)
Definition extract_char (i : istream) : option ascii * istream :=
  if is_good i then
    match skipws (is_rest i) with
    | EmptyString => (None, IStream EmptyString false)
    | String c s' => (Some c, IStream s' true)
    end
  else (None, i).

(** The variable after an extraction, from what it was. *)
Definition assign (old : option Z) (e : extracted) : outcome (option Z) :=
  match e with
  | Untouched => Done old
  | Stored v => Done (Some v)
  | Sign => Unspecified
  end.

Definition uint32_max : Z := 4294967295.

(** The [FlowNetwork instance] under construction. *)
Record instance := Instance {
  in_n : option Z;
  in_m : option Z;
  in_source : option Z;
  in_sink : option Z;
  in_arcs : list CapacityArc.t }.

Definition fresh_instance : instance := Instance None None None None [].

Section reader.
Context (size_max max_size : Z).

(** [case 'p']. *)
Definition read_p (inst : instance) (line : string) : outcome instance :=
  let i0 := ignore 6 (IStream line true) in
  let '(e1, i1) := extract size_max i0 in
  let '(e2, _) := extract size_max i1 in
  outcome_bind (assign (in_n inst) e1) (λ n',
  outcome_bind (assign (in_m inst) e2) (λ m',
    match m' with
    | None => Undefined
    | Some m =>
        if (m <=? max_size)%Z
        then Done (Instance n' m' (in_source inst) (in_sink inst) (in_arcs inst))
        else Throws
    end)).

(** [case 'n']. *)
Definition read_n (inst : instance) (line : string) : outcome instance :=
  let i0 := ignore 2 (IStream line true) in
  let '(e, i1) := extract uint32_max i0 in
  let '(c, _) := extract_char i1 in
  outcome_bind (assign None e) (λ node,
    match c, node with
    | Some node_type, Some v =>
        if Ascii.eqb node_type "s"
        then Done (Instance (in_n inst) (in_m inst) (Some (wrap32 (v - 1)))
                            (in_sink inst) (in_arcs inst))
        else Done (Instance (in_n inst) (in_m inst) (in_source inst)
                            (Some (wrap32 (v - 1))) (in_arcs inst))
    | _, _ => Undefined
    end).

(** [case 'a']. *)
Definition read_a (inst : instance) (line : string) : outcome instance :=
  let i0 := ignore 2 (IStream line true) in
  let '(e1, i1) := extract uint32_max i0 in
  let '(e2, i2) := extract uint32_max i1 in
  let '(e3, _) := extract uint32_max i2 in
  outcome_bind (assign None e1) (λ t,
  outcome_bind (assign None e2) (λ h,
  outcome_bind (assign None e3) (λ c,
    match t, h, c with
    | Some t, Some h, Some c =>
        Done (Instance (in_n inst) (in_m inst) (in_source inst) (in_sink inst)
                (in_arcs inst
                 ++ [CapacityArc.mk (Z.to_nat (wrap32 (t - 1)))
                                    (Z.to_nat (wrap32 (h - 1))) c]))
    | _, _, _ => Undefined
    end))).

(** First character of a line, as [line[0]] gives it. *)
Definition first_char (line : string) : ascii :=
  match line with
  | String c _ => c
  | EmptyString => Ascii.zero
  end.

(** The body of the loop: [switch (line[0])]. *)
Definition read_line (inst : instance) (line : string) : outcome instance :=
  let c := first_char line in
  if Ascii.eqb c "p" then read_p inst line
  else if Ascii.eqb c "n" then read_n inst line
  else if Ascii.eqb c "a" then read_a inst line
  else Done inst.

Fixpoint read_lines (inst : instance) (lines : list string) : outcome instance :=
  match lines with
  | [] => Done inst
  | line :: rest => outcome_bind (read_line inst line) (λ inst', read_lines inst' rest)
  end.

(** [return instance]. *)
Definition finish (inst : instance) : outcome FlowNetwork.t :=
  match in_n inst, in_m inst, in_source inst, in_sink inst with
  | Some n, Some m, Some s, Some t =>
      Done (FlowNetwork.mk (Z.to_nat n) (Z.to_nat m) (Z.to_nat s) (Z.to_nat t)
                           (in_arcs inst))
  | _, _, _, _ => Undefined
  end.

Definition read_maxflow_instance (lines : list string) : outcome FlowNetwork.t :=
  outcome_bind (read_lines fresh_instance lines) finish.
End reader.




(** ** Numbers as they are printed, read back *)

(** All of [s] is digits, and [acc] followed by them is the number. *)
Fixpoint numeral (s : string) (acc : Z) : option Z :=
  match s with
  | EmptyString => Some acc
  | String c s' =>
      match digit c with
      | Some d => numeral s' (10 * acc + d)%Z
      | None => None
      end
  end.

(** Nothing, or something other than a digit, is next. *)
Definition ends_field (r : string) : Prop :=
  match r with
  | EmptyString => True
  | String c _ => digit c = None
  end.

Lemma append_cons c (a b : string) : String c a +:+ b = String c (a +:+ b).
Proof. reflexivity. Qed.

Lemma append_nil (b : string) : EmptyString +:+ b = b.
Proof. reflexivity. Qed.

Lemma append_assoc (a b c : string) : (a +:+ b) +:+ c = a +:+ (b +:+ c).
Proof.
  induction a as [|x a IH]; [done|]. by rewrite !append_cons, IH.
Qed.

Lemma append_empty_r (a : string) : a +:+ EmptyString = a.
Proof.
  induction a as [|x a IH]; [done|]. by rewrite append_cons, IH.
Qed.

Lemma digits_numeral a r acc v :
  numeral a acc = Some v → ends_field r → digits (a +:+ r) acc = (v, r).
Proof.
  revert acc. induction a as [|c a IH]; intros acc Hn Hr.
  - rewrite append_nil. simpl in Hn. injection Hn as <-.
    destruct r as [|c r]; [done|]. simpl in *. by rewrite Hr.
  - rewrite append_cons. simpl in *.
    destruct (digit c) as [d|]; [|done]. by apply IH.
Qed.

Lemma numeral_snoc a c acc v d :
  numeral a acc = Some v → digit c = Some d →
  numeral (a +:+ String c EmptyString) acc = Some (10 * v + d)%Z.
Proof.
  revert acc. induction a as [|b a IH]; intros acc Hn Hd.
  - rewrite append_nil. simpl in *. injection Hn as <-. by rewrite Hd.
  - rewrite append_cons. simpl in *.
    destruct (digit b) as [e|]; [|done]. by apply IH.
Qed.

Lemma pretty_N_go_app x s : pretty_N_go x s = pretty_N_go x EmptyString +:+ s.
Proof.
  revert s. induction (N.lt_wf_0 x) as [x _ IH]. intros s.
  destruct (decide (x = 0%N)) as [->|Hx]; [by rewrite !pretty_N_go_0|].
  rewrite !(pretty_N_go_step x) by lia.
  rewrite (IH (x `div` 10)%N) by (apply N.div_lt; lia).
  rewrite (IH (x `div` 10)%N ltac:(apply N.div_lt; lia) (String _ EmptyString)).
  by rewrite append_assoc.
Qed.

Lemma digit_pretty_char k :
  (k < 10)%N → digit (pretty_N_char k) = Some (Z.of_N k).
Proof.
  intros Hk.
  assert (k = 0 ∨ k = 1 ∨ k = 2 ∨ k = 3 ∨ k = 4 ∨ k = 5 ∨ k = 6 ∨ k = 7
          ∨ k = 8 ∨ k = 9)%N as H by lia.
  destruct_or!; subst; reflexivity.
Qed.

Lemma numeral_pretty_go x : numeral (pretty_N_go x EmptyString) 0 = Some (Z.of_N x).
Proof.
  induction (N.lt_wf_0 x) as [x _ IH].
  destruct (decide (x = 0%N)) as [->|Hx]; [done|].
  rewrite pretty_N_go_step, pretty_N_go_app by lia.
  rewrite (numeral_snoc _ _ _ (Z.of_N (x `div` 10)) (Z.of_N (x `mod` 10))).
  - f_equal. rewrite (N.div_mod x 10) at 3 by done. lia.
  - apply IH. apply N.div_lt; lia.
  - apply digit_pretty_char. by apply N.mod_lt.
Qed.

Lemma numeral_pretty (x : N) : numeral (pretty x) 0 = Some (Z.of_N x).
Proof.
  unfold pretty, pretty_N. case_decide as Hx; [by subst|]. apply numeral_pretty_go.
Qed.

(** A printed number starts with a digit. *)
Lemma pretty_starts (x : N) :
  ∃ c s d, pretty x = String c s ∧ digit c = Some d.
Proof.
  pose proof (numeral_pretty x) as H.
  destruct (pretty x) as [|c s] eqn:E.
  - exfalso. unfold pretty, pretty_N in E. case_decide as Hx; [done|].
    rewrite pretty_N_go_step, pretty_N_go_app in E by lia.
    destruct (pretty_N_go _ EmptyString); discriminate.
  - simpl in H. destruct (digit c) as [d|] eqn:Ed; [|done]. by exists c, s, d.
Qed.

Lemma digit_not_space c d : digit c = Some d → isspace c = false.
Proof.
  unfold digit, isspace. intros H.
  destruct (48 <=? Z.of_N (N_of_ascii c))%Z eqn:E1; [|done].
  destruct (Z.of_N (N_of_ascii c) <=? 57)%Z eqn:E2; [|done].
  apply Z.leb_le in E1. apply Z.leb_le in E2.
  apply orb_false_iff. split.
  - apply N.eqb_neq. lia.
  - apply andb_false_iff. right. apply N.leb_gt. lia.
Qed.

(** Extracting a printed number that fits, with the stream in good state:
    the number is stored and the rest of the line is left. *)
Lemma extract_printed max (x : N) r :
  (Z.of_N x ≤ max)%Z → ends_field r →
  extract max (IStream (pretty x +:+ r) true)
  = (Stored (Z.of_N x), IStream r (negb (is_empty r))).
Proof.
  intros Hmax Hr. unfold extract. cbn [is_good is_rest].
  destruct (pretty_starts x) as (c & s & d & E & Hd).
  pose proof (digits_numeral _ r 0 _ (numeral_pretty x) Hr) as D.
  rewrite E in D |- *. rewrite append_cons in D |- *.
  cbn [skipws]. rewrite (digit_not_space c d Hd). cbv iota beta.
  rewrite Hd. cbv iota beta. rewrite D.
  by rewrite (proj2 (Z.leb_le _ _) Hmax).
Qed.

Lemma extract_printed_sp max (x : N) r :
  (Z.of_N x ≤ max)%Z → ends_field r →
  extract max (IStream (String " " (pretty x +:+ r)) true)
  = (Stored (Z.of_N x), IStream r (negb (is_empty r))).
Proof.
  intros Hmax Hr. rewrite <- (extract_printed max x r Hmax Hr).
  unfold extract. simpl is_good. cbv iota. simpl is_rest.
  change (skipws (String " " (pretty x +:+ r))) with (skipws (pretty x +:+ r)).
  done.
Qed.

Lemma extract_printed_end max (x : N) :
  (Z.of_N x ≤ max)%Z →
  extract max (IStream (pretty x) true)
  = (Stored (Z.of_N x), IStream EmptyString false).
Proof.
  intros Hmax. rewrite <- (append_empty_r (pretty x)).
  by rewrite (extract_printed max x EmptyString Hmax).
Qed.

Lemma extract_printed_sp_end max (x : N) :
  (Z.of_N x ≤ max)%Z →
  extract max (IStream (String " " (pretty x)) true)
  = (Stored (Z.of_N x), IStream EmptyString false).
Proof.
  intros Hmax. rewrite <- (append_empty_r (pretty x)).
  by rewrite (extract_printed_sp max x EmptyString Hmax).
Qed.

Local Open Scope string_scope.

(** ** Lines of a DIMACS maximum flow file *)

Definition p_line (n m : N) : string :=
  "p max " +:+ pretty n +:+ " " +:+ pretty m.

Definition n_line (v : N) (node_type : ascii) : string :=
  "n " +:+ pretty v +:+ String " " (String node_type EmptyString).

Definition a_line (t h c : N) : string :=
  "a " +:+ pretty t +:+ " " +:+ pretty h +:+ " " +:+ pretty c.



(** A line the [switch] has a case for. *)
Definition relevant (line : string) : bool :=
  let c := first_char line in
  Ascii.eqb c "p" || Ascii.eqb c "n" || Ascii.eqb c "a".


(** A vertex number of the file as the reader stores it. *)
Definition shifted (v : N) : nat := Z.to_nat (wrap32 (Z.of_N v - 1)).

Ltac norm_line := rewrite ?append_cons, ?append_nil.

Section lines.
Context (size_max max_size : Z).


Lemma read_n_printed inst (v : N) (ty : ascii) :
  (Z.of_N v ≤ uint32_max)%Z → isspace ty = false →
  read_line size_max max_size inst (n_line v ty)
  = if Ascii.eqb ty "s"
    then Done (Instance (in_n inst) (in_m inst) (Some (wrap32 (Z.of_N v - 1)))
                        (in_sink inst) (in_arcs inst))
    else Done (Instance (in_n inst) (in_m inst) (in_source inst)
                        (Some (wrap32 (Z.of_N v - 1))) (in_arcs inst)).
Proof.
  intros Hv Hty. unfold read_line, n_line. norm_line.
  cbn [first_char]. change (Ascii.eqb "n" "p") with false.
  change (Ascii.eqb "n" "n") with true. cbv iota. cbn [orb].
  unfold read_n, ignore. cbn [is_good is_rest drop_chars].
  rewrite (extract_printed uint32_max v (String " " (String ty EmptyString)) Hv)
    by done.
  cbn [is_empty negb]. unfold extract_char. cbn [is_good is_rest skipws].
  change (isspace " ") with true. cbv iota. rewrite Hty. cbv iota.
  cbn [assign outcome_bind]. done.
Qed.

Lemma read_a_printed inst (t h c : N) :
  (Z.of_N t ≤ uint32_max)%Z → (Z.of_N h ≤ uint32_max)%Z → (Z.of_N c ≤ uint32_max)%Z →
  read_line size_max max_size inst (a_line t h c)
  = Done (Instance (in_n inst) (in_m inst) (in_source inst) (in_sink inst)
            (in_arcs inst ++ [CapacityArc.mk (shifted t) (shifted h) (Z.of_N c)])).
Proof.
  intros Ht Hh Hc. unfold read_line, a_line. norm_line.
  cbn [first_char]. change (Ascii.eqb "a" "p") with false.
  change (Ascii.eqb "a" "n") with false. change (Ascii.eqb "a" "a") with true.
  cbv iota.
  unfold read_a, ignore. cbn [is_good is_rest drop_chars].
  rewrite (extract_printed uint32_max t
             (String " " (pretty h +:+ String " " (pretty c))) Ht) by done.
  cbn [is_empty negb].
  rewrite (extract_printed_sp uint32_max h (String " " (pretty c)) Hh) by done.
  cbn [is_empty negb].
  rewrite (extract_printed_sp_end uint32_max c Hc).
  cbn [assign outcome_bind]. done.
Qed.

Lemma read_line_irrelevant inst line :
  relevant line = false → read_line size_max max_size inst line = Done inst.
Proof.
  unfold relevant, read_line. cbv zeta. intros H.
  apply orb_false_iff in H as [H Ha]. apply orb_false_iff in H as [Hp Hn].
  by rewrite Hp, Hn, Ha.
Qed.


End lines.

(** ** What [read_maxflow_instance] returns *)


(** The largest [size_t] and the largest [std::vector<CapacityArc>] of a
    64-bit platform with libstdc++. *)
Definition size_max_64 : Z := 18446744073709551615.
Definition max_size_64 : Z := 768614336404564650.

(** The worked example as a file, with a comment and an empty line. *)
Definition minimal_example_text : list string :=
  [ "c the worked example"; "p max 6 9"; "n 1 s"; "n 6 t";
    "a 1 2 10"; "a 1 3 10"; "a 2 3 2"; "a 2 4 4"; "a 2 5 8"; EmptyString;
    "a 3 5 9"; "a 4 6 10"; "a 5 4 6"; "a 5 6 10" ].


(** ** What a returned network says of the text *)

(** How many of [source] and [sink] were never assigned. *)
Definition missing (inst : instance) : nat :=
  match in_source inst with Some _ => 0 | None => 1 end
  + match in_sink inst with Some _ => 0 | None => 1 end.

Section effects.
Context (size_max max_size : Z).

Lemma read_p_effect inst line inst' :
  read_p size_max max_size inst line = Done inst' →
  in_arcs inst' = in_arcs inst ∧
  in_source inst' = in_source inst ∧ in_sink inst' = in_sink inst.
Proof.
  unfold read_p.
  destruct (extract size_max _) as [e1 i1].
  destruct (extract size_max i1) as [e2 i2].
  destruct e1, e2; simpl; repeat case_match; intros; simplify_eq/=; done.
Qed.

Lemma read_n_effect inst line inst' :
  read_n inst line = Done inst' →
  in_arcs inst' = in_arcs inst ∧ in_n inst' = in_n inst ∧
  (missing inst ≤ missing inst' + 1)%nat.
Proof.
  unfold read_n, missing.
  destruct (extract uint32_max _) as [e1 i1].
  destruct (extract_char i1) as [c i2].
  destruct e1; simpl; repeat case_match; intros; simplify_eq/=;
    (split_and!; [done | done | repeat case_match; lia]).
Qed.

Lemma read_a_effect inst line inst' :
  read_a inst line = Done inst' →
  length (in_arcs inst') = S (length (in_arcs inst)) ∧ in_n inst' = in_n inst ∧
  in_source inst' = in_source inst ∧ in_sink inst' = in_sink inst.
Proof.
  unfold read_a.
  destruct (extract uint32_max _) as [e1 i1].
  destruct (extract uint32_max i1) as [e2 i2].
  destruct (extract uint32_max i2) as [e3 i3].
  destruct e1, e2, e3; simpl; intros; simplify_eq/=.
  rewrite length_app. simpl. split_and!; [lia | done..].
Qed.

Lemma read_line_effect inst line inst' :
  read_line size_max max_size inst line = Done inst' →
  length (in_arcs inst')
  = length (in_arcs inst) + (if Ascii.eqb (first_char line) "a" then 1 else 0) ∧
  (in_n inst' ≠ None → in_n inst ≠ None ∨ first_char line = "p"%char) ∧
  (missing inst
   ≤ missing inst' + (if Ascii.eqb (first_char line) "n" then 1 else 0))%nat.
Proof.
  unfold read_line. cbv zeta.
  destruct (Ascii.eqb_spec (first_char line) "p") as [Ep|Ep].
  { rewrite Ep. change (Ascii.eqb "p" "a") with false.
    change (Ascii.eqb "p" "n") with false.
    intros (A & S & T)%read_p_effect. unfold missing. rewrite A, S, T.
    split_and!; [lia | intros _; by right | lia]. }
  destruct (Ascii.eqb_spec (first_char line) "n") as [En|En].
  { rewrite En. change (Ascii.eqb "n" "a") with false.
    intros (A & N & M)%read_n_effect. rewrite A, N.
    split_and!; [lia | intros ?; by left | done]. }
  destruct (Ascii.eqb_spec (first_char line) "a") as [Ea|Ea].
  { intros (A & N & S & T)%read_a_effect. unfold missing. rewrite A, N, S, T.
    split_and!; [lia | intros ?; by left | lia]. }
  intros [= <-]. split_and!; [lia | by left | lia].
Qed.

Lemma read_lines_effect text : ∀ inst inst',
  read_lines size_max max_size inst text = Done inst' →
  length (in_arcs inst')
  = length (in_arcs inst) + length (filter (λ l, first_char l = "a"%char) text) ∧
  (in_n inst' ≠ None →
   in_n inst ≠ None ∨ ∃ l, l ∈ text ∧ first_char l = "p"%char) ∧
  (missing inst
   ≤ missing inst' + length (filter (λ l, first_char l = "n"%char) text))%nat.
Proof.
  induction text as [|line text IH]; intros inst inst' H.
  - simpl in H. injection H as <-. simpl. split_and!; [lia | by left | lia].
  - simpl in H.
    destruct (read_line size_max max_size inst line) as [inst1| | |] eqn:E;
      simpl in H; try done.
    destruct (read_line_effect _ _ _ E) as (A1 & P1 & N1).
    destruct (IH _ _ H) as (A2 & P2 & N2).
    rewrite !filter_cons.
    destruct (Ascii.eqb_spec (first_char line) "a") as [Ea|Ea];
      destruct (Ascii.eqb_spec (first_char line) "n") as [En|En];
      repeat case_decide; try done; simpl length;
      (split_and!; [lia | | lia]);
      (intros Hn'; destruct (P2 Hn') as [Hn1 | (l & Hl & Hp)];
       [destruct (P1 Hn1) as [? | ?];
        [by left | right; exists line; split; [apply elem_of_cons; by left | done]]
       | right; exists l; split; [apply elem_of_cons; by right | done]]).
Qed.
End effects.

(** When a network is returned, it has as many arcs as the text has lines
    that start with [a], whatever [m] the problem line gave; and the text has
    a line that starts with [p] and two that start with [n]: without them a
    field of the result was never assigned. *)
Theorem read_returns_what_was_read (size_max max_size : Z) text net :
  read_maxflow_instance size_max max_size text = Done net →
  length (FlowNetwork.arcs net)
  = length (filter (λ l, first_char l = "a"%char) text) ∧
  (∃ l, l ∈ text ∧ first_char l = "p"%char) ∧
  (2 ≤ length (filter (λ l, first_char l = "n"%char) text))%nat.
Proof.
  unfold read_maxflow_instance. intros H.
  destruct (read_lines size_max max_size fresh_instance text) as [inst| | |] eqn:E;
    simpl in H; try done.
  destruct (read_lines_effect _ _ _ _ _ E) as (A & P & N).
  unfold finish in H.
  destruct inst as [[n|] [m|] [s|] [t|] arcs]; simpl in *; try done.
  injection H as <-. simpl. unfold missing in N. simpl in N.
  split_and!; [done | | lia].
  destruct P as [P | P]; done.
Qed.

Lemma read_returns_what_was_read_witness :
  read_maxflow_instance size_max_64 max_size_64 minimal_example_text
  = Done minimal_example ∧
  length (FlowNetwork.arcs minimal_example)
  = length (filter (λ l, first_char l = "a"%char) minimal_example_text) ∧
  (∃ l, l ∈ minimal_example_text ∧ first_char l = "p"%char) ∧
  (2 ≤ length (filter (λ l, first_char l = "n"%char) minimal_example_text))%nat.
Proof.
  assert (read_maxflow_instance size_max_64 max_size_64 minimal_example_text
          = Done minimal_example) as H by (vm_compute; reflexivity).
  split; [exact H|].
  exact (read_returns_what_was_read size_max_64 max_size_64 minimal_example_text
           minimal_example H).
Defined.

(** ** Arc lines and vertex numbers *)

(** An arc line with three numbers that fit 32 bits adds one arc at the
    end, with its capacity and with both vertex numbers one less, as 32-bit
    unsigned values: a vertex number 0 becomes 4294967295.  No other field
    changes, and nothing compares the numbers with [n]. *)
Theorem arc_line_shifts (size_max max_size : Z) inst (t h c : N) :
  (Z.of_N t ≤ uint32_max)%Z → (Z.of_N h ≤ uint32_max)%Z → (Z.of_N c ≤ uint32_max)%Z →
  read_line size_max max_size inst (a_line t h c)
  = Done (Instance (in_n inst) (in_m inst) (in_source inst) (in_sink inst)
            (in_arcs inst ++ [CapacityArc.mk (shifted t) (shifted h) (Z.of_N c)])) ∧
  ((0 < t)%N → shifted t = (N.to_nat t - 1)%nat) ∧
  (t = 0%N → shifted t = Z.to_nat 4294967295).
Proof.
  intros Ht Hh Hc. split_and!.
  - by apply read_a_printed.
  - intros Hpos. unfold shifted, wrap32, uint32_max in *.
    rewrite Z.mod_small by lia. lia.
  - intros ->. reflexivity.
Qed.

Lemma arc_line_shifts_witness :
  ((3 ≤ uint32_max)%Z ∧ (5 ≤ uint32_max)%Z ∧ (7 ≤ uint32_max)%Z) ∧
  read_line size_max_64 max_size_64 fresh_instance (a_line 3 5 7)
  = Done (Instance None None None None
            ([] ++ [CapacityArc.mk (shifted 3) (shifted 5) 7])) ∧
  ((0 < 3)%N → shifted 3 = (N.to_nat 3 - 1)%nat) ∧
  (3%N = 0%N → shifted 3 = Z.to_nat 4294967295).
Proof.
  assert (3 ≤ uint32_max)%Z as H1 by (vm_compute; discriminate).
  assert (5 ≤ uint32_max)%Z as H2 by (vm_compute; discriminate).
  assert (7 ≤ uint32_max)%Z as H3 by (vm_compute; discriminate).
  split; [by split_and!|].
  exact (arc_line_shifts size_max_64 max_size_64 fresh_instance 3 5 7 H1 H2 H3).
Defined.

(** ** [read_maxflow_instance_solution] *)






(** ** Numbers that do not fit, and lines that stop short *)

Lemma extract_printed_over max (x : N) r :
  (max < Z.of_N x)%Z → ends_field r →
  extract max (IStream (pretty x +:+ r) true) = (Stored max, IStream r false).
Proof.
  intros Hmax Hr. unfold extract. cbn [is_good is_rest].
  destruct (pretty_starts x) as (c & s & d & E & Hd).
  pose proof (digits_numeral _ r 0 _ (numeral_pretty x) Hr) as D.
  rewrite E in D |- *. rewrite append_cons in D |- *.
  cbn [skipws]. rewrite (digit_not_space c d Hd). cbv iota beta.
  rewrite Hd. cbv iota beta. rewrite D.
  by rewrite (proj2 (Z.leb_gt _ _) Hmax).
Qed.

Lemma extract_printed_sp_over_end max (x : N) :
  (max < Z.of_N x)%Z →
  extract max (IStream (String " " (pretty x)) true)
  = (Stored max, IStream EmptyString false).
Proof.
  intros Hmax. rewrite <- (append_empty_r (pretty x)).
  rewrite <- (extract_printed_over max x EmptyString Hmax) by done.
  unfold extract. simpl is_good. cbv iota. simpl is_rest.
  change (skipws (String " " (pretty x +:+ EmptyString)))
    with (skipws (pretty x +:+ EmptyString)).
  done.
Qed.

(** A capacity too large for 32 bits is not refused and does not wrap: the
    arc is added with capacity 4294967295. *)
Theorem large_capacity_is_clamped (size_max max_size : Z) inst (t h c : N) :
  (Z.of_N t ≤ uint32_max)%Z → (Z.of_N h ≤ uint32_max)%Z → (uint32_max < Z.of_N c)%Z →
  read_line size_max max_size inst (a_line t h c)
  = Done (Instance (in_n inst) (in_m inst) (in_source inst) (in_sink inst)
            (in_arcs inst ++ [CapacityArc.mk (shifted t) (shifted h) uint32_max])).
Proof.
  intros Ht Hh Hc. unfold read_line, a_line. norm_line.
  cbn [first_char]. change (Ascii.eqb "a" "p") with false.
  change (Ascii.eqb "a" "n") with false. change (Ascii.eqb "a" "a") with true.
  cbv iota.
  unfold read_a, ignore. cbn [is_good is_rest drop_chars].
  rewrite (extract_printed uint32_max t
             (String " " (pretty h +:+ String " " (pretty c))) Ht) by done.
  cbn [is_empty negb].
  rewrite (extract_printed_sp uint32_max h (String " " (pretty c)) Hh) by done.
  cbn [is_empty negb].
  rewrite (extract_printed_sp_over_end uint32_max c Hc).
  cbn [assign outcome_bind]. done.
Qed.

Lemma large_capacity_is_clamped_witness :
  ((Z.of_N 1 ≤ uint32_max)%Z ∧ (Z.of_N 2 ≤ uint32_max)%Z
   ∧ (uint32_max < Z.of_N 4294967296)%Z) ∧
  read_line size_max_64 max_size_64 fresh_instance (a_line 1 2 4294967296)
  = Done (Instance None None None None
            ([] ++ [CapacityArc.mk (shifted 1) (shifted 2) uint32_max])).
Proof.
  assert (Z.of_N 1 ≤ uint32_max)%Z as H1 by (vm_compute; discriminate).
  assert (Z.of_N 2 ≤ uint32_max)%Z as H2 by (vm_compute; discriminate).
  assert (uint32_max < Z.of_N 4294967296)%Z as H3 by (vm_compute; reflexivity).
  split; [by split_and!|].
  exact (large_capacity_is_clamped size_max_64 max_size_64 fresh_instance
           1 2 4294967296 H1 H2 H3).
Defined.

(** An arc line with two numbers only. *)
Definition short_a_line (t h : N) : string :=
  "a " +:+ pretty t +:+ " " +:+ pretty h.

(** An arc line that stops after its second number, after its first, or
    before it, leaves a field of the arc unassigned, and the arc is added all
    the same: the behaviour is undefined. *)
Theorem short_arc_line_undefined (size_max max_size : Z) inst (t h : N) :
  (Z.of_N t ≤ uint32_max)%Z → (Z.of_N h ≤ uint32_max)%Z →
  read_line size_max max_size inst (short_a_line t h) = Undefined ∧
  read_line size_max max_size inst ("a " +:+ pretty t) = Undefined ∧
  read_line size_max max_size inst "a" = Undefined.
Proof.
  intros Ht Hh. split_and!.
  - unfold read_line, short_a_line. norm_line.
    cbn [first_char]. change (Ascii.eqb "a" "p") with false.
    change (Ascii.eqb "a" "n") with false. change (Ascii.eqb "a" "a") with true.
    cbv iota.
    unfold read_a, ignore. cbn [is_good is_rest drop_chars].
    rewrite (extract_printed uint32_max t (String " " (pretty h)) Ht) by done.
    cbn [is_empty negb].
    rewrite (extract_printed_sp_end uint32_max h Hh).
    done.
  - unfold read_line. norm_line.
    cbn [first_char]. change (Ascii.eqb "a" "p") with false.
    change (Ascii.eqb "a" "n") with false. change (Ascii.eqb "a" "a") with true.
    cbv iota.
    unfold read_a, ignore. cbn [is_good is_rest drop_chars].
    rewrite (extract_printed_end uint32_max t Ht).
    done.
  - reflexivity.
Qed.

Lemma short_arc_line_undefined_witness :
  ((Z.of_N 1 ≤ uint32_max)%Z ∧ (Z.of_N 2 ≤ uint32_max)%Z) ∧
  read_line size_max_64 max_size_64 fresh_instance (short_a_line 1 2) = Undefined ∧
  read_line size_max_64 max_size_64 fresh_instance ("a " +:+ pretty 1%N) = Undefined ∧
  read_line size_max_64 max_size_64 fresh_instance "a" = Undefined.
Proof.
  assert (Z.of_N 1 ≤ uint32_max)%Z as H1 by (vm_compute; discriminate).
  assert (Z.of_N 2 ≤ uint32_max)%Z as H2 by (vm_compute; discriminate).
  split; [by split|].
  exact (short_arc_line_undefined size_max_64 max_size_64 fresh_instance 1 2 H1 H2).
Defined.

(** ** Problem lines and node lines *)

Lemma read_lines_skip (size_max max_size : Z) inst pre rest :
  Forall (λ l, relevant l = false) pre →
  read_lines size_max max_size inst (pre ++ rest)
  = read_lines size_max max_size inst rest.
Proof.
  induction 1 as [|l pre Hl _ IH]; [done|].
  rewrite <- app_comm_cons. cbn [read_lines].
  rewrite (read_line_irrelevant size_max max_size inst l Hl).
  cbn [outcome_bind]. apply IH.
Qed.

(** A problem line that declares more arcs than a vector can hold makes
    [reserve] throw, also when the number does not fit [size_t] and was
    clamped: nothing catches the exception, and [read_maxflow_instance] does
    not return a network, whatever the lines after it are. *)
Theorem oversized_m_throws (size_max max_size : Z) (pre post : list string) (n m : N) :
  Forall (λ l, relevant l = false) pre →
  (Z.of_N n ≤ size_max)%Z → (max_size < Z.of_N m)%Z → (max_size < size_max)%Z →
  read_maxflow_instance size_max max_size (pre ++ p_line n m :: post) = Throws.
Proof.
  intros Hpre Hn Hm Hsz. unfold read_maxflow_instance.
  rewrite (read_lines_skip size_max max_size _ pre _ Hpre). cbn [read_lines].
  assert (read_line size_max max_size fresh_instance (p_line n m) = Throws) as ->;
    [|done].
  unfold read_line, p_line. norm_line.
  cbn [first_char]. change (Ascii.eqb "p" "p") with true. cbv iota.
  unfold read_p, ignore. cbn [is_good is_rest drop_chars].
  rewrite (extract_printed size_max n (String " " (pretty m)) Hn) by done.
  cbn [is_empty negb].
  destruct (decide (Z.of_N m ≤ size_max)%Z) as [Hle|Hgt].
  - rewrite (extract_printed_sp_end size_max m Hle).
    cbn [assign outcome_bind]. by rewrite (proj2 (Z.leb_gt _ _) Hm).
  - rewrite (extract_printed_sp_over_end size_max m ltac:(lia)).
    cbn [assign outcome_bind]. by rewrite (proj2 (Z.leb_gt _ _) Hsz).
Qed.

Lemma oversized_m_throws_witness :
  (Forall (λ l, relevant l = false) ["c a comment"] ∧
   (Z.of_N 2 ≤ size_max_64)%Z ∧ (max_size_64 < Z.of_N 768614336404564651)%Z ∧
   (max_size_64 < size_max_64)%Z) ∧
  read_maxflow_instance size_max_64 max_size_64
    (["c a comment"] ++ p_line 2 768614336404564651 :: ["n 1 s"; "n 2 t"]) = Throws.
Proof.
  assert (Forall (λ l, relevant l = false) ["c a comment"]) as H0
    by (constructor; [reflexivity | constructor]).
  assert (Z.of_N 2 ≤ size_max_64)%Z as H1 by (vm_compute; discriminate).
  assert (max_size_64 < Z.of_N 768614336404564651)%Z as H2 by (vm_compute; reflexivity).
  assert (max_size_64 < size_max_64)%Z as H3 by (vm_compute; reflexivity).
  split; [by split_and!|].
  exact (oversized_m_throws size_max_64 max_size_64 ["c a comment"]
           ["n 1 s"; "n 2 t"] 2 768614336404564651 H0 H1 H2 H3).
Defined.

(** On a node line only the type 's' names the source: any other character
    sets the sink, and leaves the source as it was.  A node line that ends
    after its number, or holds no number, leaves the type or the number
    unassigned, and the comparison reads it: the behaviour is undefined. *)
Theorem node_line_kinds (size_max max_size : Z) inst (v : N) (ty : ascii) :
  (Z.of_N v ≤ uint32_max)%Z → isspace ty = false → ty ≠ "s"%char →
  read_line size_max max_size inst (n_line v ty)
  = Done (Instance (in_n inst) (in_m inst) (in_source inst)
                   (Some (wrap32 (Z.of_N v - 1))) (in_arcs inst)) ∧
  read_line size_max max_size inst ("n " +:+ pretty v) = Undefined ∧
  read_line size_max max_size inst "n" = Undefined.
Proof.
  intros Hv Hty Hs. split_and!.
  - rewrite (read_n_printed size_max max_size inst v ty Hv Hty).
    by rewrite (proj2 (Ascii.eqb_neq ty "s") Hs).
  - unfold read_line. norm_line.
    cbn [first_char]. change (Ascii.eqb "n" "p") with false.
    change (Ascii.eqb "n" "n") with true. cbv iota.
    unfold read_n, ignore. cbn [is_good is_rest drop_chars].
    rewrite (extract_printed_end uint32_max v Hv).
    done.
  - reflexivity.
Qed.

Lemma node_line_kinds_witness :
  ((Z.of_N 6 ≤ uint32_max)%Z ∧ isspace "x" = false ∧ "x"%char ≠ "s"%char) ∧
  read_line size_max_64 max_size_64 fresh_instance (n_line 6 "x")
  = Done (Instance None None None (Some (wrap32 (Z.of_N 6 - 1))) []) ∧
  read_line size_max_64 max_size_64 fresh_instance ("n " +:+ pretty 6%N) = Undefined ∧
  read_line size_max_64 max_size_64 fresh_instance "n" = Undefined.
Proof.
  assert (Z.of_N 6 ≤ uint32_max)%Z as H1 by (vm_compute; discriminate).
  assert (isspace "x" = false) as H2 by reflexivity.
  assert ("x"%char ≠ "s"%char) as H3 by discriminate.
  split; [by split_and!|].
  exact (node_line_kinds size_max_64 max_size_64 fresh_instance 6 "x" H1 H2 H3).
Defined.
